(** * Lazy-loading translation runtime: tiered cache, module loader,
      error recovery, state manager and facade.

    Shallow embedding of the enterprise i18n modules:
      - cache.ts   (CacheEntryImpl, MemoryCacheStrategy, LRUCacheStrategy,
                    TranslationCacheManager and their statistics)
      - config.ts  (CACHE_CONFIG, I18N_CONFIG, the cache part of validateConfig)
      - errors.ts  (error classes, ErrorRecoveryManager, ErrorTracker and its
                    statistics, ErrorRecoveryExecutor, ErrorHandler)
      - loader.ts  (DynamicModuleLoader with preload and unload,
                    IntelligentLoadingStrategy and its metrics, KeyLevelLoader)
      - state.ts   (I18nStateManager: current, initial and loaded locales,
                    the loading state)
      - the Vue integration module (EnterpriseI18nSystem.getTranslation and
                    setLocale)

    Conventions.
      - JavaScript numbers that hold counts, sizes and millisecond times are
        integers [Z]; [Date.now()] is an explicit argument [now], or the
        [clock] field of the system state.  The hit rate of a cache entry,
        which decides whom [evictLeastUsed] removes, is computed in IEEE 754
        double precision ([Double]).
      - A JavaScript [Map] is an association list in insertion order
        ([JsMap]); its keys are pairwise distinct.
      - Truthiness of a string is "not empty". *)

From Stdlib Require Import ZArith List String Ascii Bool Lia QArith Arith Sorted.
From Stdlib Require SpecFloat.
Import ListNotations.
Open Scope Z_scope.

Set Implicit Arguments.
Set Warnings "-register-all".

(* ================================================================== *)
(** * JavaScript [Map] with string keys, in insertion order            *)
(* ================================================================== *)

Section JsMapDef.
Variable V : Type.

Definition JsMap := list (string * V).

Fixpoint map_get (k : string) (m : JsMap) : option V :=
  match m with
  | [] => None
  | (k', v) :: r => if String.eqb k k' then Some v else map_get k r
  end.

Definition map_has (k : string) (m : JsMap) : bool :=
  match map_get k m with Some _ => true | None => false end.

(** [Map.prototype.set]: an existing key keeps its position, a new key
    goes to the end. *)
Fixpoint map_set (k : string) (v : V) (m : JsMap) : JsMap :=
  match m with
  | [] => [(k, v)]
  | (k', v') :: r =>
      if String.eqb k k' then (k, v) :: r else (k', v') :: map_set k v r
  end.

(** [Map.prototype.delete]. *)
Definition map_delete (k : string) (m : JsMap) : JsMap :=
  filter (fun kv => negb (String.eqb k (fst kv))) m.

Definition map_keys (m : JsMap) : list string := List.map fst m.

Definition map_size (m : JsMap) : Z := Z.of_nat (List.length m).

(** First key in iteration order: [m.keys().next().value]. *)
Definition map_first_key (m : JsMap) : option string :=
  match m with [] => None | (k, _) :: _ => Some k end.
End JsMapDef.

Arguments map_get {V} k m.
Arguments map_has {V} k m.
Arguments map_set {V} k v m.
Arguments map_delete {V} k m.
Arguments map_keys {V} m.
Arguments map_size {V} m.
Arguments map_first_key {V} m.

(** Truthiness of a JavaScript string. *)
Definition truthy (s : string) : bool := negb (String.eqb s "").

(* ================================================================== *)
(** * Translation payloads                                             *)
(* ================================================================== *)

(** Values found in a parsed translation document.  [JObj] is a plain
    object with its own properties in order; [JOther] stands for every
    value that is neither a string nor an object ([undefined], [null],
    numbers, booleans).  Only own properties are modelled: the members a
    plain object inherits are functions or objects without string
    members, so they never yield a string through a dotted path. *)
Inductive JsValue : Type :=
| JStr (s : string)
| JObj (fields : list (string * JsValue))
| JOther.

(** [TranslationData]: the top-level object of a locale document. *)
Definition TranslationData := list (string * JsValue).

(** [obj[k]] on a plain object: the property, or [undefined]. *)
Definition js_index (fields : list (string * JsValue)) (k : string) : JsValue :=
  match map_get k fields with Some v => v | None => JOther end.

(* ================================================================== *)
(** * JavaScript numbers in double precision                           *)
(* ================================================================== *)

(** IEEE 754 binary64, with the operations of the Standard Library's
    [SpecFloat]: 53 bits of precision, round to nearest, ties to even. *)
Module Double.
Definition prec : Z := 53.
Definition emax : Z := 1024.

Definition t := SpecFloat.spec_float.

(** The double nearest to an integer (the integer itself up to 2^53). *)
Definition of_Z (z : Z) : t := SpecFloat.binary_normalize prec emax z 0 false.

(** [x / y]. *)
Definition div (x y : t) : t := SpecFloat.SFdiv prec emax x y.

(** The number a finite double denotes.  [<] and [===] on finite doubles
    compare these numbers ([-0] and [0] are equal).  An infinite quotient
    or a NaN takes a count of 2^1000 or more, which [hits++] never reaches
    (in double arithmetic it stays at 2^53); [to_Q] is 0 there. *)
Definition to_Q (x : t) : Q :=
  match x with
  | SpecFloat.S754_finite s m e =>
      let n := if s then Z.neg m else Z.pos m in
      if 0 <=? e then inject_Z (n * 2 ^ e) else Qmake n (Z.to_pos (2 ^ (- e)))
  | _ => 0%Q
  end.
End Double.

(* ================================================================== *)
(** * cache.ts : CacheEntryImpl                                        *)
(* ================================================================== *)

Module CacheEntryImpl.
Record t := mk {
  data : JsValue;
  timestamp : Z;
  ttl : Z;
  hits : Z
}.

(** [constructor(data, ttl = 300000)], with [Date.now() = now]. *)
Definition new (now : Z) (d : JsValue) (ttl_arg : option Z) : t :=
  {| data := d;
     timestamp := now;
     ttl := match ttl_arg with Some x => x | None => 300000 end;
     hits := 0 |}.

Definition isExpired (now : Z) (e : t) : bool := ttl e <? now - timestamp e.

Definition isValid (now : Z) (e : t) : bool := negb (isExpired now e).

Definition incrementHits (e : t) : t :=
  {| data := data e; timestamp := timestamp e; ttl := ttl e; hits := hits e + 1 |}.

Definition getAge (now : Z) (e : t) : Z := now - timestamp e.

(** [age > 0 ? hits / (age / 1000) : 0]: two divisions of doubles, each
    rounded.  The result is given as the number the double denotes. *)
Definition getHitRate (now : Z) (e : t) : Q :=
  let age := getAge now e in
  if 0 <? age
  then Double.to_Q
         (Double.div (Double.of_Z (hits e))
                     (Double.div (Double.of_Z age) (Double.of_Z 1000)))
  else 0%Q.
End CacheEntryImpl.

Definition CacheMap := JsMap CacheEntryImpl.t.

(** [cleanup()] of both strategies: collect the expired keys, then delete
    each of them. *)
Definition expired_keys (now : Z) (m : CacheMap) : list string :=
  map_keys (filter (fun kv => CacheEntryImpl.isExpired now (snd kv)) m).

Definition delete_keys {V} (ks : list string) (m : JsMap V) : JsMap V :=
  fold_left (fun acc k => map_delete k acc) ks m.

Definition delete_all (ks : list string) (m : CacheMap) : CacheMap :=
  delete_keys ks m.

(** [CacheConfig] of types.ts. *)
Record CacheConfig := mkCacheConfig {
  cfg_maxSize : Z;
  cfg_ttl : Z;
  cfg_enableMemoryCache : bool;
  cfg_enableNetworkCache : bool;
  cfg_cleanupInterval : Z
}.

(** The cache part of [validateConfig] (config.ts): no error is reported
    iff [maxSize > 0] and [ttl > 0]. *)
Definition validCacheConfig (c : CacheConfig) : bool :=
  (0 <? cfg_maxSize c) && (0 <? cfg_ttl c).

(* ================================================================== *)
(** * cache.ts : MemoryCacheStrategy                                   *)
(* ================================================================== *)

Module MemoryCacheStrategy.
Record t := mk {
  cache : CacheMap;
  maxSize : Z
}.

Definition new (config : CacheConfig) : t :=
  {| cache := []; maxSize := cfg_maxSize config |}.

Definition get (now : Z) (key : string) (s : t)
  : option CacheEntryImpl.t * t :=
  match map_get key (cache s) with
  | None => (None, s)
  | Some entry =>
      if CacheEntryImpl.isExpired now entry then
        (None, {| cache := map_delete key (cache s); maxSize := maxSize s |})
      else
        let entry' := CacheEntryImpl.incrementHits entry in
        (Some entry',
         {| cache := map_set key entry' (cache s); maxSize := maxSize s |})
  end.

(** Loop state of [evictLeastUsed]: [leastUsedKey], [leastHits] and
    [oldestTimestamp]; [None] in the last two is [Infinity]. *)
Record scan := mkScan {
  leastUsedKey : option string;
  leastHits : option Q;
  oldestTimestamp : option Z
}.

Definition Qlt_bool (x y : Q) : bool := negb (Qle_bool y x).

Definition scan_step (now : Z) (st : scan) (kv : string * CacheEntryImpl.t)
  : scan :=
  let hitRate := CacheEntryImpl.getHitRate now (snd kv) in
  let age := CacheEntryImpl.getAge now (snd kv) in
  let lower :=
    match leastHits st with None => true | Some l => Qlt_bool hitRate l end in
  let tie :=
    match leastHits st, oldestTimestamp st with
    | Some l, Some o => Qeq_bool hitRate l && (o <? age)
    | _, _ => false
    end in
  if lower || tie then
    {| leastUsedKey := Some (fst kv);
       leastHits := Some hitRate;
       oldestTimestamp := Some age |}
  else st.

Definition scan_init : scan :=
  {| leastUsedKey := None; leastHits := None; oldestTimestamp := None |}.

Definition evictLeastUsed (now : Z) (s : t) : t :=
  match leastUsedKey (fold_left (scan_step now) (cache s) scan_init) with
  | Some k =>
      if truthy k
      then {| cache := map_delete k (cache s); maxSize := maxSize s |}
      else s
  | None => s
  end.

Definition set (now : Z) (key : string) (d : JsValue) (ttl : option Z) (s : t)
  : t :=
  let s1 := if maxSize s <=? map_size (cache s) then evictLeastUsed now s else s in
  {| cache := map_set key (CacheEntryImpl.new now d ttl) (cache s1);
     maxSize := maxSize s1 |}.

Definition has (now : Z) (key : string) (s : t) : bool :=
  match map_get key (cache s) with
  | Some entry => CacheEntryImpl.isValid now entry
  | None => false
  end.

Definition clear (s : t) : t := {| cache := []; maxSize := maxSize s |}.

Definition cleanup (now : Z) (s : t) : t :=
  {| cache := delete_all (expired_keys now (cache s)) (cache s);
     maxSize := maxSize s |}.

(** [getStats().size]. *)
Definition size (s : t) : Z := map_size (cache s).
End MemoryCacheStrategy.

(* ================================================================== *)
(** * cache.ts : LRUCacheStrategy                                      *)
(* ================================================================== *)

Module LRUCacheStrategy.
Record t := mk {
  cache : CacheMap;
  maxSize : Z
}.

Definition new (config : CacheConfig) : t :=
  {| cache := []; maxSize := cfg_maxSize config |}.

(** A hit deletes the key and sets it again, which moves it to the end
    of the iteration order. *)
Definition get (now : Z) (key : string) (s : t)
  : option CacheEntryImpl.t * t :=
  match map_get key (cache s) with
  | None => (None, s)
  | Some entry =>
      if CacheEntryImpl.isExpired now entry then
        (None, {| cache := map_delete key (cache s); maxSize := maxSize s |})
      else
        let entry' := CacheEntryImpl.incrementHits entry in
        (Some entry',
         {| cache := map_set key entry' (map_delete key (cache s));
            maxSize := maxSize s |})
  end.

Definition evictFirst (s : t) : t :=
  match map_first_key (cache s) with
  | Some firstKey =>
      if truthy firstKey
      then {| cache := map_delete firstKey (cache s); maxSize := maxSize s |}
      else s
  | None => s
  end.

Definition set (now : Z) (key : string) (d : JsValue) (ttl : option Z) (s : t)
  : t :=
  let s1 := if maxSize s <=? map_size (cache s) then evictFirst s else s in
  {| cache := map_set key (CacheEntryImpl.new now d ttl) (cache s1);
     maxSize := maxSize s1 |}.

Definition has (now : Z) (key : string) (s : t) : bool :=
  match map_get key (cache s) with
  | Some entry => CacheEntryImpl.isValid now entry
  | None => false
  end.

Definition clear (s : t) : t := {| cache := []; maxSize := maxSize s |}.

Definition cleanup (now : Z) (s : t) : t :=
  {| cache := delete_all (expired_keys now (cache s)) (cache s);
     maxSize := maxSize s |}.

Definition size (s : t) : Z := map_size (cache s).
End LRUCacheStrategy.

(* ================================================================== *)
(** * cache.ts : TranslationCacheManager                               *)
(* ================================================================== *)

Definition Locale := string.
Definition Section_ := string.
Definition TranslationKey := string.

Module TranslationCacheManager.
Record t := mk {
  localeCache : MemoryCacheStrategy.t;
  sectionCache : LRUCacheStrategy.t;
  keyCache : MemoryCacheStrategy.t;
  config : CacheConfig
}.

Definition new (c : CacheConfig) : t :=
  {| localeCache := MemoryCacheStrategy.new c;
     sectionCache := LRUCacheStrategy.new c;
     keyCache :=
       MemoryCacheStrategy.new
         (mkCacheConfig (cfg_maxSize c * 2) (cfg_ttl c)
            (cfg_enableMemoryCache c) (cfg_enableNetworkCache c)
            (cfg_cleanupInterval c));
     config := c |}.

Definition localeKey (locale : Locale) : string := ("locale:" ++ locale)%string.
Definition sectionKey (locale : Locale) (section : Section_) : string :=
  ("section:" ++ locale ++ ":" ++ section)%string.
Definition keyKey (locale : Locale) (key : TranslationKey) : string :=
  ("key:" ++ locale ++ ":" ++ key)%string.

Definition with_locale (m : t) (c : MemoryCacheStrategy.t) : t :=
  {| localeCache := c; sectionCache := sectionCache m;
     keyCache := keyCache m; config := config m |}.
Definition with_section (m : t) (c : LRUCacheStrategy.t) : t :=
  {| localeCache := localeCache m; sectionCache := c;
     keyCache := keyCache m; config := config m |}.
Definition with_key (m : t) (c : MemoryCacheStrategy.t) : t :=
  {| localeCache := localeCache m; sectionCache := sectionCache m;
     keyCache := c; config := config m |}.

Definition getLocaleCache (now : Z) (locale : Locale) (m : t)
  : option CacheEntryImpl.t * t :=
  let (r, c) := MemoryCacheStrategy.get now (localeKey locale) (localeCache m) in
  (r, with_locale m c).

Definition setLocaleCache (now : Z) (locale : Locale) (d : JsValue) (m : t) : t :=
  with_locale m
    (MemoryCacheStrategy.set now (localeKey locale) d
       (Some (cfg_ttl (config m))) (localeCache m)).

Definition hasLocaleCache (now : Z) (locale : Locale) (m : t) : bool :=
  MemoryCacheStrategy.has now (localeKey locale) (localeCache m).

Definition getSectionCache (now : Z) (locale : Locale) (section : Section_) (m : t)
  : option CacheEntryImpl.t * t :=
  let (r, c) :=
    LRUCacheStrategy.get now (sectionKey locale section) (sectionCache m) in
  (r, with_section m c).

Definition setSectionCache (now : Z) (locale : Locale) (section : Section_)
    (d : JsValue) (m : t) : t :=
  with_section m
    (LRUCacheStrategy.set now (sectionKey locale section) d
       (Some (cfg_ttl (config m))) (sectionCache m)).

Definition hasSectionCache (now : Z) (locale : Locale) (section : Section_) (m : t)
  : bool :=
  LRUCacheStrategy.has now (sectionKey locale section) (sectionCache m).

Definition getKeyCache (now : Z) (locale : Locale) (key : TranslationKey) (m : t)
  : option CacheEntryImpl.t * t :=
  let (r, c) := MemoryCacheStrategy.get now (keyKey locale key) (keyCache m) in
  (r, with_key m c).

Definition setKeyCache (now : Z) (locale : Locale) (key : TranslationKey)
    (value : string) (m : t) : t :=
  with_key m
    (MemoryCacheStrategy.set now (keyKey locale key) (JStr value)
       (Some (cfg_ttl (config m))) (keyCache m)).

Definition hasKeyCache (now : Z) (locale : Locale) (key : TranslationKey) (m : t)
  : bool :=
  MemoryCacheStrategy.has now (keyKey locale key) (keyCache m).

Definition clearAll (m : t) : t :=
  {| localeCache := MemoryCacheStrategy.clear (localeCache m);
     sectionCache := LRUCacheStrategy.clear (sectionCache m);
     keyCache := MemoryCacheStrategy.clear (keyCache m);
     config := config m |}.

(** The body does not use [locale]: all three tiers are cleared. *)
Definition clearLocale (locale : Locale) (m : t) : t :=
  {| localeCache := MemoryCacheStrategy.clear (localeCache m);
     sectionCache := LRUCacheStrategy.clear (sectionCache m);
     keyCache := MemoryCacheStrategy.clear (keyCache m);
     config := config m |}.

Definition cleanup (now : Z) (m : t) : t :=
  {| localeCache := MemoryCacheStrategy.cleanup now (localeCache m);
     sectionCache := LRUCacheStrategy.cleanup now (sectionCache m);
     keyCache := MemoryCacheStrategy.cleanup now (keyCache m);
     config := config m |}.
End TranslationCacheManager.

(* ================================================================== *)
(** * errors.ts : error classes                                        *)
(* ================================================================== *)

(** [ErrorContext] of types.ts. *)
Record ErrorContext := mkContext {
  ctx_locale : option Locale;
  ctx_key : option TranslationKey;
  ctx_section : option Section_;
  ctx_module : option string;
  ctx_operation : string;
  ctx_timestamp : Z
}.

(** [Partial<ErrorContext>] as the callers of [handleError] build it. *)
Record PartialContext := mkPartial {
  pc_locale : option Locale;
  pc_key : option TranslationKey;
  pc_section : option Section_;
  pc_module : option string;
  pc_operation : option string
}.

Inductive I18nClass : Type :=
| CI18nError
| CTranslationLoadError
| CTranslationKeyError
| CSectionLoadError
| CModuleLoadError
| CNetworkError
| CCacheError
| CConfigurationError.

(** A thrown value.  [PlainError] is an [Error] (or [TypeError],
    [SyntaxError]) raised outside the taxonomy; [I18nError] carries the
    class, message, context, construction time and wrapped cause.  The
    random [id] suffix of [I18nError] is not modelled. *)
Inductive JsError : Type :=
| PlainError (msg : string)
| I18nError (cls : I18nClass) (msg : string) (ctx : ErrorContext) (ts : Z)
            (cause : option JsError).

Definition error_message (e : JsError) : string :=
  match e with PlainError m => m | I18nError _ m _ _ _ => m end.

Definition error_cause (e : JsError) : option JsError :=
  match e with PlainError _ => None | I18nError _ _ _ _ c => c end.

Definition error_context_locale (e : JsError) : option Locale :=
  match e with PlainError _ => None | I18nError _ _ c _ _ => ctx_locale c end.

(** [error.constructor.name]. *)
Definition class_name (c : I18nClass) : string :=
  match c with
  | CI18nError => "I18nError"
  | CTranslationLoadError => "TranslationLoadError"
  | CTranslationKeyError => "TranslationKeyError"
  | CSectionLoadError => "SectionLoadError"
  | CModuleLoadError => "ModuleLoadError"
  | CNetworkError => "NetworkError"
  | CCacheError => "CacheError"
  | CConfigurationError => "ConfigurationError"
  end.

Definition constructor_name (e : JsError) : string :=
  match e with PlainError _ => "Error" | I18nError c _ _ _ _ => class_name c end.

Definition empty_context (operation : string) (now : Z) : ErrorContext :=
  mkContext None None None None operation now.

Definition TranslationLoadError (now : Z) (locale : Locale) (message : string)
    (originalError : option JsError) : JsError :=
  I18nError CTranslationLoadError message
    (mkContext (Some locale) None None None "load_translation" now) now originalError.

Definition TranslationKeyError (now : Z) (locale : Locale) (key : TranslationKey)
    (message : string) (originalError : option JsError) : JsError :=
  I18nError CTranslationKeyError message
    (mkContext (Some locale) (Some key) None None "get_translation_key" now)
    now originalError.

Definition SectionLoadError (now : Z) (locale : Locale) (section : Section_)
    (message : string) (originalError : option JsError) : JsError :=
  I18nError CSectionLoadError message
    (mkContext (Some locale) None (Some section) None "load_section" now)
    now originalError.

Definition ModuleLoadError (now : Z) (locale : Locale) (module : string)
    (message : string) (originalError : option JsError) : JsError :=
  I18nError CModuleLoadError message
    (mkContext (Some locale) None None (Some module) "load_module" now)
    now originalError.

Definition NetworkError (now : Z) (locale : Locale) (message : string)
    (originalError : option JsError) : JsError :=
  I18nError CNetworkError message
    (mkContext (Some locale) None None None "network_request" now) now originalError.

Definition CacheError (now : Z) (operation : string) (message : string)
    (originalError : option JsError) : JsError :=
  I18nError CCacheError message (empty_context operation now) now originalError.

Definition ConfigurationError (now : Z) (message : string)
    (originalError : option JsError) : JsError :=
  I18nError CConfigurationError message (empty_context "configuration" now)
    now originalError.

(* ================================================================== *)
(** * errors.ts : ErrorRecoveryManager                                 *)
(* ================================================================== *)

Inductive StrategyType := Fallback | Retry | Skip | Abort.

(** [ErrorRecoveryStrategy] of types.ts. *)
Record ErrorRecoveryStrategy := mkStrategy {
  strategy_type : StrategyType;
  fallbackLocale : option Locale;
  retryCount : option Z;
  retryDelay : option Z
}.

Module ErrorRecoveryManager.
Definition t := JsMap ErrorRecoveryStrategy.

Definition initializeDefaultStrategies (m : t) : t :=
  map_set "configuration" (mkStrategy Abort None None None)
    (map_set "cache" (mkStrategy Retry None (Some 1) (Some 100))
       (map_set "translation_key" (mkStrategy Skip None None None)
          (map_set "translation_load" (mkStrategy Fallback (Some "en"%string) None None)
             (map_set "network" (mkStrategy Retry None (Some 3) (Some 1000)) m)))).

Definition new : t := initializeDefaultStrategies [].

Definition getErrorType (error : JsError) : string :=
  match error with
  | I18nError CNetworkError _ _ _ _ => "network"
  | I18nError CTranslationLoadError _ _ _ _ => "translation_load"
  | I18nError CTranslationKeyError _ _ _ _ => "translation_key"
  | I18nError CSectionLoadError _ _ _ _ => "section_load"
  | I18nError CModuleLoadError _ _ _ _ => "module_load"
  | I18nError CCacheError _ _ _ _ => "cache"
  | I18nError CConfigurationError _ _ _ _ => "configuration"
  | _ => "unknown"
  end.

Definition getRecoveryStrategy (error : JsError) (m : t) : ErrorRecoveryStrategy :=
  match map_get (getErrorType error) m with
  | Some s => s
  | None => mkStrategy Skip None None None
  end.

Definition setRecoveryStrategy (errorType : string) (s : ErrorRecoveryStrategy)
    (m : t) : t :=
  map_set errorType s m.
End ErrorRecoveryManager.

(* ================================================================== *)
(** * errors.ts : ErrorTracker                                         *)
(* ================================================================== *)

Module ErrorTracker.
(** An [errorLog] entry is [{ error, context: error.context }]; the
    context is read off the error. *)
Record t := mk {
  errorLog : list JsError;
  errorCounts : JsMap Z;
  localeErrorCounts : JsMap Z;
  recoverySuccessCount : Z;
  recoveryAttemptCount : Z;
  maxLogSize : Z
}.

Definition new : t :=
  {| errorLog := []; errorCounts := []; localeErrorCounts := [];
     recoverySuccessCount := 0; recoveryAttemptCount := 0; maxLogSize := 100 |}.

(** [(m.get(k) || 0)]. *)
Definition count_of (k : string) (m : JsMap Z) : Z :=
  match map_get k m with Some n => n | None => 0 end.

Definition bump (k : string) (m : JsMap Z) : JsMap Z :=
  map_set k (count_of k m + 1) m.

Definition trackError (error : JsError) (tr : t) : t :=
  let log1 := (errorLog tr ++ [error])%list in
  let log2 :=
    if maxLogSize tr <? Z.of_nat (List.length log1) then List.tl log1 else log1 in
  let counts := bump (constructor_name error) (errorCounts tr) in
  let lcounts :=
    match error_context_locale error with
    | Some l => if truthy l then bump l (localeErrorCounts tr)
                else localeErrorCounts tr
    | None => localeErrorCounts tr
    end in
  {| errorLog := log2; errorCounts := counts; localeErrorCounts := lcounts;
     recoverySuccessCount := recoverySuccessCount tr;
     recoveryAttemptCount := recoveryAttemptCount tr;
     maxLogSize := maxLogSize tr |}.

Definition trackRecoveryAttempt (success : bool) (tr : t) : t :=
  {| errorLog := errorLog tr; errorCounts := errorCounts tr;
     localeErrorCounts := localeErrorCounts tr;
     recoverySuccessCount :=
       if success then recoverySuccessCount tr + 1 else recoverySuccessCount tr;
     recoveryAttemptCount := recoveryAttemptCount tr + 1;
     maxLogSize := maxLogSize tr |}.

Definition clearStatistics (tr : t) : t :=
  {| errorLog := []; errorCounts := []; localeErrorCounts := [];
     recoverySuccessCount := 0; recoveryAttemptCount := 0;
     maxLogSize := maxLogSize tr |}.
End ErrorTracker.

(* ================================================================== *)
(** * State and exceptions                                             *)
(* ================================================================== *)

(** Result of running a function body: a returned value, or a thrown
    error (for an [async] function: the promise fulfils or rejects). *)
Inductive Outcome (A : Type) : Type :=
| Return (a : A)
| Throw (e : JsError).
Arguments Return {A} a.
Arguments Throw {A} e.

(** Computations over a mutable state [S] that may throw. *)
Definition M (S A : Type) : Type := S -> Outcome A * S.

Definition ret {S A} (a : A) : M S A := fun st => (Return a, st).

Definition throw {S A} (e : JsError) : M S A := fun st => (Throw e, st).

Definition bind {S A B} (c : M S A) (k : A -> M S B) : M S B :=
  fun st =>
    match c st with
    | (Return a, st1) => k a st1
    | (Throw e, st1) => (Throw e, st1)
    end.

(** [try { body } catch (error) { handler }]. *)
Definition try_catch {S A} (body : M S A) (handler : JsError -> M S A) : M S A :=
  fun st =>
    match body st with
    | (Return a, st1) => (Return a, st1)
    | (Throw e, st1) => handler e st1
    end.

Definition gets {S A} (f : S -> A) : M S A := fun st => (Return (f st), st).

Definition modify {S} (f : S -> S) : M S unit := fun st => (Return tt, f st).

Notation "x <- c1 ;; c2" := (bind c1 (fun x => c2))
  (at level 61, c1 at next level, right associativity).
Notation "c1 ;;; c2" := (bind c1 (fun _ => c2))
  (at level 61, right associativity).

(* ================================================================== *)
(** * The runtime state shared by loader, cache and error handling     *)
(* ================================================================== *)

(** A promise returned by [performLoad]: still waiting for the reply to
    request number [request], or settled with its outcome. *)
Inductive PromiseState : Type :=
| Pending (locale : Locale) (section : option Section_) (request : nat)
| Settled (r : Outcome JsValue).

(** [clock] is [Date.now()]; [fetchLog] lists the URLs passed to [fetch],
    oldest first; [timerLog] the delays passed to [setTimeout] by the
    recovery executor; [loadingPromises] is the map of
    [DynamicModuleLoader], from de-duplication key to promise. *)
Record Sys := mkSys {
  clock : Z;
  fetchLog : list string;
  timerLog : list Z;
  cacheManager : TranslationCacheManager.t;
  recoveryManager : ErrorRecoveryManager.t;
  errorTracker : ErrorTracker.t;
  loadingPromises : JsMap nat;
  promises : list PromiseState
}.

Definition set_clock (x : Z) (st : Sys) : Sys :=
  mkSys x (fetchLog st) (timerLog st) (cacheManager st) (recoveryManager st)
    (errorTracker st) (loadingPromises st) (promises st).
Definition set_fetchLog (x : list string) (st : Sys) : Sys :=
  mkSys (clock st) x (timerLog st) (cacheManager st) (recoveryManager st)
    (errorTracker st) (loadingPromises st) (promises st).
Definition set_timerLog (x : list Z) (st : Sys) : Sys :=
  mkSys (clock st) (fetchLog st) x (cacheManager st) (recoveryManager st)
    (errorTracker st) (loadingPromises st) (promises st).
Definition set_cacheManager (x : TranslationCacheManager.t) (st : Sys) : Sys :=
  mkSys (clock st) (fetchLog st) (timerLog st) x (recoveryManager st)
    (errorTracker st) (loadingPromises st) (promises st).
Definition set_recoveryManager (x : ErrorRecoveryManager.t) (st : Sys) : Sys :=
  mkSys (clock st) (fetchLog st) (timerLog st) (cacheManager st) x
    (errorTracker st) (loadingPromises st) (promises st).
Definition set_errorTracker (x : ErrorTracker.t) (st : Sys) : Sys :=
  mkSys (clock st) (fetchLog st) (timerLog st) (cacheManager st)
    (recoveryManager st) x (loadingPromises st) (promises st).
Definition set_loadingPromises (x : JsMap nat) (st : Sys) : Sys :=
  mkSys (clock st) (fetchLog st) (timerLog st) (cacheManager st)
    (recoveryManager st) (errorTracker st) x (promises st).
Definition set_promises (x : list PromiseState) (st : Sys) : Sys :=
  mkSys (clock st) (fetchLog st) (timerLog st) (cacheManager st)
    (recoveryManager st) (errorTracker st) (loadingPromises st) x.

(** A fresh runtime: empty caches, default recovery table, empty tracker. *)
Definition initial_sys (now : Z) (c : CacheConfig) : Sys :=
  mkSys now [] [] (TranslationCacheManager.new c) ErrorRecoveryManager.new
    ErrorTracker.new [] [].

(* ================================================================== *)
(** * errors.ts : ErrorRecoveryExecutor                                *)
(* ================================================================== *)

(** A recovery callback [(strategy) => Promise<boolean>].  Its resolved
    value is only ever tested for truthiness (by the executor and by
    [trackRecoveryAttempt]), so the model keeps the truthiness. *)
Definition Callback := ErrorRecoveryStrategy -> M Sys bool.

(** What the executor did, in order: a call of the recovery callback
    (with whether it resolved to a truthy value; a rejection counts as
    not), or a [setTimeout] wait.  This list is instrumentation; the
    source returns the boolean only. *)
Inductive RecoveryStep : Type :=
| Invoked (success : bool)
| Waited (ms : Z).

Definition invocations (tr : list RecoveryStep) : nat :=
  List.length (filter (fun s => match s with Invoked _ => true | _ => false end) tr).

Definition waits (tr : list RecoveryStep) : list Z :=
  flat_map (fun s => match s with Waited ms => [ms] | _ => [] end) tr.

Module ErrorRecoveryExecutor.

(** [delay(ms)]: a timer of [ms] milliseconds. *)
Definition delay (ms : Z) : M Sys unit :=
  modify (fun st => set_timerLog (timerLog st ++ [ms])
                      (set_clock (clock st + Z.max 0 ms) st)).

(** [x || d] on an optional number. *)
Definition or_default (x : option Z) (d : Z) : Z :=
  match x with
  | Some n => if n =? 0 then d else n
  | None => d
  end.

(** The [for] loop of [executeRetryStrategy]; [n] is the number of
    iterations left, [attempt] the loop variable. *)
Fixpoint retry_loop (n : nat) (attempt maxRetries retryDelay : Z)
    (strategy : ErrorRecoveryStrategy) (recoveryFunction : Callback)
  : M Sys (bool * list RecoveryStep) :=
  match n with
  | O => ret (false, [])
  | S n' =>
      success <- try_catch (recoveryFunction strategy) (fun _ => ret false) ;;
      if success : bool then ret (true, [Invoked true])
      else
        w <- (if attempt <? maxRetries
              then (delay retryDelay ;;; ret [Waited retryDelay])
              else ret []) ;;
        rest <- retry_loop n' (attempt + 1) maxRetries retryDelay
                           strategy recoveryFunction ;;
        ret (fst rest, Invoked false :: w ++ snd rest)
  end.

Definition executeRetryStrategy (strategy : ErrorRecoveryStrategy)
    (recoveryFunction : Callback) : M Sys (bool * list RecoveryStep) :=
  let maxRetries := or_default (retryCount strategy) 3 in
  let retryDelay := or_default (retryDelay strategy) 1000 in
  retry_loop (Z.to_nat maxRetries) 1 maxRetries retryDelay
             strategy recoveryFunction.

Definition executeFallbackStrategy (strategy : ErrorRecoveryStrategy)
    (recoveryFunction : Callback) : M Sys (bool * list RecoveryStep) :=
  try_catch (b <- recoveryFunction strategy ;; ret (b, [Invoked b]))
            (fun _ => ret (false, [Invoked false])).

Definition executeStrategy (strategy : ErrorRecoveryStrategy)
    (recoveryFunction : Callback) : M Sys (bool * list RecoveryStep) :=
  match strategy_type strategy with
  | Retry => executeRetryStrategy strategy recoveryFunction
  | Fallback => executeFallbackStrategy strategy recoveryFunction
  | Skip => ret (true, [])
  | Abort => ret (false, [])
  end.

Definition trackRecoveryAttempt (success : bool) : M Sys unit :=
  modify (fun st =>
            set_errorTracker
              (ErrorTracker.trackRecoveryAttempt success (errorTracker st)) st).

Definition executeRecovery_traced (error : JsError) (recoveryFunction : Callback)
  : M Sys (bool * list RecoveryStep) :=
  strategy <- gets (fun st =>
                ErrorRecoveryManager.getRecoveryStrategy error (recoveryManager st)) ;;
  try_catch
    (r <- executeStrategy strategy recoveryFunction ;;
     trackRecoveryAttempt (fst r) ;;;
     ret r)
    (fun _ => trackRecoveryAttempt false ;;; ret (false, [])).

Definition executeRecovery (error : JsError) (recoveryFunction : Callback)
  : M Sys bool :=
  r <- executeRecovery_traced error recoveryFunction ;; ret (fst r).
End ErrorRecoveryExecutor.

(* ================================================================== *)
(** * errors.ts : ErrorHandler                                         *)
(* ================================================================== *)

(** [s.includes(needle)]. *)
Fixpoint includes (needle s : string) : bool :=
  String.prefix needle s
  || match s with
     | EmptyString => false
     | String _ rest => includes needle rest
     end.

(** Truthiness of an optional string property. *)
Definition opt_truthy (o : option string) : option string :=
  match o with
  | Some s => if truthy s then Some s else None
  | None => None
  end.

Module ErrorHandler.

Definition wrapError (now : Z) (error : JsError) (context : PartialContext)
  : JsError :=
  let fullContext :=
    mkContext (pc_locale context) (pc_key context) (pc_section context)
      (pc_module context)
      (match pc_operation context with Some o => o | None => "unknown"%string end)
      now in
  match error with
  | I18nError _ _ _ _ _ => error
  | PlainError message =>
      match opt_truthy (pc_locale context) with
      | Some locale =>
          match opt_truthy (pc_key context) with
          | Some key => TranslationKeyError now locale key message (Some error)
          | None =>
              match opt_truthy (pc_section context) with
              | Some section =>
                  SectionLoadError now locale section message (Some error)
              | None =>
                  match opt_truthy (pc_module context) with
                  | Some module =>
                      ModuleLoadError now locale module message (Some error)
                  | None => TranslationLoadError now locale message (Some error)
                  end
              end
          end
      | None =>
          if includes "network" message || includes "fetch" message then
            NetworkError now
              (match opt_truthy (pc_locale context) with
               | Some l => l | None => "unknown"%string end)
              message (Some error)
          else I18nError CI18nError message fullContext now (Some error)
      end
  end.

Definition trackError (error : JsError) : M Sys unit :=
  modify (fun st =>
            set_errorTracker (ErrorTracker.trackError error (errorTracker st)) st).

Definition handleError (error : JsError) (context : PartialContext)
    (recoveryFunction : option Callback) : M Sys bool :=
  now <- gets clock ;;
  let i18nError := wrapError now error context in
  trackError i18nError ;;;
  match recoveryFunction with
  | Some f => ErrorRecoveryExecutor.executeRecovery i18nError f
  | None => ret false
  end.
End ErrorHandler.

(* ================================================================== *)
(** * config.ts                                                        *)
(* ================================================================== *)

(** The fields of [I18nConfig] that the runtime reads. *)
Record I18nConfig := mkI18nConfig {
  supportedLocales : list Locale;
  cfg_fallbackLocale : Locale;
  defaultLocale : Locale;
  preloadLocales : list Locale;
  cacheConfig : CacheConfig
}.

(** [CACHE_CONFIG]; [isProduction] is [process.env.NODE_ENV === 'production']. *)
Definition CACHE_CONFIG (isProduction : bool) : CacheConfig :=
  {| cfg_maxSize := if isProduction then 50 else 20;
     cfg_ttl := if isProduction then 30 * 60 * 1000 else 5 * 60 * 1000;
     cfg_enableMemoryCache := true;
     cfg_enableNetworkCache := isProduction;
     cfg_cleanupInterval := 10 * 60 * 1000 |}.

Definition SUPPORTED_LOCALES : list Locale := ["en"; "vi"]%string.
Definition DEFAULT_LOCALE : Locale := "vi"%string.
Definition FALLBACK_LOCALE : Locale := "vi"%string.
Definition PRELOAD_LOCALES : list Locale := ["en"; "vi"]%string.

Definition I18N_CONFIG (isProduction : bool) : I18nConfig :=
  {| supportedLocales := SUPPORTED_LOCALES;
     cfg_fallbackLocale := FALLBACK_LOCALE;
     defaultLocale := DEFAULT_LOCALE;
     preloadLocales := PRELOAD_LOCALES;
     cacheConfig := CACHE_CONFIG isProduction |}.

(* ================================================================== *)
(** * The network                                                      *)
(* ================================================================== *)

(** What [fetch] resolves to: [ok], [status], [statusText], and what
    [response.json()] gives, a parsed document or a [SyntaxError]
    message. *)
Record Response := mkResponse {
  resp_ok : bool;
  resp_status : string;
  resp_statusText : string;
  resp_json : string + TranslationData
}.

Inductive NetReply : Type :=
| NetFail (msg : string)       (* fetch() rejects *)
| NetResp (r : Response).

(** The environment: the reply to the [n]-th request (counted from 0) for
    a URL, and the time it takes to arrive. *)
Record Network := mkNetwork {
  reply : nat -> string -> NetReply;
  latency : nat -> Z
}.

(** The list with its element at index [i] replaced by [x]. *)
Fixpoint list_update {A} (i : nat) (x : A) (l : list A) : list A :=
  match l, i with
  | [], _ => []
  | _ :: r, O => x :: r
  | y :: r, S i' => y :: list_update i' x r
  end.

(* ================================================================== *)
(** * loader.ts : DynamicModuleLoader                                  *)
(* ================================================================== *)

(** What a call of [load] hands to its caller before anything is awaited:
    a value already at hand (cache hit), or the promise in flight. *)
Inductive Handle : Type :=
| Immediate (d : JsValue)
| InFlight (p : nat).

Section Loader.
Variable config : I18nConfig.
Variable net : Network.

Definition filePath (locale : Locale) : string :=
  ("/i18n/" ++ locale ++ ".json")%string.

(** [fetch(path)] up to the point where the caller awaits: the request
    is on the wire. *)
Definition fetch_issue (path : string) : M Sys nat :=
  fun st => (Return (List.length (fetchLog st)),
             set_fetchLog (fetchLog st ++ [path]) st).

(** [await]ing the request: the reply arrives. *)
Definition fetch_await (req : nat) (path : string) : M Sys Response :=
  fun st =>
    let st1 := set_clock (clock st + latency net req) st in
    match reply net req path with
    | NetFail msg => (Throw (PlainError msg), st1)
    | NetResp r => (Return r, st1)
    end.

(** [if (!response.ok) throw new Error(...)] and [await response.json()]. *)
Definition read_body (prefix path : string) (response : Response)
  : M Sys TranslationData :=
  if negb (resp_ok response) then
    throw (PlainError (prefix ++ path ++ ": " ++ resp_status response ++ " "
                         ++ resp_statusText response)%string)
  else
    match resp_json response with
    | inl msg => throw (PlainError msg)
    | inr fullData => ret fullData
    end.

(** [section ? { [section]: fullData[section] } : fullData]. *)
Definition slice (section : option Section_) (fullData : TranslationData)
  : JsValue :=
  match opt_truthy section with
  | Some s => JObj [(s, js_index fullData s)]
  | None => JObj fullData
  end.

Definition loadFallback (locale : Locale) (section : option Section_)
  : M Sys JsValue :=
  try_catch
    (let path := filePath locale in
     req <- fetch_issue path ;;
     response <- fetch_await req path ;;
     fullData <- read_body "Failed to fetch fallback " path response ;;
     ret (slice section fullData))
    (fun error =>
       now <- gets clock ;;
       throw (TranslationLoadError now locale
                ("Fallback loading failed for locale '" ++ locale ++ "'")%string
                (Some error))).

(** The recovery callback built in [performLoad].  The promise of
    [loadFallback] resolves to an object, which is truthy. *)
Definition performLoad_recovery (section : option Section_) : Callback :=
  fun strategy =>
    match strategy_type strategy, opt_truthy (fallbackLocale strategy) with
    | Fallback, Some l => loadFallback l section ;;; ret true
    | _, _ => ret false
    end.

Definition cache_result (locale : Locale) (section : option Section_)
    (d : JsValue) : M Sys unit :=
  modify (fun st =>
    set_cacheManager
      (match opt_truthy section with
       | Some s =>
           TranslationCacheManager.setSectionCache (clock st) locale s d
             (cacheManager st)
       | None =>
           TranslationCacheManager.setLocaleCache (clock st) locale d
             (cacheManager st)
       end) st).

Definition load_failure_message (locale : Locale) (section : option Section_)
  : string :=
  ("Failed to load "
     ++ match opt_truthy section with
        | Some s => "section '" ++ s ++ "'"
        | None => "translations"
        end
     ++ " for locale '" ++ locale ++ "'")%string.

(** [performLoad] from its first [await] on: request [req] for the
    locale file is already issued. *)
Definition performLoad_resume (locale : Locale) (section : option Section_)
    (req : nat) : M Sys JsValue :=
  try_catch
    (let path := filePath locale in
     response <- fetch_await req path ;;
     fullData <- read_body "Failed to fetch " path response ;;
     let d := slice section fullData in
     cache_result locale section d ;;;
     ret d)
    (fun error =>
       recoverySuccess <-
         ErrorHandler.handleError error
           (mkPartial (Some locale) None section None (Some "load_module"%string))
           (Some (performLoad_recovery section)) ;;
       if recoverySuccess : bool then
         loadFallback (cfg_fallbackLocale config) section
       else
         now <- gets clock ;;
         throw (TranslationLoadError now locale
                  (load_failure_message locale section) (Some error))).

(** [performLoad] as a whole. *)
Definition performLoad (locale : Locale) (section : option Section_)
  : M Sys JsValue :=
  req <- fetch_issue (filePath locale) ;;
  performLoad_resume locale section req.

(** [section ? `${locale}:${section}` : locale]. *)
Definition dedupKey (locale : Locale) (section : option Section_) : string :=
  match opt_truthy section with
  | Some s => (locale ++ ":" ++ s)%string
  | None => locale
  end.

Definition lookup_cache (locale : Locale) (section : option Section_)
  : Sys -> option CacheEntryImpl.t * Sys :=
  fun st =>
    let (cached, cm) :=
      match opt_truthy section with
      | Some s =>
          TranslationCacheManager.getSectionCache (clock st) locale s
            (cacheManager st)
      | None =>
          TranslationCacheManager.getLocaleCache (clock st) locale
            (cacheManager st)
      end in
    (cached, set_cacheManager cm st).

(** The synchronous part of [load]: everything up to its [await].  The
    call of [performLoad] runs up to the [await fetch(...)], so the
    request is issued here. *)
Definition load_call (locale : Locale) (section : option Section_)
  : Sys -> Handle * Sys :=
  fun st =>
    let cacheKey := dedupKey locale section in
    match map_get cacheKey (loadingPromises st) with
    | Some p => (InFlight p, st)
    | None =>
        match lookup_cache locale section st with
        | (Some cached, st1) => (Immediate (CacheEntryImpl.data cached), st1)
        | (None, st1) =>
            let req := List.length (fetchLog st1) in
            let st2 := set_fetchLog (fetchLog st1 ++ [filePath locale]) st1 in
            let p := List.length (promises st2) in
            (InFlight p,
             set_loadingPromises (map_set cacheKey p (loadingPromises st2))
               (set_promises (promises st2 ++ [Pending locale section req]) st2))
        end
    end.

(** The promise [p] settles: the reply to its request is taken from the
    network, [performLoad] runs to its end, and the caller that started
    it removes the de-duplication key (both branches of the
    [try]/[catch] in [load]).  A settled promise stays as it is.  In this
    model a promise settles when it is first awaited; until then its
    request is on the wire and its key is in [loadingPromises]. *)
Definition settle (p : nat) (st : Sys) : Sys :=
  match nth_error (promises st) p with
  | Some (Pending locale section req) =>
      let (r, st1) := performLoad_resume locale section req st in
      set_loadingPromises
        (map_delete (dedupKey locale section) (loadingPromises st1))
        (set_promises (list_update p (Settled r) (promises st1)) st1)
  | _ => st
  end.

(** What a caller holding [h] gets by awaiting it. *)
Definition await_handle (h : Handle) : M Sys JsValue :=
  match h with
  | Immediate d => ret d
  | InFlight p =>
      fun st =>
        let st1 := settle p st in
        match nth_error (promises st1) p with
        | Some (Settled r) => (r, st1)
        | _ => (Throw (PlainError "promise is not in the table"), st1)
        end
  end.

(** [load] run to completion by a single caller. *)
Definition load (locale : Locale) (section : option Section_) : M Sys JsValue :=
  fun st => let (h, st1) := load_call locale section st in await_handle h st1.

Definition unload (locale : Locale) : M Sys unit :=
  modify (fun st =>
    set_loadingPromises
      (delete_keys
         (map_keys (filter (fun kv => String.prefix locale (fst kv))
                           (loadingPromises st)))
         (loadingPromises st))
      (set_cacheManager
         (TranslationCacheManager.clearLocale locale (cacheManager st)) st)).
End Loader.

(* ================================================================== *)
(** * loader.ts : KeyLevelLoader                                       *)
(* ================================================================== *)

(** [key.split('.')]. *)
Fixpoint split_dot (s : string) : list string :=
  match s with
  | EmptyString => [EmptyString]
  | String c rest =>
      if Ascii.eqb c "."%char then EmptyString :: split_dot rest
      else
        match split_dot rest with
        | [] => [String c EmptyString]
        | h :: t => String c h :: t
        end
  end.

(** The [for] loop of [extractKeyValue]: [None] when a segment cannot be
    followed ([value] is not an object or has no such property). *)
Fixpoint descend (parts : list string) (value : JsValue) : option JsValue :=
  match parts with
  | [] => Some value
  | part :: rest =>
      match value with
      | JObj fields =>
          match map_get part fields with
          | Some v => descend rest v
          | None => None
          end
      | _ => None
      end
  end.

Definition extractKeyValue (d : JsValue) (key : TranslationKey) : string :=
  match descend (split_dot key) d with
  | Some (JStr s) => s
  | _ => key
  end.

(** [cached.data] of a key-tier entry, typed [string] in the source: the
    tier is written by [setKeyCache] only, with a string. *)
Definition string_data (e : CacheEntryImpl.t) : string :=
  match CacheEntryImpl.data e with JStr s => s | _ => EmptyString end.

Section KeyLevelLoader.
Variable config : I18nConfig.
Variable net : Network.

Definition getKeyCache (locale : Locale) (key : TranslationKey)
  : M Sys (option CacheEntryImpl.t) :=
  fun st =>
    let (r, cm) :=
      TranslationCacheManager.getKeyCache (clock st) locale key (cacheManager st) in
    (Return r, set_cacheManager cm st).

Definition setKeyCache (locale : Locale) (key : TranslationKey) (value : string)
  : M Sys unit :=
  modify (fun st =>
    set_cacheManager
      (TranslationCacheManager.setKeyCache (clock st) locale key value
         (cacheManager st)) st).

Definition loadKeyFromFallback (locale : Locale) (key : TranslationKey)
  : M Sys string :=
  try_catch
    (localeData <- load config net locale None ;;
     ret (extractKeyValue localeData key))
    (fun _ => ret key).

Definition loadKey_recovery (key : TranslationKey) : Callback :=
  fun strategy =>
    match strategy_type strategy, opt_truthy (fallbackLocale strategy) with
    | Fallback, Some l => s <- loadKeyFromFallback l key ;; ret (truthy s)
    | _, _ => ret false
    end.

Definition loadKey (locale : Locale) (key : TranslationKey) : M Sys string :=
  cached <- getKeyCache locale key ;;
  match cached with
  | Some entry => ret (string_data entry)
  | None =>
      try_catch
        (localeData <- load config net locale None ;;
         let value := extractKeyValue localeData key in
         setKeyCache locale key value ;;;
         ret value)
        (fun error =>
           recoverySuccess <-
             ErrorHandler.handleError error
               (mkPartial (Some locale) (Some key) None None
                          (Some "load_key"%string))
               (Some (loadKey_recovery key)) ;;
           if recoverySuccess : bool then
             loadKeyFromFallback (cfg_fallbackLocale config) key
           else ret key)
  end.
End KeyLevelLoader.

(* ================================================================== *)
(** * state.ts : I18nStateManager                                      *)
(* ================================================================== *)

(** An observer object: its name, and which of the [I18nObserver]
    members are functions on it. *)
Record Observer := mkObserver {
  obs_name : string;
  obs_methods : list string
}.

(** One observer callback invocation: who, which method, with which
    argument. *)
Record Notification := mkNotification {
  note_observer : string;
  note_method : string;
  note_arg : string
}.

Module I18nStateManager.
(** [localStorage] is [None] where [typeof localStorage === 'undefined']. *)
Record t := mk {
  currentLocale : Locale;
  fallbackLocale_ : Locale;
  supported : list Locale;
  loadedLocales : list Locale;
  observers : list Observer;
  notifications : list Notification;
  localStorage : option (JsMap string)
}.

Definition new (config : I18nConfig) (storage : option (JsMap string)) : t :=
  {| currentLocale := defaultLocale config;
     fallbackLocale_ := cfg_fallbackLocale config;
     supported := supportedLocales config;
     loadedLocales := [];
     observers := [];
     notifications := [];
     localStorage := storage |}.

Definition isLocaleSupported (locale : Locale) (s : t) : bool :=
  existsb (String.eqb locale) (supported s).

(** Every observer whose [method] is a function is called; what it
    throws is caught and logged. *)
Definition notifyObservers (method : string) (arg : string) : M t unit :=
  modify (fun s =>
    let called :=
      filter (fun o => existsb (String.eqb method) (obs_methods o))
             (observers s) in
    {| currentLocale := currentLocale s;
       fallbackLocale_ := fallbackLocale_ s;
       supported := supported s;
       loadedLocales := loadedLocales s;
       observers := observers s;
       notifications :=
         (notifications s
            ++ List.map (fun o => mkNotification (obs_name o) method arg) called)%list;
       localStorage := localStorage s |}).

Definition assign_currentLocale (locale : Locale) : M t unit :=
  modify (fun s =>
    {| currentLocale := locale;
       fallbackLocale_ := fallbackLocale_ s;
       supported := supported s;
       loadedLocales := loadedLocales s;
       observers := observers s;
       notifications := notifications s;
       localStorage := localStorage s |}).

(** [localStorage.setItem(k, v)] under the [typeof] guard. *)
Definition storage_setItem (k v : string) : M t unit :=
  modify (fun s =>
    {| currentLocale := currentLocale s;
       fallbackLocale_ := fallbackLocale_ s;
       supported := supported s;
       loadedLocales := loadedLocales s;
       observers := observers s;
       notifications := notifications s;
       localStorage :=
         match localStorage s with
         | Some items => Some (map_set k v items)
         | None => None
         end |}).

Definition setCurrentLocale (locale : Locale) : M t unit :=
  supportedp <- gets (isLocaleSupported locale) ;;
  if negb supportedp then
    throw (PlainError ("Unsupported locale: " ++ locale)%string)
  else
    assign_currentLocale locale ;;;
    notifyObservers "onLocaleChange" locale ;;;
    storage_setItem "preferred-locale" locale.
End I18nStateManager.

(* ================================================================== *)
(** * index.ts : EnterpriseI18nSystem.getTranslation                   *)
(* ================================================================== *)

Section Facade.
(** The vue-i18n instance is an external collaborator: its state and
    its [global.t], which returns a string or throws. *)
Variable VueI18n : Type.
Variable vue_t : TranslationKey -> Locale -> M VueI18n string.

Record EnterpriseI18nSystem := mkFacade {
  stateManager : I18nStateManager.t;
  vueI18n : VueI18n
}.

Definition call_t (key : TranslationKey) (locale : Locale)
  : M EnterpriseI18nSystem string :=
  fun sys =>
    let (r, v) := vue_t key locale (vueI18n sys) in
    (r, mkFacade (stateManager sys) v).

Definition getTranslation (key : TranslationKey) (locale : option Locale)
  : M EnterpriseI18nSystem string :=
  targetLocale <-
    gets (fun sys =>
            match opt_truthy locale with
            | Some l => l
            | None => I18nStateManager.currentLocale (stateManager sys)
            end) ;;
  try_catch (call_t key targetLocale) (fun _ => ret key).
End Facade.

(* ================================================================== *)
(** * vue-i18n : the composer behind [global.t]                        *)
(* ================================================================== *)

(** The vue-i18n instance the facade creates ([createI18n] with
    [legacy: false]): [global] is a composer, with its active and
    fallback locale and its messages per locale.  Messages are plain
    strings here; message-format syntax is not modelled. *)
Record VueComposer := mkComposer {
  vue_locale : Locale;
  vue_fallbackLocale : Locale;
  vue_messages : JsMap JsValue
}.

(** The message of [key] in the messages of [locale]: the string at the
    dotted path, or else under [key] as a flat property. *)
Definition resolve_message (v : VueComposer) (locale : Locale)
    (key : TranslationKey) : option string :=
  match map_get locale (vue_messages v) with
  | Some doc =>
      match descend (split_dot key) doc with
      | Some (JStr s) => Some s
      | _ =>
          match doc with
          | JObj fields =>
              match map_get key fields with Some (JStr s) => Some s | _ => None end
          | _ => None
          end
      end
  | None => None
  end.

(** The composer's [t(key, defaultMsg)]: a string as second argument is
    the default message, not a locale.  The result is the message of
    [key] in the active locale or else in the fallback locale, and when
    there is none the default message (the key when that is empty).  The
    [missing] handler the facade installs is an [async] function: it
    returns a promise, never a string, so it supplies no message. *)
Definition composer_t (key : TranslationKey) (defaultMsg : string)
  : M VueComposer string :=
  fun v =>
    let message :=
      match resolve_message v (vue_locale v) key with
      | Some s => Some s
      | None => resolve_message v (vue_fallbackLocale v) key
      end in
    (Return match message with
            | Some s => s
            | None => if truthy defaultMsg then defaultMsg else key
            end,
     v).

(** [createEmptyMessages]: an empty object for every supported locale. *)
Definition createEmptyMessages (config : I18nConfig) : JsMap JsValue :=
  fold_left (fun m l => map_set l (JObj []) m) (supportedLocales config) [].

(** The facade after its constructor, before anything is loaded. *)
Definition cold_start (config : I18nConfig) (storage : option (JsMap string))
  : EnterpriseI18nSystem VueComposer :=
  let s := I18nStateManager.new config storage in
  mkFacade s
    (mkComposer (I18nStateManager.currentLocale s) (cfg_fallbackLocale config)
       (createEmptyMessages config)).


(* ================================================================== *)
(** * Operation sequences on the caches                                *)
(* ================================================================== *)

(** The operations a client can apply to the cache manager, each at the
    time [now] it happens. *)
Inductive CacheOp : Type :=
| OpSetLocale (now : Z) (locale : Locale) (d : JsValue)
| OpSetSection (now : Z) (locale : Locale) (section : Section_) (d : JsValue)
| OpSetKey (now : Z) (locale : Locale) (key : TranslationKey) (value : string)
| OpGetLocale (now : Z) (locale : Locale)
| OpGetSection (now : Z) (locale : Locale) (section : Section_)
| OpGetKey (now : Z) (locale : Locale) (key : TranslationKey)
| OpCleanup (now : Z)
| OpClearAll
| OpClearLocale (locale : Locale).

Definition apply_op (m : TranslationCacheManager.t) (op : CacheOp)
  : TranslationCacheManager.t :=
  match op with
  | OpSetLocale now l d => TranslationCacheManager.setLocaleCache now l d m
  | OpSetSection now l s d => TranslationCacheManager.setSectionCache now l s d m
  | OpSetKey now l k v => TranslationCacheManager.setKeyCache now l k v m
  | OpGetLocale now l => snd (TranslationCacheManager.getLocaleCache now l m)
  | OpGetSection now l s => snd (TranslationCacheManager.getSectionCache now l s m)
  | OpGetKey now l k => snd (TranslationCacheManager.getKeyCache now l k m)
  | OpCleanup now => TranslationCacheManager.cleanup now m
  | OpClearAll => TranslationCacheManager.clearAll m
  | OpClearLocale l => TranslationCacheManager.clearLocale l m
  end.

Definition run_ops (ops : list CacheOp) (m : TranslationCacheManager.t)
  : TranslationCacheManager.t :=
  fold_left apply_op ops m.

(** Operations on one LRU store, by raw key. *)
Inductive LruOp : Type :=
| LSet (now : Z) (key : string) (d : JsValue) (ttl : option Z)
| LGet (now : Z) (key : string)
| LHas (now : Z) (key : string)
| LCleanup (now : Z).

Definition lru_apply (s : LRUCacheStrategy.t) (op : LruOp) : LRUCacheStrategy.t :=
  match op with
  | LSet now k d ttl => LRUCacheStrategy.set now k d ttl s
  | LGet now k => snd (LRUCacheStrategy.get now k s)
  | LHas _ _ => s
  | LCleanup now => LRUCacheStrategy.cleanup now s
  end.

Definition lru_run (ops : list LruOp) (s : LRUCacheStrategy.t) : LRUCacheStrategy.t :=
  fold_left lru_apply ops s.

(** An access of [k]: a [set] or a [get] of it ([has] is not one). *)
Definition accesses (k : string) (op : LruOp) : bool :=
  match op with
  | LSet _ k' _ _ => String.eqb k k'
  | LGet _ k' => String.eqb k k'
  | _ => false
  end.

(** Number of operations performed since [k] was last accessed, over the
    history latest-first; [None] if it never was. *)
Fixpoint idle_rev (k : string) (history : list LruOp) : option nat :=
  match history with
  | [] => None
  | op :: earlier =>
      if accesses k op then Some O
      else match idle_rev k earlier with Some n => Some (S n) | None => None end
  end.

Definition idle (k : string) (ops : list LruOp) : option nat :=
  idle_rev k (rev ops).

(** The keys written by the [set]s of a history, and all keys it names. *)
Definition set_keys (ops : list LruOp) : list string :=
  flat_map (fun op => match op with LSet _ k _ _ => [k] | _ => [] end) ops.

Definition op_key (op : LruOp) : option string :=
  match op with
  | LSet _ k _ _ => Some k
  | LGet _ k => Some k
  | LHas _ k => Some k
  | LCleanup _ => None
  end.

(* ================================================================== *)
(** * Properties of [JsMap]                                            *)
(* ================================================================== *)

Section JsMapFacts.
Variable V : Type.
Implicit Types (m : JsMap V) (k : string) (v : V).

Lemma map_get_set_eq k v m : map_get k (map_set k v m) = Some v.
Proof.
  induction m as [|[k' v'] r IH]; simpl.
  - now rewrite String.eqb_refl.
  - destruct (String.eqb k k') eqn:E; simpl.
    + now rewrite String.eqb_refl.
    + now rewrite E.
Qed.

Lemma map_get_set_neq k k' v m :
  k <> k' -> map_get k' (map_set k v m) = map_get k' m.
Proof.
  intros Hne. induction m as [|[k0 v0] r IH]; simpl.
  - destruct (String.eqb k' k) eqn:E; [|reflexivity].
    apply String.eqb_eq in E. congruence.
  - destruct (String.eqb k k0) eqn:E; simpl.
    + apply String.eqb_eq in E. subst k0.
      destruct (String.eqb k' k) eqn:E'; [|reflexivity].
      apply String.eqb_eq in E'. congruence.
    + now rewrite IH.
Qed.

Lemma map_get_delete_eq k m : map_get k (map_delete k m) = None.
Proof.
  unfold map_delete. induction m as [|[k' v'] r IH]; simpl; [reflexivity|].
  destruct (String.eqb k k') eqn:E; simpl; [exact IH|].
  now rewrite E.
Qed.

Lemma map_get_delete_neq k k' m :
  k <> k' -> map_get k' (map_delete k m) = map_get k' m.
Proof.
  intros Hne. unfold map_delete.
  induction m as [|[k0 v0] r IH]; simpl; [reflexivity|].
  destruct (String.eqb k k0) eqn:E; simpl.
  - apply String.eqb_eq in E. subst k0.
    destruct (String.eqb k' k) eqn:E'; [|exact IH].
    apply String.eqb_eq in E'. congruence.
  - now rewrite IH.
Qed.

Lemma map_get_In k v m : map_get k m = Some v -> In (k, v) m.
Proof.
  induction m as [|[k' v'] r IH]; simpl; [discriminate|].
  destruct (String.eqb k k') eqn:E.
  - apply String.eqb_eq in E. intros [= ->]. left. now subst.
  - intros H. right. auto.
Qed.

Lemma In_map_get k v m : In (k, v) m -> exists v', map_get k m = Some v'.
Proof.
  induction m as [|[k' v'] r IH]; simpl; [tauto|].
  intros [H|H].
  - inversion H; subst. rewrite String.eqb_refl. eauto.
  - destruct (String.eqb k k'); eauto.
Qed.

Lemma map_has_true k m : map_has k m = true <-> In k (map_keys m).
Proof.
  unfold map_has, map_keys. split.
  - destruct (map_get k m) eqn:E; [|discriminate]. intros _.
    apply map_get_In in E. change k with (fst (k, v)). now apply in_map.
  - intros H. apply in_map_iff in H. destruct H as [[k' v] [Hk Hin]].
    simpl in Hk. subst k'. apply In_map_get in Hin. destruct Hin as [v' ->].
    reflexivity.
Qed.

Lemma map_set_length_le k v m :
  (List.length (map_set k v m) <= S (List.length m))%nat.
Proof.
  induction m as [|[k' v'] r IH]; simpl; [lia|].
  destruct (String.eqb k k'); simpl; lia.
Qed.

Lemma map_delete_length_le k m :
  (List.length (map_delete k m) <= List.length m)%nat.
Proof. unfold map_delete. apply filter_length_le. Qed.

Lemma map_delete_length_lt k m :
  map_has k m = true ->
  (List.length (map_delete k m) < List.length m)%nat.
Proof.
  unfold map_has, map_delete.
  induction m as [|[k' v'] r IH]; simpl; [discriminate|].
  destruct (String.eqb k k') eqn:E; simpl.
  - intros _. pose proof (filter_length_le
      (fun kv : string * V => negb (String.eqb k (fst kv))) r). lia.
  - intros H. specialize (IH H). lia.
Qed.

Lemma In_map_delete k x m :
  In x (map_delete k m) <-> In x m /\ fst x <> k.
Proof.
  unfold map_delete. rewrite filter_In. split; intros [H1 H2]; split; auto.
  - intros E. rewrite E, String.eqb_refl in H2. discriminate.
  - destruct (String.eqb k (fst x)) eqn:E; [|reflexivity].
    apply String.eqb_eq in E. congruence.
Qed.

Lemma In_delete_keys ks x m :
  In x (delete_keys ks m) <-> In x m /\ ~ In (fst x) ks.
Proof.
  unfold delete_keys. revert m.
  induction ks as [|k ks IH]; intros m; simpl; [tauto|].
  rewrite IH, In_map_delete. intuition congruence.
Qed.

Lemma delete_keys_length_le ks m :
  (List.length (delete_keys ks m) <= List.length m)%nat.
Proof.
  unfold delete_keys. revert m.
  induction ks as [|k ks IH]; intros m; simpl; [lia|].
  specialize (IH (map_delete k m)). pose proof (map_delete_length_le k m). lia.
Qed.

Lemma map_get_delete_keys_in k ks m :
  In k ks -> map_get k (delete_keys ks m) = None.
Proof.
  intros Hin. destruct (map_get k (delete_keys ks m)) eqn:E; [|reflexivity].
  apply map_get_In in E. apply In_delete_keys in E. simpl in E. tauto.
Qed.
End JsMapFacts.

(* ================================================================== *)
(** * Expiry and cleanup                                               *)
(* ================================================================== *)

Lemma isExpired_spec now e :
  CacheEntryImpl.isExpired now e = false
  <-> now - CacheEntryImpl.timestamp e <= CacheEntryImpl.ttl e.
Proof. unfold CacheEntryImpl.isExpired. rewrite Z.ltb_ge. tauto. Qed.

Lemma In_expired_keys now k (m : CacheMap) :
  In k (expired_keys now m)
  <-> exists e, In (k, e) m /\ CacheEntryImpl.isExpired now e = true.
Proof.
  unfold expired_keys, map_keys. rewrite in_map_iff. split.
  - intros [[k' e] [Hk Hin]]. simpl in Hk. subst k'.
    apply filter_In in Hin. simpl in Hin. exists e. tauto.
  - intros [e [Hin He]]. exists (k, e). split; [reflexivity|].
    apply filter_In. simpl. tauto.
Qed.

(** Whatever [cleanup] leaves in the store is unexpired. *)
Lemma cleanup_keeps_valid now (m : CacheMap) k e :
  In (k, e) (delete_all (expired_keys now m) m) ->
  now - CacheEntryImpl.timestamp e <= CacheEntryImpl.ttl e.
Proof.
  unfold delete_all. intros H. apply In_delete_keys in H. destruct H as [Hin Hno].
  apply isExpired_spec.
  destruct (CacheEntryImpl.isExpired now e) eqn:E; [|reflexivity].
  exfalso. apply Hno. apply In_expired_keys. exists e. simpl. tauto.
Qed.

(** An expired entry is gone after [cleanup]. *)
Lemma cleanup_drops_expired now (m : CacheMap) k e :
  map_get k m = Some e ->
  CacheEntryImpl.isExpired now e = true ->
  map_get k (delete_all (expired_keys now m) m) = None.
Proof.
  intros Hget He. unfold delete_all. apply map_get_delete_keys_in.
  apply In_expired_keys. exists e. split; [now apply map_get_In | exact He].
Qed.

(** The TTL contract of a cache store holding entry [e] under [key] at
    time [now], stated over its [get], [has], [cleanup] and entry list:
    - [get] answers an entry iff [now - e.timestamp <= e.ttl], and then
      the entry is [e] with one more hit;
    - when [e] is expired, [get] removes it, so that at every later
      moment [has] is false and [get] is null;
    - when [e] is expired, the same holds after [cleanup];
    - [cleanup] leaves only unexpired entries in the store whose length
      is the reported size, and never grows it. *)
Definition ttl_contract (S : Type)
    (get : Z -> string -> S -> option CacheEntryImpl.t * S)
    (has : Z -> string -> S -> bool)
    (cleanup : Z -> S -> S)
    (entries : S -> CacheMap)
    (size : S -> Z)
    (now : Z) (key : string) (e : CacheEntryImpl.t) (s : S) : Prop :=
  ((exists e', fst (get now key s) = Some e')
     <-> now - CacheEntryImpl.timestamp e <= CacheEntryImpl.ttl e)
  /\ (now - CacheEntryImpl.timestamp e <= CacheEntryImpl.ttl e ->
      fst (get now key s) = Some (CacheEntryImpl.incrementHits e))
  /\ (CacheEntryImpl.ttl e < now - CacheEntryImpl.timestamp e ->
      fst (get now key s) = None
      /\ map_get key (entries (snd (get now key s))) = None
      /\ forall later,
           has later key (snd (get now key s)) = false
           /\ fst (get later key (snd (get now key s))) = None)
  /\ (CacheEntryImpl.ttl e < now - CacheEntryImpl.timestamp e ->
      map_get key (entries (cleanup now s)) = None
      /\ forall later,
           has later key (cleanup now s) = false
           /\ fst (get later key (cleanup now s)) = None)
  /\ (forall k' e', In (k', e') (entries (cleanup now s)) ->
        now - CacheEntryImpl.timestamp e' <= CacheEntryImpl.ttl e')
  /\ size (cleanup now s) = Z.of_nat (List.length (entries (cleanup now s)))
  /\ size (cleanup now s) <= size s.

Lemma memory_ttl_contract now key e (s : MemoryCacheStrategy.t) :
  map_get key (MemoryCacheStrategy.cache s) = Some e ->
  ttl_contract MemoryCacheStrategy.get MemoryCacheStrategy.has
    MemoryCacheStrategy.cleanup MemoryCacheStrategy.cache
    MemoryCacheStrategy.size now key e s.
Proof.
  intros Hget. unfold ttl_contract.
  assert (Hhit : CacheEntryImpl.isExpired now e = false ->
                 fst (MemoryCacheStrategy.get now key s)
                 = Some (CacheEntryImpl.incrementHits e)).
  { intros E. unfold MemoryCacheStrategy.get. now rewrite Hget, E. }
  assert (Hmiss : CacheEntryImpl.isExpired now e = true ->
                  MemoryCacheStrategy.get now key s
                  = (None, MemoryCacheStrategy.mk
                             (map_delete key (MemoryCacheStrategy.cache s))
                             (MemoryCacheStrategy.maxSize s))).
  { intros E. unfold MemoryCacheStrategy.get. now rewrite Hget, E. }
  assert (Hgone : forall s' later,
            map_get key (MemoryCacheStrategy.cache s') = None ->
            MemoryCacheStrategy.has later key s' = false
            /\ fst (MemoryCacheStrategy.get later key s') = None).
  { intros s' later Hn. unfold MemoryCacheStrategy.has, MemoryCacheStrategy.get.
    now rewrite Hn. }
  repeat split.
  - intros [e' He']. apply isExpired_spec.
    destruct (CacheEntryImpl.isExpired now e) eqn:E; [|reflexivity].
    rewrite (Hmiss eq_refl) in He'. discriminate.
  - intros Hle. apply isExpired_spec in Hle. eexists. exact (Hhit Hle).
  - intros Hle. apply isExpired_spec in Hle. exact (Hhit Hle).
  - assert (E : CacheEntryImpl.isExpired now e = true)
      by (unfold CacheEntryImpl.isExpired; now apply Z.ltb_lt).
    now rewrite (Hmiss E).
  - assert (E : CacheEntryImpl.isExpired now e = true)
      by (unfold CacheEntryImpl.isExpired; now apply Z.ltb_lt).
    rewrite (Hmiss E). simpl. apply map_get_delete_eq.
  - assert (E : CacheEntryImpl.isExpired now e = true)
      by (unfold CacheEntryImpl.isExpired; now apply Z.ltb_lt).
    rewrite (Hmiss E). simpl. apply Hgone. simpl. apply map_get_delete_eq.
  - assert (E : CacheEntryImpl.isExpired now e = true)
      by (unfold CacheEntryImpl.isExpired; now apply Z.ltb_lt).
    rewrite (Hmiss E). simpl. apply Hgone. simpl. apply map_get_delete_eq.
  - simpl. eapply cleanup_drops_expired; eauto.
    unfold CacheEntryImpl.isExpired. now apply Z.ltb_lt.
  - apply Hgone. simpl. eapply cleanup_drops_expired; eauto.
    unfold CacheEntryImpl.isExpired. now apply Z.ltb_lt.
  - apply Hgone. simpl. eapply cleanup_drops_expired; eauto.
    unfold CacheEntryImpl.isExpired. now apply Z.ltb_lt.
  - intros k' e' Hin. simpl in Hin. eapply cleanup_keeps_valid; eauto.
  - unfold MemoryCacheStrategy.size, map_size. simpl.
    unfold delete_all. pose proof (delete_keys_length_le
      (expired_keys now (MemoryCacheStrategy.cache s)) (MemoryCacheStrategy.cache s)).
    lia.
Qed.

Lemma lru_ttl_contract now key e (s : LRUCacheStrategy.t) :
  map_get key (LRUCacheStrategy.cache s) = Some e ->
  ttl_contract LRUCacheStrategy.get LRUCacheStrategy.has
    LRUCacheStrategy.cleanup LRUCacheStrategy.cache
    LRUCacheStrategy.size now key e s.
Proof.
  intros Hget. unfold ttl_contract.
  assert (Hhit : CacheEntryImpl.isExpired now e = false ->
                 fst (LRUCacheStrategy.get now key s)
                 = Some (CacheEntryImpl.incrementHits e)).
  { intros E. unfold LRUCacheStrategy.get. now rewrite Hget, E. }
  assert (Hmiss : CacheEntryImpl.isExpired now e = true ->
                  LRUCacheStrategy.get now key s
                  = (None, LRUCacheStrategy.mk
                             (map_delete key (LRUCacheStrategy.cache s))
                             (LRUCacheStrategy.maxSize s))).
  { intros E. unfold LRUCacheStrategy.get. now rewrite Hget, E. }
  assert (Hgone : forall s' later,
            map_get key (LRUCacheStrategy.cache s') = None ->
            LRUCacheStrategy.has later key s' = false
            /\ fst (LRUCacheStrategy.get later key s') = None).
  { intros s' later Hn. unfold LRUCacheStrategy.has, LRUCacheStrategy.get.
    now rewrite Hn. }
  assert (Hexp : CacheEntryImpl.ttl e < now - CacheEntryImpl.timestamp e ->
                 CacheEntryImpl.isExpired now e = true)
    by (intros; unfold CacheEntryImpl.isExpired; now apply Z.ltb_lt).
  repeat split.
  - intros [e' He']. apply isExpired_spec.
    destruct (CacheEntryImpl.isExpired now e) eqn:E; [|reflexivity].
    rewrite (Hmiss eq_refl) in He'. discriminate.
  - intros Hle. apply isExpired_spec in Hle. eexists. exact (Hhit Hle).
  - intros Hle. apply isExpired_spec in Hle. exact (Hhit Hle).
  - now rewrite (Hmiss (Hexp H)).
  - rewrite (Hmiss (Hexp H)). simpl. apply map_get_delete_eq.
  - rewrite (Hmiss (Hexp H)). simpl. apply Hgone. simpl. apply map_get_delete_eq.
  - rewrite (Hmiss (Hexp H)). simpl. apply Hgone. simpl. apply map_get_delete_eq.
  - simpl. eapply cleanup_drops_expired; eauto.
  - apply Hgone. simpl. eapply cleanup_drops_expired; eauto.
  - apply Hgone. simpl. eapply cleanup_drops_expired; eauto.
  - intros k' e' Hin. simpl in Hin. eapply cleanup_keeps_valid; eauto.
  - unfold LRUCacheStrategy.size, map_size. simpl.
    unfold delete_all. pose proof (delete_keys_length_le
      (expired_keys now (LRUCacheStrategy.cache s)) (LRUCacheStrategy.cache s)).
    lia.
Qed.

(** C4.  In either kind of store (the locale and key tiers are
    [MemoryCacheStrategy], the section tier is [LRUCacheStrategy]), for an
    entry [e] stored under [key]: [get] at time [now] is non-null iff
    [now - e.timestamp <= e.ttl]; an expired entry is deleted by that
    [get], so every later [has] and [get] misses; and after [cleanup] at
    [now] the store, whose length is the reported size, holds no expired
    entry and in particular not [e]. *)
Theorem cache_ttl_expiry :
  forall (now : Z) (key : string) (e : CacheEntryImpl.t),
    (forall m : MemoryCacheStrategy.t,
       map_get key (MemoryCacheStrategy.cache m) = Some e ->
       ttl_contract MemoryCacheStrategy.get MemoryCacheStrategy.has
         MemoryCacheStrategy.cleanup MemoryCacheStrategy.cache
         MemoryCacheStrategy.size now key e m)
    /\ (forall l : LRUCacheStrategy.t,
          map_get key (LRUCacheStrategy.cache l) = Some e ->
          ttl_contract LRUCacheStrategy.get LRUCacheStrategy.has
            LRUCacheStrategy.cleanup LRUCacheStrategy.cache
            LRUCacheStrategy.size now key e l).
Proof.
  intros now key e. split.
  - intros m Hm. now apply memory_ttl_contract.
  - intros l Hl. now apply lru_ttl_contract.
Qed.

(* ================================================================== *)
(** * Keys of a store under [set] and [delete]                         *)
(* ================================================================== *)

Section JsMapKeys.
Variable V : Type.
Implicit Types (m : JsMap V) (k : string) (v : V).

Lemma map_keys_delete k m :
  map_keys (map_delete k m)
  = filter (fun k' => negb (String.eqb k k')) (map_keys m).
Proof.
  unfold map_keys, map_delete.
  induction m as [|[k' v'] r IH]; simpl; [reflexivity|].
  destruct (String.eqb k k'); simpl; now rewrite IH.
Qed.

Lemma map_keys_set_present k v m :
  map_has k m = true -> map_keys (map_set k v m) = map_keys m.
Proof.
  unfold map_has, map_keys.
  induction m as [|[k' v'] r IH]; simpl; [discriminate|].
  destruct (String.eqb k k') eqn:E; simpl.
  - intros _. apply String.eqb_eq in E. now subst.
  - intros H. now rewrite IH.
Qed.

Lemma map_keys_set_absent k v m :
  map_has k m = false -> map_keys (map_set k v m) = (map_keys m ++ [k])%list.
Proof.
  unfold map_has, map_keys.
  induction m as [|[k' v'] r IH]; simpl; [reflexivity|].
  destruct (String.eqb k k') eqn:E; simpl; [discriminate|].
  intros H. now rewrite IH.
Qed.

Lemma map_has_delete k m : map_has k (map_delete k m) = false.
Proof. unfold map_has. now rewrite map_get_delete_eq. Qed.

Lemma map_keys_delete_keys ks m :
  map_keys (delete_keys ks m)
  = filter (fun k' => negb (existsb (String.eqb k') ks)) (map_keys m).
Proof.
  unfold delete_keys. revert m.
  induction ks as [|k ks IH]; intros m; simpl.
  - induction (map_keys m) as [|a l IHl]; simpl; [reflexivity|]. now rewrite <- IHl.
  - rewrite IH, map_keys_delete.
    induction (map_keys m) as [|a l IHl]; simpl; [reflexivity|].
    rewrite (String.eqb_sym a k).
    destruct (String.eqb k a); simpl; [exact IHl|].
    destruct (existsb (String.eqb a) ks); simpl; [exact IHl|]. now rewrite IHl.
Qed.

Lemma Forall_keys_set (P : string -> Prop) k v m :
  P k -> Forall P (map_keys m) -> Forall P (map_keys (map_set k v m)).
Proof.
  intros Hk Hm. destruct (map_has k m) eqn:E.
  - now rewrite map_keys_set_present.
  - rewrite map_keys_set_absent by assumption.
    apply Forall_app. split; [assumption|]. now constructor.
Qed.

Lemma Forall_filter_keys (P : string -> Prop) (f : string -> bool) (l : list string) :
  Forall P l -> Forall P (filter f l).
Proof.
  intros H. apply Forall_forall. intros x Hx. apply filter_In in Hx.
  destruct Hx as [Hx _]. revert x Hx. now apply Forall_forall.
Qed.

Lemma Forall_keys_delete (P : string -> Prop) k m :
  Forall P (map_keys m) -> Forall P (map_keys (map_delete k m)).
Proof. intros H. rewrite map_keys_delete. now apply Forall_filter_keys. Qed.

Lemma Forall_keys_delete_keys (P : string -> Prop) ks m :
  Forall P (map_keys m) -> Forall P (map_keys (delete_keys ks m)).
Proof. intros H. rewrite map_keys_delete_keys. now apply Forall_filter_keys. Qed.

Lemma map_set_length_present k v m :
  map_has k m = true -> List.length (map_set k v m) = List.length m.
Proof.
  intros H. apply (map_keys_set_present k v) in H.
  apply (f_equal (@List.length string)) in H. unfold map_keys in H.
  now rewrite !length_map in H.
Qed.
End JsMapKeys.

(* ================================================================== *)
(** * Capacity                                                         *)
(* ================================================================== *)

(** A store within its bound, all of whose keys are truthy. *)
Definition store_ok (cache : CacheMap) (maxSize : Z) : Prop :=
  map_size cache <= maxSize
  /\ Forall (fun k => truthy k = true) (map_keys cache).

Lemma scan_keeps_choice now (m : CacheMap) st :
  MemoryCacheStrategy.leastUsedKey st <> None ->
  MemoryCacheStrategy.leastUsedKey
    (fold_left (MemoryCacheStrategy.scan_step now) m st) <> None.
Proof.
  revert st. induction m as [|kv r IH]; intros st H; simpl; [exact H|].
  apply IH. unfold MemoryCacheStrategy.scan_step.
  destruct (_ || _); simpl; [discriminate | exact H].
Qed.

Lemma scan_choice_in now (m : CacheMap) st k :
  MemoryCacheStrategy.leastUsedKey
    (fold_left (MemoryCacheStrategy.scan_step now) m st) = Some k ->
  MemoryCacheStrategy.leastUsedKey st = Some k \/ In k (map_keys m).
Proof.
  revert st. induction m as [|kv r IH]; intros st H; simpl in *; [now left|].
  apply IH in H. destruct H as [H|H]; [|now right; right].
  unfold MemoryCacheStrategy.scan_step in H.
  destruct (_ || _); simpl in H; [|now left].
  right. left. congruence.
Qed.

(** On a non-empty store [evictLeastUsed] settles on one of its keys. *)
Lemma scan_chooses now (m : CacheMap) :
  m <> [] ->
  exists k,
    MemoryCacheStrategy.leastUsedKey
      (fold_left (MemoryCacheStrategy.scan_step now) m
                 MemoryCacheStrategy.scan_init) = Some k
    /\ In k (map_keys m).
Proof.
  intros Hne.
  destruct (MemoryCacheStrategy.leastUsedKey
              (fold_left (MemoryCacheStrategy.scan_step now) m
                         MemoryCacheStrategy.scan_init)) as [k|] eqn:E.
  - exists k. split; [reflexivity|].
    apply scan_choice_in in E. destruct E as [E|E]; [discriminate | exact E].
  - exfalso. destruct m as [|kv r]; [congruence|]. simpl in E.
    revert E. apply scan_keeps_choice.
    unfold MemoryCacheStrategy.scan_step. simpl. discriminate.
Qed.

Lemma memory_evict_shrinks now (s : MemoryCacheStrategy.t) :
  MemoryCacheStrategy.cache s <> [] ->
  Forall (fun k => truthy k = true) (map_keys (MemoryCacheStrategy.cache s)) ->
  map_size (MemoryCacheStrategy.cache (MemoryCacheStrategy.evictLeastUsed now s))
  <= map_size (MemoryCacheStrategy.cache s) - 1
  /\ MemoryCacheStrategy.maxSize (MemoryCacheStrategy.evictLeastUsed now s)
     = MemoryCacheStrategy.maxSize s
  /\ Forall (fun k => truthy k = true)
       (map_keys (MemoryCacheStrategy.cache
                    (MemoryCacheStrategy.evictLeastUsed now s))).
Proof.
  intros Hne Hkeys. unfold MemoryCacheStrategy.evictLeastUsed.
  destruct (scan_chooses now Hne) as [k [-> Hin]].
  assert (Hk : truthy k = true) by (revert k Hin; now apply Forall_forall).
  rewrite Hk. simpl. repeat split.
  - unfold map_size.
    pose proof (@map_delete_length_lt _ k (MemoryCacheStrategy.cache s)
                  (proj2 (map_has_true k _) Hin)). lia.
  - now apply Forall_keys_delete.
Qed.

Lemma memory_set_ok now key d ttl (s : MemoryCacheStrategy.t) :
  0 < MemoryCacheStrategy.maxSize s ->
  truthy key = true ->
  store_ok (MemoryCacheStrategy.cache s) (MemoryCacheStrategy.maxSize s) ->
  store_ok (MemoryCacheStrategy.cache (MemoryCacheStrategy.set now key d ttl s))
           (MemoryCacheStrategy.maxSize s)
  /\ MemoryCacheStrategy.maxSize (MemoryCacheStrategy.set now key d ttl s)
     = MemoryCacheStrategy.maxSize s.
Proof.
  intros Hpos Hkey [Hsize Hkeys]. unfold MemoryCacheStrategy.set.
  destruct (MemoryCacheStrategy.maxSize s <=? map_size (MemoryCacheStrategy.cache s))
    eqn:E.
  - apply Z.leb_le in E.
    assert (Hne : MemoryCacheStrategy.cache s <> []).
    { intros H0. rewrite H0 in E. unfold map_size in E. simpl in E. lia. }
    destruct (@memory_evict_shrinks now s Hne Hkeys) as [H1 [H2 H3]].
    simpl. rewrite H2. split; [|reflexivity]. split.
    + pose proof (map_set_length_le key (CacheEntryImpl.new now d ttl)
        (MemoryCacheStrategy.cache (MemoryCacheStrategy.evictLeastUsed now s))).
      unfold map_size in *. lia.
    + now apply Forall_keys_set.
  - apply Z.leb_gt in E. simpl. split; [|reflexivity]. split.
    + pose proof (map_set_length_le key (CacheEntryImpl.new now d ttl)
        (MemoryCacheStrategy.cache s)). unfold map_size in *. lia.
    + now apply Forall_keys_set.
Qed.

Lemma memory_get_ok now key (s : MemoryCacheStrategy.t) :
  store_ok (MemoryCacheStrategy.cache s) (MemoryCacheStrategy.maxSize s) ->
  store_ok (MemoryCacheStrategy.cache (snd (MemoryCacheStrategy.get now key s)))
           (MemoryCacheStrategy.maxSize s)
  /\ MemoryCacheStrategy.maxSize (snd (MemoryCacheStrategy.get now key s))
     = MemoryCacheStrategy.maxSize s.
Proof.
  intros [Hsize Hkeys]. unfold MemoryCacheStrategy.get.
  destruct (map_get key (MemoryCacheStrategy.cache s)) as [e|] eqn:E; simpl;
    [|now repeat split].
  destruct (CacheEntryImpl.isExpired now e); simpl; (split; [|reflexivity]); split.
  - pose proof (map_delete_length_le key (MemoryCacheStrategy.cache s)).
    unfold map_size in *. lia.
  - now apply Forall_keys_delete.
  - assert (Hhas : map_has key (MemoryCacheStrategy.cache s) = true)
      by (unfold map_has; now rewrite E).
    unfold map_size in *. now rewrite map_set_length_present.
  - assert (Hhas : map_has key (MemoryCacheStrategy.cache s) = true)
      by (unfold map_has; now rewrite E).
    now rewrite map_keys_set_present.
Qed.

Lemma cleanup_ok now (cache : CacheMap) maxSize :
  store_ok cache maxSize ->
  store_ok (delete_all (expired_keys now cache) cache) maxSize.
Proof.
  intros [Hsize Hkeys]. unfold delete_all. split.
  - pose proof (delete_keys_length_le (expired_keys now cache) cache).
    unfold map_size in *. lia.
  - now apply Forall_keys_delete_keys.
Qed.

Lemma lru_evictFirst_cons (s : LRUCacheStrategy.t) k e r :
  LRUCacheStrategy.cache s = (k, e) :: r ->
  truthy k = true ->
  LRUCacheStrategy.evictFirst s
  = LRUCacheStrategy.mk (map_delete k (LRUCacheStrategy.cache s))
                        (LRUCacheStrategy.maxSize s).
Proof.
  intros E Hk. unfold LRUCacheStrategy.evictFirst. rewrite E.
  cbn [map_first_key]. now rewrite Hk.
Qed.

Lemma lru_evict_shrinks (s : LRUCacheStrategy.t) :
  LRUCacheStrategy.cache s <> [] ->
  Forall (fun k => truthy k = true) (map_keys (LRUCacheStrategy.cache s)) ->
  map_size (LRUCacheStrategy.cache (LRUCacheStrategy.evictFirst s))
  <= map_size (LRUCacheStrategy.cache s) - 1
  /\ Forall (fun k => truthy k = true)
       (map_keys (LRUCacheStrategy.cache (LRUCacheStrategy.evictFirst s))).
Proof.
  intros Hne Hkeys.
  destruct (LRUCacheStrategy.cache s) as [|[k e] r] eqn:E; [congruence|].
  assert (Hk : truthy k = true) by (inversion Hkeys; assumption).
  rewrite (lru_evictFirst_cons s E Hk). cbn [LRUCacheStrategy.cache].
  rewrite E. split.
  - assert (Hhas : map_has k ((k, e) :: r) = true).
    { apply map_has_true. now left. }
    pose proof (map_delete_length_lt k ((k, e) :: r) Hhas) as Hlt.
    unfold map_size. lia.
  - now apply Forall_keys_delete.
Qed.

Lemma lru_set_ok now key d ttl (s : LRUCacheStrategy.t) :
  0 < LRUCacheStrategy.maxSize s ->
  truthy key = true ->
  store_ok (LRUCacheStrategy.cache s) (LRUCacheStrategy.maxSize s) ->
  store_ok (LRUCacheStrategy.cache (LRUCacheStrategy.set now key d ttl s))
           (LRUCacheStrategy.maxSize s)
  /\ LRUCacheStrategy.maxSize (LRUCacheStrategy.set now key d ttl s)
     = LRUCacheStrategy.maxSize s.
Proof.
  intros Hpos Hkey [Hsize Hkeys]. unfold LRUCacheStrategy.set.
  assert (Hmax : LRUCacheStrategy.maxSize (LRUCacheStrategy.evictFirst s)
                 = LRUCacheStrategy.maxSize s).
  { unfold LRUCacheStrategy.evictFirst.
    destruct (map_first_key _) as [k|]; [|reflexivity]. now destruct (truthy k). }
  destruct (LRUCacheStrategy.maxSize s <=? map_size (LRUCacheStrategy.cache s))
    eqn:E.
  - apply Z.leb_le in E.
    assert (Hne : LRUCacheStrategy.cache s <> []).
    { intros H0. rewrite H0 in E. unfold map_size in E. simpl in E. lia. }
    destruct (@lru_evict_shrinks s Hne Hkeys) as [H1 H3].
    simpl. rewrite Hmax. split; [|reflexivity]. split.
    + pose proof (map_set_length_le key (CacheEntryImpl.new now d ttl)
        (LRUCacheStrategy.cache (LRUCacheStrategy.evictFirst s))).
      unfold map_size in *. lia.
    + now apply Forall_keys_set.
  - apply Z.leb_gt in E. simpl. split; [|reflexivity]. split.
    + pose proof (map_set_length_le key (CacheEntryImpl.new now d ttl)
        (LRUCacheStrategy.cache s)). unfold map_size in *. lia.
    + now apply Forall_keys_set.
Qed.

Lemma lru_get_ok now key (s : LRUCacheStrategy.t) :
  store_ok (LRUCacheStrategy.cache s) (LRUCacheStrategy.maxSize s) ->
  store_ok (LRUCacheStrategy.cache (snd (LRUCacheStrategy.get now key s)))
           (LRUCacheStrategy.maxSize s)
  /\ LRUCacheStrategy.maxSize (snd (LRUCacheStrategy.get now key s))
     = LRUCacheStrategy.maxSize s.
Proof.
  intros [Hsize Hkeys]. unfold LRUCacheStrategy.get.
  destruct (map_get key (LRUCacheStrategy.cache s)) as [e|] eqn:E; simpl;
    [|now repeat split].
  assert (Hhas : map_has key (LRUCacheStrategy.cache s) = true)
    by (unfold map_has; now rewrite E).
  destruct (CacheEntryImpl.isExpired now e); simpl; (split; [|reflexivity]); split.
  - pose proof (map_delete_length_le key (LRUCacheStrategy.cache s)).
    unfold map_size in *. lia.
  - now apply Forall_keys_delete.
  - pose proof (map_delete_length_lt key (LRUCacheStrategy.cache s) Hhas).
    pose proof (map_set_length_le key (CacheEntryImpl.incrementHits e)
                  (map_delete key (LRUCacheStrategy.cache s))).
    unfold map_size in *. lia.
  - apply Forall_keys_set; [|now apply Forall_keys_delete].
    apply map_has_true in Hhas. rewrite Forall_forall in Hkeys. now apply Hkeys.
Qed.

(** The bounds of the three tiers built by the manager's constructor
    from configuration [c]: [maxSize] for the locale and section tiers,
    [2 * maxSize] for the key tier. *)
Definition manager_ok (c : CacheConfig) (m : TranslationCacheManager.t) : Prop :=
  MemoryCacheStrategy.maxSize (TranslationCacheManager.localeCache m) = cfg_maxSize c
  /\ LRUCacheStrategy.maxSize (TranslationCacheManager.sectionCache m) = cfg_maxSize c
  /\ MemoryCacheStrategy.maxSize (TranslationCacheManager.keyCache m)
     = cfg_maxSize c * 2
  /\ store_ok (MemoryCacheStrategy.cache (TranslationCacheManager.localeCache m))
              (cfg_maxSize c)
  /\ store_ok (LRUCacheStrategy.cache (TranslationCacheManager.sectionCache m))
              (cfg_maxSize c)
  /\ store_ok (MemoryCacheStrategy.cache (TranslationCacheManager.keyCache m))
              (cfg_maxSize c * 2).

Lemma manager_ok_new c :
  0 < cfg_maxSize c -> manager_ok c (TranslationCacheManager.new c).
Proof.
  intros Hpos. unfold manager_ok, store_ok, map_size. simpl.
  repeat split; try constructor; lia.
Qed.

Ltac conjs := repeat match goal with |- _ /\ _ => split end.

Ltac manager_fields :=
  cbn [TranslationCacheManager.localeCache TranslationCacheManager.sectionCache
       TranslationCacheManager.keyCache TranslationCacheManager.config].

Lemma manager_ok_apply c m op :
  0 < cfg_maxSize c -> manager_ok c m -> manager_ok c (apply_op m op).
Proof.
  intros Hpos (Hl & Hs & Hk & Ol & Os & Ok).
  unfold manager_ok.
  destruct op as [now l d|now l sct d|now l k v|now l|now l sct|now l k|now| |l];
    cbn [apply_op].
  - unfold TranslationCacheManager.setLocaleCache,
      TranslationCacheManager.with_locale. manager_fields.
    destruct (@memory_set_ok now (TranslationCacheManager.localeKey l) d
                (Some (cfg_ttl (TranslationCacheManager.config m)))
                (TranslationCacheManager.localeCache m)) as [A B];
      [rewrite Hl; lia | reflexivity | rewrite Hl; exact Ol |].
    rewrite Hl in A, B. conjs; assumption.
  - unfold TranslationCacheManager.setSectionCache,
      TranslationCacheManager.with_section. manager_fields.
    destruct (@lru_set_ok now (TranslationCacheManager.sectionKey l sct) d
                (Some (cfg_ttl (TranslationCacheManager.config m)))
                (TranslationCacheManager.sectionCache m)) as [A B];
      [rewrite Hs; lia | reflexivity | rewrite Hs; exact Os |].
    rewrite Hs in A, B. conjs; assumption.
  - unfold TranslationCacheManager.setKeyCache,
      TranslationCacheManager.with_key. manager_fields.
    destruct (@memory_set_ok now (TranslationCacheManager.keyKey l k) (JStr v)
                (Some (cfg_ttl (TranslationCacheManager.config m)))
                (TranslationCacheManager.keyCache m)) as [A B];
      [rewrite Hk; lia | reflexivity | rewrite Hk; exact Ok |].
    rewrite Hk in A, B. conjs; assumption.
  - unfold TranslationCacheManager.getLocaleCache.
    destruct (@memory_get_ok now (TranslationCacheManager.localeKey l)
                (TranslationCacheManager.localeCache m)) as [A B];
      [rewrite Hl; exact Ol|].
    destruct (MemoryCacheStrategy.get now (TranslationCacheManager.localeKey l)
                (TranslationCacheManager.localeCache m)) as [r s'].
    cbn [snd fst] in *. unfold TranslationCacheManager.with_locale. manager_fields.
    rewrite Hl in A, B. conjs; assumption.
  - unfold TranslationCacheManager.getSectionCache.
    destruct (@lru_get_ok now (TranslationCacheManager.sectionKey l sct)
                (TranslationCacheManager.sectionCache m)) as [A B];
      [rewrite Hs; exact Os|].
    destruct (LRUCacheStrategy.get now (TranslationCacheManager.sectionKey l sct)
                (TranslationCacheManager.sectionCache m)) as [r s'].
    cbn [snd fst] in *. unfold TranslationCacheManager.with_section. manager_fields.
    rewrite Hs in A, B. conjs; assumption.
  - unfold TranslationCacheManager.getKeyCache.
    destruct (@memory_get_ok now (TranslationCacheManager.keyKey l k)
                (TranslationCacheManager.keyCache m)) as [A B];
      [rewrite Hk; exact Ok|].
    destruct (MemoryCacheStrategy.get now (TranslationCacheManager.keyKey l k)
                (TranslationCacheManager.keyCache m)) as [r s'].
    cbn [snd fst] in *. unfold TranslationCacheManager.with_key. manager_fields.
    rewrite Hk in A, B. conjs; assumption.
  - unfold TranslationCacheManager.cleanup. manager_fields.
    unfold MemoryCacheStrategy.cleanup, LRUCacheStrategy.cleanup.
    cbn [MemoryCacheStrategy.cache MemoryCacheStrategy.maxSize
         LRUCacheStrategy.cache LRUCacheStrategy.maxSize].
    conjs; try assumption; now apply cleanup_ok.
  - unfold TranslationCacheManager.clearAll. manager_fields.
    unfold MemoryCacheStrategy.clear, LRUCacheStrategy.clear.
    cbn [MemoryCacheStrategy.cache MemoryCacheStrategy.maxSize
         LRUCacheStrategy.cache LRUCacheStrategy.maxSize].
    conjs; try assumption; (split; [unfold map_size; simpl; lia | constructor]).
  - unfold TranslationCacheManager.clearLocale. manager_fields.
    unfold MemoryCacheStrategy.clear, LRUCacheStrategy.clear.
    cbn [MemoryCacheStrategy.cache MemoryCacheStrategy.maxSize
         LRUCacheStrategy.cache LRUCacheStrategy.maxSize].
    conjs; try assumption; (split; [unfold map_size; simpl; lia | constructor]).
Qed.

Lemma manager_ok_run c ops m :
  0 < cfg_maxSize c -> manager_ok c m -> manager_ok c (run_ops ops m).
Proof.
  intros Hpos. unfold run_ops. revert m.
  induction ops as [|op ops IH]; intros m Hm; simpl; [exact Hm|].
  apply IH. now apply manager_ok_apply.
Qed.

(* ================================================================== *)
(** * Recency order of the LRU store                                   *)
(* ================================================================== *)

(** [a] was accessed longer ago than [b]. *)
Definition more_idle (ops : list LruOp) (a b : string) : Prop :=
  exists i j, idle a ops = Some i /\ idle b ops = Some j /\ (j < i)%nat.

(** The keys of the store run from the least to the most recently
    accessed one. *)
Definition recency_sorted (ops : list LruOp) (ks : list string) : Prop :=
  StronglySorted (more_idle ops) ks
  /\ Forall (fun k => exists i, idle k ops = Some i) ks.

Lemma idle_snoc k ops op :
  idle k (ops ++ [op])
  = if accesses k op then Some O
    else match idle k ops with Some n => Some (S n) | None => None end.
Proof. unfold idle. now rewrite rev_app_distr. Qed.

Lemma StronglySorted_filter (A : Type) (R : A -> A -> Prop) (f : A -> bool) l :
  StronglySorted R l -> StronglySorted R (filter f l).
Proof.
  induction 1 as [|a l Hs IH Hf]; simpl; [constructor|].
  destruct (f a); [|exact IH]. constructor; [exact IH|].
  apply Forall_forall. intros x Hx. apply filter_In in Hx.
  rewrite Forall_forall in Hf. now apply Hf.
Qed.

Lemma StronglySorted_snoc (A : Type) (R : A -> A -> Prop) l x :
  StronglySorted R l -> Forall (fun a => R a x) l -> StronglySorted R (l ++ [x]).
Proof.
  induction 1 as [|a l Hs IH Hf]; intros Hx; simpl.
  - constructor; constructor.
  - inversion Hx; subst. constructor; [now apply IH|].
    apply Forall_app. split; [exact Hf | now constructor].
Qed.

Lemma recency_sorted_filter ops f ks :
  recency_sorted ops ks -> recency_sorted ops (filter f ks).
Proof.
  intros [Hs Hf]. split.
  - now apply StronglySorted_filter.
  - apply Forall_forall. intros x Hx. apply filter_In in Hx.
    rewrite Forall_forall in Hf. now apply Hf.
Qed.

(** An operation that accesses none of the keys ages them all alike. *)
Lemma recency_sorted_age ops op ks :
  (forall k, In k ks -> accesses k op = false) ->
  recency_sorted ops ks -> recency_sorted (ops ++ [op]) ks.
Proof.
  intros Hno [Hs Hf]. split.
  - clear Hf. induction Hs as [|a l Hs IH Ha]; [constructor|].
    constructor.
    + apply IH. intros k Hk. apply Hno. now right.
    + apply Forall_forall. intros b Hb. rewrite Forall_forall in Ha.
      destruct (Ha b Hb) as (i & j & Hi & Hj & Hlt).
      exists (S i), (S j). rewrite !idle_snoc.
      rewrite (Hno a (or_introl eq_refl)), (Hno b (or_intror Hb)), Hi, Hj.
      repeat split; lia.
  - apply Forall_forall. intros k Hk. rewrite Forall_forall in Hf.
    destruct (Hf k Hk) as [i Hi]. exists (S i).
    now rewrite idle_snoc, (Hno k Hk), Hi.
Qed.

(** An operation that accesses [k] alone makes it the most recent. *)
Lemma recency_sorted_touch ops op ks k :
  accesses k op = true ->
  (forall k', In k' ks -> accesses k' op = false) ->
  recency_sorted ops ks -> recency_sorted (ops ++ [op]) (ks ++ [k]).
Proof.
  intros Hk Hno Hsorted.
  destruct (recency_sorted_age op Hno Hsorted) as [Hs Hf]. split.
  - apply StronglySorted_snoc; [exact Hs|].
    apply Forall_forall. intros a Ha. rewrite Forall_forall in Hf.
    destruct (Hf a Ha) as [i Hi]. destruct Hsorted as [_ Hf0].
    rewrite Forall_forall in Hf0. destruct (Hf0 a Ha) as [i0 Hi0].
    exists (S i0), O. rewrite !idle_snoc, Hk, (Hno a Ha), Hi0.
    repeat split; lia.
  - apply Forall_app. split; [exact Hf|]. constructor; [|constructor].
    exists O. now rewrite idle_snoc, Hk.
Qed.

Lemma accesses_other k k' now d ttl :
  k' <> k -> accesses k' (LSet now k d ttl) = false.
Proof. intros H. simpl. now apply String.eqb_neq. Qed.

Lemma filter_neq_keeps (k : string) (ks : list string) :
  ~ In k ks -> filter (fun k' => negb (String.eqb k k')) ks = ks.
Proof.
  induction ks as [|a l IH]; simpl; [reflexivity|].
  intros H. destruct (String.eqb k a) eqn:E.
  - apply String.eqb_eq in E. subst. tauto.
  - simpl. rewrite IH; tauto.
Qed.

(** The state reached from an empty store by a history whose [set]s all
    write fresh, non-empty keys. *)
Definition lru_history_ok (ops : list LruOp) : Prop :=
  NoDup (set_keys ops) /\ Forall (fun k => truthy k = true) (set_keys ops).

Lemma set_keys_snoc ops op :
  set_keys (ops ++ [op])
  = (set_keys ops ++ match op with LSet _ k _ _ => [k] | _ => [] end)%list.
Proof. unfold set_keys. rewrite flat_map_app. simpl. now rewrite app_nil_r. Qed.

Lemma lru_history_ok_prefix ops op :
  lru_history_ok (ops ++ [op]) -> lru_history_ok ops.
Proof.
  unfold lru_history_ok. rewrite set_keys_snoc. intros [Hnd Hf]. split.
  - now apply NoDup_app_remove_r in Hnd.
  - apply Forall_app in Hf. tauto.
Qed.

Lemma lru_history_ok_fresh ops now k d ttl :
  lru_history_ok (ops ++ [LSet now k d ttl]) ->
  ~ In k (set_keys ops) /\ truthy k = true.
Proof.
  unfold lru_history_ok. rewrite set_keys_snoc. intros [Hnd Hf]. split.
  - intros Hin. apply NoDup_remove_2 with (l' := []) in Hnd.
    rewrite app_nil_r in Hnd. tauto.
  - apply Forall_app in Hf. destruct Hf as [_ Hf]. now inversion Hf.
Qed.

(** What [set] does to the key order when the written key is new: the
    first key leaves if the store is at capacity, the new key goes last. *)
Lemma lru_set_keys_fresh now k d ttl (s : LRUCacheStrategy.t) :
  ~ In k (map_keys (LRUCacheStrategy.cache s)) ->
  Forall (fun k => truthy k = true) (map_keys (LRUCacheStrategy.cache s)) ->
  map_keys (LRUCacheStrategy.cache (LRUCacheStrategy.set now k d ttl s))
  = ((if LRUCacheStrategy.maxSize s <=? map_size (LRUCacheStrategy.cache s)
      then match map_keys (LRUCacheStrategy.cache s) with
           | [] => []
           | victim :: rest =>
               filter (fun k' => negb (String.eqb victim k')) rest
           end
      else map_keys (LRUCacheStrategy.cache s)) ++ [k])%list.
Proof.
  intros Hfresh Hkeys. unfold LRUCacheStrategy.set.
  destruct (LRUCacheStrategy.maxSize s <=? map_size (LRUCacheStrategy.cache s)).
  - destruct (LRUCacheStrategy.cache s) as [|[v e] r] eqn:E.
    + unfold LRUCacheStrategy.evictFirst. rewrite E.
      cbn [map_first_key LRUCacheStrategy.cache]. rewrite E. reflexivity.
    + assert (Hv : truthy v = true) by (inversion Hkeys; assumption).
      rewrite (lru_evictFirst_cons s E Hv). cbn [LRUCacheStrategy.cache].
      rewrite E. rewrite map_keys_set_absent.
      * rewrite map_keys_delete. cbn [map_keys List.map fst filter].
        now rewrite String.eqb_refl.
      * destruct (map_has k (map_delete v ((v, e) :: r))) eqn:Hh; [|reflexivity].
        apply map_has_true in Hh. rewrite map_keys_delete in Hh.
        apply filter_In in Hh. tauto.
  - cbn [LRUCacheStrategy.cache]. apply map_keys_set_absent.
    destruct (map_has k (LRUCacheStrategy.cache s)) eqn:Hh; [|reflexivity].
    apply map_has_true in Hh. tauto.
Qed.

Lemma lru_maxSize_apply s op :
  LRUCacheStrategy.maxSize (lru_apply s op) = LRUCacheStrategy.maxSize s.
Proof.
  destruct op as [now k d ttl|now k|now k|now]; cbn [lru_apply]; try reflexivity.
  - unfold LRUCacheStrategy.set. cbn [LRUCacheStrategy.maxSize].
    destruct (_ <=? _); [|reflexivity].
    unfold LRUCacheStrategy.evictFirst.
    destruct (map_first_key _) as [x|]; [|reflexivity]. now destruct (truthy x).
  - unfold LRUCacheStrategy.get.
    destruct (map_get k _) as [e|]; [|reflexivity].
    now destruct (CacheEntryImpl.isExpired now e).
Qed.

(** Invariant of the LRU store along such a history: its keys were all
    written by a [set] of the history, and they are in recency order. *)
Lemma lru_recency_invariant c ops :
  lru_history_ok ops ->
  let s := lru_run ops (LRUCacheStrategy.new c) in
  incl (map_keys (LRUCacheStrategy.cache s)) (set_keys ops)
  /\ recency_sorted ops (map_keys (LRUCacheStrategy.cache s))
  /\ LRUCacheStrategy.maxSize s = cfg_maxSize c.
Proof.
  induction ops as [|op ops IH] using rev_ind; intros Hok.
  - cbn. repeat split; try constructor. intros x [].
  - specialize (IH (lru_history_ok_prefix _ _ Hok)).
    cbn zeta in IH. destruct IH as (Hincl & Hsorted & Hmax).
    unfold lru_run in *. rewrite fold_left_app. cbn [fold_left].
    set (s := fold_left lru_apply ops (LRUCacheStrategy.new c)) in *.
    assert (Htruthy : Forall (fun k => truthy k = true)
                        (map_keys (LRUCacheStrategy.cache s))).
    { apply Forall_forall. intros x Hx. apply Hincl in Hx.
      destruct Hok as [_ Hf]. rewrite set_keys_snoc in Hf.
      apply Forall_app in Hf. destruct Hf as [Hf _].
      rewrite Forall_forall in Hf. now apply Hf. }
    split; [|split; [|now rewrite lru_maxSize_apply]].
    + rewrite set_keys_snoc.
      destruct op as [now k d ttl|now k|now k|now]; cbn [lru_apply].
      * destruct (lru_history_ok_fresh _ _ _ _ _ Hok) as [Hfresh Hk].
        rewrite lru_set_keys_fresh; [|intros H; apply Hfresh; now apply Hincl|exact Htruthy].
        intros x Hx. apply in_app_or in Hx. apply in_or_app.
        destruct Hx as [Hx|Hx]; [left|now right]. apply Hincl.
        destruct (_ <=? _); [|exact Hx].
        destruct (map_keys (LRUCacheStrategy.cache s)) as [|v rest]; [destruct Hx|].
        apply filter_In in Hx. right. tauto.
      * rewrite app_nil_r. unfold LRUCacheStrategy.get.
        destruct (map_get k (LRUCacheStrategy.cache s)) as [e|] eqn:E;
          [|exact Hincl].
        assert (Hin : In k (map_keys (LRUCacheStrategy.cache s))).
        { apply map_has_true. unfold map_has. now rewrite E. }
        destruct (CacheEntryImpl.isExpired now e); cbn [snd LRUCacheStrategy.cache].
        -- rewrite map_keys_delete. intros x Hx. apply filter_In in Hx.
           apply Hincl. tauto.
        -- rewrite map_keys_set_absent by apply map_has_delete.
           rewrite map_keys_delete. intros x Hx. apply in_app_or in Hx.
           destruct Hx as [Hx|[<-|[]]]; [|now apply Hincl].
           apply filter_In in Hx. apply Hincl. tauto.
      * rewrite app_nil_r. exact Hincl.
      * rewrite app_nil_r. cbn [LRUCacheStrategy.cleanup LRUCacheStrategy.cache].
        unfold delete_all. rewrite map_keys_delete_keys.
        intros x Hx. apply filter_In in Hx. apply Hincl. tauto.
    + destruct op as [now k d ttl|now k|now k|now]; cbn [lru_apply].
      * destruct (lru_history_ok_fresh _ _ _ _ _ Hok) as [Hfresh Hk].
        assert (Hnotin : ~ In k (map_keys (LRUCacheStrategy.cache s)))
          by (intros H; apply Hfresh; now apply Hincl).
        rewrite lru_set_keys_fresh by assumption.
        apply recency_sorted_touch.
        -- simpl. apply String.eqb_refl.
        -- intros k' Hk'. apply accesses_other. intros ->. apply Hnotin.
           destruct (_ <=? _); [|exact Hk'].
           destruct (map_keys (LRUCacheStrategy.cache s)) as [|v rest];
             [destruct Hk'|].
           apply filter_In in Hk'. right. tauto.
        -- destruct (_ <=? _); [|exact Hsorted].
           destruct (map_keys (LRUCacheStrategy.cache s)) as [|v rest];
             [exact Hsorted|].
           apply recency_sorted_filter. destruct Hsorted as [Hs Hf].
           inversion Hs; subst. inversion Hf; subst. split; assumption.
      * unfold LRUCacheStrategy.get.
        destruct (map_get k (LRUCacheStrategy.cache s)) as [e|] eqn:E.
        -- destruct (CacheEntryImpl.isExpired now e);
             cbn [snd LRUCacheStrategy.cache].
           ++ rewrite map_keys_delete. apply recency_sorted_age.
              ** intros k' Hk'. apply filter_In in Hk'. destruct Hk' as [_ Hk'].
                 simpl. rewrite String.eqb_sym.
                 now destruct (String.eqb k k').
              ** now apply recency_sorted_filter.
           ++ rewrite map_keys_set_absent by apply map_has_delete.
              rewrite map_keys_delete. apply recency_sorted_touch.
              ** simpl. apply String.eqb_refl.
              ** intros k' Hk'. apply filter_In in Hk'. destruct Hk' as [_ Hk'].
                 simpl. rewrite String.eqb_sym.
                 now destruct (String.eqb k k').
              ** now apply recency_sorted_filter.
        -- cbn [snd]. apply recency_sorted_age; [|exact Hsorted].
           intros k' Hk'. simpl.
           destruct (String.eqb k' k) eqn:E'; [|reflexivity].
           apply String.eqb_eq in E'. subst k'.
           apply map_has_true in Hk'. unfold map_has in Hk'.
           rewrite E in Hk'. discriminate.
      * apply recency_sorted_age; [|exact Hsorted]. reflexivity.
      * cbn [LRUCacheStrategy.cleanup LRUCacheStrategy.cache].
        unfold delete_all. rewrite map_keys_delete_keys.
        apply recency_sorted_age; [reflexivity|].
        now apply recency_sorted_filter.
Qed.

Lemma cache_ttl_expiry_witness :
  let e := CacheEntryImpl.mk (JStr "Hello") 0 1000 0 in
  let m := MemoryCacheStrategy.mk [("locale:en"%string, e)] 5 in
  let l := LRUCacheStrategy.mk [("locale:en"%string, e)] 5 in
  map_get "locale:en"%string (MemoryCacheStrategy.cache m) = Some e
  /\ map_get "locale:en"%string (LRUCacheStrategy.cache l) = Some e
  /\ ttl_contract MemoryCacheStrategy.get MemoryCacheStrategy.has
       MemoryCacheStrategy.cleanup MemoryCacheStrategy.cache
       MemoryCacheStrategy.size 1001 "locale:en"%string e m
  /\ ttl_contract LRUCacheStrategy.get LRUCacheStrategy.has
       LRUCacheStrategy.cleanup LRUCacheStrategy.cache
       LRUCacheStrategy.size 1001 "locale:en"%string e l.
Proof.
  intros e m l.
  assert (H1 : map_get "locale:en"%string (MemoryCacheStrategy.cache m) = Some e)
    by reflexivity.
  assert (H2 : map_get "locale:en"%string (LRUCacheStrategy.cache l) = Some e)
    by reflexivity.
  split; [exact H1|]. split; [exact H2|]. split.
  - exact (proj1 (cache_ttl_expiry 1001 "locale:en"%string e) m H1).
  - exact (proj2 (cache_ttl_expiry 1001 "locale:en"%string e) l H2).
Defined.

(* ================================================================== *)
(** * C2 : clearLocale                                                 *)
(* ================================================================== *)

(** [testCacheConfig] of cache.spec.ts. *)
Definition testCacheConfig : CacheConfig := mkCacheConfig 5 1000 true false 100.

(** The steps of the test 'should clear locale-specific caches' before
    its call of [clearLocale('en')], all at one instant. *)
Definition clearLocale_test_ops : list CacheOp :=
  [OpSetLocale 0 "en" (JObj [("test", JStr "value")]);
   OpSetSection 0 "en" "common" (JObj [("hello", JStr "Hello")]);
   OpSetKey 0 "en" "common.hello" "Hello";
   OpSetLocale 0 "vi" (JObj [("test", JStr "gia tri")]);
   OpSetSection 0 "vi" "common" (JObj [("hello", JStr "Xin chao")])]%string.

Lemma clearLocale_is_clearAll locale m :
  TranslationCacheManager.clearLocale locale m = TranslationCacheManager.clearAll m.
Proof. reflexivity. Qed.

(** C2 (the code departs from the claim).  After caching [en] and [vi] at
    the locale and section tiers, both [vi] entries are present; after
    [clearLocale "en"] neither is: [hasLocaleCache "vi"] and
    [hasSectionCache "vi" "common"] are false. *)
Theorem clearLocale_drops_other_locale :
  let before :=
    run_ops clearLocale_test_ops (TranslationCacheManager.new testCacheConfig) in
  let after := TranslationCacheManager.clearLocale "en"%string before in
  TranslationCacheManager.hasLocaleCache 0 "vi"%string before = true
  /\ TranslationCacheManager.hasSectionCache 0 "vi"%string "common"%string before
     = true
  /\ TranslationCacheManager.hasLocaleCache 0 "vi"%string after = false
  /\ TranslationCacheManager.hasSectionCache 0 "vi"%string "common"%string after
     = false.
Proof. vm_compute. repeat split. Qed.

(* ================================================================== *)
(** * C6 : the recovery executor                                       *)
(* ================================================================== *)

(** [k] failed attempts, each followed by a wait of [dl]. *)
Fixpoint failed_attempts (k : nat) (dl : Z) : list RecoveryStep :=
  match k with
  | O => []
  | S k' => Invoked false :: Waited dl :: failed_attempts k' dl
  end.

(** [n] failed attempts with a wait between consecutive ones. *)
Definition exhausted (n : nat) (dl : Z) : list RecoveryStep :=
  match n with
  | O => []
  | S m => (failed_attempts m dl ++ [Invoked false])%list
  end.

(** The callback leaves the error tracker alone. *)
Definition keeps_tracker (cb : Callback) : Prop :=
  forall strategy st, errorTracker (snd (cb strategy st)) = errorTracker st.

Lemma delay_tracker ms st :
  errorTracker (snd (ErrorRecoveryExecutor.delay ms st)) = errorTracker st.
Proof. reflexivity. Qed.

Lemma retry_loop_spec (cb : Callback) strategy maxRetries dl :
  forall n attempt st,
    attempt + Z.of_nat n = maxRetries + 1 ->
    exists b tr st',
      ErrorRecoveryExecutor.retry_loop n attempt maxRetries dl strategy cb st
      = (Return (b, tr), st')
      /\ (keeps_tracker cb -> errorTracker st' = errorTracker st)
      /\ ((exists k, (k < n)%nat /\ b = true
                     /\ tr = (failed_attempts k dl ++ [Invoked true])%list)
          \/ (b = false /\ tr = exhausted n dl)).
Proof.
  induction n as [|n IH]; intros attempt st Hrel.
  - exists false, [], st. simpl. repeat split. now right.
  - assert (Hfail :
      forall st1, (keeps_tracker cb -> errorTracker st1 = errorTracker st) ->
      exists b tr st',
        (w <- (if attempt <? maxRetries
               then ErrorRecoveryExecutor.delay dl ;;; ret [Waited dl]
               else ret []) ;;
         rest <- ErrorRecoveryExecutor.retry_loop n (attempt + 1) maxRetries dl
                   strategy cb ;;
         ret (fst rest, Invoked false :: w ++ snd rest)) st1
        = (Return (b, tr), st')
        /\ (keeps_tracker cb -> errorTracker st' = errorTracker st)
        /\ ((exists k, (k < S n)%nat /\ b = true
                       /\ tr = (failed_attempts k dl ++ [Invoked true])%list)
            \/ (b = false /\ tr = exhausted (S n) dl))).
    { intros st1 Htr. destruct n as [|m].
      - assert (E : (attempt <? maxRetries) = false) by (apply Z.ltb_ge; lia).
        rewrite E. exists false, [Invoked false], st1. repeat split; auto.
      - assert (E : (attempt <? maxRetries) = true) by (apply Z.ltb_lt; lia).
        rewrite E. unfold bind at 1. unfold bind at 1.
        cbn [ErrorRecoveryExecutor.delay modify ret].
        set (st2 := set_timerLog _ _).
        destruct (IH (attempt + 1) st2) as (b & tr & st' & Hrun & Ht & Hshape);
          [lia|].
        unfold bind at 1. rewrite Hrun. cbn [fst snd ret].
        exists b, (Invoked false :: [Waited dl] ++ tr)%list, st'.
        split; [reflexivity|].
        split; [intros Hcb; rewrite (Ht Hcb); subst st2; exact (Htr Hcb)|].
        destruct Hshape as [(k & Hk & -> & ->)|[-> ->]].
        + left. exists (S k). repeat split. lia.
        + right. split; reflexivity. }
    cbn [ErrorRecoveryExecutor.retry_loop]. unfold bind at 1. unfold try_catch.
    assert (Htr : keeps_tracker cb ->
                  errorTracker (snd (cb strategy st)) = errorTracker st)
      by (intros Hcb; apply Hcb).
    destruct (cb strategy st) as [[[|]|e] st1] eqn:Ecb; cbn [snd] in Htr.
    + exists true, [Invoked true], st1. repeat split; [exact Htr|].
      left. exists O. repeat split. lia.
    + exact (Hfail st1 Htr).
    + exact (Hfail st1 Htr).
Qed.

Lemma invocations_app tr1 tr2 :
  invocations (tr1 ++ tr2) = (invocations tr1 + invocations tr2)%nat.
Proof. unfold invocations. now rewrite filter_app, length_app. Qed.

Lemma invocations_failed k dl : invocations (failed_attempts k dl) = k.
Proof.
  induction k as [|k IH]; [reflexivity|].
  unfold invocations in *. simpl. now rewrite IH.
Qed.

Lemma invocations_exhausted n dl : invocations (exhausted n dl) = n.
Proof.
  destruct n as [|m]; [reflexivity|]. unfold exhausted.
  rewrite invocations_app, invocations_failed. unfold invocations. simpl. lia.
Qed.

Lemma waits_app tr1 tr2 : waits (tr1 ++ tr2) = (waits tr1 ++ waits tr2)%list.
Proof. unfold waits. apply flat_map_app. Qed.

Lemma waits_failed k dl : waits (failed_attempts k dl) = repeat dl k.
Proof.
  induction k as [|k IH]; [reflexivity|].
  unfold waits in *. simpl. now rewrite IH.
Qed.

Lemma waits_exhausted n dl :
  waits (exhausted n dl) = repeat dl (List.length (waits (exhausted n dl))).
Proof.
  destruct n as [|m]; [reflexivity|]. unfold exhausted.
  rewrite waits_app, waits_failed. simpl. rewrite app_nil_r.
  now rewrite repeat_length.
Qed.

Lemma executeRetryStrategy_spec (cb : Callback) strategy st :
  let n := Z.to_nat (ErrorRecoveryExecutor.or_default (retryCount strategy) 3) in
  let dl := ErrorRecoveryExecutor.or_default (retryDelay strategy) 1000 in
  exists b tr st',
    ErrorRecoveryExecutor.executeRetryStrategy strategy cb st
    = (Return (b, tr), st')
    /\ (keeps_tracker cb -> errorTracker st' = errorTracker st)
    /\ ((exists k, (k < n)%nat /\ b = true
                   /\ tr = (failed_attempts k dl ++ [Invoked true])%list)
        \/ (b = false /\ tr = exhausted n dl)).
Proof.
  intros n dl. unfold ErrorRecoveryExecutor.executeRetryStrategy.
  fold dl. fold n.
  destruct (Z_lt_le_dec (ErrorRecoveryExecutor.or_default (retryCount strategy) 3) 0)
    as [Hneg|Hpos].
  - assert (Hn : n = O) by (subst n; lia). rewrite Hn.
    exists false, [], st. repeat split. now right.
  - apply retry_loop_spec. subst n. lia.
Qed.

(** Whether the callback resolves to a truthy value when it is called in
    state [st]; a rejection counts as not. *)
Definition succeeds (cb : Callback) (strategy : ErrorRecoveryStrategy) (st : Sys)
  : bool :=
  match fst (cb strategy st) with Return true => true | _ => false end.

(** The state in which attempt [i] (counted from 0) of a retry starts
    when the attempts before it all failed: each of them called the
    callback and was followed by a wait of [dl]. *)
Fixpoint attempt_state (cb : Callback) (strategy : ErrorRecoveryStrategy)
    (dl : Z) (i : nat) (st : Sys) : Sys :=
  match i with
  | O => st
  | S j =>
      snd (ErrorRecoveryExecutor.delay dl
             (snd (cb strategy (attempt_state cb strategy dl j st))))
  end.

(** The first of the attempts [0 .. n-1] at which the callback succeeds. *)
Definition first_success (cb : Callback) (strategy : ErrorRecoveryStrategy)
    (dl : Z) (n : nat) (st : Sys) : option nat :=
  List.find (fun k => succeeds cb strategy (attempt_state cb strategy dl k st))
            (seq 0 n).

(** [st] after [trackRecoveryAttempt(b)]. *)
Definition tracked (b : bool) (st : Sys) : Sys :=
  set_errorTracker (ErrorTracker.trackRecoveryAttempt b (errorTracker st)) st.

Lemma find_map (A B : Type) (f : A -> B) (p : B -> bool) (l : list A) :
  List.find p (List.map f l)
  = option_map f (List.find (fun x => p (f x)) l).
Proof.
  induction l as [|a l IH]; cbn; [reflexivity|].
  destruct (p (f a)); [reflexivity | exact IH].
Qed.

Lemma attempt_state_shift cb strategy dl k st :
  attempt_state cb strategy dl (S k) st
  = attempt_state cb strategy dl k
      (snd (ErrorRecoveryExecutor.delay dl (snd (cb strategy st)))).
Proof.
  induction k as [|k IH]; [reflexivity|].
  change (attempt_state cb strategy dl (S (S k)) st)
    with (snd (ErrorRecoveryExecutor.delay dl
                 (snd (cb strategy (attempt_state cb strategy dl (S k) st))))).
  now rewrite IH.
Qed.

Lemma first_success_S cb strategy dl n st :
  first_success cb strategy dl (S n) st
  = if succeeds cb strategy st then Some O
    else option_map S
           (first_success cb strategy dl n
              (snd (ErrorRecoveryExecutor.delay dl (snd (cb strategy st))))).
Proof.
  unfold first_success. cbn [seq List.find attempt_state].
  destruct (succeeds cb strategy st); [reflexivity|].
  rewrite <- seq_shift, find_map. f_equal.
  induction (seq 0 n) as [|a l IH]; [reflexivity|].
  cbn [List.find]. rewrite attempt_state_shift.
  destruct (succeeds cb strategy _); [reflexivity | exact IH].
Qed.

(** The loop of [executeRetryStrategy], in terms of what the callback
    does: it stops at the first attempt at which the callback succeeds,
    and otherwise makes all [n] attempts. *)
Lemma retry_loop_run (cb : Callback) strategy maxRetries dl :
  forall n attempt st,
    attempt + Z.of_nat n = maxRetries + 1 ->
    ErrorRecoveryExecutor.retry_loop n attempt maxRetries dl strategy cb st
    = match first_success cb strategy dl n st with
      | Some k =>
          (Return (true, (failed_attempts k dl ++ [Invoked true])%list),
           snd (cb strategy (attempt_state cb strategy dl k st)))
      | None =>
          (Return (false, exhausted n dl),
           match n with
           | O => st
           | S m => snd (cb strategy (attempt_state cb strategy dl m st))
           end)
      end.
Proof.
  induction n as [|n IH]; intros attempt st Hrel; [reflexivity|].
  rewrite first_success_S.
  cbn [ErrorRecoveryExecutor.retry_loop]. unfold bind at 1. unfold try_catch.
  unfold succeeds.
  assert (Hfail :
    forall st1, snd (cb strategy st) = st1 ->
    (w <- (if attempt <? maxRetries
           then ErrorRecoveryExecutor.delay dl ;;; ret [Waited dl]
           else ret []) ;;
     rest <- ErrorRecoveryExecutor.retry_loop n (attempt + 1) maxRetries dl
               strategy cb ;;
     ret (fst rest, Invoked false :: w ++ snd rest)) st1
    = match option_map S
              (first_success cb strategy dl n
                 (snd (ErrorRecoveryExecutor.delay dl st1))) with
      | Some k =>
          (Return (true, (failed_attempts k dl ++ [Invoked true])%list),
           snd (cb strategy (attempt_state cb strategy dl k st)))
      | None =>
          (Return (false, exhausted (S n) dl),
           snd (cb strategy (attempt_state cb strategy dl n st)))
      end).
  { intros st1 Hst1. destruct n as [|m].
    - assert (E : (attempt <? maxRetries) = false) by (apply Z.ltb_ge; lia).
      rewrite E. cbn. now rewrite Hst1.
    - assert (E : (attempt <? maxRetries) = true) by (apply Z.ltb_lt; lia).
      rewrite E. unfold bind at 1. unfold bind at 1.
      cbn [ErrorRecoveryExecutor.delay modify ret].
      unfold bind at 1.
      rewrite (IH (attempt + 1)) by lia.
      change (set_timerLog (timerLog st1 ++ [dl])
                (set_clock (clock st1 + Z.max 0 dl) st1))
        with (snd (ErrorRecoveryExecutor.delay dl st1)).
      destruct (first_success cb strategy dl (S m)
                  (snd (ErrorRecoveryExecutor.delay dl st1))) as [k|];
        cbn [option_map fst snd ret].
      + rewrite attempt_state_shift, Hst1. reflexivity.
      + rewrite attempt_state_shift, Hst1. reflexivity. }
  destruct (cb strategy st) as [[[|]|e] st1] eqn:Ecb; cbn [fst snd] in *.
  - cbn [attempt_state failed_attempts app]. now rewrite Ecb.
  - now apply Hfail.
  - now apply Hfail.
Qed.

Lemma first_success_lt cb strategy dl n st k :
  first_success cb strategy dl n st = Some k -> (k < n)%nat.
Proof.
  unfold first_success. intros H. apply find_some in H.
  destruct H as [H _]. apply in_seq in H. lia.
Qed.

Lemma executeRetryStrategy_run (cb : Callback) strategy st :
  let n := Z.to_nat (ErrorRecoveryExecutor.or_default (retryCount strategy) 3) in
  let dl := ErrorRecoveryExecutor.or_default (retryDelay strategy) 1000 in
  ErrorRecoveryExecutor.executeRetryStrategy strategy cb st
  = match first_success cb strategy dl n st with
    | Some k =>
        (Return (true, (failed_attempts k dl ++ [Invoked true])%list),
         snd (cb strategy (attempt_state cb strategy dl k st)))
    | None =>
        (Return (false, exhausted n dl),
         match n with
         | O => st
         | S m => snd (cb strategy (attempt_state cb strategy dl m st))
         end)
    end.
Proof.
  intros n dl. unfold ErrorRecoveryExecutor.executeRetryStrategy.
  fold dl. fold n.
  destruct (Z_lt_le_dec (ErrorRecoveryExecutor.or_default (retryCount strategy) 3) 0)
    as [Hneg|Hpos].
  - assert (Hn : n = O) by (subst n; lia). rewrite Hn. reflexivity.
  - apply retry_loop_run. subst n. lia.
Qed.

(** C6, as the code has it.  For every error, callback and state,
    [executeRecovery] returns (never throws), after running the strategy
    that the recovery table maps the error to, and leaves the state the
    strategy's steps lead to, with the attempt recorded in the tracker:
    - [skip] gives [true] and [abort] gives [false], the callback not
      being called: the state is the one before, but for the tracker;
    - [fallback] calls the callback once and gives its result, [false]
      if it rejects;
    - [retry] makes at most [retryCount || 3] attempts, each a call of
      the callback, with a wait of [retryDelay || 1000] ms after each
      failed attempt but the last possible one; it gives [true] at the
      first attempt at which the callback succeeds, without a further
      call or wait, and [false] when the callback failed at all of them;
    and, when the callback leaves the tracker alone, the recovery-attempt
    counter has grown by one and the success counter by one iff the
    result is [true]. *)
Theorem executeRecovery_contract :
  forall (error : JsError) (cb : Callback) (st : Sys),
    exists b tr st',
      ErrorRecoveryExecutor.executeRecovery_traced error cb st
      = (Return (b, tr), st')
      /\ ErrorRecoveryExecutor.executeRecovery error cb st = (Return b, st')
      /\ (keeps_tracker cb ->
          ErrorTracker.recoveryAttemptCount (errorTracker st')
          = ErrorTracker.recoveryAttemptCount (errorTracker st) + 1
          /\ ErrorTracker.recoverySuccessCount (errorTracker st')
             = ErrorTracker.recoverySuccessCount (errorTracker st)
               + (if b then 1 else 0))
      /\ let strategy :=
           ErrorRecoveryManager.getRecoveryStrategy error (recoveryManager st) in
         match strategy_type strategy with
         | Skip => b = true /\ tr = [] /\ st' = tracked true st
         | Abort => b = false /\ tr = [] /\ st' = tracked false st
         | Fallback =>
             tr = [Invoked b]
             /\ b = match fst (cb strategy st) with
                    | Return x => x
                    | Throw _ => false
                    end
             /\ st' = tracked b (snd (cb strategy st))
         | Retry =>
             let n := Z.to_nat
                        (ErrorRecoveryExecutor.or_default (retryCount strategy) 3) in
             let dl := ErrorRecoveryExecutor.or_default (retryDelay strategy) 1000 in
             (invocations tr <= n)%nat
             /\ waits tr = repeat dl (List.length (waits tr))
             /\ ((exists k, (k < n)%nat /\ b = true
                            /\ tr = (failed_attempts k dl ++ [Invoked true])%list)
                 \/ (b = false /\ tr = exhausted n dl))
             /\ match first_success cb strategy dl n st with
                | Some k =>
                    (k < n)%nat /\ b = true
                    /\ tr = (failed_attempts k dl ++ [Invoked true])%list
                    /\ st' = tracked true
                               (snd (cb strategy (attempt_state cb strategy dl k st)))
                | None =>
                    b = false /\ tr = exhausted n dl
                    /\ st' = tracked false
                               match n with
                               | O => st
                               | S m =>
                                   snd (cb strategy
                                          (attempt_state cb strategy dl m st))
                               end
                end
         end.
Proof.
  intros error cb st.
  set (strategy :=
         ErrorRecoveryManager.getRecoveryStrategy error (recoveryManager st)).
  assert (Hstrat :
    exists b tr st1,
      ErrorRecoveryExecutor.executeStrategy strategy cb st = (Return (b, tr), st1)
      /\ (keeps_tracker cb -> errorTracker st1 = errorTracker st)
      /\ match strategy_type strategy with
         | Skip => b = true /\ tr = [] /\ st1 = st
         | Abort => b = false /\ tr = [] /\ st1 = st
         | Fallback =>
             tr = [Invoked b]
             /\ b = match fst (cb strategy st) with
                    | Return x => x
                    | Throw _ => false
                    end
             /\ st1 = snd (cb strategy st)
         | Retry =>
             let n := Z.to_nat
                        (ErrorRecoveryExecutor.or_default (retryCount strategy) 3) in
             let dl := ErrorRecoveryExecutor.or_default (retryDelay strategy) 1000 in
             (invocations tr <= n)%nat
             /\ waits tr = repeat dl (List.length (waits tr))
             /\ ((exists k, (k < n)%nat /\ b = true
                            /\ tr = (failed_attempts k dl ++ [Invoked true])%list)
                 \/ (b = false /\ tr = exhausted n dl))
             /\ match first_success cb strategy dl n st with
                | Some k =>
                    (k < n)%nat /\ b = true
                    /\ tr = (failed_attempts k dl ++ [Invoked true])%list
                    /\ st1 = snd (cb strategy (attempt_state cb strategy dl k st))
                | None =>
                    b = false /\ tr = exhausted n dl
                    /\ st1 = match n with
                             | O => st
                             | S m =>
                                 snd (cb strategy
                                        (attempt_state cb strategy dl m st))
                             end
                end
         end).
  { unfold ErrorRecoveryExecutor.executeStrategy.
    destruct (strategy_type strategy).
    - unfold ErrorRecoveryExecutor.executeFallbackStrategy, try_catch, bind.
      assert (Htr : keeps_tracker cb ->
                    errorTracker (snd (cb strategy st)) = errorTracker st)
        by (intros Hcb; apply Hcb).
      destruct (cb strategy st) as [[x|e] st1]; cbn [snd fst] in *.
      + exists x, [Invoked x], st1. repeat split. exact Htr.
      + exists false, [Invoked false], st1. repeat split. exact Htr.
    - destruct (@executeRetryStrategy_spec cb strategy st)
        as (b & tr & st1 & Hrun & Ht & Hshape).
      exists b, tr, st1. split; [exact Hrun|]. split; [exact Ht|].
      cbv zeta. split; [|split; [|split; [exact Hshape|]]].
      + destruct Hshape as [(k & Hk & _ & ->)|[_ ->]].
        * rewrite invocations_app, invocations_failed.
          unfold invocations. simpl. lia.
        * rewrite invocations_exhausted. lia.
      + destruct Hshape as [(k & Hk & _ & ->)|[_ ->]].
        * rewrite waits_app, waits_failed. simpl. rewrite app_nil_r.
          now rewrite repeat_length.
        * apply waits_exhausted.
      + pose proof (executeRetryStrategy_run cb strategy st) as Hrun'.
        cbv zeta in Hrun'. rewrite Hrun in Hrun'.
        destruct (first_success cb strategy _ _ st) as [k|] eqn:F.
        * apply first_success_lt in F. injection Hrun' as -> -> ->.
          repeat split. exact F.
        * injection Hrun' as -> -> ->. repeat split.
    - exists true, [], st. repeat split.
    - exists false, [], st. repeat split. }
  destruct Hstrat as (b & tr & st1 & Hrun & Ht & Hshape).
  exists b, tr, (tracked b st1).
  assert (Htraced :
    ErrorRecoveryExecutor.executeRecovery_traced error cb st
    = (Return (b, tr), tracked b st1)).
  { unfold ErrorRecoveryExecutor.executeRecovery_traced.
    unfold bind at 1. cbn [gets]. fold strategy.
    unfold try_catch. unfold bind at 1. rewrite Hrun.
    unfold bind. reflexivity. }
  split; [exact Htraced|]. split.
  { unfold ErrorRecoveryExecutor.executeRecovery, bind. now rewrite Htraced. }
  split.
  { intros Hcb. unfold tracked. cbn [errorTracker set_errorTracker]. rewrite (Ht Hcb).
    split; [reflexivity|].
    unfold ErrorTracker.trackRecoveryAttempt. cbn [ErrorTracker.recoverySuccessCount].
    destruct b; lia. }
  cbv zeta. fold strategy.
  destruct (strategy_type strategy).
  - destruct Hshape as (A & B & ->). repeat split; assumption.
  - cbv zeta in Hshape. destruct Hshape as (A & B & C & D).
    split; [exact A|]. split; [exact B|]. split; [exact C|].
    destruct (first_success cb strategy _ _ st) as [k|].
    + destruct D as (D1 & D2 & D3 & ->). subst b. repeat split; assumption.
    + destruct D as (D1 & D2 & ->). subst b. repeat split; assumption.
  - destruct Hshape as (-> & B & ->). repeat split; assumption.
  - destruct Hshape as (-> & B & ->). repeat split; assumption.
Qed.

(** A callback that notes each of its calls in the request log and
    succeeds once the clock has reached [t]. *)
Definition succeeds_from (t : Z) : Callback :=
  fun _ st =>
    (Return (t <=? clock st), set_fetchLog (fetchLog st ++ ["attempt"%string])%list st).

Lemma executeRecovery_contract_witness :
  let error := NetworkError 0 "en"%string "offline"%string None in
  let cb : Callback := succeeds_from 1000 in
  let st := initial_sys 0 testCacheConfig in
  keeps_tracker cb
  /\ exists st',
       ErrorRecoveryExecutor.executeRecovery error cb st = (Return true, st')
       /\ fetchLog st' = ["attempt"%string; "attempt"%string]
       /\ timerLog st' = [1000]
       /\ ErrorTracker.recoveryAttemptCount (errorTracker st') = 1
       /\ ErrorTracker.recoverySuccessCount (errorTracker st') = 1.
Proof.
  intros error cb st.
  assert (H : keeps_tracker cb) by (intros s st0; reflexivity).
  split; [exact H|].
  destruct (executeRecovery_contract error cb st)
    as (b & tr & st' & _ & Hrun & Hcount & Hshape).
  destruct (Hcount H) as [Ha Hs].
  cbv zeta in Hshape.
  change (strategy_type
            (ErrorRecoveryManager.getRecoveryStrategy error (recoveryManager st)))
    with Retry in Hshape.
  cbv iota in Hshape.
  destruct Hshape as (_ & _ & _ & Hfirst).
  change (first_success cb
            (ErrorRecoveryManager.getRecoveryStrategy error (recoveryManager st))
            (ErrorRecoveryExecutor.or_default
               (retryDelay (ErrorRecoveryManager.getRecoveryStrategy error
                              (recoveryManager st))) 1000)
            (Z.to_nat
               (ErrorRecoveryExecutor.or_default
                  (retryCount (ErrorRecoveryManager.getRecoveryStrategy error
                                 (recoveryManager st))) 3)) st)
    with (Some 1%nat) in Hfirst.
  destruct Hfirst as (_ & Hb & _ & Hst).
  subst b. exists st'. split; [exact Hrun|].
  split; [rewrite Hst; reflexivity|]. split; [rewrite Hst; reflexivity|].
  split; [exact Ha | exact Hs].
Defined.

(** The recovery table with [network] mapped to a retry strategy whose
    [retryCount] and [retryDelay] are both 0. *)
Definition retry_zero_sys : Sys :=
  set_recoveryManager
    (ErrorRecoveryManager.setRecoveryStrategy "network"%string
       (mkStrategy Retry None (Some 0) (Some 0)) ErrorRecoveryManager.new)
    (initial_sys 0 testCacheConfig).

(** C6 as stated fails: under a retry strategy with [retryCount = 0] and
    [retryDelay = 0] a callback that always fails is called three times,
    with two waits of 1000 ms, not "up to [retryCount] times" with
    [retryDelay] waits. *)
Lemma retry_count_zero_invokes_thrice :
  let error := NetworkError 0 "en"%string "offline"%string None in
  let cb : Callback := succeeds_from 5000 in
  let strategy :=
    ErrorRecoveryManager.getRecoveryStrategy error (recoveryManager retry_zero_sys) in
  strategy_type strategy = Retry
  /\ retryCount strategy = Some 0
  /\ retryDelay strategy = Some 0
  /\ exists st',
       ErrorRecoveryExecutor.executeRecovery error cb retry_zero_sys
       = (Return false, st')
       /\ fetchLog st' = ["attempt"%string; "attempt"%string; "attempt"%string]
       /\ timerLog st' = [1000; 1000]
       /\ ~ (Z.of_nat (List.length (fetchLog st')) <= 0).
Proof.
  cbv zeta. split; [reflexivity|]. split; [reflexivity|]. split; [reflexivity|].
  eexists. split; [vm_compute; reflexivity|].
  split; [reflexivity|]. split; [reflexivity|]. simpl. lia.
Qed.

(* ================================================================== *)
(** * What error handling and the fallback path leave untouched        *)
(* ================================================================== *)

Section Frame.
Variable A : Type.
Variable proj : Sys -> A.

(** [proj] reads a part of the state other than the clock, the request
    and timer logs and the error tracker. *)
Hypothesis proj_clock : forall x st, proj (set_clock x st) = proj st.
Hypothesis proj_fetchLog : forall x st, proj (set_fetchLog x st) = proj st.
Hypothesis proj_timerLog : forall x st, proj (set_timerLog x st) = proj st.
Hypothesis proj_errorTracker : forall x st, proj (set_errorTracker x st) = proj st.

Definition keeps (B : Type) (c : M Sys B) : Prop :=
  forall st, proj (snd (c st)) = proj st.

Lemma keeps_ret B (b : B) : keeps (ret b).
Proof. intros st. reflexivity. Qed.

Lemma keeps_throw B e : keeps (@throw Sys B e).
Proof. intros st. reflexivity. Qed.

Lemma keeps_gets B (f : Sys -> B) : keeps (gets f).
Proof. intros st. reflexivity. Qed.

Lemma keeps_bind B C (c : M Sys B) (k : B -> M Sys C) :
  keeps c -> (forall b, keeps (k b)) -> keeps (bind c k).
Proof.
  intros Hc Hk st. unfold bind. specialize (Hc st).
  destruct (c st) as [[b|e] st1]; cbn [snd] in *.
  - now rewrite Hk.
  - exact Hc.
Qed.

Lemma keeps_try_catch B (c : M Sys B) (h : JsError -> M Sys B) :
  keeps c -> (forall e, keeps (h e)) -> keeps (try_catch c h).
Proof.
  intros Hc Hh st. unfold try_catch. specialize (Hc st).
  destruct (c st) as [[b|e] st1]; cbn [snd] in *.
  - exact Hc.
  - now rewrite Hh.
Qed.

Lemma keeps_delay ms : keeps (ErrorRecoveryExecutor.delay ms).
Proof.
  intros st. unfold ErrorRecoveryExecutor.delay, modify. cbn [snd].
  now rewrite proj_timerLog, proj_clock.
Qed.

Lemma keeps_trackRecoveryAttempt b :
  keeps (ErrorRecoveryExecutor.trackRecoveryAttempt b).
Proof. intros st. apply proj_errorTracker. Qed.

Lemma keeps_retry_loop (cb : Callback) strategy maxRetries dl :
  (forall s, keeps (cb s)) ->
  forall n attempt,
    keeps (ErrorRecoveryExecutor.retry_loop n attempt maxRetries dl strategy cb).
Proof.
  intros Hcb. induction n as [|n IH]; intros attempt.
  - apply keeps_ret.
  - cbn [ErrorRecoveryExecutor.retry_loop]. apply keeps_bind.
    + apply keeps_try_catch; [apply Hcb | intros; apply keeps_ret].
    + intros [|]; [apply keeps_ret|].
      apply keeps_bind.
      * destruct (attempt <? maxRetries); [|apply keeps_ret].
        apply keeps_bind; [apply keeps_delay | intros; apply keeps_ret].
      * intros w. apply keeps_bind; [apply IH | intros; apply keeps_ret].
Qed.

Lemma keeps_executeRecovery (cb : Callback) error :
  (forall s, keeps (cb s)) ->
  keeps (ErrorRecoveryExecutor.executeRecovery error cb).
Proof.
  intros Hcb. unfold ErrorRecoveryExecutor.executeRecovery.
  apply keeps_bind; [|intros; apply keeps_ret].
  unfold ErrorRecoveryExecutor.executeRecovery_traced.
  apply keeps_bind; [apply keeps_gets|]. intros strategy.
  apply keeps_try_catch.
  - apply keeps_bind.
    + unfold ErrorRecoveryExecutor.executeStrategy.
      destruct (strategy_type strategy); try apply keeps_ret.
      * unfold ErrorRecoveryExecutor.executeFallbackStrategy.
        apply keeps_try_catch; [|intros; apply keeps_ret].
        apply keeps_bind; [apply Hcb | intros; apply keeps_ret].
      * apply keeps_retry_loop. exact Hcb.
    + intros r. apply keeps_bind;
        [apply keeps_trackRecoveryAttempt | intros; apply keeps_ret].
  - intros e. apply keeps_bind;
      [apply keeps_trackRecoveryAttempt | intros; apply keeps_ret].
Qed.

Lemma keeps_handleError (cb : Callback) error context :
  (forall s, keeps (cb s)) ->
  keeps (ErrorHandler.handleError error context (Some cb)).
Proof.
  intros Hcb. unfold ErrorHandler.handleError.
  apply keeps_bind; [apply keeps_gets|]. intros now.
  apply keeps_bind.
  - intros st. apply proj_errorTracker.
  - intros _. now apply keeps_executeRecovery.
Qed.

Variable config : I18nConfig.
Variable net : Network.

Lemma keeps_fetch_issue path : keeps (fetch_issue path).
Proof. intros st. apply proj_fetchLog. Qed.

Lemma keeps_fetch_await req path : keeps (fetch_await net req path).
Proof.
  intros st. unfold fetch_await.
  destruct (reply net req path); cbn [snd]; apply proj_clock.
Qed.

Lemma keeps_read_body prefix path response :
  keeps (read_body prefix path response).
Proof.
  unfold read_body. destruct (negb (resp_ok response)); [apply keeps_throw|].
  destruct (resp_json response); [apply keeps_throw | apply keeps_ret].
Qed.

Lemma keeps_loadFallback locale section : keeps (loadFallback net locale section).
Proof.
  unfold loadFallback. apply keeps_try_catch.
  - apply keeps_bind; [apply keeps_fetch_issue|]. intros req.
    apply keeps_bind; [apply keeps_fetch_await|]. intros response.
    apply keeps_bind; [apply keeps_read_body | intros; apply keeps_ret].
  - intros e. apply keeps_bind; [apply keeps_gets | intros; apply keeps_throw].
Qed.

Lemma keeps_performLoad_recovery section s :
  keeps (performLoad_recovery net section s).
Proof.
  unfold performLoad_recovery.
  destruct (strategy_type s); try apply keeps_ret.
  destruct (opt_truthy (fallbackLocale s)); [|apply keeps_ret].
  apply keeps_bind; [apply keeps_loadFallback | intros; apply keeps_ret].
Qed.

(** The [catch] branch of [performLoad]. *)
Lemma keeps_performLoad_catch locale section error :
  keeps
    (recoverySuccess <-
       ErrorHandler.handleError error
         (mkPartial (Some locale) None section None (Some "load_module"%string))
         (Some (performLoad_recovery net section)) ;;
     if recoverySuccess : bool then
       loadFallback net (cfg_fallbackLocale config) section
     else
       now <- gets clock ;;
       throw (TranslationLoadError now locale
                (load_failure_message locale section) (Some error))).
Proof.
  apply keeps_bind.
  - apply keeps_handleError. intros s. apply keeps_performLoad_recovery.
  - intros [|]; [apply keeps_loadFallback|].
    apply keeps_bind; [apply keeps_gets | intros; apply keeps_throw].
Qed.
End Frame.

(* ================================================================== *)
(** * C1 : de-duplication of loads in flight                           *)
(* ================================================================== *)

(** The document that request [req] for [path] delivers, if the reply is
    an ok response whose body parses. *)
Definition primary_payload (net : Network) (req : nat) (path : string)
  : option TranslationData :=
  match reply net req path with
  | NetResp r =>
      if resp_ok r
      then match resp_json r with inr d => Some d | inl _ => None end
      else None
  | NetFail _ => None
  end.

(** Callers calling [load] for the same target one after the other, at
    the given clock readings, none of them awaiting yet. *)
Fixpoint concurrent_calls (locale : Locale) (section : option Section_)
    (times : list Z) (st : Sys) : list Handle * Sys :=
  match times with
  | [] => ([], st)
  | t :: ts =>
      let (h, st1) := load_call locale section (set_clock t st) in
      let (hs, st2) := concurrent_calls locale section ts st1 in
      (h :: hs, st2)
  end.

(** Each caller awaits what it holds. *)
Fixpoint await_all (config : I18nConfig) (net : Network) (hs : list Handle)
    (st : Sys) : list (Outcome JsValue) * Sys :=
  match hs with
  | [] => ([], st)
  | h :: rest =>
      let (r, st1) := await_handle config net h st in
      let (rs, st2) := await_all config net rest st1 in
      (r :: rs, st2)
  end.

Lemma load_call_joins locale section st p :
  map_get (dedupKey locale section) (loadingPromises st) = Some p ->
  load_call locale section st = (InFlight p, st).
Proof. intros H. unfold load_call. now rewrite H. Qed.

Lemma load_call_starts locale section st :
  map_get (dedupKey locale section) (loadingPromises st) = None ->
  fst (lookup_cache locale section st) = None ->
  let st1 := snd (lookup_cache locale section st) in
  load_call locale section st
  = (InFlight (List.length (promises st)),
     set_loadingPromises
       (map_set (dedupKey locale section) (List.length (promises st))
          (loadingPromises st))
       (set_promises
          (promises st ++ [Pending locale section (List.length (fetchLog st))])
          (set_fetchLog (fetchLog st ++ [filePath locale]) st1))).
Proof.
  intros Hnone Hmiss. unfold load_call. rewrite Hnone.
  unfold lookup_cache in *.
  destruct (opt_truthy section) as [s|];
    [destruct (TranslationCacheManager.getSectionCache (clock st) locale s
                 (cacheManager st)) as [cached cm]
    |destruct (TranslationCacheManager.getLocaleCache (clock st) locale
                 (cacheManager st)) as [cached cm]];
    cbn [fst snd] in *; subst cached; reflexivity.
Qed.

Lemma concurrent_calls_join locale section p ts :
  forall st,
    map_get (dedupKey locale section) (loadingPromises st) = Some p ->
    fst (concurrent_calls locale section ts st)
    = repeat (InFlight p) (List.length ts)
    /\ fetchLog (snd (concurrent_calls locale section ts st)) = fetchLog st
    /\ promises (snd (concurrent_calls locale section ts st)) = promises st
    /\ loadingPromises (snd (concurrent_calls locale section ts st))
       = loadingPromises st.
Proof.
  induction ts as [|t ts IH]; intros st Hp; [now repeat split|].
  cbn [concurrent_calls]. rewrite (@load_call_joins locale section (set_clock t st) p Hp).
  specialize (IH (set_clock t st) Hp).
  destruct (concurrent_calls locale section ts (set_clock t st)) as [hs st2].
  cbn [fst snd List.length repeat] in *. destruct IH as (-> & -> & -> & ->).
  now repeat split.
Qed.

Lemma nth_error_list_update (A : Type) (l : list A) p x :
  (p < List.length l)%nat -> nth_error (list_update p x l) p = Some x.
Proof.
  revert p. induction l as [|y l IH]; intros p Hp; simpl in *; [lia|].
  destruct p as [|p]; [reflexivity|]. simpl. apply IH. lia.
Qed.

(** [performLoad] leaves the promise table and the de-duplication map
    alone. *)
Lemma performLoad_resume_promises config net locale section req st :
  promises (snd (performLoad_resume config net locale section req st))
  = promises st.
Proof.
  revert st. change (keeps promises (performLoad_resume config net locale section req)).
  unfold performLoad_resume. apply keeps_try_catch.
  - apply keeps_bind; [now apply keeps_fetch_await|]. intros response.
    apply keeps_bind; [apply keeps_read_body|]. intros fullData.
    apply keeps_bind; [intros st; reflexivity | intros; apply keeps_ret].
  - intros e. apply keeps_performLoad_catch; reflexivity.
Qed.

(** Awaiting a settled promise gives its outcome and changes nothing. *)
Lemma await_settled config net p r st :
  nth_error (promises st) p = Some (Settled r) ->
  await_handle config net (InFlight p) st = (r, st).
Proof.
  intros H. unfold await_handle.
  assert (Hs : settle config net p st = st) by (unfold settle; now rewrite H).
  cbv zeta. rewrite Hs. now rewrite H.
Qed.

Lemma await_all_settled config net p r n :
  forall st,
    nth_error (promises st) p = Some (Settled r) ->
    await_all config net (repeat (InFlight p) n) st = (repeat r n, st).
Proof.
  induction n as [|n IH]; intros st H; [reflexivity|].
  cbn [repeat await_all]. rewrite (await_settled config net p st H).
  now rewrite (IH st H).
Qed.

(** The first await of a pending promise settles it. *)
Lemma await_pending config net p locale section req st :
  nth_error (promises st) p = Some (Pending locale section req) ->
  let run := performLoad_resume config net locale section req st in
  exists st',
    await_handle config net (InFlight p) st = (fst run, st')
    /\ nth_error (promises st') p = Some (Settled (fst run))
    /\ fetchLog st' = fetchLog (snd run).
Proof.
  intros H run. subst run.
  pose proof (performLoad_resume_promises config net locale section req st) as Hp.
  unfold await_handle, settle. rewrite H.
  destruct (performLoad_resume config net locale section req st) as [r st1].
  cbn [fst snd] in *.
  assert (Hn : nth_error (list_update p (Settled r) (promises st1)) p
               = Some (Settled r)).
  { apply nth_error_list_update. rewrite Hp.
    apply nth_error_Some. rewrite H. discriminate. }
  eexists. cbn [promises set_loadingPromises set_promises]. rewrite Hn.
  split; [reflexivity|]. split; [exact Hn | reflexivity].
Qed.

Lemma performLoad_resume_success config net locale section req st fullData :
  primary_payload net req (filePath locale) = Some fullData ->
  fst (performLoad_resume config net locale section req st)
  = Return (slice section fullData)
  /\ fetchLog (snd (performLoad_resume config net locale section req st))
     = fetchLog st.
Proof.
  unfold primary_payload, performLoad_resume, try_catch, bind, fetch_await.
  destruct (reply net req (filePath locale)) as [msg|r]; [discriminate|].
  unfold read_body. destruct (resp_ok r); [|discriminate].
  destruct (resp_json r) as [msg|d]; [discriminate|]. intros [= ->].
  cbn. split; reflexivity.
Qed.

Lemma lookup_cache_frame locale section st :
  exists cm, snd (lookup_cache locale section st) = set_cacheManager cm st.
Proof.
  unfold lookup_cache.
  destruct (opt_truthy section) as [s|];
    [destruct (TranslationCacheManager.getSectionCache (clock st) locale s
                 (cacheManager st)) as [cached cm]
    |destruct (TranslationCacheManager.getLocaleCache (clock st) locale
                 (cacheManager st)) as [cached cm]];
    exists cm; reflexivity.
Qed.

(** C1.  A call of [load] whose de-duplication key is in the
    [loadingPromises] map returns the promise registered there and
    changes nothing, so it issues no request.  When the key is not in
    flight and the cache misses, [1 + length ts] calls made before
    anything is awaited all hold the same promise, and together they have
    put exactly one request on the wire, for the locale's file; awaiting
    them gives every caller the same outcome; the requests made by then
    are those of one run of [performLoad], however many the callers; and
    when the request delivers the document, it stays the only request. *)
Theorem load_deduplicates :
  forall (config : I18nConfig) (net : Network) (locale : Locale)
         (section : option Section_),
    (forall (st : Sys) (p : nat),
       map_get (dedupKey locale section) (loadingPromises st) = Some p ->
       load_call locale section st = (InFlight p, st))
    /\ (forall (t : Z) (ts : list Z) (st : Sys),
          map_get (dedupKey locale section) (loadingPromises st) = None ->
          fst (lookup_cache locale section (set_clock t st)) = None ->
          let p := List.length (promises st) in
          let calls := concurrent_calls locale section (t :: ts) st in
          let awaited := await_all config net (fst calls) (snd calls) in
          fst calls = repeat (InFlight p) (S (List.length ts))
          /\ fetchLog (snd calls) = (fetchLog st ++ [filePath locale])%list
          /\ (exists r, fst awaited = repeat r (S (List.length ts)))
          /\ fetchLog (snd awaited)
             = fetchLog (snd (performLoad_resume config net locale section
                                (List.length (fetchLog st)) (snd calls)))
          /\ (primary_payload net (List.length (fetchLog st)) (filePath locale)
              <> None ->
              fetchLog (snd awaited) = (fetchLog st ++ [filePath locale])%list)).
Proof.
  intros config net locale section. split.
  { intros st p Hp. now apply load_call_joins. }
  intros t ts st Hnone Hmiss p calls awaited.
  assert (Hnone' : map_get (dedupKey locale section)
                     (loadingPromises (set_clock t st)) = None) by exact Hnone.
  pose proof (@load_call_starts locale section (set_clock t st) Hnone' Hmiss)
    as Hstart.
  cbv zeta in Hstart.
  destruct (lookup_cache_frame locale section (set_clock t st)) as [cm Hcm].
  rewrite Hcm in Hstart.
  cbn [promises fetchLog loadingPromises set_clock set_cacheManager] in Hstart.
  fold p in Hstart.
  set (st1 := set_loadingPromises _ _) in Hstart.
  assert (Hreg : map_get (dedupKey locale section) (loadingPromises st1) = Some p).
  { subst st1. cbn [loadingPromises set_loadingPromises]. apply map_get_set_eq. }
  destruct (@concurrent_calls_join locale section p ts st1 Hreg)
    as (Hhs & Hlog & Hprom & _).
  assert (Hcalls : calls
                   = (InFlight p :: fst (concurrent_calls locale section ts st1),
                      snd (concurrent_calls locale section ts st1))).
  { subst calls. cbn [concurrent_calls]. rewrite Hstart.
    now destruct (concurrent_calls locale section ts st1). }
  assert (Hfetch : fetchLog (snd calls) = (fetchLog st ++ [filePath locale])%list).
  { rewrite Hcalls. cbn [snd]. rewrite Hlog. reflexivity. }
  assert (Hpend : nth_error (promises (snd calls)) p
                  = Some (Pending locale section (List.length (fetchLog st)))).
  { rewrite Hcalls. cbn [snd]. rewrite Hprom. subst st1.
    cbn [promises set_loadingPromises set_promises].
    rewrite nth_error_app2 by (subst p; lia).
    subst p. now rewrite Nat.sub_diag. }
  destruct (@await_pending config net p locale section
              (List.length (fetchLog st)) (snd calls) Hpend)
    as (st' & Hawait & Hset & Hlog').
  assert (Hawaited : awaited
                     = (repeat (fst (performLoad_resume config net locale section
                                       (List.length (fetchLog st)) (snd calls)))
                          (S (List.length ts)), st')).
  { subst awaited. rewrite Hcalls at 1. cbn [fst]. rewrite Hhs.
    cbn [await_all]. rewrite Hawait.
    rewrite (@await_all_settled config net p _ (List.length ts) st' Hset).
    reflexivity. }
  split; [rewrite Hcalls; cbn [fst]; now rewrite Hhs|].
  split; [exact Hfetch|].
  split; [eexists; rewrite Hawaited; reflexivity|].
  split; [rewrite Hawaited; exact Hlog'|].
  intros Hpay. rewrite Hawaited. cbn [snd]. rewrite Hlog'.
  destruct (primary_payload net (List.length (fetchLog st)) (filePath locale))
    as [fullData|] eqn:E; [|congruence].
  destruct (@performLoad_resume_success config net locale section
              (List.length (fetchLog st)) (snd calls) fullData E) as [_ ->].
  exact Hfetch.
Qed.

(* ================================================================== *)
(** * C10 : the fallback path writes no cache                          *)
(* ================================================================== *)

(** [after] is [before] without [key], nothing else differing. *)
Definition only_dropped (key : string) (before after : CacheMap) : Prop :=
  forall k,
    map_get k after = if String.eqb k key then None else map_get k before.

Lemma only_dropped_same key (m : CacheMap) :
  map_get key m = None -> only_dropped key m m.
Proof.
  intros H k. destruct (String.eqb k key) eqn:E; [|reflexivity].
  apply String.eqb_eq in E. now subst.
Qed.

Lemma only_dropped_delete key (m : CacheMap) : only_dropped key m (map_delete key m).
Proof.
  intros k. destruct (String.eqb k key) eqn:E.
  - apply String.eqb_eq in E. subst. apply map_get_delete_eq.
  - apply String.eqb_neq in E. apply map_get_delete_neq. congruence.
Qed.

Lemma memory_get_answer now key (s : MemoryCacheStrategy.t) :
  fst (MemoryCacheStrategy.get now key s)
  = match map_get key (MemoryCacheStrategy.cache s) with
    | Some e => if CacheEntryImpl.isExpired now e then None
                else Some (CacheEntryImpl.incrementHits e)
    | None => None
    end.
Proof.
  unfold MemoryCacheStrategy.get.
  destruct (map_get key (MemoryCacheStrategy.cache s)) as [e|]; [|reflexivity].
  now destruct (CacheEntryImpl.isExpired now e).
Qed.

Lemma lru_get_answer now key (s : LRUCacheStrategy.t) :
  fst (LRUCacheStrategy.get now key s)
  = match map_get key (LRUCacheStrategy.cache s) with
    | Some e => if CacheEntryImpl.isExpired now e then None
                else Some (CacheEntryImpl.incrementHits e)
    | None => None
    end.
Proof.
  unfold LRUCacheStrategy.get.
  destruct (map_get key (LRUCacheStrategy.cache s)) as [e|]; [|reflexivity].
  now destruct (CacheEntryImpl.isExpired now e).
Qed.

(** A miss leaves the store without the key and otherwise as it was. *)
Lemma memory_get_miss now key (s : MemoryCacheStrategy.t) :
  fst (MemoryCacheStrategy.get now key s) = None ->
  only_dropped key (MemoryCacheStrategy.cache s)
    (MemoryCacheStrategy.cache (snd (MemoryCacheStrategy.get now key s))).
Proof.
  unfold MemoryCacheStrategy.get.
  destruct (map_get key (MemoryCacheStrategy.cache s)) as [e|] eqn:E.
  - destruct (CacheEntryImpl.isExpired now e); [|discriminate].
    intros _. apply only_dropped_delete.
  - intros _. now apply only_dropped_same.
Qed.

Lemma lru_get_miss now key (s : LRUCacheStrategy.t) :
  fst (LRUCacheStrategy.get now key s) = None ->
  only_dropped key (LRUCacheStrategy.cache s)
    (LRUCacheStrategy.cache (snd (LRUCacheStrategy.get now key s))).
Proof.
  unfold LRUCacheStrategy.get.
  destruct (map_get key (LRUCacheStrategy.cache s)) as [e|] eqn:E.
  - destruct (CacheEntryImpl.isExpired now e); [|discriminate].
    intros _. apply only_dropped_delete.
  - intros _. now apply only_dropped_same.
Qed.

(** The tiers of [after] are those of [before], but for the key of the
    requested target, which is absent. *)
Definition caches_only_dropped (locale : Locale) (section : option Section_)
    (before after : TranslationCacheManager.t) : Prop :=
  TranslationCacheManager.keyCache after = TranslationCacheManager.keyCache before
  /\ match opt_truthy section with
     | Some s =>
         TranslationCacheManager.localeCache after
         = TranslationCacheManager.localeCache before
         /\ only_dropped (TranslationCacheManager.sectionKey locale s)
              (LRUCacheStrategy.cache (TranslationCacheManager.sectionCache before))
              (LRUCacheStrategy.cache (TranslationCacheManager.sectionCache after))
     | None =>
         TranslationCacheManager.sectionCache after
         = TranslationCacheManager.sectionCache before
         /\ only_dropped (TranslationCacheManager.localeKey locale)
              (MemoryCacheStrategy.cache (TranslationCacheManager.localeCache before))
              (MemoryCacheStrategy.cache (TranslationCacheManager.localeCache after))
     end.

Lemma lookup_cache_miss locale section st :
  fst (lookup_cache locale section st) = None ->
  caches_only_dropped locale section (cacheManager st)
    (cacheManager (snd (lookup_cache locale section st))).
Proof.
  unfold lookup_cache, caches_only_dropped.
  destruct (opt_truthy section) as [s|].
  - unfold TranslationCacheManager.getSectionCache.
    pose proof (@lru_get_miss (clock st)
                  (TranslationCacheManager.sectionKey locale s)
                  (TranslationCacheManager.sectionCache (cacheManager st))) as H.
    destruct (LRUCacheStrategy.get _ _ _) as [r c]. cbn [fst snd] in *.
    intros Hr. specialize (H Hr). now repeat split.
  - unfold TranslationCacheManager.getLocaleCache.
    pose proof (@memory_get_miss (clock st)
                  (TranslationCacheManager.localeKey locale)
                  (TranslationCacheManager.localeCache (cacheManager st))) as H.
    destruct (MemoryCacheStrategy.get _ _ _) as [r c]. cbn [fst snd] in *.
    intros Hr. specialize (H Hr). now repeat split.
Qed.

(** Whether a lookup hits depends on the entry under its key alone. *)
Lemma lookup_cache_answer locale section st :
  fst (lookup_cache locale section st)
  = match
      match opt_truthy section with
      | Some s =>
          map_get (TranslationCacheManager.sectionKey locale s)
            (LRUCacheStrategy.cache
               (TranslationCacheManager.sectionCache (cacheManager st)))
      | None =>
          map_get (TranslationCacheManager.localeKey locale)
            (MemoryCacheStrategy.cache
               (TranslationCacheManager.localeCache (cacheManager st)))
      end
    with
    | Some e => if CacheEntryImpl.isExpired (clock st) e then None
                else Some (CacheEntryImpl.incrementHits e)
    | None => None
    end.
Proof.
  unfold lookup_cache. destruct (opt_truthy section) as [s|].
  - unfold TranslationCacheManager.getSectionCache.
    rewrite <- lru_get_answer. now destruct (LRUCacheStrategy.get _ _ _).
  - unfold TranslationCacheManager.getLocaleCache.
    rewrite <- memory_get_answer. now destruct (MemoryCacheStrategy.get _ _ _).
Qed.

Lemma performLoad_resume_failure_cache config net locale section req st :
  primary_payload net req (filePath locale) = None ->
  cacheManager (snd (performLoad_resume config net locale section req st))
  = cacheManager st.
Proof.
  intros Hfail.
  assert (Hcatch : forall error st1,
    cacheManager st1 = cacheManager st ->
    cacheManager
      (snd ((recoverySuccess <-
               ErrorHandler.handleError error
                 (mkPartial (Some locale) None section None
                    (Some "load_module"%string))
                 (Some (performLoad_recovery net section)) ;;
             if recoverySuccess : bool then
               loadFallback net (cfg_fallbackLocale config) section
             else
               now <- gets clock ;;
               throw (TranslationLoadError now locale
                        (load_failure_message locale section) (Some error))) st1))
    = cacheManager st).
  { intros error st1 <-.
    apply (@keeps_performLoad_catch _ cacheManager); reflexivity. }
  unfold primary_payload in Hfail.
  unfold performLoad_resume, try_catch. unfold bind at 1. unfold fetch_await.
  destruct (reply net req (filePath locale)) as [msg|r].
  - apply Hcatch. reflexivity.
  - unfold bind at 1. unfold read_body.
    destruct (resp_ok r); cbn [negb].
    + destruct (resp_json r) as [msg|d]; [|discriminate].
      apply Hcatch. reflexivity.
    + apply Hcatch. reflexivity.
Qed.

Lemma load_state config net locale section st :
  map_get (dedupKey locale section) (loadingPromises st) = None ->
  fst (lookup_cache locale section st) = None ->
  let st1 := snd (lookup_cache locale section st) in
  let issued :=
    set_loadingPromises
      (map_set (dedupKey locale section) (List.length (promises st))
         (loadingPromises st))
      (set_promises
         (promises st ++ [Pending locale section (List.length (fetchLog st))])
         (set_fetchLog (fetchLog st ++ [filePath locale]) st1)) in
  let run :=
    performLoad_resume config net locale section (List.length (fetchLog st)) issued in
  load config net locale section st
  = (fst run,
     set_loadingPromises
       (map_delete (dedupKey locale section) (loadingPromises (snd run)))
       (set_promises
          (list_update (List.length (promises st)) (Settled (fst run))
             (promises (snd run)))
          (snd run))).
Proof.
  intros Hnone Hmiss st1 issued run. unfold load.
  rewrite (@load_call_starts locale section st Hnone Hmiss). cbv zeta.
  fold st1. fold issued.
  assert (Hpend : nth_error (promises issued) (List.length (promises st))
                  = Some (Pending locale section (List.length (fetchLog st)))).
  { subst issued. cbn [promises set_loadingPromises set_promises].
    rewrite nth_error_app2 by lia. now rewrite Nat.sub_diag. }
  pose proof (performLoad_resume_promises config net locale section
                (List.length (fetchLog st)) issued) as Hp.
  unfold await_handle, settle. rewrite Hpend. fold run in Hp |- *.
  destruct run as [r st2]. cbn [fst snd] in *.
  cbn [promises set_loadingPromises set_promises].
  rewrite nth_error_list_update; [reflexivity|].
  rewrite Hp. apply nth_error_Some. rewrite Hpend. discriminate.
Qed.

Lemma lookup_after_drop locale section L sta stb :
  caches_only_dropped locale section (cacheManager sta) (cacheManager stb) ->
  clock stb = clock sta ->
  L = locale \/ fst (lookup_cache L section sta) = None ->
  fst (lookup_cache L section stb) = None.
Proof.
  intros [_ Hdrop] Hclock HL. rewrite lookup_cache_answer.
  rewrite lookup_cache_answer in HL. rewrite Hclock.
  destruct (opt_truthy section) as [s|]; destruct Hdrop as [_ Hdrop].
  - rewrite (Hdrop (TranslationCacheManager.sectionKey L s)).
    destruct (String.eqb _ _) eqn:E; [reflexivity|].
    destruct HL as [->|HL]; [|exact HL].
    now rewrite String.eqb_refl in E.
  - rewrite (Hdrop (TranslationCacheManager.localeKey L)).
    destruct (String.eqb _ _) eqn:E; [reflexivity|].
    destruct HL as [->|HL]; [|exact HL].
    now rewrite String.eqb_refl in E.
Qed.

Lemma load_call_fetches locale section st :
  map_get (dedupKey locale section) (loadingPromises st) = None ->
  fst (lookup_cache locale section st) = None ->
  exists p st2,
    load_call locale section st = (InFlight p, st2)
    /\ fetchLog st2 = (fetchLog st ++ [filePath locale])%list.
Proof.
  intros Hnone Hmiss.
  rewrite (@load_call_starts locale section st Hnone Hmiss). cbv zeta.
  destruct (lookup_cache_frame locale section st) as [cm ->].
  eexists. eexists. split; reflexivity.
Qed.

(** C10.  Take a call of [load] that has to go to the network (its key
    is not in flight and the cache misses) and whose request does not
    deliver the locale's document, so that whatever it returns comes from
    the fallback path.  Then:
    - [loadFallback] never touches the cache manager;
    - after the load, the three tiers hold what they held before, except
      that the key of the requested target, which gave the miss, is
      absent: no entry was written for the requested or for the fallback
      locale;
    - so a later [load] of the requested target, at any time, misses
      again and issues a new request;
    - and a later [load] of the fallback locale issues a new request
      whenever it would have missed on the caches as they were before. *)
Theorem fallback_load_writes_no_cache :
  forall (config : I18nConfig) (net : Network),
    (forall l s st0,
       cacheManager (snd (loadFallback net l s st0)) = cacheManager st0)
    /\ (forall (locale : Locale) (section : option Section_) (st : Sys),
          map_get (dedupKey locale section) (loadingPromises st) = None ->
          fst (lookup_cache locale section st) = None ->
          primary_payload net (List.length (fetchLog st)) (filePath locale) = None ->
          let after := snd (load config net locale section st) in
          caches_only_dropped locale section (cacheManager st) (cacheManager after)
          /\ (forall t, exists p st2,
                load_call locale section (set_clock t after) = (InFlight p, st2)
                /\ fetchLog st2 = (fetchLog after ++ [filePath locale])%list)
          /\ (forall t,
                map_get (dedupKey (cfg_fallbackLocale config) section)
                  (loadingPromises after) = None ->
                fst (lookup_cache (cfg_fallbackLocale config) section
                       (set_clock t st)) = None ->
                exists p st2,
                  load_call (cfg_fallbackLocale config) section (set_clock t after)
                  = (InFlight p, st2)
                  /\ fetchLog st2
                     = (fetchLog after
                          ++ [filePath (cfg_fallbackLocale config)])%list)).
Proof.
  intros config net. split.
  { intros l s st0. apply (@keeps_loadFallback _ cacheManager); reflexivity. }
  intros locale section st Hnone Hmiss Hfail after.
  pose proof (@load_state config net locale section st Hnone Hmiss) as Hload.
  cbv zeta in Hload.
  set (issued := set_loadingPromises _ _) in Hload.
  assert (Hcm : cacheManager after
                = cacheManager (snd (lookup_cache locale section st))).
  { subst after. rewrite Hload. cbn [snd cacheManager set_loadingPromises set_promises].
    rewrite performLoad_resume_failure_cache by exact Hfail. reflexivity. }
  assert (Hdrop : caches_only_dropped locale section (cacheManager st)
                    (cacheManager after)).
  { rewrite Hcm. now apply lookup_cache_miss. }
  assert (Hgone : map_get (dedupKey locale section) (loadingPromises after) = None).
  { subst after. rewrite Hload. cbn [snd loadingPromises set_loadingPromises].
    apply map_get_delete_eq. }
  split; [exact Hdrop|split].
  - intros t.
    apply (@load_call_fetches locale section (set_clock t after)); [exact Hgone|].
    apply (@lookup_after_drop locale section locale (set_clock t st)
             (set_clock t after)); [exact Hdrop | reflexivity | now left].
  - intros t HnoneF HmissF.
    apply (@load_call_fetches (cfg_fallbackLocale config) section
             (set_clock t after)); [exact HnoneF|].
    apply (@lookup_after_drop locale section (cfg_fallbackLocale config)
             (set_clock t st) (set_clock t after));
      [exact Hdrop | reflexivity | now right].
Qed.

(* ================================================================== *)
(** * Concrete networks and runtimes                                   *)
(* ================================================================== *)

Open Scope string_scope.

Definition vi_document : TranslationData :=
  [("common", JObj [("hello", JStr "Xin chao")])]%string.

Definition en_document : TranslationData :=
  [("common", JObj [("hello", JStr "Hello")])]%string.

Definition serve (d : TranslationData) : NetReply :=
  NetResp (mkResponse true "200" "OK" (inr d))%string.

Definition not_found : NetReply :=
  NetResp (mkResponse false "404" "Not Found" (inl ""))%string.

(** A network on which [vi.json] is served and every other file is not
    found. *)
Definition only_vi_served : Network :=
  mkNetwork
    (fun _ path =>
       if String.eqb path "/i18n/vi.json"%string then serve vi_document
       else not_found)
    (fun _ => 0).

(** A network on which [en.json] is served and every other file is not
    found. *)
Definition only_en_served : Network :=
  mkNetwork
    (fun _ path =>
       if String.eqb path "/i18n/en.json"%string then serve en_document
       else not_found)
    (fun _ => 0).

(** A network on which [en.json] and [vi.json] are served. *)
Definition en_vi_served : Network :=
  mkNetwork
    (fun _ path =>
       if String.eqb path "/i18n/en.json"%string then serve en_document
       else if String.eqb path "/i18n/vi.json"%string then serve vi_document
       else not_found)
    (fun _ => 0).

(** The runtime as shipped (development build), freshly started. *)
Definition fresh_runtime : Sys := initial_sys 0 (cacheConfig (I18N_CONFIG false)).

(* ================================================================== *)
(** * The embedding on small inputs                                    *)
(* ================================================================== *)

Example split_dot_examples :
  split_dot "a.b.c" = ["a"; "b"; "c"]
  /\ split_dot "" = [""]
  /\ split_dot "a..b" = ["a"; ""; "b"]
  /\ split_dot "hello" = ["hello"].
Proof. repeat split. Qed.

Example extractKeyValue_examples :
  extractKeyValue (JObj en_document) "common.hello" = "Hello"
  /\ extractKeyValue (JObj en_document) "common.bye" = "common.bye"
  /\ extractKeyValue (JObj en_document) "common" = "common"
  /\ extractKeyValue (JObj en_document) "common.hello.x" = "common.hello.x".
Proof. repeat split. Qed.

Example includes_examples :
  includes "fetch" "Failed to fetch /i18n/en.json" = true
  /\ includes "timeout" "Failed to fetch /i18n/en.json" = false
  /\ includes "" "" = true.
Proof. repeat split. Qed.

(** Three inserts at times 0, 1, 2 into a hit-rate store of capacity 2:
    at the third, [a] (age 2, no hit) and [b] (age 1, no hit) both have
    hit rate 0 and [a] is the older, so [a] goes. *)
Example memory_eviction_example :
  let c := mkCacheConfig 2 1000 true false 100 in
  map_keys
    (MemoryCacheStrategy.cache
       (MemoryCacheStrategy.set 2 "c" JOther None
          (MemoryCacheStrategy.set 1 "b" JOther None
             (MemoryCacheStrategy.set 0 "a" JOther None
                (MemoryCacheStrategy.new c)))))
  = ["b"; "c"].
Proof. reflexivity. Qed.

(** In the LRU store a [get] moves the key to the end of the Map, so the
    key that was not read is the one removed. *)
Example lru_eviction_example :
  let c := mkCacheConfig 2 1000 true false 100 in
  map_keys
    (LRUCacheStrategy.cache
       (lru_run [LSet 0 "a" JOther None; LSet 1 "b" JOther None; LGet 2 "a";
                 LSet 3 "c" JOther None]
          (LRUCacheStrategy.new c)))
  = ["a"; "c"].
Proof. reflexivity. Qed.

(** A [set] of a resident key writes in place: [Map.set] keeps the key's
    position, so the key stays first in line although it was written
    last. *)
Example lru_overwrite_keeps_position :
  let c := mkCacheConfig 3 1000 true false 100 in
  let s := lru_run [LSet 0 "a" JOther None; LSet 1 "b" JOther None;
                    LSet 2 "a" JOther None; LSet 3 "c" JOther None]
             (LRUCacheStrategy.new c) in
  map_keys (LRUCacheStrategy.cache s) = ["a"; "b"; "c"]
  /\ map_keys (LRUCacheStrategy.cache (LRUCacheStrategy.set 4 "d" JOther None s))
     = ["b"; "c"; "d"].
Proof. split; reflexivity. Qed.

(* ================================================================== *)
(** * C7 : fallback recovery                                           *)
(* ================================================================== *)

(** When the locale's own request fails and both the recovery table's
    fallback locale and the configured one are served, [load] gives the
    document of the configured fallback locale, and the tracker counts one
    [TranslationLoadError] for the requested locale and one successful
    recovery. *)
Lemma fallback_recovery_when_both_served :
  let outcome := load (I18N_CONFIG false) en_vi_served "fr"%string None fresh_runtime in
  let tracker := errorTracker (snd outcome) in
  fst outcome = Return (JObj vi_document)
  /\ fetchLog (snd outcome)
     = ["/i18n/fr.json"; "/i18n/en.json"; "/i18n/vi.json"]%string
  /\ ErrorTracker.count_of "TranslationLoadError"%string
       (ErrorTracker.errorCounts tracker) = 1
  /\ ErrorTracker.count_of "fr"%string (ErrorTracker.localeErrorCounts tracker) = 1
  /\ ErrorTracker.recoveryAttemptCount tracker = 1
  /\ ErrorTracker.recoverySuccessCount tracker = 1.
Proof. vm_compute. repeat split. Qed.

(** C7 (the code departs from the claim).  In the shipped configuration
    the fallback locale is [vi], and the recovery table maps a
    [TranslationLoadError] to a fallback strategy whose locale is [en].
    - On a network that serves [vi.json] but not [en.json], [load "en"]
      requests [en.json] twice and never [vi.json]; the caller gets a
      [TranslationLoadError] for [en] wrapping the fetch error, and the
      tracker counts one error for [en], one recovery attempt and no
      success.
    - On a network that serves [en.json] but not [vi.json], [load "vi"]
      requests [vi.json], [en.json] and [vi.json] again; the recovery is
      counted as successful, yet the caller gets a [TranslationLoadError],
      because the document loaded after the recovery is that of the
      configured fallback locale [vi], not of [en]. *)
Theorem fallback_recovery_ignores_configured_locale :
  let en_run := load (I18N_CONFIG false) only_vi_served "en" None fresh_runtime in
  let vi_run := load (I18N_CONFIG false) only_en_served "vi" None fresh_runtime in
  (cfg_fallbackLocale (I18N_CONFIG false) = "vi"
   /\ map_get "translation_load" (recoveryManager fresh_runtime)
      = Some (mkStrategy Fallback (Some "en") None None))
  /\ (fst en_run
      = Throw (TranslationLoadError 0 "en"
                 "Failed to load translations for locale 'en'"
                 (Some (PlainError "Failed to fetch /i18n/en.json: 404 Not Found")))
      /\ fetchLog (snd en_run) = ["/i18n/en.json"; "/i18n/en.json"]
      /\ ErrorTracker.count_of "TranslationLoadError"
           (ErrorTracker.errorCounts (errorTracker (snd en_run))) = 1
      /\ ErrorTracker.count_of "en"
           (ErrorTracker.localeErrorCounts (errorTracker (snd en_run))) = 1
      /\ ErrorTracker.recoveryAttemptCount (errorTracker (snd en_run)) = 1
      /\ ErrorTracker.recoverySuccessCount (errorTracker (snd en_run)) = 0)
  /\ (fst vi_run
      = Throw (TranslationLoadError 0 "vi"
                 "Fallback loading failed for locale 'vi'"
                 (Some (PlainError
                          "Failed to fetch fallback /i18n/vi.json: 404 Not Found")))
      /\ fetchLog (snd vi_run) = ["/i18n/vi.json"; "/i18n/en.json"; "/i18n/vi.json"]
      /\ ErrorTracker.count_of "vi"
           (ErrorTracker.localeErrorCounts (errorTracker (snd vi_run))) = 1
      /\ ErrorTracker.recoveryAttemptCount (errorTracker (snd vi_run)) = 1
      /\ ErrorTracker.recoverySuccessCount (errorTracker (snd vi_run)) = 1).
Proof. vm_compute. repeat split. Qed.

(* ================================================================== *)
(** * C3 : missing keys                                                *)
(* ================================================================== *)

Lemma extractKeyValue_missing d key :
  (forall s, descend (split_dot key) d <> Some (JStr s)) ->
  extractKeyValue d key = key.
Proof.
  intros H. unfold extractKeyValue.
  destruct (descend (split_dot key) d) as [[s| |]|]; try reflexivity.
  now destruct (H s).
Qed.

Lemma memory_set_get now key d ttl (s : MemoryCacheStrategy.t) :
  map_get key (MemoryCacheStrategy.cache (MemoryCacheStrategy.set now key d ttl s))
  = Some (CacheEntryImpl.new now d ttl).
Proof. unfold MemoryCacheStrategy.set. cbn [MemoryCacheStrategy.cache]. apply map_get_set_eq. Qed.

(** A valid entry in the key tier answers [loadKey] by itself. *)
Lemma loadKey_hit config net locale key st e :
  map_get (TranslationCacheManager.keyKey locale key)
    (MemoryCacheStrategy.cache (TranslationCacheManager.keyCache (cacheManager st)))
  = Some e ->
  CacheEntryImpl.isExpired (clock st) e = false ->
  let run := loadKey config net locale key st in
  fst run = Return (string_data e)
  /\ fetchLog (snd run) = fetchLog st
  /\ TranslationCacheManager.localeCache (cacheManager (snd run))
     = TranslationCacheManager.localeCache (cacheManager st).
Proof.
  intros Hentry Hvalid. cbv zeta.
  assert (Heq : exists kc,
    loadKey config net locale key st
    = (Return (string_data e),
       set_cacheManager (TranslationCacheManager.with_key (cacheManager st) kc) st)).
  { unfold loadKey. unfold bind at 1. unfold getKeyCache.
    unfold TranslationCacheManager.getKeyCache, MemoryCacheStrategy.get.
    rewrite Hentry, Hvalid. eexists. reflexivity. }
  destruct Heq as [kc ->]. repeat split.
Qed.

(** C3, as the code has it.  When the key tier misses, the locale loads
    with document [d], and the dotted [key] does not lead to a string in
    [d] (a segment is missing or the end value is not a string), then
    [loadKey] returns [key] itself and does not throw.  It stores that
    returned string in the key tier like any extraction result; so a
    retry within the entry's lifetime, whatever the network then is,
    returns [key] from the key tier, issuing no request and leaving the
    locale tier untouched. *)
Theorem loadKey_missing_key :
  forall (config : I18nConfig) (net : Network) (locale : Locale)
         (key : TranslationKey) (st : Sys) (d : JsValue) (st1 : Sys),
    fst (TranslationCacheManager.getKeyCache (clock st) locale key (cacheManager st))
    = None ->
    load config net locale None
      (set_cacheManager
         (snd (TranslationCacheManager.getKeyCache (clock st) locale key
                 (cacheManager st))) st)
    = (Return d, st1) ->
    (forall s, descend (split_dot key) d <> Some (JStr s)) ->
    let run := loadKey config net locale key st in
    fst run = Return key
    /\ cacheManager (snd run)
       = TranslationCacheManager.setKeyCache (clock st1) locale key key
           (cacheManager st1)
    /\ map_get (TranslationCacheManager.keyKey locale key)
         (MemoryCacheStrategy.cache
            (TranslationCacheManager.keyCache (cacheManager (snd run))))
       = Some (CacheEntryImpl.new (clock st1) (JStr key)
                 (Some (cfg_ttl (TranslationCacheManager.config (cacheManager st1)))))
    /\ forall config' net' later,
         later - clock st1
         <= cfg_ttl (TranslationCacheManager.config (cacheManager st1)) ->
         let retry := loadKey config' net' locale key (set_clock later (snd run)) in
         fst retry = Return key
         /\ fetchLog (snd retry) = fetchLog (snd run)
         /\ TranslationCacheManager.localeCache (cacheManager (snd retry))
            = TranslationCacheManager.localeCache (cacheManager (snd run)).
Proof.
  intros config net locale key st d st1 Hmiss Hload Hpath run.
  assert (Hrun : run
                 = (Return key,
                    set_cacheManager
                      (TranslationCacheManager.setKeyCache (clock st1) locale key key
                         (cacheManager st1)) st1)).
  { subst run. unfold loadKey. unfold bind at 1. unfold getKeyCache.
    destruct (TranslationCacheManager.getKeyCache (clock st) locale key
                (cacheManager st)) as [r cm] eqn:E.
    cbn [fst snd] in *. subst r.
    unfold try_catch. unfold bind at 1. rewrite Hload.
    rewrite (@extractKeyValue_missing d key Hpath).
    unfold bind, setKeyCache, modify, ret. reflexivity. }
  rewrite Hrun. cbn [fst snd cacheManager set_cacheManager].
  assert (Hentry :
    map_get (TranslationCacheManager.keyKey locale key)
      (MemoryCacheStrategy.cache
         (TranslationCacheManager.keyCache
            (TranslationCacheManager.setKeyCache (clock st1) locale key key
               (cacheManager st1))))
    = Some (CacheEntryImpl.new (clock st1) (JStr key)
              (Some (cfg_ttl (TranslationCacheManager.config (cacheManager st1)))))).
  { unfold TranslationCacheManager.setKeyCache, TranslationCacheManager.with_key.
    cbn [TranslationCacheManager.keyCache]. apply memory_set_get. }
  split; [reflexivity|]. split; [reflexivity|]. split; [exact Hentry|].
  intros config' net' later Hlive.
  assert (Hvalid : CacheEntryImpl.isExpired later
                     (CacheEntryImpl.new (clock st1) (JStr key)
                        (Some (cfg_ttl (TranslationCacheManager.config
                                          (cacheManager st1))))) = false).
  { apply isExpired_spec. exact Hlive. }
  exact (@loadKey_hit config' net' locale key
           (set_clock later
              (set_cacheManager
                 (TranslationCacheManager.setKeyCache (clock st1) locale key key
                    (cacheManager st1)) st1))
           _ Hentry Hvalid).
Qed.

(** A locale document in which [a.b] exists and [a.b.c] does not. *)
Definition ab_document : TranslationData :=
  [("a", JObj [("b", JObj [("x", JStr "X")])])]%string.

Definition ab_served : Network := mkNetwork (fun _ _ => serve ab_document) (fun _ => 0).

(** C3 as stated fails in its second half: after [loadKey "en" "a.b.c"]
    on a document without [a.b.c], the key tier holds the raw key as the
    value of that key, and the retry is served from the key tier: the
    entry has one hit, the locale entry none, and no request is made. *)
Lemma loadKey_caches_raw_key :
  let first := loadKey (I18N_CONFIG false) ab_served "en" "a.b.c" fresh_runtime in
  let retry := loadKey (I18N_CONFIG false) ab_served "en" "a.b.c" (snd first) in
  let key_entry st :=
    map_get "key:en:a.b.c"
      (MemoryCacheStrategy.cache (TranslationCacheManager.keyCache (cacheManager st))) in
  let locale_entry st :=
    map_get "locale:en"
      (MemoryCacheStrategy.cache
         (TranslationCacheManager.localeCache (cacheManager st))) in
  (fst first = Return "a.b.c"
   /\ TranslationCacheManager.hasKeyCache 0 "en" "a.b.c" (cacheManager (snd first))
      = true
   /\ option_map CacheEntryImpl.data (key_entry (snd first)) = Some (JStr "a.b.c")
   /\ fst retry = Return "a.b.c"
   /\ option_map CacheEntryImpl.hits (key_entry (snd retry)) = Some 1
   /\ option_map CacheEntryImpl.hits (locale_entry (snd retry)) = Some 0
   /\ fetchLog (snd retry) = fetchLog (snd first))%string.
Proof. vm_compute. repeat split. Qed.

Lemma loadKey_missing_key_witness :
  let config := I18N_CONFIG false in
  let st := fresh_runtime in
  let st1 := snd (load config ab_served "en"%string None st) in
  fst (TranslationCacheManager.getKeyCache (clock st) "en"%string "a.b.c"%string
         (cacheManager st)) = None
  /\ load config ab_served "en"%string None
       (set_cacheManager
          (snd (TranslationCacheManager.getKeyCache (clock st) "en"%string
                  "a.b.c"%string (cacheManager st))) st)
     = (Return (JObj ab_document), st1)
  /\ (forall s, descend (split_dot "a.b.c"%string) (JObj ab_document) <> Some (JStr s))
  /\ fst (loadKey config ab_served "en"%string "a.b.c"%string st)
     = Return "a.b.c"%string.
Proof.
  intros config st st1.
  assert (H1 : fst (TranslationCacheManager.getKeyCache (clock st) "en"%string
                      "a.b.c"%string (cacheManager st)) = None) by reflexivity.
  assert (H2 : load config ab_served "en"%string None
                 (set_cacheManager
                    (snd (TranslationCacheManager.getKeyCache (clock st) "en"%string
                            "a.b.c"%string (cacheManager st))) st)
               = (Return (JObj ab_document), st1)) by (vm_compute; reflexivity).
  assert (H3 : forall s, descend (split_dot "a.b.c"%string) (JObj ab_document)
                         <> Some (JStr s)) by (intros s; vm_compute; discriminate).
  split; [exact H1|]. split; [exact H2|]. split; [exact H3|].
  exact (proj1 (@loadKey_missing_key config ab_served "en"%string "a.b.c"%string
                  st (JObj ab_document) st1 H1 H2 H3)).
Defined.

(* ================================================================== *)
(** * C8 : setCurrentLocale                                            *)
(* ================================================================== *)

(** C8, as the code has it.  [setCurrentLocale] checks membership in the
    supported locales.  For an unsupported locale it throws a plain
    [Error] with message "Unsupported locale: <locale>" and leaves the
    whole state as it was: current locale, stored preference, and no
    observer called.  For a supported one it returns after setting the
    current locale, calling [onLocaleChange] with the locale on every
    observer that has such a method, in registration order, and, where
    [localStorage] is defined, storing the locale under
    "preferred-locale". *)
Theorem setCurrentLocale_contract :
  forall (locale : Locale) (s : I18nStateManager.t),
    I18nStateManager.setCurrentLocale locale s
    = if I18nStateManager.isLocaleSupported locale s then
        (Return tt,
         I18nStateManager.mk locale
           (I18nStateManager.fallbackLocale_ s)
           (I18nStateManager.supported s)
           (I18nStateManager.loadedLocales s)
           (I18nStateManager.observers s)
           (I18nStateManager.notifications s
              ++ List.map
                   (fun o => mkNotification (obs_name o) "onLocaleChange" locale)
                   (filter
                      (fun o => existsb (String.eqb "onLocaleChange") (obs_methods o))
                      (I18nStateManager.observers s)))%list
           (match I18nStateManager.localStorage s with
            | Some items => Some (map_set "preferred-locale" locale items)
            | None => None
            end))
      else
        (Throw (PlainError ("Unsupported locale: " ++ locale)), s).
Proof.
  intros locale s. unfold I18nStateManager.setCurrentLocale.
  unfold bind at 1. cbn [gets].
  destruct (I18nStateManager.isLocaleSupported locale s); reflexivity.
Qed.

(** C8 as stated fails on the class of the failure: what is thrown for an
    unsupported locale is a plain [Error], not a [ConfigurationError]; the
    error handler would not class it as a configuration error either. *)
Lemma unsupported_locale_throws_plain_error :
  let s := I18nStateManager.new (I18N_CONFIG false) (Some []) in
  I18nStateManager.isLocaleSupported "fr" s = false
  /\ exists e,
       fst (I18nStateManager.setCurrentLocale "fr" s) = Throw e
       /\ e = PlainError "Unsupported locale: fr"
       /\ constructor_name e <> "ConfigurationError"
       /\ ErrorRecoveryManager.getErrorType
            (ErrorHandler.wrapError 0 e (mkPartial None None None None None))
          <> "configuration".
Proof.
  cbv zeta. split; [reflexivity|].
  exists (PlainError "Unsupported locale: fr").
  split; [reflexivity|]. split; [reflexivity|].
  split; vm_compute; discriminate.
Qed.

(* ================================================================== *)
(** * C9 : getTranslation                                              *)
(* ================================================================== *)

(** Whatever [t] does, [getTranslation] returns a string and does not
    throw: the string [t] returned for the key and the target locale
    ([locale], or the current locale when [locale] is absent or empty),
    or the key itself when [t] threw. *)
Lemma getTranslation_never_throws :
  forall (VueI18n : Type) (vue_t : TranslationKey -> Locale -> M VueI18n string)
         (key : TranslationKey) (locale : option Locale)
         (sys : EnterpriseI18nSystem VueI18n),
    let target :=
      match opt_truthy locale with
      | Some l => l
      | None => I18nStateManager.currentLocale (stateManager sys)
      end in
    exists s sys',
      getTranslation vue_t key locale sys = (Return s, sys')
      /\ s = match fst (vue_t key target (vueI18n sys)) with
             | Return x => x
             | Throw _ => key
             end
      /\ stateManager sys' = stateManager sys.
Proof.
  intros VueI18n vue_t key locale sys target.
  unfold getTranslation. unfold bind at 1. cbn [gets]. fold target.
  unfold try_catch, call_t.
  destruct (vue_t key target (vueI18n sys)) as [[x|e] v]; cbn [fst].
  - exists x. eexists. repeat split.
  - exists key. eexists. repeat split.
Qed.

(** What [getTranslation] gives for a key without a message: the target
    locale's code. *)
Lemma getTranslation_missing_key (key : TranslationKey) (locale : option Locale)
    (sys : EnterpriseI18nSystem VueComposer) :
  let target :=
    match opt_truthy locale with
    | Some l => l
    | None => I18nStateManager.currentLocale (stateManager sys)
    end in
  resolve_message (vueI18n sys) (vue_locale (vueI18n sys)) key = None ->
  resolve_message (vueI18n sys) (vue_fallbackLocale (vueI18n sys)) key = None ->
  truthy target = true ->
  getTranslation composer_t key locale sys = (Return target, sys).
Proof.
  intros target H1 H2 H3.
  unfold getTranslation. unfold bind at 1. cbn [gets]. fold target.
  unfold try_catch, call_t, composer_t. rewrite H1, H2, H3.
  now destruct sys.
Qed.

(** C9 fails on the code.  On a fresh facade, where no message is loaded
    yet, [getTranslation('common.hello')] gives ['vi'], the current
    locale, and [getTranslation('common.hello', 'en')] gives ['en']: the
    locale is passed to [t] in the place of the default message.  Neither
    is the key. *)
Theorem getTranslation_returns_locale_for_missing_key :
  let sys := cold_start (I18N_CONFIG false) None in
  getTranslation composer_t "common.hello"%string None sys = (Return "vi"%string, sys)
  /\ getTranslation composer_t "common.hello"%string (Some "en"%string) sys = (Return "en"%string, sys)
  /\ "vi"%string <> "common.hello"%string /\ "en"%string <> "common.hello"%string.
Proof.
  cbv zeta. split; [reflexivity|]. split; [reflexivity|].
  split; discriminate.
Qed.

(* ================================================================== *)
(** * Instances                                                        *)
(* ================================================================== *)

Lemma load_deduplicates_witness :
  let config := I18N_CONFIG false in
  let st := fresh_runtime in
  let calls := concurrent_calls "en" None [0; 1; 2] st in
  let awaited := await_all config en_vi_served (fst calls) (snd calls) in
  map_get (dedupKey "en" None) (loadingPromises st) = None
  /\ fst (lookup_cache "en" None (set_clock 0 st)) = None
  /\ fst calls = repeat (InFlight O) 3
  /\ fetchLog (snd calls) = ["/i18n/en.json"]
  /\ (exists r, fst awaited = repeat r 3)
  /\ (primary_payload en_vi_served O (filePath "en") <> None ->
      fetchLog (snd awaited) = ["/i18n/en.json"]).
Proof.
  intros config st calls awaited.
  assert (H1 : map_get (dedupKey "en" None) (loadingPromises st) = None)
    by reflexivity.
  assert (H2 : fst (lookup_cache "en" None (set_clock 0 st)) = None)
    by reflexivity.
  split; [exact H1|]. split; [exact H2|].
  destruct (proj2 (load_deduplicates config en_vi_served "en" None) 0 [1; 2] st H1 H2)
    as (A & B & C & _ & D).
  split; [exact A|]. split; [exact B|]. split; [exact C | exact D].
Defined.

Lemma fallback_load_writes_no_cache_witness :
  let config := I18N_CONFIG false in
  let st := fresh_runtime in
  let after := snd (load config en_vi_served "fr" None st) in
  map_get (dedupKey "fr" None) (loadingPromises st) = None
  /\ fst (lookup_cache "fr" None st) = None
  /\ primary_payload en_vi_served (List.length (fetchLog st)) (filePath "fr") = None
  /\ fst (load config en_vi_served "fr" None st) = Return (JObj vi_document)
  /\ caches_only_dropped "fr" None (cacheManager st) (cacheManager after).
Proof.
  intros config st after.
  assert (H1 : map_get (dedupKey "fr" None) (loadingPromises st) = None)
    by reflexivity.
  assert (H2 : fst (lookup_cache "fr" None st) = None) by reflexivity.
  assert (H3 : primary_payload en_vi_served (List.length (fetchLog st))
                 (filePath "fr") = None) by reflexivity.
  split; [exact H1|]. split; [exact H2|]. split; [exact H3|].
  split; [vm_compute; reflexivity|].
  exact (proj1 (proj2 (fallback_load_writes_no_cache config en_vi_served)
                  "fr" None st H1 H2 H3)).
Defined.

(* ================================================================== *)
(* ================================================================== *)
(** * Further properties of the cache, the loaders, error handling,
      the state manager and the facade                                 *)
(* ================================================================== *)
(* ================================================================== *)

Open Scope Z_scope.

(* ================================================================== *)
(** * cache.ts : what a writer reads back                              *)
(* ================================================================== *)

Lemma lru_set_get now key d ttl (s : LRUCacheStrategy.t) :
  map_get key (LRUCacheStrategy.cache (LRUCacheStrategy.set now key d ttl s))
  = Some (CacheEntryImpl.new now d ttl).
Proof.
  unfold LRUCacheStrategy.set. cbn [LRUCacheStrategy.cache]. apply map_get_set_eq.
Qed.

Lemma memory_has_answer now key (s : MemoryCacheStrategy.t) :
  MemoryCacheStrategy.has now key s
  = match map_get key (MemoryCacheStrategy.cache s) with
    | Some e => negb (CacheEntryImpl.isExpired now e)
    | None => false
    end.
Proof. reflexivity. Qed.

Lemma lru_has_answer now key (s : LRUCacheStrategy.t) :
  LRUCacheStrategy.has now key s
  = match map_get key (LRUCacheStrategy.cache s) with
    | Some e => negb (CacheEntryImpl.isExpired now e)
    | None => false
    end.
Proof. reflexivity. Qed.

(** X1.  In each of the three tiers, what was written at time [now] is
    read back at time [now'] exactly while [now' - now] does not exceed
    the configured [ttl]: the entry then carries the written data, the
    time of writing, the configured [ttl] and a hit count of 1, and the
    [has] query answers true; later, the read gives [null] and [has]
    false.  This holds whatever the tier held before, full or not. *)
Theorem cache_set_then_get :
  forall (m : TranslationCacheManager.t) (now now' : Z) (locale : Locale)
         (section : Section_) (key : TranslationKey) (d : JsValue)
         (value : string),
    let ttl := cfg_ttl (TranslationCacheManager.config m) in
    let answer x :=
      if ttl <? now' - now then None
      else Some (CacheEntryImpl.mk x now ttl 1) in
    let fresh := negb (ttl <? now' - now) in
    (fst (TranslationCacheManager.getLocaleCache now' locale
            (TranslationCacheManager.setLocaleCache now locale d m)) = answer d
     /\ TranslationCacheManager.hasLocaleCache now' locale
          (TranslationCacheManager.setLocaleCache now locale d m) = fresh)
    /\ (fst (TranslationCacheManager.getSectionCache now' locale section
               (TranslationCacheManager.setSectionCache now locale section d m))
        = answer d
        /\ TranslationCacheManager.hasSectionCache now' locale section
             (TranslationCacheManager.setSectionCache now locale section d m)
           = fresh)
    /\ (fst (TranslationCacheManager.getKeyCache now' locale key
               (TranslationCacheManager.setKeyCache now locale key value m))
        = answer (JStr value)
        /\ TranslationCacheManager.hasKeyCache now' locale key
             (TranslationCacheManager.setKeyCache now locale key value m)
           = fresh).
Proof.
  intros m now now' locale section key d value ttl answer fresh.
  unfold TranslationCacheManager.getLocaleCache,
    TranslationCacheManager.getSectionCache, TranslationCacheManager.getKeyCache,
    TranslationCacheManager.hasLocaleCache, TranslationCacheManager.hasSectionCache,
    TranslationCacheManager.hasKeyCache,
    TranslationCacheManager.setLocaleCache, TranslationCacheManager.setSectionCache,
    TranslationCacheManager.setKeyCache, TranslationCacheManager.with_locale,
    TranslationCacheManager.with_section, TranslationCacheManager.with_key.
  cbn [TranslationCacheManager.localeCache TranslationCacheManager.sectionCache
       TranslationCacheManager.keyCache].
  repeat match goal with
  | |- context [MemoryCacheStrategy.get ?n ?k ?s] =>
      let H := fresh "H" in
      pose proof (memory_get_answer n k s) as H;
      destruct (MemoryCacheStrategy.get n k s)
  | |- context [LRUCacheStrategy.get ?n ?k ?s] =>
      let H := fresh "H" in
      pose proof (lru_get_answer n k s) as H;
      destruct (LRUCacheStrategy.get n k s)
  end.
  cbn [fst] in *.
  rewrite memory_has_answer, lru_has_answer, memory_has_answer.
  rewrite !memory_set_get, lru_set_get in *.
  subst. subst answer fresh ttl.
  unfold CacheEntryImpl.isExpired, CacheEntryImpl.new, CacheEntryImpl.incrementHits.
  cbn [CacheEntryImpl.ttl CacheEntryImpl.timestamp CacheEntryImpl.data
       CacheEntryImpl.hits].
  destruct (cfg_ttl (TranslationCacheManager.config m) <? now' - now);
    repeat split.
Qed.

(* ================================================================== *)
(** * JavaScript [Map]: keys stay distinct                             *)
(* ================================================================== *)

Section JsMapDistinct.
Variable V : Type.
Implicit Types (m : JsMap V) (k : string) (v : V).

Lemma In_keys_map_set k k' v m :
  In k' (map_keys (map_set k v m)) -> k' = k \/ In k' (map_keys m).
Proof.
  induction m as [|[k0 v0] r IH]; simpl.
  - intros [<-|[]]. now left.
  - destruct (String.eqb k k0) eqn:E; simpl.
    + apply String.eqb_eq in E. subst. tauto.
    + intros [<-|H]; [tauto|]. destruct (IH H); tauto.
Qed.

Lemma NoDup_map_set k v m :
  NoDup (map_keys m) -> NoDup (map_keys (map_set k v m)).
Proof.
  induction m as [|[k0 v0] r IH]; simpl; intros H.
  - repeat constructor. intros [].
  - inversion H as [|? ? Hn Hr]; subst.
    destruct (String.eqb k k0) eqn:E; simpl.
    + apply String.eqb_eq in E. subst. now constructor.
    + constructor; [|now apply IH].
      intros Hin. apply In_keys_map_set in Hin. destruct Hin as [->|Hin].
      * now rewrite String.eqb_refl in E.
      * contradiction.
Qed.

Lemma NoDup_map_delete k m :
  NoDup (map_keys m) -> NoDup (map_keys (map_delete k m)).
Proof. intros H. rewrite map_keys_delete. now apply NoDup_filter. Qed.

Lemma NoDup_delete_keys ks m :
  NoDup (map_keys m) -> NoDup (map_keys (delete_keys ks m)).
Proof. intros H. rewrite map_keys_delete_keys. now apply NoDup_filter. Qed.

Lemma map_get_NoDup k v m :
  NoDup (map_keys m) -> In (k, v) m -> map_get k m = Some v.
Proof.
  induction m as [|[k0 v0] r IH]; simpl; intros Hd Hin; [easy|].
  inversion Hd as [|? ? Hn Hr]; subst.
  destruct Hin as [[= -> ->]|Hin].
  - now rewrite String.eqb_refl.
  - destruct (String.eqb k k0) eqn:E; [|now apply IH].
    apply String.eqb_eq in E. subst. exfalso. apply Hn.
    change k0 with (fst (k0, v)). now apply in_map.
Qed.

Lemma map_get_delete_keys_notin k ks m :
  ~ In k ks -> map_get k (delete_keys ks m) = map_get k m.
Proof.
  unfold delete_keys. revert m.
  induction ks as [|k0 ks IH]; intros m Hn; simpl; [reflexivity|].
  rewrite IH by (intros H; apply Hn; now right).
  apply map_get_delete_neq. intros ->. apply Hn. now left.
Qed.
End JsMapDistinct.

(** What a store holds under [k] after [cleanup]: the entry it held, if
    that entry has not expired. *)
Lemma cleanup_lookup now (m : CacheMap) k :
  NoDup (map_keys m) ->
  map_get k (delete_all (expired_keys now m) m)
  = match map_get k m with
    | Some e => if CacheEntryImpl.isExpired now e then None else Some e
    | None => None
    end.
Proof.
  intros Hd. destruct (map_get k m) as [e|] eqn:E.
  - destruct (CacheEntryImpl.isExpired now e) eqn:X.
    + now apply cleanup_drops_expired with (e := e).
    + unfold delete_all. rewrite map_get_delete_keys_notin; [exact E|].
      intros Hin. apply In_expired_keys in Hin. destruct Hin as (e' & Hin & Hx).
      rewrite (@map_get_NoDup _ k e' m Hd Hin) in E. congruence.
  - destruct (map_get k (delete_all (expired_keys now m) m)) as [e|] eqn:E';
      [|reflexivity].
    apply map_get_In in E'. unfold delete_all in E'.
    apply In_delete_keys in E'. destruct E' as [Hin _].
    destruct (In_map_get _ _ _ Hin) as [v Hv]. congruence.
Qed.

Lemma cleanup_fixpoint now (m : CacheMap) :
  expired_keys now (delete_all (expired_keys now m) m) = [].
Proof.
  destruct (expired_keys now (delete_all (expired_keys now m) m)) as [|k r] eqn:E;
    [reflexivity|].
  assert (Hin : In k (expired_keys now (delete_all (expired_keys now m) m)))
    by (rewrite E; now left).
  apply In_expired_keys in Hin. destruct Hin as (e & Hin & Hx).
  apply cleanup_keeps_valid in Hin. apply isExpired_spec in Hin. congruence.
Qed.

(* ================================================================== *)
(** * cache.ts : invariants of the reachable manager states            *)
(* ================================================================== *)

(** A property [Inv] of a backing store that every store operation
    keeps, given that the entries written satisfy [good]. *)
Section StoreInvariant.
Variable Inv : CacheMap -> Prop.
Variable good : CacheEntryImpl.t -> Prop.
Hypothesis Inv_nil : Inv [].
Hypothesis Inv_delete : forall k m, Inv m -> Inv (map_delete k m).
Hypothesis Inv_set : forall k e m, Inv m -> good e -> Inv (map_set k e m).
Hypothesis Inv_get : forall k e m, Inv m -> map_get k m = Some e -> good e.
Hypothesis good_new : forall now d ttl, good (CacheEntryImpl.new now d ttl).
Hypothesis good_hit : forall e, good e -> good (CacheEntryImpl.incrementHits e).

Lemma Inv_delete_keys ks (m : CacheMap) : Inv m -> Inv (delete_keys ks m).
Proof.
  unfold delete_keys. revert m. induction ks as [|k ks IH]; intros m H; simpl.
  - exact H.
  - apply IH. now apply Inv_delete.
Qed.

Lemma memory_evict_inv now (s : MemoryCacheStrategy.t) :
  Inv (MemoryCacheStrategy.cache s) ->
  Inv (MemoryCacheStrategy.cache (MemoryCacheStrategy.evictLeastUsed now s)).
Proof.
  intros H. unfold MemoryCacheStrategy.evictLeastUsed.
  destruct (MemoryCacheStrategy.leastUsedKey _) as [k|]; [|exact H].
  destruct (truthy k); [|exact H].
  cbn [MemoryCacheStrategy.cache]. now apply Inv_delete.
Qed.

Lemma memory_set_inv now key d ttl (s : MemoryCacheStrategy.t) :
  Inv (MemoryCacheStrategy.cache s) ->
  Inv (MemoryCacheStrategy.cache (MemoryCacheStrategy.set now key d ttl s)).
Proof.
  intros H. unfold MemoryCacheStrategy.set. cbn [MemoryCacheStrategy.cache].
  apply Inv_set; [|apply good_new].
  destruct (MemoryCacheStrategy.maxSize s <=? map_size (MemoryCacheStrategy.cache s));
    [now apply memory_evict_inv | exact H].
Qed.

Lemma memory_get_inv now key (s : MemoryCacheStrategy.t) :
  Inv (MemoryCacheStrategy.cache s) ->
  Inv (MemoryCacheStrategy.cache (snd (MemoryCacheStrategy.get now key s))).
Proof.
  intros H. unfold MemoryCacheStrategy.get.
  destruct (map_get key (MemoryCacheStrategy.cache s)) as [e|] eqn:E; [|exact H].
  destruct (CacheEntryImpl.isExpired now e); cbn [snd MemoryCacheStrategy.cache].
  - now apply Inv_delete.
  - apply Inv_set; [exact H|]. apply good_hit. now apply Inv_get with (1 := H) (k := key).
Qed.

Lemma lru_evict_inv (s : LRUCacheStrategy.t) :
  Inv (LRUCacheStrategy.cache s) ->
  Inv (LRUCacheStrategy.cache (LRUCacheStrategy.evictFirst s)).
Proof.
  intros H. unfold LRUCacheStrategy.evictFirst.
  destruct (map_first_key (LRUCacheStrategy.cache s)) as [k|]; [|exact H].
  destruct (truthy k); [|exact H].
  cbn [LRUCacheStrategy.cache]. now apply Inv_delete.
Qed.

Lemma lru_set_inv now key d ttl (s : LRUCacheStrategy.t) :
  Inv (LRUCacheStrategy.cache s) ->
  Inv (LRUCacheStrategy.cache (LRUCacheStrategy.set now key d ttl s)).
Proof.
  intros H. unfold LRUCacheStrategy.set. cbn [LRUCacheStrategy.cache].
  apply Inv_set; [|apply good_new].
  destruct (LRUCacheStrategy.maxSize s <=? map_size (LRUCacheStrategy.cache s));
    [now apply lru_evict_inv | exact H].
Qed.

Lemma lru_get_inv now key (s : LRUCacheStrategy.t) :
  Inv (LRUCacheStrategy.cache s) ->
  Inv (LRUCacheStrategy.cache (snd (LRUCacheStrategy.get now key s))).
Proof.
  intros H. unfold LRUCacheStrategy.get.
  destruct (map_get key (LRUCacheStrategy.cache s)) as [e|] eqn:E; [|exact H].
  destruct (CacheEntryImpl.isExpired now e); cbn [snd LRUCacheStrategy.cache].
  - now apply Inv_delete.
  - apply Inv_set; [now apply Inv_delete|].
    apply good_hit. now apply Inv_get with (1 := H) (k := key).
Qed.

Definition manager_inv (m : TranslationCacheManager.t) : Prop :=
  Inv (MemoryCacheStrategy.cache (TranslationCacheManager.localeCache m))
  /\ Inv (LRUCacheStrategy.cache (TranslationCacheManager.sectionCache m))
  /\ Inv (MemoryCacheStrategy.cache (TranslationCacheManager.keyCache m)).

Lemma manager_inv_new c : manager_inv (TranslationCacheManager.new c).
Proof. repeat split; exact Inv_nil. Qed.

Lemma manager_inv_apply m op : manager_inv m -> manager_inv (apply_op m op).
Proof.
  intros (A & B & C).
  destruct op; unfold manager_inv; cbn [apply_op];
    unfold TranslationCacheManager.setLocaleCache,
      TranslationCacheManager.setSectionCache, TranslationCacheManager.setKeyCache,
      TranslationCacheManager.getLocaleCache,
      TranslationCacheManager.getSectionCache, TranslationCacheManager.getKeyCache,
      TranslationCacheManager.cleanup, TranslationCacheManager.clearAll,
      TranslationCacheManager.clearLocale,
      TranslationCacheManager.with_locale, TranslationCacheManager.with_section,
      TranslationCacheManager.with_key.
  - cbn [TranslationCacheManager.localeCache TranslationCacheManager.sectionCache
         TranslationCacheManager.keyCache].
    split; [now apply memory_set_inv|]. split; assumption.
  - cbn [TranslationCacheManager.localeCache TranslationCacheManager.sectionCache
         TranslationCacheManager.keyCache].
    split; [assumption|]. split; [now apply lru_set_inv|assumption].
  - cbn [TranslationCacheManager.localeCache TranslationCacheManager.sectionCache
         TranslationCacheManager.keyCache].
    split; [assumption|]. split; [assumption|now apply memory_set_inv].
  - pose proof (@memory_get_inv now (TranslationCacheManager.localeKey locale)
                  (TranslationCacheManager.localeCache m) A) as H.
    destruct (MemoryCacheStrategy.get now _ (TranslationCacheManager.localeCache m)).
    cbn [snd TranslationCacheManager.localeCache TranslationCacheManager.sectionCache
         TranslationCacheManager.keyCache] in *.
    split; [assumption|]. split; assumption.
  - pose proof (@lru_get_inv now
                  (TranslationCacheManager.sectionKey locale section)
                  (TranslationCacheManager.sectionCache m) B) as H.
    destruct (LRUCacheStrategy.get now _ (TranslationCacheManager.sectionCache m)).
    cbn [snd TranslationCacheManager.localeCache TranslationCacheManager.sectionCache
         TranslationCacheManager.keyCache] in *.
    split; [assumption|]. split; assumption.
  - pose proof (@memory_get_inv now (TranslationCacheManager.keyKey locale key)
                  (TranslationCacheManager.keyCache m) C) as H.
    destruct (MemoryCacheStrategy.get now _ (TranslationCacheManager.keyCache m)).
    cbn [snd TranslationCacheManager.localeCache TranslationCacheManager.sectionCache
         TranslationCacheManager.keyCache] in *.
    split; [assumption|]. split; assumption.
  - cbn [TranslationCacheManager.localeCache TranslationCacheManager.sectionCache
         TranslationCacheManager.keyCache].
    unfold MemoryCacheStrategy.cleanup, LRUCacheStrategy.cleanup, delete_all.
    cbn [MemoryCacheStrategy.cache LRUCacheStrategy.cache].
    split; [now apply Inv_delete_keys|].
    split; now apply Inv_delete_keys.
  - repeat split; exact Inv_nil.
  - repeat split; exact Inv_nil.
Qed.

Lemma manager_inv_run ops m : manager_inv m -> manager_inv (run_ops ops m).
Proof.
  unfold run_ops. revert m. induction ops as [|op ops IH]; intros m H; simpl.
  - exact H.
  - apply IH. now apply manager_inv_apply.
Qed.
End StoreInvariant.

(** The keys of each tier are pairwise distinct, as those of a [Map]
    are. *)
Lemma manager_distinct_run c ops :
  manager_inv (fun m => NoDup (map_keys m))
    (run_ops ops (TranslationCacheManager.new c)).
Proof.
  apply manager_inv_run with (good := fun _ => True);
    try (now intros); try (intros; now constructor).
  - intros k m. apply NoDup_map_delete.
  - intros k e m H _. now apply NoDup_map_set.
  - apply manager_inv_new. constructor.
Qed.

(** X2.  On every state a cache manager can reach from a fresh one,
    [cleanup] is invisible to readers at that instant: in each tier the
    [has] query and the data, time stamp and hit count returned by the
    read are the same before and after it.  A second [cleanup] at the same
    instant changes nothing. *)
Theorem cleanup_is_invisible :
  forall (c : CacheConfig) (ops : list CacheOp) (now : Z) (locale : Locale)
         (section : Section_) (key : TranslationKey),
    let m := run_ops ops (TranslationCacheManager.new c) in
    let m' := TranslationCacheManager.cleanup now m in
    (TranslationCacheManager.hasLocaleCache now locale m'
     = TranslationCacheManager.hasLocaleCache now locale m
     /\ fst (TranslationCacheManager.getLocaleCache now locale m')
        = fst (TranslationCacheManager.getLocaleCache now locale m))
    /\ (TranslationCacheManager.hasSectionCache now locale section m'
        = TranslationCacheManager.hasSectionCache now locale section m
        /\ fst (TranslationCacheManager.getSectionCache now locale section m')
           = fst (TranslationCacheManager.getSectionCache now locale section m))
    /\ (TranslationCacheManager.hasKeyCache now locale key m'
        = TranslationCacheManager.hasKeyCache now locale key m
        /\ fst (TranslationCacheManager.getKeyCache now locale key m')
           = fst (TranslationCacheManager.getKeyCache now locale key m))
    /\ TranslationCacheManager.cleanup now m' = m'.
Proof.
  intros c ops now locale section key m m'.
  destruct (manager_distinct_run c ops) as (A & B & C).
  fold m in A, B, C.
  assert (L : forall (cache : CacheMap) k,
             NoDup (map_keys cache) ->
             match map_get k (delete_all (expired_keys now cache) cache) with
             | Some e => negb (CacheEntryImpl.isExpired now e)
             | None => false
             end
             = match map_get k cache with
               | Some e => negb (CacheEntryImpl.isExpired now e)
               | None => false
               end
             /\ match map_get k (delete_all (expired_keys now cache) cache) with
                | Some e => if CacheEntryImpl.isExpired now e then None
                            else Some (CacheEntryImpl.incrementHits e)
                | None => None
                end
                = match map_get k cache with
                  | Some e => if CacheEntryImpl.isExpired now e then None
                              else Some (CacheEntryImpl.incrementHits e)
                  | None => None
                  end).
  { intros cache k Hd. rewrite (@cleanup_lookup now cache k Hd).
    destruct (map_get k cache) as [e|]; [|now split].
    destruct (CacheEntryImpl.isExpired now e) eqn:X; [now split|].
    rewrite X. now split. }
  unfold TranslationCacheManager.getLocaleCache,
    TranslationCacheManager.getSectionCache, TranslationCacheManager.getKeyCache,
    TranslationCacheManager.hasLocaleCache, TranslationCacheManager.hasSectionCache,
    TranslationCacheManager.hasKeyCache.
  repeat match goal with
  | |- context [MemoryCacheStrategy.get ?n ?k ?s] =>
      let H := fresh "H" in
      pose proof (memory_get_answer n k s) as H;
      destruct (MemoryCacheStrategy.get n k s)
  | |- context [LRUCacheStrategy.get ?n ?k ?s] =>
      let H := fresh "H" in
      pose proof (lru_get_answer n k s) as H;
      destruct (LRUCacheStrategy.get n k s)
  end.
  cbn [fst] in *. subst.
  rewrite !memory_has_answer, !lru_has_answer.
  subst m'. unfold TranslationCacheManager.cleanup.
  cbn [TranslationCacheManager.localeCache TranslationCacheManager.sectionCache
       TranslationCacheManager.keyCache TranslationCacheManager.config].
  unfold MemoryCacheStrategy.cleanup, LRUCacheStrategy.cleanup.
  cbn [MemoryCacheStrategy.cache LRUCacheStrategy.cache
       MemoryCacheStrategy.maxSize LRUCacheStrategy.maxSize].
  split; [exact (L _ _ A)|]. split; [exact (L _ _ B)|]. split; [exact (L _ _ C)|].
  rewrite !cleanup_fixpoint. reflexivity.
Qed.

(* ================================================================== *)
(** * cache.ts : whom [evictLeastUsed] removes                         *)
(* ================================================================== *)

(** [best] is a least-used entry among [seen]: none has a lower hit
    rate, and none of the same hit rate is older. *)
Definition least_used (now : Z) (best : CacheEntryImpl.t) (seen : CacheMap) : Prop :=
  forall k e, In (k, e) seen ->
    (CacheEntryImpl.getHitRate now best <= CacheEntryImpl.getHitRate now e)%Q
    /\ ((CacheEntryImpl.getHitRate now e == CacheEntryImpl.getHitRate now best)%Q ->
        CacheEntryImpl.getAge now e <= CacheEntryImpl.getAge now best).

Definition scan_holds (now : Z) (st : MemoryCacheStrategy.scan) (seen : CacheMap)
  : Prop :=
  (seen = [] /\ st = MemoryCacheStrategy.scan_init)
  \/ exists k e,
       In (k, e) seen
       /\ st = MemoryCacheStrategy.mkScan (Some k)
                 (Some (CacheEntryImpl.getHitRate now e))
                 (Some (CacheEntryImpl.getAge now e))
       /\ least_used now e seen.

Lemma Qlt_bool_true x y : MemoryCacheStrategy.Qlt_bool x y = true <-> (x < y)%Q.
Proof.
  unfold MemoryCacheStrategy.Qlt_bool. rewrite negb_true_iff.
  split.
  - intros H. apply Qnot_le_lt. intros L. apply Qle_bool_iff in L. congruence.
  - intros H. destruct (Qle_bool y x) eqn:E; [|reflexivity].
    apply Qle_bool_iff in E. exfalso. exact (Qlt_not_le _ _ H E).
Qed.

Lemma Qlt_bool_false x y : MemoryCacheStrategy.Qlt_bool x y = false <-> (y <= x)%Q.
Proof.
  unfold MemoryCacheStrategy.Qlt_bool. rewrite negb_false_iff.
  apply Qle_bool_iff.
Qed.

Lemma scan_step_holds now st seen kv :
  scan_holds now st seen ->
  scan_holds now (MemoryCacheStrategy.scan_step now st kv) (seen ++ [kv])%list.
Proof.
  destruct kv as [k1 e1].
  intros [[-> ->]|(k & e & Hin & -> & Hbest)].
  - right. exists k1, e1. split; [now left|]. split; [reflexivity|].
    intros k' e' [[= <- <-]|[]]. split; [apply Qle_refl|lia].
  - right. unfold MemoryCacheStrategy.scan_step.
    cbn [MemoryCacheStrategy.leastHits MemoryCacheStrategy.oldestTimestamp snd fst].
    destruct (MemoryCacheStrategy.Qlt_bool (CacheEntryImpl.getHitRate now e1)
                (CacheEntryImpl.getHitRate now e)) eqn:L.
    + (* strictly lower hit rate: the new entry is taken *)
      apply Qlt_bool_true in L. cbn [orb].
      exists k1, e1. split; [apply in_or_app; right; now left|].
      split; [reflexivity|].
      intros k' e' Hin'. apply in_app_or in Hin'. destruct Hin' as [Hin'|[[= <- <-]|[]]].
      * destruct (Hbest _ _ Hin') as [Hle _]. split.
        -- apply Qlt_le_weak. eapply Qlt_le_trans; eassumption.
        -- intros Heq. exfalso. rewrite Heq in Hle.
           exact (Qlt_not_le _ _ L Hle).
      * split; [apply Qle_refl|lia].
    + apply Qlt_bool_false in L. cbn [orb].
      destruct (Qeq_bool (CacheEntryImpl.getHitRate now e1)
                  (CacheEntryImpl.getHitRate now e)
                && (CacheEntryImpl.getAge now e <? CacheEntryImpl.getAge now e1))
        eqn:T.
      * (* same hit rate and older: the new entry is taken *)
        apply andb_true_iff in T. destruct T as [Teq Tage].
        apply Qeq_bool_iff in Teq. apply Z.ltb_lt in Tage.
        exists k1, e1. split; [apply in_or_app; right; now left|].
        split; [reflexivity|].
        intros k' e' Hin'. apply in_app_or in Hin'.
        destruct Hin' as [Hin'|[[= <- <-]|[]]].
        -- destruct (Hbest _ _ Hin') as [Hle Hage]. split.
           ++ now rewrite Teq.
           ++ intros Heq. rewrite Teq in Heq. specialize (Hage Heq). lia.
        -- split; [apply Qle_refl|lia].
      * (* the choice stands *)
        exists k, e. split; [apply in_or_app; now left|].
        split; [reflexivity|].
        intros k' e' Hin'. apply in_app_or in Hin'.
        destruct Hin' as [Hin'|[[= <- <-]|[]]]; [exact (Hbest _ _ Hin')|].
        split; [exact L|].
        intros Heq. apply Qeq_bool_iff in Heq. rewrite Heq in T. cbn [andb] in T.
        apply Z.ltb_ge in T. exact T.
Qed.

Lemma scan_fold_holds now rest st seen :
  scan_holds now st seen ->
  scan_holds now (fold_left (MemoryCacheStrategy.scan_step now) rest st)
             (seen ++ rest)%list.
Proof.
  revert st seen. induction rest as [|kv rest IH]; intros st seen H; simpl.
  - now rewrite app_nil_r.
  - replace (seen ++ kv :: rest)%list with ((seen ++ [kv]) ++ rest)%list
      by (now rewrite <- app_assoc).
    apply IH. now apply scan_step_holds.
Qed.

(** X3.  On a non-empty hit-rate store whose keys are non-empty strings,
    [evictLeastUsed] deletes exactly one resident key, and the entry it
    removes is a least-used one: no resident entry has a lower hit rate
    (hits per second of age, as the code computes it in double
    precision), and among the entries of that same hit rate none is
    older. *)
Theorem evictLeastUsed_policy :
  forall (now : Z) (s : MemoryCacheStrategy.t),
    MemoryCacheStrategy.cache s <> [] ->
    Forall (fun k => truthy k = true) (map_keys (MemoryCacheStrategy.cache s)) ->
    exists victim entry,
      In (victim, entry) (MemoryCacheStrategy.cache s)
      /\ MemoryCacheStrategy.evictLeastUsed now s
         = MemoryCacheStrategy.mk (map_delete victim (MemoryCacheStrategy.cache s))
                                  (MemoryCacheStrategy.maxSize s)
      /\ forall k e, In (k, e) (MemoryCacheStrategy.cache s) ->
           (CacheEntryImpl.getHitRate now entry <= CacheEntryImpl.getHitRate now e)%Q
           /\ ((CacheEntryImpl.getHitRate now e
                == CacheEntryImpl.getHitRate now entry)%Q ->
               CacheEntryImpl.getAge now e <= CacheEntryImpl.getAge now entry).
Proof.
  intros now s Hne Hkeys.
  assert (H0 : scan_holds now MemoryCacheStrategy.scan_init []) by (left; now split).
  pose proof (@scan_fold_holds now (MemoryCacheStrategy.cache s) _ _ H0) as H.
  cbn [app] in H. destruct H as [[E _]|(k & e & Hin & Hst & Hbest)];
    [contradiction|].
  exists k, e. split; [exact Hin|]. split; [|exact Hbest].
  unfold MemoryCacheStrategy.evictLeastUsed. rewrite Hst.
  cbn [MemoryCacheStrategy.leastUsedKey].
  rewrite Forall_forall in Hkeys.
  rewrite (Hkeys k); [reflexivity|].
  change k with (fst (k, e)). now apply in_map.
Qed.

Lemma evictLeastUsed_policy_witness :
  let quiet := CacheEntryImpl.mk (JStr "a") 0 1000 0 in
  let busy := CacheEntryImpl.mk (JStr "b") 0 1000 5 in
  let s := MemoryCacheStrategy.mk [("busy", busy); ("quiet", quiet)] 2 in
  MemoryCacheStrategy.cache s <> []
  /\ Forall (fun k => truthy k = true) (map_keys (MemoryCacheStrategy.cache s))
  /\ MemoryCacheStrategy.evictLeastUsed 10 s
     = MemoryCacheStrategy.mk [("busy", busy)] 2
  /\ exists victim entry,
       In (victim, entry) (MemoryCacheStrategy.cache s)
       /\ MemoryCacheStrategy.evictLeastUsed 10 s
          = MemoryCacheStrategy.mk (map_delete victim (MemoryCacheStrategy.cache s))
                                   (MemoryCacheStrategy.maxSize s)
       /\ forall k e, In (k, e) (MemoryCacheStrategy.cache s) ->
            (CacheEntryImpl.getHitRate 10 entry <= CacheEntryImpl.getHitRate 10 e)%Q
            /\ ((CacheEntryImpl.getHitRate 10 e
                 == CacheEntryImpl.getHitRate 10 entry)%Q ->
                CacheEntryImpl.getAge 10 e <= CacheEntryImpl.getAge 10 entry).
Proof.
  intros quiet busy s.
  assert (H1 : MemoryCacheStrategy.cache s <> []) by (simpl; discriminate).
  assert (H2 : Forall (fun k => truthy k = true)
                 (map_keys (MemoryCacheStrategy.cache s)))
    by (simpl; repeat constructor).
  split; [exact H1|]. split; [exact H2|]. split; [reflexivity|].
  exact (evictLeastUsed_policy 10 s H1 H2).
Defined.

(** The hit rates are the rounded quotients.  9 hits in 9 ms and 1 hit in
    1 ms are both 1000 hits per second, but [9 / (9 / 1000)] is the
    double above 1000 and [1 / (1 / 1000)] is 1000: the younger entry has
    the lower rate, and it is the one evicted. *)
Example evictLeastUsed_rounding :
  let a := CacheEntryImpl.mk JOther 1 1000 9 in
  let b := CacheEntryImpl.mk JOther 9 1000 1 in
  let s := MemoryCacheStrategy.mk [("a"%string, a); ("b"%string, b)] 2 in
  (inject_Z 9 / (inject_Z 9 / inject_Z 1000)
   == inject_Z 1 / (inject_Z 1 / inject_Z 1000))%Q
  /\ (CacheEntryImpl.getHitRate 10 b == 1000)%Q
  /\ (CacheEntryImpl.getHitRate 10 b < CacheEntryImpl.getHitRate 10 a)%Q
  /\ MemoryCacheStrategy.cache (MemoryCacheStrategy.evictLeastUsed 10 s)
     = [("a"%string, a)].
Proof.
  cbv zeta. split; [reflexivity|]. split; [vm_compute; reflexivity|].
  split; [vm_compute; reflexivity|]. vm_compute. reflexivity.
Qed.

(* ================================================================== *)
(** * C5 : whom a [set] at capacity evicts                             *)
(* ================================================================== *)

(** [e] would replace [best] in the loop of [evictLeastUsed]: its hit
    rate is lower, or it is as high and [e] is older. *)
Definition beats (now : Z) (e best : CacheEntryImpl.t) : Prop :=
  (CacheEntryImpl.getHitRate now e < CacheEntryImpl.getHitRate now best)%Q
  \/ ((CacheEntryImpl.getHitRate now e == CacheEntryImpl.getHitRate now best)%Q
      /\ CacheEntryImpl.getAge now best < CacheEntryImpl.getAge now e).

(** The entry the policy of the hit-rate store singles out in [m]: it
    beats every entry that comes before it in iteration order, and no
    entry that comes after it beats it. *)
Definition policy_victim (now : Z) (m : CacheMap) (victim : string)
    (entry : CacheEntryImpl.t) : Prop :=
  exists before after,
    m = (before ++ (victim, entry) :: after)%list
    /\ Forall (fun kv => beats now entry (snd kv)) before
    /\ Forall (fun kv => ~ beats now (snd kv) entry) after.

(** What a [set] of [key] does to a hit-rate store [m] with bound
    [bound]: at capacity the policy's victim is deleted first. *)
Definition evicts_by_policy (now : Z) (bound : Z) (m : CacheMap) (key : string)
    (entry : CacheEntryImpl.t) (result : CacheMap) : Prop :=
  if bound <=? map_size m then
    exists victim old,
      policy_victim now m victim old
      /\ (forall v o, policy_victim now m v o -> v = victim /\ o = old)
      /\ map_size (map_delete victim m) = map_size m - 1
      /\ result = map_set key entry (map_delete victim m)
  else result = map_set key entry m.

Lemma beats_trans now a b c : beats now a b -> beats now b c -> beats now a c.
Proof.
  unfold beats. intros [H1|[H1 A1]] [H2|[H2 A2]].
  - left. eapply Qlt_trans; eassumption.
  - left. now rewrite <- H2.
  - left. now rewrite H1.
  - right. split; [now rewrite H1 | lia].
Qed.

Lemma beats_not now a b c : beats now a b -> ~ beats now c b -> beats now a c.
Proof.
  unfold beats. intros Hab Hcb.
  assert (Hle : (CacheEntryImpl.getHitRate now b <= CacheEntryImpl.getHitRate now c)%Q).
  { apply Qnot_lt_le. intros H. apply Hcb. now left. }
  apply Qle_lteq in Hle.
  destruct Hab as [H1|[H1 A1]].
  - left. destruct Hle as [Hlt|Heq].
    + eapply Qlt_trans; eassumption.
    + now rewrite <- Heq.
  - destruct Hle as [Hlt|Heq].
    + left. now rewrite H1.
    + right. split; [now rewrite H1|].
      assert (~ CacheEntryImpl.getAge now b < CacheEntryImpl.getAge now c).
      { intros H. apply Hcb. right. split; [now symmetry | exact H]. }
      lia.
Qed.

(** The test of the loop, once a key has been chosen. *)
Lemma scan_step_beats now k e kv :
  let st := MemoryCacheStrategy.mkScan (Some k)
              (Some (CacheEntryImpl.getHitRate now e))
              (Some (CacheEntryImpl.getAge now e)) in
  (beats now (snd kv) e
   /\ MemoryCacheStrategy.scan_step now st kv
      = MemoryCacheStrategy.mkScan (Some (fst kv))
          (Some (CacheEntryImpl.getHitRate now (snd kv)))
          (Some (CacheEntryImpl.getAge now (snd kv))))
  \/ (~ beats now (snd kv) e /\ MemoryCacheStrategy.scan_step now st kv = st).
Proof.
  intros st. unfold MemoryCacheStrategy.scan_step. subst st.
  cbn [MemoryCacheStrategy.leastHits MemoryCacheStrategy.oldestTimestamp].
  destruct (MemoryCacheStrategy.Qlt_bool (CacheEntryImpl.getHitRate now (snd kv))
              (CacheEntryImpl.getHitRate now e)) eqn:L.
  - left. split; [|reflexivity]. left. now apply Qlt_bool_true.
  - cbn [orb].
    destruct (Qeq_bool (CacheEntryImpl.getHitRate now (snd kv))
                (CacheEntryImpl.getHitRate now e)) eqn:Q1;
      destruct (CacheEntryImpl.getAge now e <? CacheEntryImpl.getAge now (snd kv))
        eqn:A1; cbn [andb].
    + left. split; [|reflexivity]. right. split.
      * now apply Qeq_bool_iff.
      * now apply Z.ltb_lt.
    + right. split; [|reflexivity]. intros [H|[_ H]].
      * apply Qlt_bool_true in H. congruence.
      * apply Z.ltb_ge in A1. lia.
    + right. split; [|reflexivity]. intros [H|[H _]].
      * apply Qlt_bool_true in H. congruence.
      * apply Qeq_bool_iff in H. congruence.
    + right. split; [|reflexivity]. intros [H|[H _]].
      * apply Qlt_bool_true in H. congruence.
      * apply Qeq_bool_iff in H. congruence.
Qed.

(** Loop invariant of [evictLeastUsed]: after the entries [seen], the
    loop holds the policy's victim among them. *)
Definition scan_at (now : Z) (st : MemoryCacheStrategy.scan) (seen : CacheMap)
  : Prop :=
  (seen = [] /\ st = MemoryCacheStrategy.scan_init)
  \/ exists k e,
       st = MemoryCacheStrategy.mkScan (Some k)
              (Some (CacheEntryImpl.getHitRate now e))
              (Some (CacheEntryImpl.getAge now e))
       /\ policy_victim now seen k e.

Lemma scan_at_step now st seen kv :
  scan_at now st seen ->
  scan_at now (MemoryCacheStrategy.scan_step now st kv) (seen ++ [kv])%list.
Proof.
  intros [[-> ->]|(k & e & -> & before & after & -> & Hb & Ha)]; right.
  - exists (fst kv), (snd kv). split; [reflexivity|].
    exists [], []. destruct kv. repeat split; constructor.
  - destruct (scan_step_beats now k e kv) as [[Hbeat ->]|[Hno ->]].
    + exists (fst kv), (snd kv). split; [reflexivity|].
      exists (before ++ (k, e) :: after)%list, [].
      split; [destruct kv; reflexivity|]. split; [|constructor].
      apply Forall_app. split; [|constructor].
      * eapply Forall_impl; [|exact Hb]. intros x Hx.
        eapply beats_trans; eassumption.
      * exact Hbeat.
      * eapply Forall_impl; [|exact Ha]. intros x Hx.
        eapply beats_not; eassumption.
    + exists k, e. split; [reflexivity|].
      exists before, (after ++ [kv])%list.
      split; [now rewrite <- app_assoc|]. split; [exact Hb|].
      apply Forall_app. split; [exact Ha | now constructor].
Qed.

Lemma scan_at_fold now rest st seen :
  scan_at now st seen ->
  scan_at now (fold_left (MemoryCacheStrategy.scan_step now) rest st)
          (seen ++ rest)%list.
Proof.
  revert st seen. induction rest as [|kv rest IH]; intros st seen H.
  - now rewrite app_nil_r.
  - cbn [fold_left].
    replace (seen ++ kv :: rest)%list with ((seen ++ [kv]) ++ rest)%list
      by (now rewrite <- app_assoc).
    apply IH. now apply scan_at_step.
Qed.

(** The policy singles out at most one entry. *)
Lemma policy_victim_unique now m k e k' e' :
  policy_victim now m k e -> policy_victim now m k' e' -> k' = k /\ e' = e.
Proof.
  intros (b1 & a1 & E1 & B1 & A1) (b2 & a2 & E2 & B2 & A2).
  rewrite E1 in E2. apply app_eq_app in E2.
  rewrite Forall_forall in B1, A1, B2, A2.
  destruct E2 as [l [[Hb Ha]|[Hb Ha]]]; destruct l as [|x l]; cbn in Ha.
  - injection Ha as H1 H2 _. now split.
  - injection Ha as Hx Ha. subst x. exfalso.
    apply (A2 (k, e)); [rewrite Ha; apply in_or_app; right; now left|].
    apply (B1 (k', e')). rewrite Hb. apply in_or_app. right. now left.
  - injection Ha as H1 H2 _. now split.
  - injection Ha as Hx Ha. subst x. exfalso.
    apply (A1 (k', e')); [rewrite Ha; apply in_or_app; right; now left|].
    apply (B2 (k, e)). rewrite Hb. apply in_or_app. right. now left.
Qed.

(** On a non-empty store the loop of [evictLeastUsed] ends on the
    policy's victim. *)
Lemma scan_finds_victim now (m : CacheMap) :
  m <> [] ->
  exists victim old,
    MemoryCacheStrategy.leastUsedKey
      (fold_left (MemoryCacheStrategy.scan_step now) m MemoryCacheStrategy.scan_init)
    = Some victim
    /\ policy_victim now m victim old.
Proof.
  intros Hne.
  assert (H0 : scan_at now MemoryCacheStrategy.scan_init []) by (left; now split).
  pose proof (@scan_at_fold now m _ _ H0) as H. cbn [app] in H.
  destruct H as [[Hm _]|(k & e & -> & Hv)]; [contradiction|].
  exists k, e. now split.
Qed.

Lemma policy_victim_resident now m k e :
  policy_victim now m k e -> In k (map_keys m).
Proof.
  intros (b & a & -> & _). unfold map_keys. rewrite map_app.
  apply in_or_app. right. now left.
Qed.

Lemma map_delete_absent (V : Type) k (m : JsMap V) :
  ~ In k (map_keys m) -> map_delete k m = m.
Proof.
  unfold map_delete, map_keys.
  induction m as [|[k0 v0] r IH]; cbn; intros H; [reflexivity|].
  destruct (String.eqb k k0) eqn:E.
  - apply String.eqb_eq in E. subst k0. tauto.
  - cbn. rewrite IH; tauto.
Qed.

(** Deleting a resident key of a [Map] removes exactly one entry. *)
Lemma map_delete_size (V : Type) k (m : JsMap V) :
  NoDup (map_keys m) -> In k (map_keys m) ->
  map_size (map_delete k m) = map_size m - 1.
Proof.
  unfold map_size.
  induction m as [|[k0 v0] r IH]; cbn [map_keys List.map fst]; intros Hnd Hin.
  - destruct Hin.
  - inversion Hnd as [|? ? Hn Hr]; subst. unfold map_delete. cbn [filter fst].
    destruct (String.eqb k k0) eqn:E; cbn [negb].
    + apply String.eqb_eq in E. subst k0.
      fold (map_delete k r). rewrite map_delete_absent by exact Hn.
      cbn [List.length]. lia.
    + fold (map_delete k r). cbn [List.length].
      destruct Hin as [->|Hin]; [rewrite String.eqb_refl in E; discriminate|].
      specialize (IH Hr Hin).
      assert (0 < Z.of_nat (List.length r)).
      { destruct r; [destruct Hin | cbn; lia]. }
      lia.
Qed.

(** [set] on a hit-rate store whose keys are distinct non-empty strings. *)
Lemma memory_set_policy now key d ttl (s : MemoryCacheStrategy.t) :
  Forall (fun k => truthy k = true) (map_keys (MemoryCacheStrategy.cache s)) ->
  NoDup (map_keys (MemoryCacheStrategy.cache s)) ->
  MemoryCacheStrategy.cache s <> [] ->
  evicts_by_policy now (MemoryCacheStrategy.maxSize s) (MemoryCacheStrategy.cache s)
    key (CacheEntryImpl.new now d ttl)
    (MemoryCacheStrategy.cache (MemoryCacheStrategy.set now key d ttl s)).
Proof.
  intros Hkeys Hnd Hne. unfold evicts_by_policy, MemoryCacheStrategy.set.
  destruct (MemoryCacheStrategy.maxSize s <=? map_size (MemoryCacheStrategy.cache s))
    eqn:E; [|reflexivity].
  destruct (scan_finds_victim now Hne) as (victim & old & Hk & Hv).
  exists victim, old. split; [exact Hv|]. split.
  { intros v o Hvo. exact (policy_victim_unique Hv Hvo). }
  pose proof (policy_victim_resident Hv) as Hin.
  assert (Ht : truthy victim = true).
  { rewrite Forall_forall in Hkeys. now apply Hkeys. }
  split.
  - now apply map_delete_size.
  - unfold MemoryCacheStrategy.evictLeastUsed. rewrite Hk, Ht. reflexivity.
Qed.

Lemma manager_config_run c ops :
  TranslationCacheManager.config (run_ops ops (TranslationCacheManager.new c)) = c.
Proof.
  unfold run_ops.
  assert (H : forall m, TranslationCacheManager.config (fold_left apply_op ops m)
                        = TranslationCacheManager.config m).
  { induction ops as [|op ops IH]; intros m; cbn [fold_left]; [reflexivity|].
    rewrite IH. destruct op; cbn [apply_op]; try reflexivity.
    - unfold TranslationCacheManager.getLocaleCache.
      now destruct (MemoryCacheStrategy.get _ _ _).
    - unfold TranslationCacheManager.getSectionCache.
      now destruct (LRUCacheStrategy.get _ _ _).
    - unfold TranslationCacheManager.getKeyCache.
      now destruct (MemoryCacheStrategy.get _ _ _). }
  now rewrite H.
Qed.

(** C5.  With a positive [maxSize]:
    - whatever sequence of manager operations [ops] is run from the fresh
      manager, the locale and section tiers hold at most [maxSize]
      entries and the key tier at most [2 * maxSize] (its configured
      bound);
    - in the LRU store, after a history [lops] of [get]s, [has]s,
      [cleanup]s and [set]s of pairwise distinct non-empty keys, a [set]
      of a further new key [k] on the store at capacity removes exactly
      the first key [victim] and appends [k]; and [victim] is the least
      recently accessed resident key: no resident key has gone longer
      without a [set] or [get];
    - in the locale tier and in the key tier, after any sequence [ops], a
      [set] on the store at capacity first deletes exactly one entry and
      then inserts, and the entry deleted is the only one the policy
      allows: its hit rate is lower than, or as high as and its age
      greater than, that of every entry before it in iteration order,
      and no entry after it has a lower hit rate or the same hit rate
      and a greater age; below capacity the [set] only inserts. *)
Theorem eviction_under_capacity :
  forall (c : CacheConfig),
    0 < cfg_maxSize c ->
    (forall ops : list CacheOp,
       MemoryCacheStrategy.size
         (TranslationCacheManager.localeCache
            (run_ops ops (TranslationCacheManager.new c))) <= cfg_maxSize c
       /\ LRUCacheStrategy.size
            (TranslationCacheManager.sectionCache
               (run_ops ops (TranslationCacheManager.new c))) <= cfg_maxSize c
       /\ MemoryCacheStrategy.size
            (TranslationCacheManager.keyCache
               (run_ops ops (TranslationCacheManager.new c))) <= cfg_maxSize c * 2)
    /\ (forall (lops : list LruOp) (now : Z) (k : string) (d : JsValue)
               (ttl : option Z),
          lru_history_ok (lops ++ [LSet now k d ttl]) ->
          cfg_maxSize c
            <= LRUCacheStrategy.size (lru_run lops (LRUCacheStrategy.new c)) ->
          exists victim rest,
            map_keys (LRUCacheStrategy.cache (lru_run lops (LRUCacheStrategy.new c)))
            = victim :: rest
            /\ map_keys
                 (LRUCacheStrategy.cache
                    (LRUCacheStrategy.set now k d ttl
                       (lru_run lops (LRUCacheStrategy.new c))))
               = (rest ++ [k])%list
            /\ forall k', In k' (victim :: rest) ->
                 exists i j, idle victim lops = Some i
                             /\ idle k' lops = Some j /\ (j <= i)%nat)
    /\ (forall (ops : list CacheOp) (now : Z) (locale : Locale) (d : JsValue),
          let m := run_ops ops (TranslationCacheManager.new c) in
          evicts_by_policy now (cfg_maxSize c)
            (MemoryCacheStrategy.cache (TranslationCacheManager.localeCache m))
            (TranslationCacheManager.localeKey locale)
            (CacheEntryImpl.new now d (Some (cfg_ttl c)))
            (MemoryCacheStrategy.cache
               (TranslationCacheManager.localeCache
                  (TranslationCacheManager.setLocaleCache now locale d m))))
    /\ (forall (ops : list CacheOp) (now : Z) (locale : Locale)
               (key : TranslationKey) (value : string),
          let m := run_ops ops (TranslationCacheManager.new c) in
          evicts_by_policy now (cfg_maxSize c * 2)
            (MemoryCacheStrategy.cache (TranslationCacheManager.keyCache m))
            (TranslationCacheManager.keyKey locale key)
            (CacheEntryImpl.new now (JStr value) (Some (cfg_ttl c)))
            (MemoryCacheStrategy.cache
               (TranslationCacheManager.keyCache
                  (TranslationCacheManager.setKeyCache now locale key value m)))).
Proof.
  intros c Hpos.
  assert (Hmem : forall now key d (s : MemoryCacheStrategy.t),
            0 < MemoryCacheStrategy.maxSize s ->
            Forall (fun k => truthy k = true) (map_keys (MemoryCacheStrategy.cache s)) ->
            NoDup (map_keys (MemoryCacheStrategy.cache s)) ->
            evicts_by_policy now (MemoryCacheStrategy.maxSize s)
              (MemoryCacheStrategy.cache s) key
              (CacheEntryImpl.new now d (Some (cfg_ttl c)))
              (MemoryCacheStrategy.cache
                 (MemoryCacheStrategy.set now key d (Some (cfg_ttl c)) s))).
  { intros now key d s Hmax Hkeys Hnd.
    destruct (MemoryCacheStrategy.cache s) as [|kv r] eqn:E.
    - unfold evicts_by_policy, MemoryCacheStrategy.set. rewrite E.
      assert (L : (MemoryCacheStrategy.maxSize s <=? map_size (@nil (string * CacheEntryImpl.t))) = false)
        by (apply Z.leb_gt; unfold map_size; cbn; lia).
      rewrite L. now rewrite E.
    - rewrite <- E. apply memory_set_policy; try assumption.
      + now rewrite E.
      + now rewrite E.
      + rewrite E. discriminate. }
  split; [|split; [|split]].
  - intros ops.
    destruct (@manager_ok_run c ops (TranslationCacheManager.new c) Hpos
                (manager_ok_new c Hpos)) as (_ & _ & _ & [A _] & [B _] & [C _]).
    unfold MemoryCacheStrategy.size, LRUCacheStrategy.size. tauto.
  - intros lops now k d ttl Hok Hfull.
    destruct (lru_history_ok_fresh _ _ _ _ _ Hok) as [Hfresh Hk].
    destruct (@lru_recency_invariant c lops (lru_history_ok_prefix _ _ Hok))
      as (Hincl & Hsorted & Hmax).
    set (s := lru_run lops (LRUCacheStrategy.new c)) in *.
    assert (Htruthy : Forall (fun k => truthy k = true)
                        (map_keys (LRUCacheStrategy.cache s))).
    { apply Forall_forall. intros x Hx. apply Hincl in Hx.
      destruct (lru_history_ok_prefix _ _ Hok) as [_ Hf].
      rewrite Forall_forall in Hf. now apply Hf. }
    assert (Hnotin : ~ In k (map_keys (LRUCacheStrategy.cache s)))
      by (intros H; apply Hfresh; now apply Hincl).
    rewrite lru_set_keys_fresh by assumption.
    unfold LRUCacheStrategy.size in Hfull. rewrite Hmax.
    apply Z.leb_le in Hfull. rewrite Hfull. apply Z.leb_le in Hfull.
    destruct (map_keys (LRUCacheStrategy.cache s)) as [|victim rest] eqn:E.
    + exfalso. unfold map_size in Hfull.
      assert (List.length (LRUCacheStrategy.cache s) = O).
      { unfold map_keys in E. apply (f_equal (@List.length string)) in E.
        now rewrite length_map in E. }
      lia.
    + exists victim, rest. destruct Hsorted as [Hs Hf].
      inversion Hs as [|? ? Hs' Hall]; subst.
      assert (Hnv : ~ In victim rest).
      { intros Hin. rewrite Forall_forall in Hall.
        destruct (Hall victim Hin) as (i & j & Hi & Hj & Hlt).
        rewrite Hi in Hj. injection Hj as ->. lia. }
      split; [reflexivity|]. split.
      * now rewrite filter_neq_keeps.
      * intros k' [<-|Hin].
        -- inversion Hf as [|? ? [i Hi] _]; subst. exists i, i. repeat split; auto.
        -- rewrite Forall_forall in Hall.
           destruct (Hall k' Hin) as (i & j & Hi & Hj & Hlt).
           exists i, j. repeat split; auto. lia.
  - intros ops now locale d m.
    destruct (@manager_ok_run c ops (TranslationCacheManager.new c) Hpos
                (manager_ok_new c Hpos)) as (Hl & _ & _ & [_ A] & _ & _).
    destruct (manager_distinct_run c ops) as (Dl & _ & _).
    fold m in Hl, A, Dl.
    unfold TranslationCacheManager.setLocaleCache, TranslationCacheManager.with_locale.
    cbn [TranslationCacheManager.localeCache].
    subst m. rewrite manager_config_run. rewrite <- Hl.
    apply Hmem; [rewrite Hl; exact Hpos | exact A | exact Dl].
  - intros ops now locale key value m.
    destruct (@manager_ok_run c ops (TranslationCacheManager.new c) Hpos
                (manager_ok_new c Hpos)) as (_ & _ & Hk & _ & _ & [_ A]).
    destruct (manager_distinct_run c ops) as (_ & _ & Dk).
    fold m in Hk, A, Dk.
    unfold TranslationCacheManager.setKeyCache, TranslationCacheManager.with_key.
    cbn [TranslationCacheManager.keyCache].
    subst m. rewrite manager_config_run. rewrite <- Hk.
    apply Hmem; [rewrite Hk; lia | exact A | exact Dk].
Qed.

Lemma eviction_under_capacity_witness :
  let c := mkCacheConfig 2 1000 true false 100 in
  let ops := [OpSetLocale 0 "en" JOther; OpSetLocale 1 "vi" JOther]%string in
  let lops := [LSet 0 "a" JOther None; LSet 1 "b" JOther None; LGet 2 "a"]%string in
  let full := run_ops ops (TranslationCacheManager.new c) in
  0 < cfg_maxSize c
  /\ lru_history_ok (lops ++ [LSet 3 "c"%string JOther None])
  /\ cfg_maxSize c
       <= LRUCacheStrategy.size (lru_run lops (LRUCacheStrategy.new c))
  /\ (MemoryCacheStrategy.size
        (TranslationCacheManager.localeCache
           (run_ops ops (TranslationCacheManager.new c))) <= cfg_maxSize c
      /\ LRUCacheStrategy.size
           (TranslationCacheManager.sectionCache
              (run_ops ops (TranslationCacheManager.new c))) <= cfg_maxSize c
      /\ MemoryCacheStrategy.size
           (TranslationCacheManager.keyCache
              (run_ops ops (TranslationCacheManager.new c))) <= cfg_maxSize c * 2)
  /\ (exists victim rest,
        map_keys (LRUCacheStrategy.cache (lru_run lops (LRUCacheStrategy.new c)))
        = victim :: rest
        /\ map_keys
             (LRUCacheStrategy.cache
                (LRUCacheStrategy.set 3 "c"%string JOther None
                   (lru_run lops (LRUCacheStrategy.new c))))
           = (rest ++ ["c"%string])%list
        /\ forall k', In k' (victim :: rest) ->
             exists i j, idle victim lops = Some i
                         /\ idle k' lops = Some j /\ (j <= i)%nat)
  /\ evicts_by_policy 2 (cfg_maxSize c)
       (MemoryCacheStrategy.cache (TranslationCacheManager.localeCache full))
       (TranslationCacheManager.localeKey "fr"%string)
       (CacheEntryImpl.new 2 JOther (Some (cfg_ttl c)))
       (MemoryCacheStrategy.cache
          (TranslationCacheManager.localeCache
             (TranslationCacheManager.setLocaleCache 2 "fr"%string JOther full))).
Proof.
  intros c ops lops full.
  assert (H1 : 0 < cfg_maxSize c) by (simpl; lia).
  assert (H2 : lru_history_ok (lops ++ [LSet 3 "c"%string JOther None])).
  { split; simpl.
    - repeat constructor; simpl; intuition discriminate.
    - repeat constructor. }
  assert (H3 : cfg_maxSize c
               <= LRUCacheStrategy.size (lru_run lops (LRUCacheStrategy.new c)))
    by (vm_compute; discriminate).
  split; [exact H1|]. split; [exact H2|]. split; [exact H3|].
  destruct (eviction_under_capacity c H1) as (A & B & C & _).
  split; [exact (A ops)|]. split; [exact (B lops 3 "c"%string JOther None H2 H3)|].
  exact (C ops 2 "fr"%string JOther).
Defined.

(* ================================================================== *)
(** * cache.ts : LRU order                                             *)
(* ================================================================== *)

Lemma map_first_key_set_other (V : Type) (k : string) (v : V) (m : JsMap V) :
  map_delete k m <> [] ->
  map_first_key (map_set k v (map_delete k m)) = map_first_key (map_delete k m).
Proof.
  intros Hne. destruct (map_delete k m) as [|[k0 v0] r] eqn:E; [contradiction|].
  assert (Hin : In (k0, v0) (map_delete k m)) by (rewrite E; now left).
  apply In_map_delete in Hin. destruct Hin as [_ Hk]. cbn [fst] in Hk.
  cbn [map_set]. destruct (String.eqb k k0) eqn:X; [|reflexivity].
  apply String.eqb_eq in X. congruence.
Qed.

(** X4.  A key that was just read from the section tier's store is not
    the next one evicted: after a successful [get] of [key] in a store
    that holds another key as well, a [set] of any other key, at capacity
    or not, leaves the entry of [key] in place. *)
Theorem lru_read_protects :
  forall (now : Z) (key : string) (s s' : LRUCacheStrategy.t)
         (e : CacheEntryImpl.t),
    LRUCacheStrategy.get now key s = (Some e, s') ->
    (exists other, other <> key /\ In other (map_keys (LRUCacheStrategy.cache s))) ->
    forall (now2 : Z) (k2 : string) (d : JsValue) (ttl : option Z),
      k2 <> key ->
      map_get key (LRUCacheStrategy.cache (LRUCacheStrategy.set now2 k2 d ttl s'))
      = Some e.
Proof.
  intros now key s s' e Hget (other & Hne & Hin) now2 k2 d ttl Hk2.
  unfold LRUCacheStrategy.get in Hget.
  destruct (map_get key (LRUCacheStrategy.cache s)) as [e0|] eqn:E; [|discriminate].
  destruct (CacheEntryImpl.isExpired now e0); [discriminate|].
  injection Hget as <- <-.
  unfold LRUCacheStrategy.set. cbn [LRUCacheStrategy.cache LRUCacheStrategy.maxSize].
  rewrite map_get_set_neq by exact Hk2.
  set (c := LRUCacheStrategy.cache s) in *.
  assert (Hother : In other (map_keys (map_delete key c))).
  { rewrite map_keys_delete. apply filter_In. split; [exact Hin|].
    apply negb_true_iff. apply String.eqb_neq. congruence. }
  assert (Hnil : map_delete key c <> []).
  { intros X. rewrite X in Hother. exact Hother. }
  destruct (LRUCacheStrategy.maxSize s
              <=? map_size (map_set key (CacheEntryImpl.incrementHits e0)
                              (map_delete key c)));
    [|apply map_get_set_eq].
  unfold LRUCacheStrategy.evictFirst. cbn [LRUCacheStrategy.cache].
  rewrite map_first_key_set_other by exact Hnil.
  destruct (map_delete key c) as [|[k0 v0] r] eqn:D; [contradiction|].
  cbn [map_first_key].
  assert (Hk0 : k0 <> key).
  { assert (Hin0 : In (k0, v0) (map_delete key c)) by (rewrite D; now left).
    apply In_map_delete in Hin0. tauto. }
  destruct (truthy k0); cbn [LRUCacheStrategy.cache].
  - rewrite map_get_delete_neq by exact Hk0. apply map_get_set_eq.
  - apply map_get_set_eq.
Qed.

Lemma lru_read_protects_witness :
  let a := CacheEntryImpl.mk (JStr "A") 0 1000 0 in
  let b := CacheEntryImpl.mk (JStr "B") 1 1000 0 in
  let s := LRUCacheStrategy.mk [("a", a); ("b", b)] 2 in
  let s' := LRUCacheStrategy.mk [("b", b); ("a", CacheEntryImpl.incrementHits a)] 2 in
  LRUCacheStrategy.get 2 "a" s = (Some (CacheEntryImpl.incrementHits a), s')
  /\ (exists other, other <> "a" /\ In other (map_keys (LRUCacheStrategy.cache s)))
  /\ "c" <> "a"
  /\ map_get "a" (LRUCacheStrategy.cache (LRUCacheStrategy.set 3 "c" JOther None s'))
     = Some (CacheEntryImpl.incrementHits a).
Proof.
  intros a b s s'.
  assert (H1 : LRUCacheStrategy.get 2 "a" s
               = (Some (CacheEntryImpl.incrementHits a), s')) by reflexivity.
  assert (H2 : exists other,
             other <> "a" /\ In other (map_keys (LRUCacheStrategy.cache s))).
  { exists "b". split; [discriminate|]. simpl. tauto. }
  assert (H3 : "c" <> "a") by discriminate.
  split; [exact H1|]. split; [exact H2|]. split; [exact H3|].
  exact (@lru_read_protects 2 "a" s s' _ H1 H2 3 "c" JOther None H3).
Defined.

(** X5.  The eviction guard [if (firstKey)] takes the empty string for
    "no key": while the oldest key of an LRU store is the empty string,
    nothing is ever evicted, so every [set] of a key that is not resident
    makes the store one entry larger, whatever [maxSize] is. *)
Theorem lru_empty_key_is_never_evicted :
  forall (now : Z) (key : string) (d : JsValue) (ttl : option Z)
         (s : LRUCacheStrategy.t),
    map_first_key (LRUCacheStrategy.cache s) = Some "" ->
    map_has key (LRUCacheStrategy.cache s) = false ->
    LRUCacheStrategy.size (LRUCacheStrategy.set now key d ttl s)
    = LRUCacheStrategy.size s + 1
    /\ map_first_key (LRUCacheStrategy.cache (LRUCacheStrategy.set now key d ttl s))
       = Some "".
Proof.
  intros now key d ttl s Hfirst Habsent.
  assert (Hev : LRUCacheStrategy.evictFirst s = s).
  { unfold LRUCacheStrategy.evictFirst. now rewrite Hfirst. }
  unfold LRUCacheStrategy.set, LRUCacheStrategy.size. rewrite Hev.
  assert (Hs : (if LRUCacheStrategy.maxSize s <=? map_size (LRUCacheStrategy.cache s)
                then s else s) = s) by (now destruct (_ <=? _)).
  rewrite Hs. cbn [LRUCacheStrategy.cache]. split.
  - unfold map_size.
    assert (L : List.length (map_set key (CacheEntryImpl.new now d ttl)
                               (LRUCacheStrategy.cache s))
                = S (List.length (LRUCacheStrategy.cache s))).
    { rewrite <- (length_map fst (map_set _ _ _)).
      change (List.map fst ?m) with (map_keys m).
      rewrite map_keys_set_absent by exact Habsent.
      rewrite length_app. unfold map_keys. rewrite length_map. simpl. lia. }
    rewrite L. lia.
  - destruct (LRUCacheStrategy.cache s) as [|[k0 v0] r]; [discriminate|].
    cbn [map_first_key] in Hfirst. injection Hfirst as ->.
    unfold map_has in Habsent. cbn [map_get] in Habsent. cbn [map_set].
    destruct (String.eqb key "") eqn:X; [discriminate|reflexivity].
Qed.

Lemma lru_empty_key_is_never_evicted_witness :
  let e := CacheEntryImpl.mk JOther 0 1000 0 in
  let s := LRUCacheStrategy.mk [("", e)] 1 in
  map_first_key (LRUCacheStrategy.cache s) = Some ""
  /\ map_has "a" (LRUCacheStrategy.cache s) = false
  /\ LRUCacheStrategy.size (LRUCacheStrategy.set 1 "a" JOther None s) = 2.
Proof.
  intros e s.
  assert (H1 : map_first_key (LRUCacheStrategy.cache s) = Some "") by reflexivity.
  assert (H2 : map_has "a" (LRUCacheStrategy.cache s) = false) by reflexivity.
  split; [exact H1|]. split; [exact H2|].
  exact (proj1 (@lru_empty_key_is_never_evicted 1 "a" JOther None s H1 H2)).
Defined.

(* ================================================================== *)
(** * cache.ts : getStats                                              *)
(* ================================================================== *)

(** The object returned by [getStats()] of a strategy. *)
Record StrategyStats := mkStrategyStats {
  stat_size : Z;
  stat_maxSize : Z;
  stat_hitRate : Q;
  stat_memoryUsage : Z
}.

(** [total] of [TranslationCacheManager.getStats()]. *)
Record TotalStats := mkTotalStats {
  total_size : Z;
  total_hitRate : Q;
  total_memoryUsage : Z
}.

Record ManagerStats := mkManagerStats {
  stats_locale : StrategyStats;
  stats_section : StrategyStats;
  stats_key : StrategyStats;
  stats_total : TotalStats
}.

Section CacheStatistics.
(** [JSON.stringify(data).length] of a cached payload: the serialiser is
    the platform's. *)
Variable json_length : JsValue -> Z.

Definition totalHits (cache : CacheMap) : Z :=
  fold_left (fun acc kv => acc + CacheEntryImpl.hits (snd kv)) cache 0.

(** [totalRequests += entry.hits + 1]: one for the initial [set]. *)
Definition totalRequests (cache : CacheMap) : Z :=
  fold_left (fun acc kv => acc + (CacheEntryImpl.hits (snd kv) + 1)) cache 0.

Definition estimateMemoryUsage (cache : CacheMap) : Z :=
  fold_left
    (fun size kv =>
       size + Z.of_nat (String.length (fst kv)) * 2
       + json_length (CacheEntryImpl.data (snd kv)) * 2
       + 100)
    cache 0.

(** [getStats()], the same text in both strategy classes. *)
Definition strategy_getStats (cache : CacheMap) (maxSize : Z) : StrategyStats :=
  {| stat_size := map_size cache;
     stat_maxSize := maxSize;
     stat_hitRate :=
       if 0 <? totalRequests cache
       then (inject_Z (totalHits cache) / inject_Z (totalRequests cache))%Q
       else 0%Q;
     stat_memoryUsage := estimateMemoryUsage cache |}.

Definition memory_getStats (s : MemoryCacheStrategy.t) : StrategyStats :=
  strategy_getStats (MemoryCacheStrategy.cache s) (MemoryCacheStrategy.maxSize s).

Definition lru_getStats (s : LRUCacheStrategy.t) : StrategyStats :=
  strategy_getStats (LRUCacheStrategy.cache s) (LRUCacheStrategy.maxSize s).

Definition manager_getStats (m : TranslationCacheManager.t) : ManagerStats :=
  let localeStats := memory_getStats (TranslationCacheManager.localeCache m) in
  let sectionStats := lru_getStats (TranslationCacheManager.sectionCache m) in
  let keyStats := memory_getStats (TranslationCacheManager.keyCache m) in
  {| stats_locale := localeStats;
     stats_section := sectionStats;
     stats_key := keyStats;
     stats_total :=
       {| total_size :=
            stat_size localeStats + stat_size sectionStats + stat_size keyStats;
          total_hitRate :=
            ((stat_hitRate localeStats + stat_hitRate sectionStats
              + stat_hitRate keyStats) / inject_Z 3)%Q;
          total_memoryUsage :=
            stat_memoryUsage localeStats + stat_memoryUsage sectionStats
            + stat_memoryUsage keyStats |} |}.
End CacheStatistics.

Lemma fold_left_add_shift (A : Type) (f : A -> Z) (l : list A) (a : Z) :
  fold_left (fun acc x => acc + f x) l a = a + fold_left (fun acc x => acc + f x) l 0.
Proof.
  revert a. induction l as [|x l IH]; intros a; simpl; [lia|].
  rewrite (IH (a + f x)), (IH (f x)). lia.
Qed.

Lemma totalRequests_split (cache : CacheMap) :
  totalRequests cache = totalHits cache + map_size cache.
Proof.
  unfold totalRequests, totalHits, map_size.
  induction cache as [|kv r IH]; [reflexivity|].
  cbn [fold_left List.length].
  rewrite (fold_left_add_shift (fun kv => CacheEntryImpl.hits (snd kv) + 1)).
  rewrite (fold_left_add_shift (fun kv => CacheEntryImpl.hits (snd kv)) r
             (0 + CacheEntryImpl.hits (snd kv))).
  rewrite IH. lia.
Qed.

Lemma totalHits_nonneg (cache : CacheMap) :
  Forall (fun kv => 0 <= CacheEntryImpl.hits (snd kv)) cache ->
  0 <= totalHits cache.
Proof.
  unfold totalHits. induction 1 as [|kv r Hkv Hr IH]; cbn [fold_left]; [lia|].
  rewrite fold_left_add_shift with (f := fun kv => CacheEntryImpl.hits (snd kv)).
  lia.
Qed.

(** The hit rate a strategy reports, for a store whose hit counts are not
    negative. *)
Lemma strategy_hitRate_range json_length (cache : CacheMap) maxSize :
  Forall (fun kv => 0 <= CacheEntryImpl.hits (snd kv)) cache ->
  (0 <= stat_hitRate (strategy_getStats json_length cache maxSize))%Q
  /\ (stat_hitRate (strategy_getStats json_length cache maxSize) < 1)%Q.
Proof.
  intros H. pose proof (totalHits_nonneg H) as Hh.
  pose proof (totalRequests_split cache) as Hr.
  unfold strategy_getStats. cbn [stat_hitRate].
  destruct (0 <? totalRequests cache) eqn:E.
  - apply Z.ltb_lt in E.
    assert (Hn : 0 < map_size cache).
    { destruct cache; [cbn in E; lia|]. unfold map_size. cbn [List.length]. lia. }
    assert (Hq : (0 < inject_Z (totalRequests cache))%Q)
      by (rewrite <- (Zlt_Qlt 0); exact E).
    split.
    + apply Qle_shift_div_l; [exact Hq|]. rewrite Qmult_0_l.
      rewrite <- (Zle_Qle 0). exact Hh.
    + apply Qlt_shift_div_r; [exact Hq|]. rewrite Qmult_1_l.
      rewrite <- Zlt_Qlt. lia.
  - split; [apply Qle_refl | reflexivity].
Qed.

Lemma hits_nonneg_run c ops :
  manager_inv (Forall (fun kv => 0 <= CacheEntryImpl.hits (snd kv)))
    (run_ops ops (TranslationCacheManager.new c)).
Proof.
  apply manager_inv_run with (good := fun e => 0 <= CacheEntryImpl.hits e).
  - constructor.
  - intros k m H. unfold map_delete. apply Forall_forall. intros x Hx.
    apply filter_In in Hx. rewrite Forall_forall in H. now apply H.
  - intros k e m H He. induction H as [|[k0 e0] r H0 Hr IH]; cbn [map_set].
    + now repeat constructor.
    + destruct (String.eqb k k0); constructor; auto.
  - intros k e m H Hget. apply map_get_In in Hget. rewrite Forall_forall in H.
    exact (H _ Hget).
  - intros now d ttl. cbn. lia.
  - intros e He. cbn. lia.
  - apply manager_inv_new. constructor.
Qed.

(** X6.  On every state a cache manager with a positive [maxSize] can
    reach from a fresh one, the statistics it reports are consistent: each
    tier's hit rate, and the overall hit rate (their mean), is at least 0
    and strictly below 1, since every entry counts one request for its
    insertion; each tier's size is within its bound, and the total size is
    the sum of the three, at most [4 * maxSize]. *)
Theorem manager_getStats_ranges :
  forall (json_length : JsValue -> Z) (c : CacheConfig) (ops : list CacheOp),
    0 < cfg_maxSize c ->
    let stats :=
      manager_getStats json_length (run_ops ops (TranslationCacheManager.new c)) in
    ((0 <= stat_hitRate (stats_locale stats) < 1)%Q
     /\ (0 <= stat_hitRate (stats_section stats) < 1)%Q
     /\ (0 <= stat_hitRate (stats_key stats) < 1)%Q
     /\ (0 <= total_hitRate (stats_total stats) < 1)%Q)
    /\ (0 <= stat_size (stats_locale stats) <= stat_maxSize (stats_locale stats)
        /\ 0 <= stat_size (stats_section stats) <= stat_maxSize (stats_section stats)
        /\ 0 <= stat_size (stats_key stats) <= stat_maxSize (stats_key stats))
    /\ (stat_maxSize (stats_locale stats) = cfg_maxSize c
        /\ stat_maxSize (stats_section stats) = cfg_maxSize c
        /\ stat_maxSize (stats_key stats) = cfg_maxSize c * 2)
    /\ total_size (stats_total stats) <= 4 * cfg_maxSize c.
Proof.
  intros json_length c ops Hpos stats.
  destruct (hits_nonneg_run c ops) as (A & B & C).
  destruct (@manager_ok_run c ops (TranslationCacheManager.new c) Hpos
              (manager_ok_new c Hpos)) as (M1 & M2 & M3 & [S1 _] & [S2 _] & [S3 _]).
  set (m := run_ops ops (TranslationCacheManager.new c)) in *.
  destruct (strategy_hitRate_range json_length
              (MemoryCacheStrategy.maxSize (TranslationCacheManager.localeCache m)) A)
    as [L1 L2].
  destruct (strategy_hitRate_range json_length
              (LRUCacheStrategy.maxSize (TranslationCacheManager.sectionCache m)) B)
    as [L3 L4].
  destruct (strategy_hitRate_range json_length
              (MemoryCacheStrategy.maxSize (TranslationCacheManager.keyCache m)) C)
    as [L5 L6].
  subst stats. unfold manager_getStats.
  cbn [stats_locale stats_section stats_key stats_total total_hitRate total_size].
  unfold memory_getStats, lru_getStats in *.
  set (a := stat_hitRate (strategy_getStats json_length
                            (MemoryCacheStrategy.cache
                               (TranslationCacheManager.localeCache m)) _)) in *.
  set (b := stat_hitRate (strategy_getStats json_length
                            (LRUCacheStrategy.cache
                               (TranslationCacheManager.sectionCache m)) _)) in *.
  set (k := stat_hitRate (strategy_getStats json_length
                            (MemoryCacheStrategy.cache
                               (TranslationCacheManager.keyCache m)) _)) in *.
  split.
  { split; [now split|]. split; [now split|]. split; [now split|].
    assert (H3 : (0 < inject_Z 3)%Q) by reflexivity.
    split.
    - apply Qle_shift_div_l; [exact H3|]. rewrite Qmult_0_l.
      change 0%Q with (0 + 0 + 0)%Q.
      apply Qplus_le_compat; [apply Qplus_le_compat|]; assumption.
    - apply Qlt_shift_div_r; [exact H3|]. rewrite Qmult_1_l.
      change (inject_Z 3) with (1 + 1 + 1)%Q.
      apply Qplus_lt_le_compat; [apply Qplus_lt_le_compat|];
        try assumption; now apply Qlt_le_weak. }
  cbn [stat_size stat_maxSize strategy_getStats].
  unfold map_size in *. rewrite M1, M2, M3.
  repeat split; lia.
Qed.

Lemma manager_getStats_ranges_witness :
  let c := mkCacheConfig 2 1000 true false 100 in
  let ops := [OpSetLocale 0 "en" JOther; OpGetLocale 1 "en"; OpGetLocale 2 "en"] in
  let stats :=
    manager_getStats (fun _ => 2) (run_ops ops (TranslationCacheManager.new c)) in
  0 < cfg_maxSize c
  /\ (stat_hitRate (stats_locale stats) == 2 # 3)%Q
  /\ (0 <= total_hitRate (stats_total stats) < 1)%Q
  /\ total_size (stats_total stats) <= 4 * cfg_maxSize c.
Proof.
  intros c ops stats.
  assert (H1 : 0 < cfg_maxSize c) by (simpl; lia).
  split; [exact H1|]. split; [reflexivity|].
  destruct (manager_getStats_ranges (fun _ => 2) c ops H1) as ((_ & _ & _ & R) & _ & _ & T).
  split; [exact R | exact T].
Defined.

(* ================================================================== *)
(** * Computations that never throw                                    *)
(* ================================================================== *)

Section Returns.
Variable S : Type.

(** [c] returns a value from every state: the promise never rejects. *)
Definition returns (A : Type) (c : M S A) : Prop :=
  forall st, exists a st', c st = (Return a, st').

Lemma returns_ret A (a : A) : returns (@ret S A a).
Proof. intros st. now exists a, st. Qed.

Lemma returns_gets A (f : S -> A) : returns (gets f).
Proof. intros st. now exists (f st), st. Qed.

Lemma returns_modify (f : S -> S) : returns (modify f).
Proof. intros st. now exists tt, (f st). Qed.

Lemma returns_bind A B (c : M S A) (k : A -> M S B) :
  returns c -> (forall a, returns (k a)) -> returns (bind c k).
Proof.
  intros Hc Hk st. unfold bind. destruct (Hc st) as (a & st1 & ->). apply Hk.
Qed.

Lemma returns_try_catch A (c : M S A) (h : JsError -> M S A) :
  (forall e, returns (h e)) -> returns (try_catch c h).
Proof.
  intros Hh st. unfold try_catch. destruct (c st) as [[a|e] st1].
  - now exists a, st1.
  - apply Hh.
Qed.
End Returns.

Lemma returns_retry_loop (cb : Callback) strategy maxRetries dl n :
  forall attempt,
    returns (ErrorRecoveryExecutor.retry_loop n attempt maxRetries dl strategy cb).
Proof.
  induction n as [|n IH]; intros attempt; cbn [ErrorRecoveryExecutor.retry_loop].
  - apply returns_ret.
  - apply returns_bind.
    + apply returns_try_catch. intros e. apply returns_ret.
    + intros [|]; [apply returns_ret|].
      apply returns_bind.
      * destruct (attempt <? maxRetries); [|apply returns_ret].
        apply returns_bind; [apply returns_modify | intros; apply returns_ret].
      * intros w. apply returns_bind; [apply IH | intros; apply returns_ret].
Qed.

Lemma returns_executeRecovery error (cb : Callback) :
  returns (ErrorRecoveryExecutor.executeRecovery error cb).
Proof.
  unfold ErrorRecoveryExecutor.executeRecovery,
    ErrorRecoveryExecutor.executeRecovery_traced.
  apply returns_bind; [|intros; apply returns_ret].
  apply returns_bind; [apply returns_gets|]. intros strategy.
  apply returns_try_catch. intros e.
  apply returns_bind; [apply returns_modify | intros; apply returns_ret].
Qed.

Lemma returns_handleError error context (cb : option Callback) :
  returns (ErrorHandler.handleError error context cb).
Proof.
  unfold ErrorHandler.handleError.
  apply returns_bind; [apply returns_gets|]. intros now.
  apply returns_bind; [apply returns_modify|]. intros _.
  destruct cb as [f|]; [apply returns_executeRecovery | apply returns_ret].
Qed.

(* ================================================================== *)
(** * loader.ts : what [load] can throw                                *)
(* ================================================================== *)

(** [e] is a [TranslationLoadError] for [locale] that wraps a cause. *)
Definition load_error_for (locale : Locale) (e : JsError) : Prop :=
  exists now msg cause, e = TranslationLoadError now locale msg (Some cause).

Definition throws_only (P : JsError -> Prop) (A : Type) (r : Outcome A) : Prop :=
  match r with Return _ => True | Throw e => P e end.

Lemma loadFallback_throws net locale section st :
  throws_only (load_error_for locale) (fst (loadFallback net locale section st)).
Proof.
  unfold loadFallback, try_catch.
  destruct ((req <- fetch_issue (filePath locale) ;;
             response <- fetch_await net req (filePath locale) ;;
             fullData <- read_body "Failed to fetch fallback " (filePath locale)
                           response ;;
             ret (slice section fullData)) st) as [[d|e] st1]; [exact I|].
  cbn. now exists (clock st1), ("Fallback loading failed for locale '" ++ locale ++ "'")%string, e.
Qed.

Lemma performLoad_resume_throws config net locale section req st :
  throws_only
    (fun e => load_error_for locale e \/ load_error_for (cfg_fallbackLocale config) e)
    (fst (performLoad_resume config net locale section req st)).
Proof.
  unfold performLoad_resume, try_catch.
  destruct ((response <- fetch_await net req (filePath locale) ;;
             fullData <- read_body "Failed to fetch " (filePath locale) response ;;
             cache_result locale section (slice section fullData) ;;;
             ret (slice section fullData)) st) as [[d|e] st1]; [exact I|].
  unfold bind at 1.
  destruct (returns_handleError e
              (mkPartial (Some locale) None section None (Some "load_module"))
              (Some (performLoad_recovery net section)) st1) as (b & st2 & ->).
  destruct b.
  - pose proof (loadFallback_throws net (cfg_fallbackLocale config) section st2) as H.
    destruct (loadFallback net (cfg_fallbackLocale config) section st2) as [[d|e'] st3];
      [exact I|]. right. exact H.
  - cbn. left. now exists (clock st2), (load_failure_message locale section), e.
Qed.

Lemma performLoad_resume_loadingPromises config net locale section req st :
  loadingPromises (snd (performLoad_resume config net locale section req st))
  = loadingPromises st.
Proof.
  revert st.
  change (keeps loadingPromises (performLoad_resume config net locale section req)).
  unfold performLoad_resume. apply keeps_try_catch.
  - apply keeps_bind; [now apply keeps_fetch_await|]. intros response.
    apply keeps_bind; [apply keeps_read_body|]. intros fullData.
    apply keeps_bind; [intros st; reflexivity | intros; apply keeps_ret].
  - intros e. apply keeps_performLoad_catch; reflexivity.
Qed.

Lemma lookup_cache_hit_load config net locale section st :
  map_get (dedupKey locale section) (loadingPromises st) = None ->
  forall e, fst (lookup_cache locale section st) = Some e ->
  load config net locale section st
  = (Return (CacheEntryImpl.data e), snd (lookup_cache locale section st)).
Proof.
  intros Hnone e He. unfold load, load_call. rewrite Hnone.
  destruct (lookup_cache locale section st) as [r st1]. cbn [fst snd] in *.
  subst r. reflexivity.
Qed.

(** X8.  A call of [load] whose key is not in flight either returns a
    document or throws a [TranslationLoadError] that wraps its cause and
    names the requested locale or the configured fallback locale: a raw
    network or parse error never reaches the caller.  Either way the
    call leaves its key out of the in-flight map and every other key of
    that map as it was. *)
Theorem load_outcome :
  forall (config : I18nConfig) (net : Network) (locale : Locale)
         (section : option Section_) (st : Sys),
    map_get (dedupKey locale section) (loadingPromises st) = None ->
    let run := load config net locale section st in
    match fst run with
    | Return _ => True
    | Throw e =>
        exists now l msg cause,
          e = TranslationLoadError now l msg (Some cause)
          /\ (l = locale \/ l = cfg_fallbackLocale config)
    end
    /\ forall k,
         map_get k (loadingPromises (snd run)) = map_get k (loadingPromises st).
Proof.
  intros config net locale section st Hnone run. subst run.
  destruct (fst (lookup_cache locale section st)) as [e|] eqn:Hlook.
  - rewrite (@lookup_cache_hit_load config net locale section st Hnone e Hlook).
    cbn [fst snd]. split; [exact I|]. intros k.
    destruct (lookup_cache_frame locale section st) as [cm ->]. reflexivity.
  - rewrite (@load_state config net locale section st Hnone Hlook). cbv zeta.
    cbn [fst snd].
    set (issued := set_loadingPromises _ _).
    pose proof (performLoad_resume_throws config net locale section
                  (List.length (fetchLog st)) issued) as Hthrow.
    pose proof (performLoad_resume_loadingPromises config net locale section
                  (List.length (fetchLog st)) issued) as Hkeep.
    destruct (performLoad_resume config net locale section
                (List.length (fetchLog st)) issued) as [r st2].
    cbn [fst snd] in *. split.
    + destruct r as [d|e]; [exact I|].
      destruct Hthrow as [(now & msg & cause & ->)|(now & msg & cause & ->)].
      * exists now, locale, msg, cause. split; [reflexivity | now left].
      * exists now, (cfg_fallbackLocale config), msg, cause.
        split; [reflexivity | now right].
    + intros k. cbn [loadingPromises set_loadingPromises set_promises].
      rewrite Hkeep. subst issued. cbn [loadingPromises set_loadingPromises].
      destruct (String.eqb (dedupKey locale section) k) eqn:E.
      * apply String.eqb_eq in E. subst k.
        rewrite map_get_delete_eq. now rewrite Hnone.
      * apply String.eqb_neq in E.
        rewrite map_get_delete_neq by exact E.
        now rewrite map_get_set_neq by exact E.
Qed.

Lemma load_outcome_witness :
  let run := load (I18N_CONFIG false) only_vi_served "en" None fresh_runtime in
  map_get (dedupKey "en" None) (loadingPromises fresh_runtime) = None
  /\ (exists now l msg cause,
        fst run = Throw (TranslationLoadError now l msg (Some cause))
        /\ (l = "en" \/ l = cfg_fallbackLocale (I18N_CONFIG false)))
  /\ forall k,
       map_get k (loadingPromises (snd run)) = map_get k (loadingPromises fresh_runtime).
Proof.
  intros run.
  assert (H1 : map_get (dedupKey "en" None) (loadingPromises fresh_runtime) = None)
    by reflexivity.
  split; [exact H1|].
  destruct (@load_outcome (I18N_CONFIG false) only_vi_served "en" None
              fresh_runtime H1) as [A B].
  split; [|exact B].
  fold run in A. revert A. vm_compute fst.
  intros (now & l & msg & cause & E & Hl).
  exists now, l, msg, cause. split; [now rewrite E | exact Hl].
Defined.

(* ================================================================== *)
(** * loader.ts : a loaded document is served from the cache           *)
(* ================================================================== *)

(** The entry under the key of a load target. *)
Definition cached_entry (locale : Locale) (section : option Section_)
    (m : TranslationCacheManager.t) : option CacheEntryImpl.t :=
  match opt_truthy section with
  | Some s =>
      map_get (TranslationCacheManager.sectionKey locale s)
        (LRUCacheStrategy.cache (TranslationCacheManager.sectionCache m))
  | None =>
      map_get (TranslationCacheManager.localeKey locale)
        (MemoryCacheStrategy.cache (TranslationCacheManager.localeCache m))
  end.

Lemma lookup_cache_config locale section st :
  TranslationCacheManager.config (cacheManager (snd (lookup_cache locale section st)))
  = TranslationCacheManager.config (cacheManager st).
Proof.
  unfold lookup_cache. destruct (opt_truthy section) as [s|].
  - unfold TranslationCacheManager.getSectionCache.
    now destruct (LRUCacheStrategy.get _ _ _).
  - unfold TranslationCacheManager.getLocaleCache.
    now destruct (MemoryCacheStrategy.get _ _ _).
Qed.

(** A run of [performLoad] whose request delivers the document: what it
    returns and the state it leaves. *)
Lemma performLoad_resume_delivers config net locale section req st fullData :
  primary_payload net req (filePath locale) = Some fullData ->
  let d := slice section fullData in
  let st1 := set_clock (clock st + latency net req) st in
  performLoad_resume config net locale section req st
  = (Return d,
     set_cacheManager
       (match opt_truthy section with
        | Some s =>
            TranslationCacheManager.setSectionCache (clock st1) locale s d
              (cacheManager st1)
        | None =>
            TranslationCacheManager.setLocaleCache (clock st1) locale d
              (cacheManager st1)
        end) st1).
Proof.
  unfold primary_payload, performLoad_resume, try_catch, bind, fetch_await.
  destruct (reply net req (filePath locale)) as [msg|r]; [discriminate|].
  unfold read_body. destruct (resp_ok r); [|discriminate].
  destruct (resp_json r) as [msg|d]; [discriminate|]. intros [= ->].
  reflexivity.
Qed.

Lemma cached_entry_after_set locale section now d (m : TranslationCacheManager.t) :
  cached_entry locale section
    (match opt_truthy section with
     | Some s => TranslationCacheManager.setSectionCache now locale s d m
     | None => TranslationCacheManager.setLocaleCache now locale d m
     end)
  = Some (CacheEntryImpl.mk d now (cfg_ttl (TranslationCacheManager.config m)) 0).
Proof.
  unfold cached_entry. destruct (opt_truthy section) as [s|].
  - unfold TranslationCacheManager.setSectionCache, TranslationCacheManager.with_section.
    cbn [TranslationCacheManager.sectionCache]. apply lru_set_get.
  - unfold TranslationCacheManager.setLocaleCache, TranslationCacheManager.with_locale.
    cbn [TranslationCacheManager.localeCache]. apply memory_set_get.
Qed.

(** X9.  When a call of [load] goes to the network (its key is not in
    flight, the cache misses) and the request delivers the locale's
    document, the call returns the document (its [section] slice, when a
    section is asked for) after exactly one request, and stores it: a
    second [load] of the same target, made at any time [t] within the
    configured [ttl] of the moment of storing, returns the same value
    without a request. *)
Theorem load_then_cached :
  forall (config : I18nConfig) (net : Network) (locale : Locale)
         (section : option Section_) (st : Sys) (fullData : TranslationData),
    map_get (dedupKey locale section) (loadingPromises st) = None ->
    fst (lookup_cache locale section st) = None ->
    primary_payload net (List.length (fetchLog st)) (filePath locale)
    = Some fullData ->
    let first := load config net locale section st in
    fst first = Return (slice section fullData)
    /\ fetchLog (snd first) = (fetchLog st ++ [filePath locale])%list
    /\ forall t,
         t - clock (snd first) <= cfg_ttl (TranslationCacheManager.config (cacheManager st)) ->
         let second := load config net locale section (set_clock t (snd first)) in
         fst second = Return (slice section fullData)
         /\ fetchLog (snd second) = fetchLog (snd first).
Proof.
  intros config net locale section st fullData Hnone Hmiss Hpay first.
  subst first.
  rewrite (@load_state config net locale section st Hnone Hmiss). cbv zeta.
  set (issued := set_loadingPromises _ _).
  rewrite (@performLoad_resume_delivers config net locale section
             (List.length (fetchLog st)) issued fullData Hpay).
  cbv zeta. cbn [fst snd].
  set (after := set_loadingPromises _ _).
  split; [reflexivity|].
  assert (Hlog : fetchLog after = (fetchLog st ++ [filePath locale])%list).
  { subst after issued.
    destruct (lookup_cache_frame locale section st) as [cm ->]. reflexivity. }
  split; [exact Hlog|].
  intros t Ht.
  assert (Hkey : map_get (dedupKey locale section)
                   (loadingPromises (set_clock t after)) = None).
  { subst after. cbn [loadingPromises set_clock set_loadingPromises].
    apply map_get_delete_eq. }
  assert (Hentry : cached_entry locale section (cacheManager (set_clock t after))
                   = Some (CacheEntryImpl.mk (slice section fullData)
                             (clock after)
                             (cfg_ttl (TranslationCacheManager.config (cacheManager st)))
                             0)).
  { subst after issued.
    cbn [cacheManager clock set_clock set_loadingPromises set_promises
         set_cacheManager set_fetchLog].
    rewrite cached_entry_after_set. rewrite lookup_cache_config.
    destruct (lookup_cache_frame locale section st) as [cm ->]. reflexivity. }
  assert (Hhit : fst (lookup_cache locale section (set_clock t after))
                 = Some (CacheEntryImpl.mk (slice section fullData) (clock after)
                           (cfg_ttl (TranslationCacheManager.config (cacheManager st)))
                           1)).
  { rewrite lookup_cache_answer. unfold cached_entry in Hentry. rewrite Hentry.
    unfold CacheEntryImpl.isExpired.
    cbn [CacheEntryImpl.ttl CacheEntryImpl.timestamp clock set_clock].
    assert (E : (cfg_ttl (TranslationCacheManager.config (cacheManager st))
                 <? t - clock after) = false) by (apply Z.ltb_ge; exact Ht).
    rewrite E. reflexivity. }
  rewrite (@lookup_cache_hit_load config net locale section (set_clock t after)
             Hkey _ Hhit).
  cbn [fst snd CacheEntryImpl.data]. split; [reflexivity|].
  destruct (lookup_cache_frame locale section (set_clock t after)) as [cm ->].
  reflexivity.
Qed.

Lemma load_then_cached_witness :
  let first := load (I18N_CONFIG false) en_vi_served "en" None fresh_runtime in
  let second :=
    load (I18N_CONFIG false) en_vi_served "en" None (set_clock 1000 (snd first)) in
  fst first = Return (JObj en_document)
  /\ fst second = Return (JObj en_document)
  /\ fetchLog (snd second) = fetchLog (snd first).
Proof.
  intros first second.
  assert (H1 : map_get (dedupKey "en" None) (loadingPromises fresh_runtime) = None)
    by reflexivity.
  assert (H2 : fst (lookup_cache "en" None fresh_runtime) = None) by reflexivity.
  assert (H3 : primary_payload en_vi_served (List.length (fetchLog fresh_runtime))
                 (filePath "en") = Some en_document) by reflexivity.
  destruct (@load_then_cached (I18N_CONFIG false) en_vi_served "en" None
              fresh_runtime en_document H1 H2 H3) as (A & B & C).
  split; [exact A|].
  assert (H4 : 1000 - clock (snd first)
               <= cfg_ttl (TranslationCacheManager.config (cacheManager fresh_runtime)))
    by (vm_compute; discriminate).
  exact (C 1000 H4).
Defined.

(* ================================================================== *)
(** * loader.ts : unload                                               *)
(* ================================================================== *)

Lemma prefix_app (a b : string) : String.prefix a (a ++ b) = true.
Proof.
  induction a as [|c a IH]; simpl; [now destruct b|].
  destruct (ascii_dec c c); [exact IH | contradiction].
Qed.

Lemma prefix_dedupKey locale section :
  String.prefix locale (dedupKey locale section) = true.
Proof.
  unfold dedupKey. destruct (opt_truthy section) as [s|].
  - apply prefix_app.
  - induction locale as [|c l IH]; simpl; [reflexivity|].
    destruct (ascii_dec c c); [exact IH | contradiction].
Qed.

Lemma lookup_cache_cleared locale section st locale' :
  fst (lookup_cache locale section
         (set_cacheManager
            (TranslationCacheManager.clearLocale locale' (cacheManager st)) st))
  = None.
Proof.
  rewrite lookup_cache_answer. now destruct (opt_truthy section).
Qed.

(** X10.  [unload(locale)] never throws.  It empties all three cache
    tiers, and it removes from the in-flight map every key that starts
    with the text of [locale], which takes in the keys of any other
    locale whose code starts with the same characters, and leaves the
    other keys alone; it issues no request.  So the next [load] of that
    locale, or of one of its sections, sends a new request even if an
    earlier one has not been answered yet. *)
Theorem unload_clears :
  forall (locale : Locale) (st : Sys),
    let run := unload locale st in
    fst run = Return tt
    /\ MemoryCacheStrategy.cache (TranslationCacheManager.localeCache (cacheManager (snd run))) = []
    /\ LRUCacheStrategy.cache (TranslationCacheManager.sectionCache (cacheManager (snd run))) = []
    /\ MemoryCacheStrategy.cache (TranslationCacheManager.keyCache (cacheManager (snd run))) = []
    /\ (forall k,
          map_get k (loadingPromises (snd run))
          = if String.prefix locale k then None else map_get k (loadingPromises st))
    /\ fetchLog (snd run) = fetchLog st
    /\ promises (snd run) = promises st
    /\ forall section,
         exists p st2,
           load_call locale section (snd run) = (InFlight p, st2)
           /\ fetchLog st2 = (fetchLog st ++ [filePath locale])%list.
Proof.
  intros locale st run. subst run. unfold unload, modify. cbn [fst snd].
  set (ks := map_keys (filter (fun kv => String.prefix locale (fst kv))
                              (loadingPromises st))).
  assert (Hks : forall k, In k ks
                  <-> In k (map_keys (loadingPromises st))
                      /\ String.prefix locale k = true).
  { intros k. subst ks. unfold map_keys. rewrite !in_map_iff. split.
    - intros ([k' v] & <- & Hin). apply filter_In in Hin. cbn [fst] in *.
      split; [|tauto]. exists (k', v). tauto.
    - intros [([k' v] & <- & Hin) Hp]. exists (k', v). split; [reflexivity|].
      apply filter_In. tauto. }
  assert (Hmap : forall k,
            map_get k (delete_keys ks (loadingPromises st))
            = if String.prefix locale k then None
              else map_get k (loadingPromises st)).
  { intros k. destruct (String.prefix locale k) eqn:P.
    - destruct (map_get k (loadingPromises st)) as [v|] eqn:G.
      + apply map_get_delete_keys_in. apply Hks. split; [|exact P].
        apply map_has_true. unfold map_has. now rewrite G.
      + destruct (map_get k (delete_keys ks (loadingPromises st))) as [v|] eqn:G';
          [|reflexivity].
        apply map_get_In in G'. apply In_delete_keys in G'. destruct G' as [Hin _].
        destruct (In_map_get _ _ _ Hin) as [v' Hv']. congruence.
    - apply map_get_delete_keys_notin. intros Hin. apply Hks in Hin.
      destruct Hin as [_ Hp]. congruence. }
  split; [reflexivity|].
  cbn [cacheManager set_loadingPromises set_cacheManager loadingPromises fetchLog
       promises TranslationCacheManager.clearLocale
       TranslationCacheManager.localeCache TranslationCacheManager.sectionCache
       TranslationCacheManager.keyCache MemoryCacheStrategy.clear
       LRUCacheStrategy.clear MemoryCacheStrategy.cache LRUCacheStrategy.cache].
  split; [reflexivity|]. split; [reflexivity|]. split; [reflexivity|].
  split; [exact Hmap|]. split; [reflexivity|]. split; [reflexivity|].
  intros section.
  set (after := set_loadingPromises _ _).
  assert (Hnone : map_get (dedupKey locale section) (loadingPromises after) = None).
  { subst after. cbn [loadingPromises set_loadingPromises].
    rewrite Hmap. now rewrite prefix_dedupKey. }
  assert (Hmiss : fst (lookup_cache locale section after) = None).
  { rewrite lookup_cache_answer. subst after.
    cbn [cacheManager set_loadingPromises set_cacheManager
         TranslationCacheManager.clearLocale
         TranslationCacheManager.localeCache TranslationCacheManager.sectionCache
         MemoryCacheStrategy.clear LRUCacheStrategy.clear
         MemoryCacheStrategy.cache LRUCacheStrategy.cache map_get].
    now destruct (opt_truthy section). }
  destruct (@load_call_fetches locale section after Hnone Hmiss)
    as (p & st2 & Hcall & Hlog).
  exists p, st2. split; [exact Hcall|]. rewrite Hlog. reflexivity.
Qed.

(* ================================================================== *)
(** * loader.ts : a failed section load                                *)
(* ================================================================== *)

(** X11.  When the request of a section load fails and the recovery
    table has no entry for section errors (the default table has none),
    the error is classed [SectionLoadError], for which the table's
    default is [skip]: the recovery counts as successful without the
    recovery callback being run, and [performLoad] answers with what
    [loadFallback] gives for the configured fallback locale and the same
    section, its document slice or its [TranslationLoadError].  Before
    that, the tracker has counted one [SectionLoadError] for the
    requested locale and one successful recovery; no cache tier is
    written. *)
Theorem section_load_failure_falls_back :
  forall (config : I18nConfig) (net : Network) (locale : Locale)
         (section : Section_) (req : nat) (st : Sys),
    truthy locale = true ->
    truthy section = true ->
    primary_payload net req (filePath locale) = None ->
    map_get "section_load" (recoveryManager st) = None ->
    exists (cause : JsError) (tracked : Sys),
      performLoad_resume config net locale (Some section) req st
      = loadFallback net (cfg_fallbackLocale config) (Some section) tracked
      /\ errorTracker tracked
         = ErrorTracker.trackRecoveryAttempt true
             (ErrorTracker.trackError
                (SectionLoadError (clock tracked) locale section
                   (error_message cause) (Some cause))
                (errorTracker st))
      /\ fetchLog tracked = fetchLog st
      /\ cacheManager tracked = cacheManager st
      /\ clock tracked = clock st + latency net req.
Proof.
  intros config net locale section req st Hl Hs Hfail Htable.
  assert (Hcatch : forall msg st1,
    errorTracker st1 = errorTracker st -> recoveryManager st1 = recoveryManager st ->
    fetchLog st1 = fetchLog st -> cacheManager st1 = cacheManager st ->
    clock st1 = clock st + latency net req ->
    exists cause tracked,
      (recoverySuccess <-
         ErrorHandler.handleError (PlainError msg)
           (mkPartial (Some locale) None (Some section) None (Some "load_module"))
           (Some (performLoad_recovery net (Some section))) ;;
       if recoverySuccess : bool then
         loadFallback net (cfg_fallbackLocale config) (Some section)
       else
         now <- gets clock ;;
         throw (TranslationLoadError now locale
                  (load_failure_message locale (Some section))
                  (Some (PlainError msg)))) st1
      = loadFallback net (cfg_fallbackLocale config) (Some section) tracked
      /\ errorTracker tracked
         = ErrorTracker.trackRecoveryAttempt true
             (ErrorTracker.trackError
                (SectionLoadError (clock tracked) locale section
                   (error_message cause) (Some cause))
                (errorTracker st))
      /\ fetchLog tracked = fetchLog st
      /\ cacheManager tracked = cacheManager st
      /\ clock tracked = clock st + latency net req).
  { intros msg st1 Ht Hr Hf Hc Hk.
    exists (PlainError msg).
    unfold ErrorHandler.handleError, ErrorHandler.wrapError.
    cbn [pc_locale pc_key pc_section pc_module opt_truthy].
    rewrite Hl, Hs.
    unfold bind at 1. unfold bind at 1. cbn [gets].
    unfold bind at 1. cbn [ErrorHandler.trackError modify].
    unfold ErrorRecoveryExecutor.executeRecovery,
      ErrorRecoveryExecutor.executeRecovery_traced.
    unfold bind at 1. unfold bind at 1. cbn [gets].
    cbn [recoveryManager set_errorTracker].
    unfold ErrorRecoveryManager.getRecoveryStrategy.
    cbn [ErrorRecoveryManager.getErrorType SectionLoadError].
    rewrite Hr, Htable.
    unfold try_catch, ErrorRecoveryExecutor.executeStrategy.
    cbn [strategy_type]. unfold bind at 1. cbn [ret].
    unfold bind at 1. cbn [ErrorRecoveryExecutor.trackRecoveryAttempt modify fst].
    cbn [ret].
    eexists. split; [reflexivity|].
    cbn [errorTracker set_errorTracker clock fetchLog cacheManager error_message].
    rewrite Ht. repeat split; assumption. }
  unfold primary_payload in Hfail.
  unfold performLoad_resume, try_catch. unfold bind at 1. unfold fetch_await.
  destruct (reply net req (filePath locale)) as [msg|r].
  - apply Hcatch; reflexivity.
  - unfold bind at 1. unfold read_body.
    destruct (resp_ok r); cbn [negb].
    + destruct (resp_json r) as [msg|d]; [|discriminate].
      apply Hcatch; reflexivity.
    + apply Hcatch; reflexivity.
Qed.

Lemma section_load_failure_falls_back_witness :
  exists cause tracked,
    performLoad_resume (I18N_CONFIG false) only_vi_served "en" (Some "common") 0
      fresh_runtime
    = loadFallback only_vi_served "vi" (Some "common") tracked
    /\ ErrorTracker.recoverySuccessCount (errorTracker tracked) = 1
    /\ cause = PlainError "Failed to fetch /i18n/en.json: 404 Not Found".
Proof.
  assert (H1 : truthy "en" = true) by reflexivity.
  assert (H2 : truthy "common" = true) by reflexivity.
  assert (H3 : primary_payload only_vi_served 0 (filePath "en") = None)
    by reflexivity.
  assert (H4 : map_get "section_load" (recoveryManager fresh_runtime) = None)
    by reflexivity.
  destruct (@section_load_failure_falls_back (I18N_CONFIG false) only_vi_served
              "en" "common" 0 fresh_runtime H1 H2 H3 H4)
    as (cause & tracked & A & B & _).
  exists (PlainError "Failed to fetch /i18n/en.json: 404 Not Found"), tracked.
  split; [exact A|]. split; [now rewrite B | reflexivity].
Defined.

(* ================================================================== *)
(** * loader.ts : loadKey always answers                               *)
(* ================================================================== *)

Lemma returns_loadKeyFromFallback config net locale key :
  returns (loadKeyFromFallback config net locale key).
Proof.
  unfold loadKeyFromFallback. apply returns_try_catch.
  intros e. apply returns_ret.
Qed.

(** X12.  [loadKey] never rejects: from every state, on every network,
    with every recovery table, it resolves to a string.  With a valid
    key-tier entry the string is that entry's and no request is made.
    Otherwise, when the locale's document loads, it is what
    [extractKeyValue] finds in that document.  When the load throws, the
    error is handled; if the recovery did not succeed the string is the
    key, and if it did, the configured fallback locale is loaded in the
    state the handling left: the string is what [extractKeyValue] finds
    in that document, or the key when this load throws too. *)
Theorem loadKey_always_answers :
  forall (config : I18nConfig) (net : Network) (locale : Locale)
         (key : TranslationKey) (st : Sys),
    exists (s : string) (st' : Sys),
      loadKey config net locale key st = (Return s, st')
      /\ match TranslationCacheManager.getKeyCache (clock st) locale key
                 (cacheManager st) with
         | (Some entry, _) => s = string_data entry /\ fetchLog st' = fetchLog st
         | (None, cm) =>
             match load config net locale None (set_cacheManager cm st) with
             | (Return d, _) => s = extractKeyValue d key
             | (Throw error, st2) =>
                 match ErrorHandler.handleError error
                         (mkPartial (Some locale) (Some key) None None
                                    (Some "load_key"))
                         (Some (loadKey_recovery config net key)) st2 with
                 | (Return true, st3) =>
                     s = match fst (load config net (cfg_fallbackLocale config)
                                      None st3) with
                         | Return d => extractKeyValue d key
                         | Throw _ => key
                         end
                 | (_, _) => s = key
                 end
             end
         end.
Proof.
  intros config net locale key st. unfold loadKey.
  unfold bind at 1. unfold getKeyCache.
  destruct (TranslationCacheManager.getKeyCache (clock st) locale key (cacheManager st))
    as [[entry|] cm].
  - eexists. eexists. split; [reflexivity|]. split; reflexivity.
  - unfold try_catch.
    set (st1 := set_cacheManager cm st).
    unfold bind at 1.
    destruct (load config net locale None st1) as [[d|e] st2]; cbn [fst].
    + unfold bind at 1. cbn [setKeyCache modify ret].
      eexists. eexists. split; reflexivity.
    + unfold bind at 1.
      destruct (returns_handleError e
                  (mkPartial (Some locale) (Some key) None None (Some "load_key"))
                  (Some (loadKey_recovery config net key)) st2) as (b & st3 & ->).
      destruct b.
      * unfold loadKeyFromFallback, try_catch. unfold bind at 1.
        destruct (load config net (cfg_fallbackLocale config) None st3)
          as [[d|e'] st4] eqn:L; cbn [ret fst].
        -- eexists. eexists. split; reflexivity.
        -- eexists. eexists. split; reflexivity.
      * eexists. eexists. split; reflexivity.
Qed.

(* ================================================================== *)
(** * errors.ts : wrapError                                            *)
(* ================================================================== *)

(** The key of the recovery table that [wrapError] sends a plain error
    to, read off the context it is handled with. *)
Definition wrapped_type (message : string) (context : PartialContext) : string :=
  match opt_truthy (pc_locale context) with
  | Some _ =>
      match opt_truthy (pc_key context), opt_truthy (pc_section context),
            opt_truthy (pc_module context) with
      | Some _, _, _ => "translation_key"
      | None, Some _, _ => "section_load"
      | None, None, Some _ => "module_load"
      | None, None, None => "translation_load"
      end
  | None =>
      if includes "network" message || includes "fetch" message
      then "network" else "unknown"
  end.

(** X14.  [wrapError] always yields an error of the taxonomy, with the
    message of the error it was given.  An error of the taxonomy is
    returned as it is, so wrapping twice is wrapping once; a plain error
    is kept as the cause of the new one, and its class depends on the
    context alone when the context names a locale (key before section
    before module), and on the words "network" and "fetch" in its message
    otherwise.  A [NetworkError] made here never names a locale: its
    context says "unknown"; every other wrapped error names the locale of
    the context it was handled with. *)
Theorem wrapError_classifies :
  forall (now : Z) (error : JsError) (context : PartialContext),
    let wrapped := ErrorHandler.wrapError now error context in
    (exists cls ctx ts cause,
       wrapped = I18nError cls (error_message error) ctx ts cause)
    /\ (forall now' context', ErrorHandler.wrapError now' wrapped context' = wrapped)
    /\ match error with
       | I18nError _ _ _ _ _ => wrapped = error
       | PlainError message =>
           error_cause wrapped = Some error
           /\ ErrorRecoveryManager.getErrorType wrapped
              = wrapped_type message context
           /\ error_context_locale wrapped
              = (if String.eqb (wrapped_type message context) "network"
                 then Some "unknown"
                 else pc_locale context)
       end.
Proof.
  intros now error context wrapped. subst wrapped.
  destruct error as [message|cls message ctx ts cause].
  - unfold ErrorHandler.wrapError, wrapped_type.
    destruct (pc_locale context) as [l|] eqn:PL; cbn [opt_truthy].
    + destruct (truthy l).
      * destruct (opt_truthy (pc_key context)) as [key|];
          [|destruct (opt_truthy (pc_section context)) as [section|];
            [|destruct (opt_truthy (pc_module context)) as [module|]]];
          (split; [do 4 eexists; reflexivity|]);
          (split; [reflexivity|]);
          (split; [reflexivity|]);
          (split; reflexivity).
      * destruct (includes "network" message || includes "fetch" message);
          (split; [do 4 eexists; reflexivity|]);
          (split; [reflexivity|]);
          (split; [reflexivity|]);
          (split; [reflexivity|]); cbn; now rewrite ?PL.
    + destruct (includes "network" message || includes "fetch" message);
        (split; [do 4 eexists; reflexivity|]);
        (split; [reflexivity|]);
        (split; [reflexivity|]);
        (split; [reflexivity|]); cbn; now rewrite ?PL.
  - split; [do 4 eexists; reflexivity|]. split; reflexivity.
Qed.

(* ================================================================== *)
(** * errors.ts : ErrorRecoveryManager                                 *)
(* ================================================================== *)

(** X15.  A strategy registered with [setRecoveryStrategy] is the one
    [getRecoveryStrategy] gives for every error of that type, whatever
    was registered before, and the strategies of errors of other types
    are not affected; an error whose type has no entry gets [skip]. *)
Theorem recovery_strategy_roundtrip :
  forall (table : ErrorRecoveryManager.t) (errorType : string)
         (strategy : ErrorRecoveryStrategy) (error : JsError),
    ErrorRecoveryManager.getRecoveryStrategy error
      (ErrorRecoveryManager.setRecoveryStrategy errorType strategy table)
    = (if String.eqb errorType (ErrorRecoveryManager.getErrorType error)
       then strategy
       else ErrorRecoveryManager.getRecoveryStrategy error table)
    /\ (map_get (ErrorRecoveryManager.getErrorType error) table = None ->
        ErrorRecoveryManager.getRecoveryStrategy error table
        = mkStrategy Skip None None None).
Proof.
  intros table errorType strategy error.
  unfold ErrorRecoveryManager.getRecoveryStrategy,
    ErrorRecoveryManager.setRecoveryStrategy.
  split.
  - destruct (String.eqb errorType (ErrorRecoveryManager.getErrorType error)) eqn:E.
    + apply String.eqb_eq in E. subst. now rewrite map_get_set_eq.
    + apply String.eqb_neq in E. now rewrite map_get_set_neq.
  - now intros ->.
Qed.

Lemma recovery_strategy_roundtrip_witness :
  let error := SectionLoadError 0 "en" "common" "Load failed" None in
  map_get (ErrorRecoveryManager.getErrorType error) ErrorRecoveryManager.new = None
  /\ ErrorRecoveryManager.getRecoveryStrategy error ErrorRecoveryManager.new
     = mkStrategy Skip None None None.
Proof.
  intros error.
  assert (H : map_get (ErrorRecoveryManager.getErrorType error)
                ErrorRecoveryManager.new = None) by reflexivity.
  split; [exact H|].
  exact (proj2 (recovery_strategy_roundtrip ErrorRecoveryManager.new "network"
                  (mkStrategy Abort None None None) error) H).
Defined.

(* ================================================================== *)
(** * errors.ts : ErrorTracker                                         *)
(* ================================================================== *)

(** [error.context] of a log entry. *)
Definition error_context (e : JsError) : option ErrorContext :=
  match e with PlainError _ => None | I18nError _ _ c _ _ => Some c end.

(** [ErrorStatistics] of types.ts. *)
Record ErrorStatistics := mkErrorStatistics {
  totalErrors : Z;
  errorsByType : JsMap Z;
  errorsByLocale : JsMap Z;
  recentErrors : list (option ErrorContext);
  recoverySuccessRate : Q
}.

(** [a.slice(-n)]: the last [n] elements. *)
Definition slice_last (A : Type) (n : nat) (a : list A) : list A :=
  skipn (List.length a - n) a.

Definition getStatistics (tr : ErrorTracker.t) : ErrorStatistics :=
  {| totalErrors := Z.of_nat (List.length (ErrorTracker.errorLog tr));
     errorsByType := ErrorTracker.errorCounts tr;
     errorsByLocale := ErrorTracker.localeErrorCounts tr;
     recentErrors := List.map error_context (slice_last 10 (ErrorTracker.errorLog tr));
     recoverySuccessRate :=
       if 0 <? ErrorTracker.recoveryAttemptCount tr
       then (inject_Z (ErrorTracker.recoverySuccessCount tr)
             / inject_Z (ErrorTracker.recoveryAttemptCount tr))%Q
       else 0%Q |}.

(** What a tracker is told, in order. *)
Inductive TrackerEvent : Type :=
| Tracked (error : JsError)
| Recovery (success : bool).

Definition tracker_step (tr : ErrorTracker.t) (ev : TrackerEvent) : ErrorTracker.t :=
  match ev with
  | Tracked e => ErrorTracker.trackError e tr
  | Recovery b => ErrorTracker.trackRecoveryAttempt b tr
  end.

Definition tracker_run (evs : list TrackerEvent) : ErrorTracker.t :=
  fold_left tracker_step evs ErrorTracker.new.

Definition tracked_errors (evs : list TrackerEvent) : list JsError :=
  flat_map (fun ev => match ev with Tracked e => [e] | Recovery _ => [] end) evs.

Definition recoveries (evs : list TrackerEvent) : list bool :=
  flat_map (fun ev => match ev with Tracked _ => [] | Recovery b => [b] end) evs.

Definition count_where (A : Type) (f : A -> bool) (l : list A) : Z :=
  Z.of_nat (List.length (filter f l)).

Lemma slice_last_snoc_small (A : Type) n (l : list A) x :
  (List.length l < n)%nat ->
  slice_last n (l ++ [x]) = (slice_last n l ++ [x])%list.
Proof.
  intros H. unfold slice_last. rewrite length_app. cbn [List.length].
  replace (List.length l + 1 - n)%nat with O by lia.
  replace (List.length l - n)%nat with O by lia. reflexivity.
Qed.

Lemma skipn_S_tl (A : Type) k (m : list A) : skipn (S k) m = List.tl (skipn k m).
Proof.
  revert m. induction k as [|k IH]; intros m.
  - now destruct m.
  - destruct m as [|y m]; [reflexivity|]. cbn [skipn]. apply IH.
Qed.

Lemma slice_last_snoc_full (A : Type) n (l : list A) x :
  (n <= List.length l)%nat ->
  slice_last n (l ++ [x]) = List.tl (slice_last n l ++ [x])%list.
Proof.
  intros H. unfold slice_last. rewrite length_app. cbn [List.length].
  replace (List.length l + 1 - n)%nat with (S (List.length l - n)) by lia.
  rewrite skipn_S_tl, skipn_app.
  replace (List.length l - n - List.length l)%nat with O by lia.
  reflexivity.
Qed.

Lemma slice_last_length (A : Type) n (l : list A) :
  List.length (slice_last n l) = Nat.min n (List.length l).
Proof. unfold slice_last. rewrite length_skipn. lia. Qed.

Lemma count_of_bump k k' m :
  ErrorTracker.count_of k' (ErrorTracker.bump k m)
  = ErrorTracker.count_of k' m + (if String.eqb k k' then 1 else 0).
Proof.
  unfold ErrorTracker.bump, ErrorTracker.count_of at 1.
  destruct (String.eqb k k') eqn:E.
  - apply String.eqb_eq in E. subst. rewrite map_get_set_eq. reflexivity.
  - apply String.eqb_neq in E. rewrite map_get_set_neq by exact E.
    unfold ErrorTracker.count_of. lia.
Qed.

(** What the tracker holds after a history of events. *)
Lemma tracker_run_state evs :
  let tr := tracker_run evs in
  ErrorTracker.maxLogSize tr = 100
  /\ ErrorTracker.errorLog tr = slice_last 100 (tracked_errors evs)
  /\ (forall cls,
        ErrorTracker.count_of cls (ErrorTracker.errorCounts tr)
        = count_where (fun e => String.eqb (constructor_name e) cls)
            (tracked_errors evs))
  /\ (forall l,
        truthy l = true ->
        ErrorTracker.count_of l (ErrorTracker.localeErrorCounts tr)
        = count_where
            (fun e => match error_context_locale e with
                      | Some l' => String.eqb l' l
                      | None => false
                      end)
            (tracked_errors evs))
  /\ ErrorTracker.recoveryAttemptCount tr = Z.of_nat (List.length (recoveries evs))
  /\ ErrorTracker.recoverySuccessCount tr = count_where (fun b : bool => b) (recoveries evs).
Proof.
  unfold tracker_run. induction evs as [|ev evs IH] using rev_ind.
  - cbn. repeat split.
  - rewrite fold_left_app. cbn [fold_left].
    cbv zeta in IH. destruct IH as (Hmax & Hlog & Hcount & Hloc & Hatt & Hsucc).
    set (tr := fold_left tracker_step evs ErrorTracker.new) in *.
    unfold tracked_errors, recoveries in *. rewrite !flat_map_app.
    cbn [flat_map]. rewrite !app_nil_r.
    destruct ev as [e|b]; cbn [tracker_step].
    + rewrite app_nil_r.
      unfold ErrorTracker.trackError.
      cbn [ErrorTracker.maxLogSize ErrorTracker.errorLog ErrorTracker.errorCounts
           ErrorTracker.localeErrorCounts ErrorTracker.recoveryAttemptCount
           ErrorTracker.recoverySuccessCount].
      split; [exact Hmax|]. split.
      { rewrite Hmax, Hlog. rewrite length_app, slice_last_length. cbn [List.length].
        set (es := flat_map _ evs).
        destruct (Nat.le_gt_cases 100 (List.length es)) as [Hfull|Hsmall].
        - assert (E : (100 <? Z.of_nat (Nat.min 100 (List.length es) + 1)) = true)
            by (apply Z.ltb_lt; lia).
          rewrite E. now rewrite slice_last_snoc_full.
        - assert (E : (100 <? Z.of_nat (Nat.min 100 (List.length es) + 1)) = false)
            by (apply Z.ltb_ge; lia).
          rewrite E. now rewrite slice_last_snoc_small. }
      split.
      { intros cls. rewrite count_of_bump, Hcount. unfold count_where.
        rewrite filter_app, length_app. cbn [filter].
        destruct (String.eqb (constructor_name e) cls); cbn [List.length]; lia. }
      split; [|split; assumption].
      intros l Hl. unfold count_where. rewrite filter_app, length_app. cbn [filter].
      destruct (error_context_locale e) as [l'|] eqn:El.
      * destruct (truthy l') eqn:T.
        -- rewrite count_of_bump, (Hloc l Hl). unfold count_where.
           destruct (String.eqb l' l); cbn [List.length]; lia.
        -- assert (N : String.eqb l' l = false).
           { apply String.eqb_neq. intros ->. congruence. }
           rewrite N, (Hloc l Hl). unfold count_where. cbn [List.length]. lia.
      * rewrite (Hloc l Hl). unfold count_where. cbn [List.length]. lia.
    + rewrite app_nil_r.
      unfold ErrorTracker.trackRecoveryAttempt.
      cbn [ErrorTracker.maxLogSize ErrorTracker.errorLog ErrorTracker.errorCounts
           ErrorTracker.localeErrorCounts ErrorTracker.recoveryAttemptCount
           ErrorTracker.recoverySuccessCount].
      split; [exact Hmax|]. split; [exact Hlog|].
      split; [exact Hcount|]. split; [exact Hloc|].
      rewrite length_app. cbn [List.length]. split; [lia|].
      unfold count_where in *. rewrite filter_app, length_app. cbn [filter].
      destruct b; cbn [List.length]; lia.
Qed.

(** X16.  After any history of calls, a tracker's log holds the most
    recent 100 errors it was given, in order, and no more: [totalErrors]
    is the number of errors tracked up to 100 and stays at 100 from then
    on, and [recentErrors] lists the contexts of the last 10 of them.  The
    counts by type and by locale are not capped: each is the exact number
    of tracked errors of that class, or whose context names that locale. *)
Theorem tracker_statistics :
  forall (evs : list TrackerEvent),
    let stats := getStatistics (tracker_run evs) in
    let errors := tracked_errors evs in
    ErrorTracker.errorLog (tracker_run evs) = slice_last 100 errors
    /\ totalErrors stats = Z.min (Z.of_nat (List.length errors)) 100
    /\ recentErrors stats = List.map error_context (slice_last 10 errors)
    /\ (forall cls,
          ErrorTracker.count_of cls (errorsByType stats)
          = count_where (fun e => String.eqb (constructor_name e) cls) errors)
    /\ (forall l,
          truthy l = true ->
          ErrorTracker.count_of l (errorsByLocale stats)
          = count_where
              (fun e => match error_context_locale e with
                        | Some l' => String.eqb l' l
                        | None => false
                        end)
              errors).
Proof.
  intros evs stats errors.
  destruct (tracker_run_state evs) as (_ & Hlog & Hcount & Hloc & _).
  subst stats. unfold getStatistics.
  cbn [totalErrors recentErrors errorsByType errorsByLocale].
  fold errors in Hlog, Hcount, Hloc.
  split; [exact Hlog|]. rewrite Hlog. split.
  { rewrite slice_last_length. lia. }
  split; [|split; assumption].
  f_equal. unfold slice_last. rewrite length_skipn, skipn_skipn. f_equal. lia.
Qed.

Lemma tracker_statistics_witness :
  let e := TranslationLoadError 0 "en" "Load failed" None in
  let evs := List.map Tracked (repeat e 150) in
  truthy "en" = true
  /\ totalErrors (getStatistics (tracker_run evs)) = 100
  /\ ErrorTracker.count_of "en" (errorsByLocale (getStatistics (tracker_run evs)))
     = count_where
         (fun e => match error_context_locale e with
                   | Some l' => String.eqb l' "en"
                   | None => false
                   end)
         (tracked_errors evs).
Proof.
  intros e evs.
  assert (H : truthy "en" = true) by reflexivity.
  split; [exact H|].
  destruct (tracker_statistics evs) as (_ & A & _ & _ & B).
  split; [rewrite A; reflexivity | exact (B "en" H)].
Defined.


(* ================================================================== *)
(** * errors.ts : what handling an error records                       *)
(* ================================================================== *)

Lemma executeStrategy_tracker (cb : Callback) strategy st :
  keeps_tracker cb ->
  exists r st1,
    ErrorRecoveryExecutor.executeStrategy strategy cb st = (Return r, st1)
    /\ errorTracker st1 = errorTracker st.
Proof.
  intros Hcb. unfold ErrorRecoveryExecutor.executeStrategy.
  destruct (strategy_type strategy).
  - unfold ErrorRecoveryExecutor.executeFallbackStrategy, try_catch, bind.
    pose proof (Hcb strategy st) as Htr.
    destruct (cb strategy st) as [[x|e] st1]; cbn [snd] in Htr;
      eexists; eexists; (split; [reflexivity | exact Htr]).
  - destruct (@executeRetryStrategy_spec cb strategy st)
      as (b & tr & st1 & Hrun & Ht & _).
    exists (b, tr), st1. split; [exact Hrun | exact (Ht Hcb)].
  - eexists. eexists. split; reflexivity.
  - eexists. eexists. split; reflexivity.
Qed.

(** X18.  [handleError] never rejects, and it keeps the tracker's books
    exactly: the error, wrapped for the context at hand, is counted once;
    with a recovery callback (one that does not touch the tracker itself)
    exactly one recovery attempt is counted, as a success iff [true] is
    returned; without a callback [false] is returned and no attempt is
    counted. *)
Theorem handleError_accounting :
  forall (error : JsError) (context : PartialContext) (cb : Callback) (st : Sys),
    keeps_tracker cb ->
    let wrapped := ErrorHandler.wrapError (clock st) error context in
    (exists b st',
       ErrorHandler.handleError error context (Some cb) st = (Return b, st')
       /\ errorTracker st'
          = ErrorTracker.trackRecoveryAttempt b
              (ErrorTracker.trackError wrapped (errorTracker st)))
    /\ ErrorHandler.handleError error context None st
       = (Return false,
          set_errorTracker (ErrorTracker.trackError wrapped (errorTracker st)) st).
Proof.
  intros error context cb st Hcb wrapped. split; [|reflexivity].
  unfold ErrorHandler.handleError. unfold bind at 1. cbn [gets]. fold wrapped.
  unfold bind at 1. cbn [ErrorHandler.trackError modify].
  set (st0 := set_errorTracker _ st).
  unfold ErrorRecoveryExecutor.executeRecovery,
    ErrorRecoveryExecutor.executeRecovery_traced.
  unfold bind at 1. unfold bind at 1. cbn [gets].
  unfold try_catch. unfold bind at 1.
  destruct (@executeStrategy_tracker cb
              (ErrorRecoveryManager.getRecoveryStrategy wrapped (recoveryManager st0))
              st0 Hcb) as ([b tr] & st1 & -> & Ht).
  unfold bind at 1. cbn [ErrorRecoveryExecutor.trackRecoveryAttempt modify fst].
  cbn [ret].
  eexists. eexists. split; [reflexivity|].
  cbn [errorTracker set_errorTracker]. rewrite Ht. reflexivity.
Qed.

Lemma handleError_accounting_witness :
  let cb : Callback := fun _ => ret true in
  keeps_tracker cb
  /\ exists b st',
       ErrorHandler.handleError (PlainError "fetch failed")
         (mkPartial (Some "en") None None None None) (Some cb) fresh_runtime
       = (Return b, st')
       /\ ErrorTracker.recoveryAttemptCount (errorTracker st') = 1.
Proof.
  intros cb.
  assert (H : keeps_tracker cb) by (intros s st0; reflexivity).
  split; [exact H|].
  destruct (proj1 (@handleError_accounting (PlainError "fetch failed")
                     (mkPartial (Some "en") None None None None) cb fresh_runtime H))
    as (b & st' & A & B).
  exists b, st'. split; [exact A|]. now rewrite B.
Defined.

(* ================================================================== *)
(** * Keys of the cache tiers and of the in-flight map                 *)
(* ================================================================== *)

(** [s] has no colon in it. *)
Fixpoint colon_free (s : string) : bool :=
  match s with
  | EmptyString => true
  | String c rest => negb (Ascii.eqb c ":") && colon_free rest
  end.

Lemma colon_join_inj (l1 l2 s1 s2 : string) :
  colon_free l1 = true -> colon_free l2 = true ->
  (l1 ++ ":" ++ s1)%string = (l2 ++ ":" ++ s2)%string ->
  l1 = l2 /\ s1 = s2.
Proof.
  revert l2. induction l1 as [|c l1 IH]; intros l2 H1 H2 E.
  - destruct l2 as [|c2 l2]; cbn in E.
    + injection E as ->. now split.
    + injection E as <- E. cbn in H2. discriminate.
  - destruct l2 as [|c2 l2]; cbn in E.
    + injection E as -> E. cbn in H1. discriminate.
    + injection E as <- E. cbn in H1, H2.
      apply andb_true_iff in H1. apply andb_true_iff in H2.
      destruct (IH l2 (proj2 H1) (proj2 H2) E) as [-> ->]. now split.
Qed.

Lemma colon_free_no_join (l l2 s : string) :
  colon_free l = true -> l <> (l2 ++ ":" ++ s)%string.
Proof.
  revert l. induction l2 as [|c l2 IH]; intros l H E.
  - subst l. cbn in H. discriminate.
  - destruct l as [|c' l]; [discriminate|]. cbn in E. injection E as -> E.
    cbn in H. apply andb_true_iff in H. exact (IH l (proj2 H) E).
Qed.

Lemma prepend_inj (p a b : string) : (p ++ a)%string = (p ++ b)%string -> a = b.
Proof. induction p as [|c p IH]; cbn; [easy|]. intros [= E]. now apply IH. Qed.

(** X7.  For locale codes without a colon, different targets never
    share a key: the keys of the locale, the section and the key tier
    each determine the locale and the section or translation key they were
    built from, and the key of the in-flight map determines the locale and
    the section asked for (an empty section counting as none).  So an
    entry or a pending load of one target is never taken for another's. *)
Theorem keys_identify_targets :
  forall (l1 l2 : Locale),
    colon_free l1 = true ->
    colon_free l2 = true ->
    (TranslationCacheManager.localeKey l1 = TranslationCacheManager.localeKey l2 ->
     l1 = l2)
    /\ (forall s1 s2,
          TranslationCacheManager.sectionKey l1 s1
          = TranslationCacheManager.sectionKey l2 s2 ->
          l1 = l2 /\ s1 = s2)
    /\ (forall k1 k2,
          TranslationCacheManager.keyKey l1 k1 = TranslationCacheManager.keyKey l2 k2 ->
          l1 = l2 /\ k1 = k2)
    /\ (forall o1 o2,
          dedupKey l1 o1 = dedupKey l2 o2 ->
          l1 = l2 /\ opt_truthy o1 = opt_truthy o2).
Proof.
  intros l1 l2 H1 H2. split; [|split; [|split]].
  - unfold TranslationCacheManager.localeKey. apply prepend_inj.
  - intros s1 s2. unfold TranslationCacheManager.sectionKey. intros E.
    apply prepend_inj in E. now apply colon_join_inj.
  - intros k1 k2. unfold TranslationCacheManager.keyKey. intros E.
    apply prepend_inj in E. now apply colon_join_inj.
  - intros o1 o2. unfold dedupKey.
    destruct (opt_truthy o1) as [s1|]; destruct (opt_truthy o2) as [s2|]; intros E.
    + destruct (colon_join_inj _ _ _ _ H1 H2 E) as [-> ->]. now split.
    + symmetry in E. now apply colon_free_no_join in E.
    + now apply colon_free_no_join in E.
    + now split.
Qed.

Lemma keys_identify_targets_witness :
  colon_free "en" = true
  /\ colon_free "vi" = true
  /\ (forall s1 s2,
        TranslationCacheManager.sectionKey "en" s1
        = TranslationCacheManager.sectionKey "vi" s2 ->
        "en" = "vi" /\ s1 = s2).
Proof.
  assert (H1 : colon_free "en" = true) by reflexivity.
  assert (H2 : colon_free "vi" = true) by reflexivity.
  split; [exact H1|]. split; [exact H2|].
  exact (proj1 (proj2 (@keys_identify_targets "en" "vi" H1 H2))).
Defined.

(** Without that proviso two targets can meet on one key. *)
Example keys_collide_on_colons :
  TranslationCacheManager.sectionKey "en:a" "b"
  = TranslationCacheManager.sectionKey "en" "a:b"
  /\ dedupKey "en:a" None = dedupKey "en" (Some "a").
Proof. split; reflexivity. Qed.

(* ================================================================== *)
(** * state.ts : loaded locales, loading state, initial locale         *)
(* ================================================================== *)

(** [LoadingState] of types.ts. *)
Record LoadingState := mkLoadingState {
  isLoading : bool;
  loadingLocales : list Locale;
  loadingSections : list string;
  loadingModules : list string
}.

(** [LoadingContext] of types.ts.  Callers add an [operation] name, which
    nothing reads. *)
Record LoadingContext := mkLoadingContext {
  lc_locale : Locale;
  lc_section : option Section_;
  lc_module : option string;
  lc_timestamp : Z
}.

(** [LoadingResult] of types.ts; [data] and [error] are carried to the
    observers only. *)
Record LoadingResult := mkLoadingResult {
  lr_success : bool;
  lr_loadTime : Z;
  lr_fromCache : bool
}.

(** The members of [I18nStateManager] that deal with the loaded locales,
    the loading state and the initial locale.  The state is that of
    [I18nStateManager.t] together with [loadingState]. *)
Module StateManager.
Record t := mk {
  manager : I18nStateManager.t;
  loadingState : LoadingState
}.

Definition new (config : I18nConfig) (storage : option (JsMap string)) : t :=
  {| manager := I18nStateManager.new config storage;
     loadingState := mkLoadingState false [] [] [] |}.

Definition with_manager (f : I18nStateManager.t -> I18nStateManager.t) (s : t) : t :=
  {| manager := f (manager s); loadingState := loadingState s |}.

Definition with_loading (f : LoadingState -> LoadingState) (s : t) : t :=
  {| manager := manager s; loadingState := f (loadingState s) |}.

(** Runs a member of [I18nStateManager.t] on the larger state. *)
Definition lift (A : Type) (c : M I18nStateManager.t A) : M t A :=
  fun s =>
    let (r, m) := c (manager s) in
    (r, {| manager := m; loadingState := loadingState s |}).

Definition set_loadedLocales (ls : list Locale) (m : I18nStateManager.t)
  : I18nStateManager.t :=
  {| I18nStateManager.currentLocale := I18nStateManager.currentLocale m;
     I18nStateManager.fallbackLocale_ := I18nStateManager.fallbackLocale_ m;
     I18nStateManager.supported := I18nStateManager.supported m;
     I18nStateManager.loadedLocales := ls;
     I18nStateManager.observers := I18nStateManager.observers m;
     I18nStateManager.notifications := I18nStateManager.notifications m;
     I18nStateManager.localStorage := I18nStateManager.localStorage m |}.

(** [a.includes(x)] on an array of strings. *)
Definition array_includes (x : string) (a : list string) : bool :=
  existsb (String.eqb x) a.

(** [a.filter(y => y !== x)]. *)
Definition array_without (x : string) (a : list string) : list string :=
  filter (fun y => negb (String.eqb y x)) a.

(** [if (!a.includes(x)) a = [...a, x]]. *)
Definition array_add (x : string) (a : list string) : list string :=
  if array_includes x a then a else (a ++ [x])%list.

Definition isLocaleLoaded (locale : Locale) (s : t) : bool :=
  array_includes locale (I18nStateManager.loadedLocales (manager s)).

Definition addLoadedLocale (locale : Locale) (s : t) : t :=
  with_manager
    (fun m => set_loadedLocales (array_add locale (I18nStateManager.loadedLocales m)) m)
    s.

Definition removeLoadedLocale (locale : Locale) (s : t) : t :=
  with_manager
    (fun m =>
       set_loadedLocales (array_without locale (I18nStateManager.loadedLocales m)) m)
    s.

Definition setLoading (b : bool) (s : t) : t :=
  with_loading
    (fun l => mkLoadingState b (loadingLocales l) (loadingSections l)
                (loadingModules l)) s.

Definition addLoadingLocale (locale : Locale) (s : t) : t :=
  with_loading
    (fun l => mkLoadingState (isLoading l) (array_add locale (loadingLocales l))
                (loadingSections l) (loadingModules l)) s.

Definition removeLoadingLocale (locale : Locale) (s : t) : t :=
  with_loading
    (fun l => mkLoadingState (isLoading l) (array_without locale (loadingLocales l))
                (loadingSections l) (loadingModules l)) s.

Definition addLoadingSection (section : string) (s : t) : t :=
  with_loading
    (fun l => mkLoadingState (isLoading l) (loadingLocales l)
                (array_add section (loadingSections l)) (loadingModules l)) s.

Definition removeLoadingSection (section : string) (s : t) : t :=
  with_loading
    (fun l => mkLoadingState (isLoading l) (loadingLocales l)
                (array_without section (loadingSections l)) (loadingModules l)) s.

Definition addLoadingModule (module : string) (s : t) : t :=
  with_loading
    (fun l => mkLoadingState (isLoading l) (loadingLocales l) (loadingSections l)
                (array_add module (loadingModules l))) s.

Definition removeLoadingModule (module : string) (s : t) : t :=
  with_loading
    (fun l => mkLoadingState (isLoading l) (loadingLocales l) (loadingSections l)
                (array_without module (loadingModules l))) s.

(** [if (x) f(x)] for an optional string member. *)
Definition when_truthy (o : option string) (f : string -> t -> t) (s : t) : t :=
  match opt_truthy o with Some x => f x s | None => s end.

(** The observers are told the locale of the context; the log keeps that
    much of the argument. *)
Definition notify (method : string) (context : LoadingContext) (s : t) : t :=
  with_manager
    (fun m => snd (I18nStateManager.notifyObservers method (lc_locale context) m)) s.

Definition startLoading (context : LoadingContext) (s : t) : t :=
  let s1 := setLoading true s in
  let s2 := when_truthy (Some (lc_locale context)) addLoadingLocale s1 in
  let s3 := when_truthy (lc_section context) addLoadingSection s2 in
  let s4 := when_truthy (lc_module context) addLoadingModule s3 in
  notify "onLoadingStart" context s4.

Definition nothing_loading (l : LoadingState) : bool :=
  match loadingLocales l, loadingSections l, loadingModules l with
  | [], [], [] => true
  | _, _, _ => false
  end.

Definition completeLoading (context : LoadingContext) (result : LoadingResult)
    (s : t) : t :=
  let s1 := when_truthy (Some (lc_locale context)) removeLoadingLocale s in
  let s2 := when_truthy (lc_section context) removeLoadingSection s1 in
  let s3 := when_truthy (lc_module context) removeLoadingModule s2 in
  let s4 := if nothing_loading (loadingState s3) then setLoading false s3 else s3 in
  notify "onLoadingComplete" context s4.

(** The [try] body cannot throw in this model ([localStorage.getItem] is
    a lookup), so the [catch] branch, which gives the default locale as
    well, is not reached. *)
Definition getInitialLocale (config : I18nConfig) (s : t) : Locale :=
  match I18nStateManager.localStorage (manager s) with
  | Some items =>
      match map_get "preferred-locale" items with
      | Some saved =>
          if truthy saved && I18nStateManager.isLocaleSupported saved (manager s)
          then saved
          else defaultLocale config
      | None => defaultLocale config
      end
  | None => defaultLocale config
  end.

Definition setCurrentLocale (locale : Locale) : M t unit :=
  lift (I18nStateManager.setCurrentLocale locale).
End StateManager.

Lemma array_includes_add x y a :
  StateManager.array_includes x (StateManager.array_add y a)
  = String.eqb x y || StateManager.array_includes x a.
Proof.
  unfold StateManager.array_add.
  destruct (StateManager.array_includes y a) eqn:E.
  - destruct (String.eqb x y) eqn:X; [|reflexivity].
    apply String.eqb_eq in X. subst. now rewrite E.
  - unfold StateManager.array_includes. rewrite existsb_app. cbn.
    rewrite orb_false_r. apply orb_comm.
Qed.

Lemma array_includes_without x y a :
  StateManager.array_includes x (StateManager.array_without y a)
  = negb (String.eqb x y) && StateManager.array_includes x a.
Proof.
  unfold StateManager.array_includes, StateManager.array_without.
  induction a as [|z a IH]; cbn; [now rewrite andb_false_r|].
  destruct (String.eqb z y) eqn:Z; cbn.
  - apply String.eqb_eq in Z. subst z. rewrite IH.
    destruct (String.eqb x y); reflexivity.
  - rewrite IH. destruct (String.eqb x z) eqn:X; cbn.
    + apply String.eqb_eq in X. subst z. rewrite Z. reflexivity.
    + reflexivity.
Qed.

Lemma array_without_fresh x a :
  StateManager.array_includes x a = false ->
  StateManager.array_without x (a ++ [x]) = a.
Proof.
  unfold StateManager.array_includes, StateManager.array_without.
  induction a as [|y a IH]; cbn.
  - now rewrite String.eqb_refl.
  - intros H. apply orb_false_iff in H. destruct H as [H1 H2].
    rewrite String.eqb_sym, H1. cbn. now rewrite IH.
Qed.

Lemma array_without_add x a :
  StateManager.array_includes x a = false ->
  StateManager.array_without x (StateManager.array_add x a) = a.
Proof.
  intros H. unfold StateManager.array_add. rewrite H.
  now apply array_without_fresh.
Qed.

(** X20.  The loaded locales behave as a set kept in insertion order:
    after [addLoadedLocale l] the locale is loaded and no other locale's
    status has changed, adding it again changes nothing, and the list
    grows by one exactly when the locale was not loaded before; after
    [removeLoadedLocale l] the locale is not loaded, and no other
    locale's status has changed. *)
Theorem loaded_locales_are_a_set :
  forall (s : StateManager.t) (l l' : Locale),
    StateManager.isLocaleLoaded l' (StateManager.addLoadedLocale l s)
    = (String.eqb l' l || StateManager.isLocaleLoaded l' s)
    /\ StateManager.isLocaleLoaded l' (StateManager.removeLoadedLocale l s)
       = (negb (String.eqb l' l) && StateManager.isLocaleLoaded l' s)
    /\ StateManager.addLoadedLocale l (StateManager.addLoadedLocale l s)
       = StateManager.addLoadedLocale l s
    /\ List.length
         (I18nStateManager.loadedLocales
            (StateManager.manager (StateManager.addLoadedLocale l s)))
       = (List.length (I18nStateManager.loadedLocales (StateManager.manager s))
          + (if StateManager.isLocaleLoaded l s then 0 else 1))%nat.
Proof.
  intros s l l'.
  unfold StateManager.isLocaleLoaded, StateManager.addLoadedLocale,
    StateManager.removeLoadedLocale, StateManager.with_manager,
    StateManager.set_loadedLocales.
  cbn [StateManager.manager I18nStateManager.loadedLocales].
  split; [apply array_includes_add|]. split; [apply array_includes_without|].
  split.
  - f_equal. f_equal.
    + unfold StateManager.array_add at 1. now rewrite array_includes_add, String.eqb_refl.
  - unfold StateManager.array_add.
    destruct (StateManager.array_includes l _); [lia|].
    rewrite length_app. reflexivity.
Qed.

(* ================================================================== *)
(** * state.ts : the saved preference                                  *)
(* ================================================================== *)

Lemma setCurrentLocale_supported locale (m : I18nStateManager.t) :
  I18nStateManager.isLocaleSupported locale m = true ->
  I18nStateManager.setCurrentLocale locale m
  = (Return tt,
     I18nStateManager.mk locale (I18nStateManager.fallbackLocale_ m)
       (I18nStateManager.supported m) (I18nStateManager.loadedLocales m)
       (I18nStateManager.observers m)
       (I18nStateManager.notifications m
          ++ List.map (fun o => mkNotification (obs_name o) "onLocaleChange" locale)
               (filter (fun o => existsb (String.eqb "onLocaleChange") (obs_methods o))
                  (I18nStateManager.observers m)))%list
       (match I18nStateManager.localStorage m with
        | Some items => Some (map_set "preferred-locale" locale items)
        | None => None
        end)).
Proof.
  intros H. unfold I18nStateManager.setCurrentLocale.
  unfold bind at 1. cbn [gets]. rewrite H. reflexivity.
Qed.

(** X21.  The locale choice survives a restart.  After a successful
    [setCurrentLocale l], [getInitialLocale] gives [l] where
    [localStorage] is available ([l] being a non-empty string), and the
    configured default locale where it is not.  Whatever the storage
    holds, [getInitialLocale] gives a saved value only if it is a
    supported locale, and the default locale otherwise; so, the default
    locale being supported, the [setCurrentLocale] made with it at start-up
    never throws. *)
Theorem saved_locale_roundtrip :
  forall (config : I18nConfig) (s : StateManager.t) (l : Locale),
    (I18nStateManager.isLocaleSupported l (StateManager.manager s) = true ->
     truthy l = true ->
     exists s',
       StateManager.setCurrentLocale l s = (Return tt, s')
       /\ I18nStateManager.currentLocale (StateManager.manager s') = l
       /\ StateManager.getInitialLocale config s'
          = match I18nStateManager.localStorage (StateManager.manager s) with
            | Some _ => l
            | None => defaultLocale config
            end)
    /\ (StateManager.getInitialLocale config s = defaultLocale config
        \/ I18nStateManager.isLocaleSupported
             (StateManager.getInitialLocale config s) (StateManager.manager s) = true)
    /\ (I18nStateManager.isLocaleSupported (defaultLocale config)
          (StateManager.manager s) = true ->
        fst (StateManager.setCurrentLocale (StateManager.getInitialLocale config s) s)
        = Return tt).
Proof.
  intros config s l.
  assert (Hinit : StateManager.getInitialLocale config s = defaultLocale config
                  \/ I18nStateManager.isLocaleSupported
                       (StateManager.getInitialLocale config s)
                       (StateManager.manager s) = true).
  { unfold StateManager.getInitialLocale.
    destruct (I18nStateManager.localStorage (StateManager.manager s)) as [items|];
      [|now left].
    destruct (map_get "preferred-locale" items) as [saved|]; [|now left].
    destruct (truthy saved); cbn [andb]; [|now left].
    destruct (I18nStateManager.isLocaleSupported saved (StateManager.manager s)) eqn:E;
      [now right | now left]. }
  split; [|split; [exact Hinit|]].
  - intros Hsup Hl. unfold StateManager.setCurrentLocale, StateManager.lift.
    rewrite (setCurrentLocale_supported l (StateManager.manager s) Hsup).
    eexists. split; [reflexivity|].
    cbn [StateManager.manager I18nStateManager.currentLocale].
    split; [reflexivity|].
    unfold StateManager.getInitialLocale.
    cbn [StateManager.manager I18nStateManager.localStorage].
    destruct (I18nStateManager.localStorage (StateManager.manager s)) as [items|];
      [|reflexivity].
    rewrite map_get_set_eq, Hl. cbn [andb].
    unfold I18nStateManager.isLocaleSupported in *.
    cbn [I18nStateManager.supported]. now rewrite Hsup.
  - intros Hdef. unfold StateManager.setCurrentLocale, StateManager.lift.
    assert (Hsup : I18nStateManager.isLocaleSupported
                     (StateManager.getInitialLocale config s)
                     (StateManager.manager s) = true)
      by (destruct Hinit as [->|H]; assumption).
    now rewrite (setCurrentLocale_supported _ (StateManager.manager s) Hsup).
Qed.

Lemma saved_locale_roundtrip_witness :
  let s := StateManager.new (I18N_CONFIG false) (Some [("preferred-locale", "fr")]) in
  I18nStateManager.isLocaleSupported "en" (StateManager.manager s) = true
  /\ truthy "en" = true
  /\ I18nStateManager.isLocaleSupported (defaultLocale (I18N_CONFIG false))
       (StateManager.manager s) = true
  /\ StateManager.getInitialLocale (I18N_CONFIG false) s = "vi"
  /\ (exists s',
        StateManager.setCurrentLocale "en" s = (Return tt, s')
        /\ StateManager.getInitialLocale (I18N_CONFIG false) s' = "en")
  /\ fst (StateManager.setCurrentLocale
            (StateManager.getInitialLocale (I18N_CONFIG false) s) s)
     = Return tt.
Proof.
  intros s.
  assert (H1 : I18nStateManager.isLocaleSupported "en" (StateManager.manager s) = true)
    by reflexivity.
  assert (H2 : truthy "en" = true) by reflexivity.
  assert (H3 : I18nStateManager.isLocaleSupported (defaultLocale (I18N_CONFIG false))
                 (StateManager.manager s) = true) by reflexivity.
  split; [exact H1|]. split; [exact H2|]. split; [exact H3|].
  split; [reflexivity|].
  destruct (saved_locale_roundtrip (I18N_CONFIG false) s "en") as (A & _ & C).
  split.
  - destruct (A H1 H2) as (s' & R & _ & G). exists s'. split; [exact R | exact G].
  - exact (C H3).
Defined.

(* ================================================================== *)
(** * state.ts : the loading state                                     *)
(* ================================================================== *)

(** The names a context adds to the loading lists are not in them. *)
Definition not_loading (context : LoadingContext) (l : LoadingState) : Prop :=
  StateManager.array_includes (lc_locale context) (loadingLocales l) = false
  /\ match opt_truthy (lc_section context) with
     | Some x => StateManager.array_includes x (loadingSections l) = false
     | None => True
     end
  /\ match opt_truthy (lc_module context) with
     | Some x => StateManager.array_includes x (loadingModules l) = false
     | None => True
     end.

Lemma array_without_absent x a :
  StateManager.array_includes x a = false -> StateManager.array_without x a = a.
Proof.
  unfold StateManager.array_includes, StateManager.array_without.
  induction a as [|y a IH]; cbn; [reflexivity|].
  intros H. apply orb_false_iff in H. destruct H as [H1 H2].
  rewrite String.eqb_sym, H1. cbn. now rewrite IH.
Qed.

Definition add_when (o : option string) (a : list string) : list string :=
  match opt_truthy o with Some x => StateManager.array_add x a | None => a end.

Definition drop_when (o : option string) (a : list string) : list string :=
  match opt_truthy o with Some x => StateManager.array_without x a | None => a end.

Lemma startLoading_state context s :
  StateManager.loadingState (StateManager.startLoading context s)
  = mkLoadingState true
      (add_when (Some (lc_locale context))
         (loadingLocales (StateManager.loadingState s)))
      (add_when (lc_section context) (loadingSections (StateManager.loadingState s)))
      (add_when (lc_module context) (loadingModules (StateManager.loadingState s))).
Proof.
  unfold StateManager.startLoading, StateManager.notify, StateManager.when_truthy,
    add_when.
  destruct (opt_truthy (Some (lc_locale context)));
    destruct (opt_truthy (lc_section context));
    destruct (opt_truthy (lc_module context)); reflexivity.
Qed.

Lemma completeLoading_state context result s :
  let l := StateManager.loadingState s in
  let locales := drop_when (Some (lc_locale context)) (loadingLocales l) in
  let sections := drop_when (lc_section context) (loadingSections l) in
  let modules := drop_when (lc_module context) (loadingModules l) in
  StateManager.loadingState (StateManager.completeLoading context result s)
  = mkLoadingState
      (if StateManager.nothing_loading (mkLoadingState (isLoading l) locales sections modules)
       then false else isLoading l)
      locales sections modules.
Proof.
  cbv zeta.
  unfold StateManager.completeLoading, StateManager.notify, StateManager.when_truthy,
    drop_when.
  destruct (opt_truthy (Some (lc_locale context)));
    destruct (opt_truthy (lc_section context));
    destruct (opt_truthy (lc_module context));
    cbn [StateManager.loadingState StateManager.removeLoadingLocale
         StateManager.removeLoadingSection StateManager.removeLoadingModule
         StateManager.with_loading loadingLocales loadingSections loadingModules
         isLoading];
    match goal with
    | |- context [StateManager.nothing_loading ?x] =>
        destruct (StateManager.nothing_loading x) eqn:E
    end;
    unfold StateManager.nothing_loading in *;
    cbn [loadingLocales loadingSections loadingModules] in *;
    rewrite ?E; try reflexivity; now destruct s as [m []].
Qed.

Lemma drop_add_when o a :
  match opt_truthy o with
  | Some x => StateManager.array_includes x a = false
  | None => True
  end ->
  drop_when o (add_when o a) = a /\ add_when o (add_when o a) = add_when o a.
Proof.
  unfold drop_when, add_when. destruct (opt_truthy o) as [x|]; [|now split].
  intros H. split; [now apply array_without_add|].
  unfold StateManager.array_add at 1.
  now rewrite array_includes_add, String.eqb_refl.
Qed.

(** X22.  [startLoading] raises the loading flag and lists the names of
    its context: afterwards each of the three lists holds what it held
    before and, when it is a non-empty string, the locale, section or
    module of the context.  A [completeLoading] with the same context, when those
    names were not being loaded before, puts the three lists back as they
    were, and lowers the flag exactly when they are then empty.  The
    lists are sets, not counters: when the same context is started twice,
    the first completion already takes its names off the lists, and
    lowers the flag if nothing else is listed, although the second load
    is still under way. *)
Theorem loading_state_balance :
  forall (s : StateManager.t) (context : LoadingContext) (result : LoadingResult),
    let before := StateManager.loadingState s in
    let started := StateManager.startLoading context s in
    let named (o : option string) (x : string) :=
      match opt_truthy o with Some y => String.eqb x y | None => false end in
    isLoading (StateManager.loadingState started) = true
    /\ (forall x,
          StateManager.array_includes x
            (loadingLocales (StateManager.loadingState started))
          = named (Some (lc_locale context)) x
            || StateManager.array_includes x (loadingLocales before))
    /\ (forall x,
          StateManager.array_includes x
            (loadingSections (StateManager.loadingState started))
          = named (lc_section context) x
            || StateManager.array_includes x (loadingSections before))
    /\ (forall x,
          StateManager.array_includes x
            (loadingModules (StateManager.loadingState started))
          = named (lc_module context) x
            || StateManager.array_includes x (loadingModules before))
    /\ (not_loading context before ->
        let once := StateManager.completeLoading context result started in
        let twice :=
          StateManager.completeLoading context result
            (StateManager.startLoading context started) in
        StateManager.loadingState once
        = mkLoadingState
            (if StateManager.nothing_loading before then false else true)
            (loadingLocales before) (loadingSections before) (loadingModules before)
        /\ StateManager.loadingState twice = StateManager.loadingState once).
Proof.
  intros s context result before started named. subst started.
  assert (Hadd : forall o a x,
            StateManager.array_includes x (add_when o a)
            = named o x || StateManager.array_includes x a).
  { intros o a x. unfold add_when, named.
    destruct (opt_truthy o) as [y|]; [|reflexivity].
    apply array_includes_add. }
  split; [now rewrite startLoading_state|].
  split; [intros x; rewrite startLoading_state; apply Hadd|].
  split; [intros x; rewrite startLoading_state; apply Hadd|].
  split; [intros x; rewrite startLoading_state; apply Hadd|].
  intros (Hl & Hs & Hm). cbv zeta.
  assert (Hl' : match opt_truthy (Some (lc_locale context)) with
                | Some x => StateManager.array_includes x (loadingLocales before) = false
                | None => True
                end).
  { cbn [opt_truthy]. now destruct (truthy (lc_locale context)). }
  destruct (drop_add_when _ _ Hl') as [L1 L2].
  destruct (drop_add_when _ _ Hs) as [S1 S2].
  destruct (drop_add_when _ _ Hm) as [M1 M2].
  rewrite !completeLoading_state. cbv zeta.
  rewrite !startLoading_state.
  cbn [isLoading loadingLocales loadingSections loadingModules].
  fold before. rewrite L2, S2, M2, L1, S1, M1.
  unfold StateManager.nothing_loading.
  cbn [loadingLocales loadingSections loadingModules].
  split; reflexivity.
Qed.

Lemma loading_state_balance_witness :
  let s := StateManager.new (I18N_CONFIG false) None in
  let context := mkLoadingContext "en" None None 0 in
  let result := mkLoadingResult true 12 false in
  not_loading context (StateManager.loadingState s)
  /\ StateManager.loadingState
       (StateManager.completeLoading context result
          (StateManager.startLoading context (StateManager.startLoading context s)))
     = mkLoadingState false [] [] [].
Proof.
  intros s context result.
  assert (H : not_loading context (StateManager.loadingState s))
    by (repeat split).
  split; [exact H|].
  destruct (loading_state_balance s context result) as (_ & _ & _ & _ & Hbal).
  destruct (Hbal H) as [A B].
  cbv zeta in B. rewrite B. exact A.
Defined.

(* ================================================================== *)
(** * loader.ts : IntelligentLoadingStrategy                           *)
(* ================================================================== *)

(** [LoadingMetrics] of types.ts. *)
Record LoadingMetrics := mkLoadingMetrics {
  lm_totalRequests : Z;
  lm_cacheHits : Z;
  lm_cacheMisses : Z;
  lm_loadTimes : list Z;
  lm_errors : Z;
  lm_retries : Z
}.

(** [PerformanceMetrics] of types.ts. *)
Record PerformanceMetrics := mkPerformanceMetrics {
  pm_averageLoadTime : Q;
  pm_cacheHitRate : Q;
  pm_errorRate : Q;
  pm_memoryUsage : Z;
  pm_networkRequests : Z
}.

Module IntelligentLoadingStrategy.
(** The strategy object: the runtime it shares with the module loader
    (cache manager, error handler, requests), and its own metrics. *)
Record t := mk {
  sys : Sys;
  metrics : LoadingMetrics
}.

Definition new (st : Sys) : t :=
  {| sys := st; metrics := mkLoadingMetrics 0 0 0 [] 0 0 |}.

Definition lift (A : Type) (c : M Sys A) : M t A :=
  fun s => let (r, st) := c (sys s) in (r, {| sys := st; metrics := metrics s |}).

Definition update (f : LoadingMetrics -> LoadingMetrics) : M t unit :=
  modify (fun s => {| sys := sys s; metrics := f (metrics s) |}).

Definition count_request (m : LoadingMetrics) : LoadingMetrics :=
  mkLoadingMetrics (lm_totalRequests m + 1) (lm_cacheHits m) (lm_cacheMisses m)
    (lm_loadTimes m) (lm_errors m) (lm_retries m).
Definition count_hit (m : LoadingMetrics) : LoadingMetrics :=
  mkLoadingMetrics (lm_totalRequests m) (lm_cacheHits m + 1) (lm_cacheMisses m)
    (lm_loadTimes m) (lm_errors m) (lm_retries m).
Definition count_miss (m : LoadingMetrics) : LoadingMetrics :=
  mkLoadingMetrics (lm_totalRequests m) (lm_cacheHits m) (lm_cacheMisses m + 1)
    (lm_loadTimes m) (lm_errors m) (lm_retries m).
Definition push_loadTime (x : Z) (m : LoadingMetrics) : LoadingMetrics :=
  mkLoadingMetrics (lm_totalRequests m) (lm_cacheHits m) (lm_cacheMisses m)
    (lm_loadTimes m ++ [x]) (lm_errors m) (lm_retries m).
Definition count_error (m : LoadingMetrics) : LoadingMetrics :=
  mkLoadingMetrics (lm_totalRequests m) (lm_cacheHits m) (lm_cacheMisses m)
    (lm_loadTimes m) (lm_errors m + 1) (lm_retries m).

Section Strategy.
Variable config : I18nConfig.
Variable net : Network.
(** [performance.now()] is [Date.now()] less the time origin. *)
Variable timeOrigin : Z.

Definition performance_now : M t Z := gets (fun s => clock (sys s) - timeOrigin).

Definition fallback_message (locale : Locale) (section : option Section_) : string :=
  ("Fallback loading failed for locale '" ++ locale ++ "'"
     ++ match opt_truthy section with
        | Some s => " section '" ++ s ++ "'"
        | None => ""
        end)%string.

Definition loadFallback (locale : Locale) (section : option Section_)
  : M Sys JsValue :=
  try_catch (load config net locale section)
    (fun error =>
       now <- gets clock ;;
       throw (TranslationLoadError now locale (fallback_message locale section)
                (Some error))).

(** The recovery callback built in [load]; the promise of [loadFallback]
    resolves to a [TranslationData] object, which is truthy. *)
Definition load_recovery (section : option Section_) : Callback :=
  fun strategy =>
    match strategy_type strategy, opt_truthy (fallbackLocale strategy) with
    | Fallback, Some l => loadFallback l section ;;; ret true
    | _, _ => ret false
    end.

(** [section ? getSectionCache(locale, section) : getLocaleCache(locale)]. *)
Definition cache_lookup (locale : Locale) (section : option Section_)
  : M Sys (option CacheEntryImpl.t) :=
  fun st => let (r, st1) := lookup_cache locale section st in (Return r, st1).

(** The [try] block of [load]. *)
Definition load_try (startTime : Z) (locale : Locale) (section : option Section_)
  : M t JsValue :=
  cached <- lift (cache_lookup locale section) ;;
  match cached with
  | Some entry => update count_hit ;;; ret (CacheEntryImpl.data entry)
  | None =>
      update count_miss ;;;
      d <- lift (load config net locale section) ;;
      now <- performance_now ;;
      update (push_loadTime (now - startTime)) ;;;
      ret d
  end.

(** The [catch] block of [load]. *)
Definition load_catch (locale : Locale) (section : option Section_)
    (error : JsError) : M t JsValue :=
  update count_error ;;;
  recoverySuccess <-
    lift (ErrorHandler.handleError error
            (mkPartial (Some locale) None section None (Some "load_locale"))
            (Some (load_recovery section))) ;;
  if recoverySuccess : bool then
    lift (loadFallback (cfg_fallbackLocale config) section)
  else throw error.

Definition load (locale : Locale) (section : option Section_) : M t JsValue :=
  startTime <- performance_now ;;
  update count_request ;;;
  try_catch (load_try startTime locale section) (load_catch locale section).

Definition canLoad (locale : Locale) : bool :=
  existsb (String.eqb locale) (supportedLocales config).

Definition getMetrics (s : t) : LoadingMetrics := metrics s.

Definition resetMetrics (s : t) : t :=
  {| sys := sys s; metrics := mkLoadingMetrics 0 0 0 [] 0 0 |}.

(** [JSON.stringify(data).length], for [getStats()]. *)
Variable json_length : JsValue -> Z.

Definition getPerformanceMetrics (s : t) : PerformanceMetrics :=
  let m := metrics s in
  {| pm_averageLoadTime :=
       if (0 <? Z.of_nat (List.length (lm_loadTimes m)))
       then (inject_Z (fold_left Z.add (lm_loadTimes m) 0%Z)
             / inject_Z (Z.of_nat (List.length (lm_loadTimes m))))%Q
       else 0%Q;
     pm_cacheHitRate :=
       if 0 <? lm_totalRequests m
       then (inject_Z (lm_cacheHits m) / inject_Z (lm_totalRequests m))%Q
       else 0%Q;
     pm_errorRate :=
       if 0 <? lm_totalRequests m
       then (inject_Z (lm_errors m) / inject_Z (lm_totalRequests m))%Q
       else 0%Q;
     pm_memoryUsage :=
       total_memoryUsage
         (stats_total (manager_getStats json_length (cacheManager (sys s))));
     pm_networkRequests := lm_totalRequests m - lm_cacheHits m |}.
End Strategy.
End IntelligentLoadingStrategy.

(** The requests made of a strategy one after the other: each at its
    clock reading, run to its end, its result dropped. *)
Fixpoint strategy_run (config : I18nConfig) (net : Network) (timeOrigin : Z)
    (requests : list (Z * Locale * option Section_))
    (s : IntelligentLoadingStrategy.t) : IntelligentLoadingStrategy.t :=
  match requests with
  | [] => s
  | (t, locale, section) :: rest =>
      let s1 := IntelligentLoadingStrategy.mk
                  (set_clock t (IntelligentLoadingStrategy.sys s))
                  (IntelligentLoadingStrategy.metrics s) in
      strategy_run config net timeOrigin rest
        (snd (IntelligentLoadingStrategy.load config net timeOrigin locale section s1))
  end.

(** The books balance: every request is a hit or a miss, and every miss
    ends in a recorded load time or in a counted error. *)
Definition metrics_balanced (m : LoadingMetrics) : Prop :=
  lm_totalRequests m = lm_cacheHits m + lm_cacheMisses m
  /\ lm_cacheMisses m = Z.of_nat (List.length (lm_loadTimes m)) + lm_errors m
  /\ 0 <= lm_cacheHits m /\ 0 <= lm_errors m.

Lemma lift_metrics (A : Type) (c : M Sys A) s :
  IntelligentLoadingStrategy.metrics (snd (IntelligentLoadingStrategy.lift c s))
  = IntelligentLoadingStrategy.metrics s.
Proof.
  unfold IntelligentLoadingStrategy.lift.
  now destruct (c (IntelligentLoadingStrategy.sys s)).
Qed.

Lemma load_try_metrics config net timeOrigin startTime locale section s :
  let run := IntelligentLoadingStrategy.load_try config net timeOrigin startTime
               locale section s in
  let m := IntelligentLoadingStrategy.metrics s in
  let m' := IntelligentLoadingStrategy.metrics (snd run) in
  match fst run with
  | Return _ =>
      m' = IntelligentLoadingStrategy.count_hit m
      \/ exists x,
           m' = IntelligentLoadingStrategy.push_loadTime x
                  (IntelligentLoadingStrategy.count_miss m)
  | Throw _ => m' = IntelligentLoadingStrategy.count_miss m
  end.
Proof.
  cbv zeta.
  remember (IntelligentLoadingStrategy.load_try config net timeOrigin startTime
              locale section s) as run eqn:Hrun.
  unfold IntelligentLoadingStrategy.load_try in Hrun.
  unfold bind at 1 in Hrun.
  pose proof (lift_metrics (IntelligentLoadingStrategy.cache_lookup locale section) s)
    as H0.
  destruct (IntelligentLoadingStrategy.lift
              (IntelligentLoadingStrategy.cache_lookup locale section) s)
    as [[[entry|]|e] s1] eqn:Elook; cbn [snd] in H0.
  - subst run. left. cbn. now rewrite H0.
  - unfold bind at 1 in Hrun. cbn [IntelligentLoadingStrategy.update modify] in Hrun.
    set (s2 := IntelligentLoadingStrategy.mk _ _) in Hrun.
    unfold bind at 1 in Hrun.
    pose proof (lift_metrics (load config net locale section) s2) as H2.
    destruct (IntelligentLoadingStrategy.lift (load config net locale section) s2)
      as [[d|e] s3]; cbn [snd] in H2.
    + subst run. right. cbn. rewrite H2. subst s2. cbn. rewrite H0.
      eexists. reflexivity.
    + subst run. cbn [fst snd]. rewrite H2. subst s2. cbn. now rewrite H0.
  - exfalso. unfold IntelligentLoadingStrategy.lift,
      IntelligentLoadingStrategy.cache_lookup in Elook.
    destruct (lookup_cache locale section (IntelligentLoadingStrategy.sys s)).
    discriminate.
Qed.

Lemma load_catch_metrics config net locale section error s :
  IntelligentLoadingStrategy.metrics
    (snd (IntelligentLoadingStrategy.load_catch config net locale section error s))
  = IntelligentLoadingStrategy.count_error (IntelligentLoadingStrategy.metrics s).
Proof.
  unfold IntelligentLoadingStrategy.load_catch.
  unfold bind at 1. cbn [IntelligentLoadingStrategy.update modify].
  set (s2 := IntelligentLoadingStrategy.mk _ _).
  unfold bind at 1.
  pose proof (lift_metrics
                (ErrorHandler.handleError error
                   (mkPartial (Some locale) None section None (Some "load_locale"))
                   (Some (IntelligentLoadingStrategy.load_recovery config net section)))
                s2) as H1.
  destruct (IntelligentLoadingStrategy.lift _ s2) as [[b|e] s3]; cbn [snd] in *.
  - destruct b.
    + rewrite lift_metrics, H1. reflexivity.
    + cbn [throw snd]. rewrite H1. reflexivity.
  - rewrite H1. reflexivity.
Qed.

(** What one request does to the metrics. *)
Lemma strategy_load_metrics config net timeOrigin locale section s :
  let m := IntelligentLoadingStrategy.metrics s in
  let m' := IntelligentLoadingStrategy.metrics
              (snd (IntelligentLoadingStrategy.load config net timeOrigin
                      locale section s)) in
  m' = IntelligentLoadingStrategy.count_hit (IntelligentLoadingStrategy.count_request m)
  \/ (exists x,
        m' = IntelligentLoadingStrategy.push_loadTime x
               (IntelligentLoadingStrategy.count_miss
                  (IntelligentLoadingStrategy.count_request m)))
  \/ m' = IntelligentLoadingStrategy.count_error
            (IntelligentLoadingStrategy.count_miss
               (IntelligentLoadingStrategy.count_request m)).
Proof.
  cbv zeta.
  remember (IntelligentLoadingStrategy.load config net timeOrigin locale section s)
    as run eqn:Hrun.
  unfold IntelligentLoadingStrategy.load in Hrun.
  unfold bind at 1 in Hrun.
  cbn [IntelligentLoadingStrategy.performance_now gets] in Hrun.
  unfold bind at 1 in Hrun.
  cbn [IntelligentLoadingStrategy.update modify] in Hrun.
  set (s0 := IntelligentLoadingStrategy.mk _ _) in Hrun.
  set (startTime := clock (IntelligentLoadingStrategy.sys s) - timeOrigin) in Hrun.
  unfold try_catch in Hrun.
  pose proof (load_try_metrics config net timeOrigin startTime locale section s0) as H.
  cbv zeta in H.
  destruct (IntelligentLoadingStrategy.load_try config net timeOrigin startTime
              locale section s0) as [[d|e] s1]; cbn [fst snd] in H; subst run.
  - cbn [snd]. destruct H as [->|[x ->]]; [now left | right; left; now exists x].
  - right. right. rewrite load_catch_metrics, H. reflexivity.
Qed.

Lemma metrics_balanced_load config net timeOrigin locale section s :
  metrics_balanced (IntelligentLoadingStrategy.metrics s) ->
  metrics_balanced
    (IntelligentLoadingStrategy.metrics
       (snd (IntelligentLoadingStrategy.load config net timeOrigin locale section s))).
Proof.
  intros (A & B & C & D).
  destruct (strategy_load_metrics config net timeOrigin locale section s)
    as [->|[[x ->]| ->]];
    unfold metrics_balanced, IntelligentLoadingStrategy.count_hit,
      IntelligentLoadingStrategy.count_miss, IntelligentLoadingStrategy.count_error,
      IntelligentLoadingStrategy.count_request,
      IntelligentLoadingStrategy.push_loadTime;
    cbn [lm_totalRequests lm_cacheHits lm_cacheMisses lm_loadTimes lm_errors];
    rewrite ?length_app; cbn [List.length]; lia.
Qed.

Lemma strategy_run_total config net timeOrigin requests :
  forall s,
    lm_totalRequests
      (IntelligentLoadingStrategy.metrics
         (strategy_run config net timeOrigin requests s))
    = lm_totalRequests (IntelligentLoadingStrategy.metrics s)
      + Z.of_nat (List.length requests)
    /\ (metrics_balanced (IntelligentLoadingStrategy.metrics s) ->
        metrics_balanced
          (IntelligentLoadingStrategy.metrics
             (strategy_run config net timeOrigin requests s))).
Proof.
  induction requests as [|[[t locale] section] rest IH]; intros s.
  - cbn. split; [lia | auto].
  - cbn [strategy_run List.length].
    set (s1 := IntelligentLoadingStrategy.mk _ _).
    destruct (IH (snd (IntelligentLoadingStrategy.load config net timeOrigin
                         locale section s1))) as [IH1 IH2].
    split.
    + rewrite IH1.
      destruct (strategy_load_metrics config net timeOrigin locale section s1)
        as [->|[[x ->]| ->]]; subst s1; cbn; lia.
    + intros Hb. apply IH2. now apply metrics_balanced_load.
Qed.

(** X19.  For a strategy with fresh metrics, after any sequence of
    [load] requests, each run to its end: [totalRequests] is the number
    of requests; each request was counted as exactly one cache hit or one
    cache miss; and each miss ended in exactly one recorded load time or
    one counted error.  So in the performance metrics
    [networkRequests] is the number of misses, and the cache hit rate and
    the error rate lie between 0 and 1 and sum to at most 1. *)
Theorem strategy_metrics_balance :
  forall (config : I18nConfig) (net : Network) (timeOrigin : Z)
         (json_length : JsValue -> Z)
         (requests : list (Z * Locale * option Section_)) (st : Sys),
    let s := strategy_run config net timeOrigin requests
               (IntelligentLoadingStrategy.new st) in
    let m := IntelligentLoadingStrategy.getMetrics s in
    let p := IntelligentLoadingStrategy.getPerformanceMetrics json_length s in
    lm_totalRequests m = Z.of_nat (List.length requests)
    /\ lm_totalRequests m = lm_cacheHits m + lm_cacheMisses m
    /\ lm_cacheMisses m = Z.of_nat (List.length (lm_loadTimes m)) + lm_errors m
    /\ pm_networkRequests p = lm_cacheMisses m
    /\ (0 <= pm_cacheHitRate p)%Q /\ (0 <= pm_errorRate p)%Q
    /\ (pm_cacheHitRate p + pm_errorRate p <= 1)%Q.
Proof.
  intros config net timeOrigin json_length requests st s m p.
  destruct (strategy_run_total config net timeOrigin requests
              (IntelligentLoadingStrategy.new st)) as [Htot Hbal].
  assert (H0 : metrics_balanced
                 (IntelligentLoadingStrategy.metrics (IntelligentLoadingStrategy.new st)))
    by (cbn; unfold metrics_balanced; cbn; lia).
  destruct (Hbal H0) as (A & B & C & D). fold s in Htot, A, B, C, D.
  subst m p. unfold IntelligentLoadingStrategy.getMetrics,
    IntelligentLoadingStrategy.getPerformanceMetrics.
  cbn [pm_networkRequests pm_cacheHitRate pm_errorRate].
  set (m := IntelligentLoadingStrategy.metrics s) in *.
  split; [rewrite Htot; cbn; lia|]. split; [exact A|]. split; [exact B|].
  split; [lia|].
  destruct (0 <? lm_totalRequests m) eqn:E.
  - apply Z.ltb_lt in E.
    assert (Hq : (0 < inject_Z (lm_totalRequests m))%Q)
      by (rewrite <- (Zlt_Qlt 0); exact E).
    split; [|split].
    + apply Qle_shift_div_l; [exact Hq|]. rewrite Qmult_0_l.
      rewrite <- (Zle_Qle 0). exact C.
    + apply Qle_shift_div_l; [exact Hq|]. rewrite Qmult_0_l.
      rewrite <- (Zle_Qle 0). exact D.
    + assert (Hsum : (inject_Z (lm_cacheHits m) / inject_Z (lm_totalRequests m)
                      + inject_Z (lm_errors m) / inject_Z (lm_totalRequests m)
                      == inject_Z (lm_cacheHits m + lm_errors m)
                         / inject_Z (lm_totalRequests m))%Q).
      { rewrite inject_Z_plus. field. intros Hz. rewrite Hz in Hq.
        exact (Qlt_irrefl _ Hq). }
      rewrite Hsum. apply Qle_shift_div_r; [exact Hq|]. rewrite Qmult_1_l.
      rewrite <- Zle_Qle. lia.
  - split; [apply Qle_refl|]. split; [apply Qle_refl|]. discriminate.
Qed.

(* ================================================================== *)
(** * index.ts : EnterpriseI18nSystem.setLocale                        *)
(* ================================================================== *)

Section FacadeSetLocale.
Variable config : I18nConfig.
Variable net : Network.
Variable timeOrigin : Z.
(** The vue-i18n instance is an external collaborator: its state, its
    [global.setLocaleMessage] and the assignment to [global.locale.value],
    each of which returns or throws. *)
Variable VueI18n : Type.
Variable vue_setLocaleMessage : Locale -> JsValue -> M VueI18n unit.
Variable vue_set_locale : Locale -> M VueI18n unit.

(** The members of the facade that [setLocale] works on. *)
Record App := mkApp {
  app_state : StateManager.t;
  app_strategy : IntelligentLoadingStrategy.t;
  app_vue : VueI18n
}.

Definition on_state (A : Type) (c : M StateManager.t A) : M App A :=
  fun a =>
    let (r, s) := c (app_state a) in (r, mkApp s (app_strategy a) (app_vue a)).

Definition on_strategy (A : Type) (c : M IntelligentLoadingStrategy.t A) : M App A :=
  fun a =>
    let (r, s) := c (app_strategy a) in (r, mkApp (app_state a) s (app_vue a)).

Definition on_vue (A : Type) (c : M VueI18n A) : M App A :=
  fun a =>
    let (r, v) := c (app_vue a) in (r, mkApp (app_state a) (app_strategy a) v).

Definition update_state (f : StateManager.t -> StateManager.t) : M App unit :=
  modify (fun a => mkApp (f (app_state a)) (app_strategy a) (app_vue a)).

Definition app_clock (a : App) : Z := clock (IntelligentLoadingStrategy.sys (app_strategy a)).

(** The [try] block of [setLocale]. *)
Definition setLocale_try (locale : Locale) : M App bool :=
  supportedp <-
    gets (fun a => I18nStateManager.isLocaleSupported locale
                     (StateManager.manager (app_state a))) ;;
  if negb supportedp then
    throw (PlainError ("Unsupported locale: " ++ locale)%string)
  else
    current <-
      gets (fun a => I18nStateManager.currentLocale
                       (StateManager.manager (app_state a))) ;;
    if String.eqb locale current then ret true
    else
      now <- gets app_clock ;;
      let context := mkLoadingContext locale None None now in
      update_state (StateManager.startLoading context) ;;;
      translations <-
        on_strategy (IntelligentLoadingStrategy.load config net timeOrigin
                       locale None) ;;
      on_vue (vue_setLocaleMessage locale translations) ;;;
      on_state (StateManager.setCurrentLocale locale) ;;;
      update_state (StateManager.addLoadedLocale locale) ;;;
      on_vue (vue_set_locale locale) ;;;
      finished <- gets (fun a => app_clock a - timeOrigin) ;;
      fromCache <-
        gets (fun a =>
                TranslationCacheManager.hasLocaleCache (app_clock a) locale
                  (cacheManager (IntelligentLoadingStrategy.sys (app_strategy a)))) ;;
      update_state
        (StateManager.completeLoading context
           (mkLoadingResult true (finished - now) fromCache)) ;;;
      ret true.

(** The [catch] block of [setLocale]. *)
Definition setLocale_catch (locale : Locale) (error : JsError) : M App bool :=
  now <- gets app_clock ;;
  update_state
    (StateManager.completeLoading (mkLoadingContext locale None None now)
       (mkLoadingResult false 0 false)) ;;;
  ret false.

Definition setLocale (locale : Locale) : M App bool :=
  try_catch (setLocale_try locale) (setLocale_catch locale).
End FacadeSetLocale.

Arguments mkApp {VueI18n} app_state app_strategy app_vue.
Arguments app_state {VueI18n} a.
Arguments app_strategy {VueI18n} a.
Arguments app_vue {VueI18n} a.
Arguments app_clock {VueI18n} a.

(** What [completeLoading] leaves alone. *)
Lemma completeLoading_manager context result s :
  let m := StateManager.manager s in
  let m' := StateManager.manager (StateManager.completeLoading context result s) in
  I18nStateManager.currentLocale m' = I18nStateManager.currentLocale m
  /\ I18nStateManager.localStorage m' = I18nStateManager.localStorage m
  /\ I18nStateManager.loadedLocales m' = I18nStateManager.loadedLocales m
  /\ I18nStateManager.supported m' = I18nStateManager.supported m.
Proof.
  cbv zeta. unfold StateManager.completeLoading, StateManager.notify,
    StateManager.when_truthy.
  destruct (opt_truthy (Some (lc_locale context)));
    destruct (opt_truthy (lc_section context));
    destruct (opt_truthy (lc_module context));
    match goal with
    | |- context [StateManager.nothing_loading ?x] =>
        destruct (StateManager.nothing_loading x)
    end; repeat split.
Qed.

Lemma completeLoading_not_listed locale section module ts result s :
  truthy locale = true ->
  StateManager.array_includes locale
    (loadingLocales
       (StateManager.loadingState
          (StateManager.completeLoading (mkLoadingContext locale section module ts)
             result s)))
  = false.
Proof.
  intros H. rewrite completeLoading_state. cbv zeta. cbn [loadingLocales].
  unfold drop_when. cbn [opt_truthy lc_locale]. rewrite H.
  rewrite array_includes_without, String.eqb_refl. reflexivity.
Qed.

(** X23.  [setLocale] turns away a locale that is not supported by
    returning [false], not by throwing: the current locale, the saved
    preference, the loaded locales and vue-i18n are as before and no
    request is made; the only trace is the completion notice sent for the
    locale.  Asked for the locale that is current already, it returns
    [true] and changes nothing at all. *)
Theorem setLocale_guards :
  forall (config : I18nConfig) (net : Network) (timeOrigin : Z) (VueI18n : Type)
         (vue_setLocaleMessage : Locale -> JsValue -> M VueI18n unit)
         (vue_set_locale : Locale -> M VueI18n unit)
         (locale : Locale) (a : App VueI18n),
    let run := setLocale config net timeOrigin vue_setLocaleMessage vue_set_locale
                 locale a in
    let m := StateManager.manager (app_state a) in
    let m' := StateManager.manager (app_state (snd run)) in
    if I18nStateManager.isLocaleSupported locale m then
      if String.eqb locale (I18nStateManager.currentLocale m)
      then run = (Return true, a)
      else True
    else
      fst run = Return false
      /\ I18nStateManager.currentLocale m' = I18nStateManager.currentLocale m
      /\ I18nStateManager.localStorage m' = I18nStateManager.localStorage m
      /\ I18nStateManager.loadedLocales m' = I18nStateManager.loadedLocales m
      /\ app_strategy (snd run) = app_strategy a
      /\ app_vue (snd run) = app_vue a.
Proof.
  intros config net timeOrigin VueI18n vue_setLocaleMessage vue_set_locale locale a.
  cbv zeta.
  remember (setLocale config net timeOrigin vue_setLocaleMessage vue_set_locale
              locale a) as run eqn:Hrun.
  unfold setLocale, try_catch, setLocale_try in Hrun.
  unfold bind at 1 in Hrun. cbn [gets] in Hrun.
  destruct (I18nStateManager.isLocaleSupported locale
              (StateManager.manager (app_state a))) eqn:Hsup; cbn [negb] in Hrun.
  - unfold bind at 1 in Hrun. cbn [gets] in Hrun.
    destruct (String.eqb locale
                (I18nStateManager.currentLocale (StateManager.manager (app_state a))));
      [|exact I].
    subst run. reflexivity.
  - cbn [throw] in Hrun. unfold setLocale_catch in Hrun.
    unfold bind at 1 in Hrun. cbn [gets] in Hrun.
    unfold bind at 1 in Hrun. cbn [update_state modify ret] in Hrun.
    subst run. cbn [fst snd app_state app_strategy app_vue].
    destruct (completeLoading_manager
                (mkLoadingContext locale None None (app_clock a))
                (mkLoadingResult false 0 false) (app_state a)) as (A & B & C & _).
    unfold ret. cbn [fst snd app_state app_strategy app_vue].
    repeat split; assumption.
Qed.

Lemma startLoading_manager context s :
  let m := StateManager.manager s in
  let m' := StateManager.manager (StateManager.startLoading context s) in
  I18nStateManager.currentLocale m' = I18nStateManager.currentLocale m
  /\ I18nStateManager.localStorage m' = I18nStateManager.localStorage m
  /\ I18nStateManager.loadedLocales m' = I18nStateManager.loadedLocales m
  /\ I18nStateManager.supported m' = I18nStateManager.supported m.
Proof.
  cbv zeta. unfold StateManager.startLoading, StateManager.notify,
    StateManager.when_truthy.
  destruct (opt_truthy (Some (lc_locale context)));
    destruct (opt_truthy (lc_section context));
    destruct (opt_truthy (lc_module context)); repeat split.
Qed.

(** X24.  Asked for a supported locale other than the current one,
    [setLocale] never throws, and when it is done the locale is no longer
    listed as loading.  If the strategy's [load] of the locale throws, it
    returns [false] with the current locale, the saved preference and
    vue-i18n as they were.  If the load gives a document and vue-i18n
    accepts the document and the locale, it returns [true]: the locale is
    current, it is among the loaded locales, vue-i18n has been given the
    document and then the locale, and the preference is saved where
    [localStorage] exists. *)
Theorem setLocale_switches :
  forall (config : I18nConfig) (net : Network) (timeOrigin : Z) (VueI18n : Type)
         (vue_setLocaleMessage : Locale -> JsValue -> M VueI18n unit)
         (vue_set_locale : Locale -> M VueI18n unit)
         (locale : Locale) (a : App VueI18n),
    let m := StateManager.manager (app_state a) in
    I18nStateManager.isLocaleSupported locale m = true ->
    locale <> I18nStateManager.currentLocale m ->
    truthy locale = true ->
    let loaded :=
      IntelligentLoadingStrategy.load config net timeOrigin locale None
        (app_strategy a) in
    exists b a',
      setLocale config net timeOrigin vue_setLocaleMessage vue_set_locale locale a
      = (Return b, a')
      /\ StateManager.array_includes locale
           (loadingLocales (StateManager.loadingState (app_state a'))) = false
      /\ app_strategy a' = snd loaded
      /\ let m' := StateManager.manager (app_state a') in
         match fst loaded with
         | Throw _ =>
             b = false
             /\ I18nStateManager.currentLocale m' = I18nStateManager.currentLocale m
             /\ I18nStateManager.localStorage m' = I18nStateManager.localStorage m
             /\ I18nStateManager.loadedLocales m' = I18nStateManager.loadedLocales m
             /\ app_vue a' = app_vue a
         | Return d =>
             forall v1 v2,
               vue_setLocaleMessage locale d (app_vue a) = (Return tt, v1) ->
               vue_set_locale locale v1 = (Return tt, v2) ->
               b = true
               /\ I18nStateManager.currentLocale m' = locale
               /\ StateManager.isLocaleLoaded locale (app_state a') = true
               /\ I18nStateManager.localStorage m'
                  = match I18nStateManager.localStorage m with
                    | Some items => Some (map_set "preferred-locale" locale items)
                    | None => None
                    end
               /\ app_vue a' = v2
         end.
Proof.
  intros config net timeOrigin VueI18n vue_setLocaleMessage vue_set_locale locale a
         m Hsup Hcur Hl loaded.
  subst m.
  remember (setLocale config net timeOrigin vue_setLocaleMessage vue_set_locale
              locale a) as run eqn:Hrun.
  unfold setLocale, try_catch, setLocale_try in Hrun.
  unfold bind at 1 in Hrun. cbn [gets] in Hrun. rewrite Hsup in Hrun.
  cbn [negb] in Hrun.
  unfold bind at 1 in Hrun. cbn [gets] in Hrun.
  apply String.eqb_neq in Hcur. rewrite Hcur in Hrun.
  unfold bind at 1 in Hrun. cbn [gets] in Hrun.
  unfold bind at 1 in Hrun. cbn [update_state modify] in Hrun.
  set (context := mkLoadingContext locale None None (app_clock a)) in Hrun.
  set (started := StateManager.startLoading context (app_state a)) in *.
  destruct (startLoading_manager context (app_state a)) as (S1 & S2 & S3 & S4).
  fold started in S1, S2, S3, S4.
  (* the failure path *)
  assert (Hfail : forall (error : JsError) (a1 : App VueI18n),
    I18nStateManager.currentLocale (StateManager.manager (app_state a1))
    = I18nStateManager.currentLocale (StateManager.manager (app_state a)) ->
    I18nStateManager.localStorage (StateManager.manager (app_state a1))
    = I18nStateManager.localStorage (StateManager.manager (app_state a)) ->
    I18nStateManager.loadedLocales (StateManager.manager (app_state a1))
    = I18nStateManager.loadedLocales (StateManager.manager (app_state a)) ->
    exists a',
      setLocale_catch locale error a1 = (Return false, a')
      /\ StateManager.array_includes locale
           (loadingLocales (StateManager.loadingState (app_state a'))) = false
      /\ app_strategy a' = app_strategy a1
      /\ app_vue a' = app_vue a1
      /\ I18nStateManager.currentLocale (StateManager.manager (app_state a'))
         = I18nStateManager.currentLocale (StateManager.manager (app_state a))
      /\ I18nStateManager.localStorage (StateManager.manager (app_state a'))
         = I18nStateManager.localStorage (StateManager.manager (app_state a))
      /\ I18nStateManager.loadedLocales (StateManager.manager (app_state a'))
         = I18nStateManager.loadedLocales (StateManager.manager (app_state a))).
  { intros error a1 C1 C2 C3. unfold setLocale_catch.
    unfold bind at 1. cbn [gets]. unfold bind at 1. cbn [update_state modify ret].
    eexists. split; [reflexivity|].
    cbn [app_state app_strategy app_vue].
    destruct (completeLoading_manager
                (mkLoadingContext locale None None (app_clock a1))
                (mkLoadingResult false 0 false) (app_state a1)) as (A & B & C & _).
    split; [now apply completeLoading_not_listed|].
    rewrite A, B, C. repeat split; assumption. }
  unfold bind at 1 in Hrun. unfold on_strategy at 1 in Hrun.
  cbn [app_strategy app_state app_vue] in Hrun.
  fold loaded in Hrun.
  destruct loaded as [[d|e] s1] eqn:Eload; cbn [fst snd].
  2:{ (* the load throws *)
      destruct (Hfail e (mkApp started s1 (app_vue a)) S1 S2 S3)
        as (a' & Hc & L & St & V & C1 & C2 & C3).
      rewrite Hc in Hrun. subst run. exists false, a'.
      split; [reflexivity|]. split; [exact L|]. split; [exact St|].
      cbv zeta. rewrite V. repeat split; assumption. }
  unfold bind at 1 in Hrun. unfold on_vue at 1 in Hrun.
  cbn [app_strategy app_state app_vue] in Hrun.
  destruct (vue_setLocaleMessage locale d (app_vue a)) as [[[]|e1] v1] eqn:Ev1.
  2:{ destruct (Hfail e1 (mkApp started s1 v1) S1 S2 S3)
        as (a' & Hc & L & St & V & C1 & C2 & C3).
      rewrite Hc in Hrun. subst run. exists false, a'.
      split; [reflexivity|]. split; [exact L|]. split; [exact St|].
      cbv zeta. intros v1' v2' [=]. }
  unfold bind at 1 in Hrun. unfold on_state at 1 in Hrun.
  cbn [app_strategy app_state app_vue] in Hrun.
  unfold StateManager.setCurrentLocale, StateManager.lift in Hrun.
  assert (Hsup' : I18nStateManager.isLocaleSupported locale
                    (StateManager.manager started) = true).
  { unfold I18nStateManager.isLocaleSupported in *. now rewrite S4. }
  rewrite (setCurrentLocale_supported locale (StateManager.manager started) Hsup')
    in Hrun.
  set (current := StateManager.mk _ (StateManager.loadingState started)) in Hrun.
  unfold bind at 1 in Hrun. cbn [update_state modify] in Hrun.
  cbn [app_strategy app_state app_vue] in Hrun.
  set (added := StateManager.addLoadedLocale locale current) in Hrun.
  assert (A1 : I18nStateManager.currentLocale (StateManager.manager added) = locale)
    by reflexivity.
  assert (A2 : StateManager.isLocaleLoaded locale added = true).
  { subst added. unfold StateManager.isLocaleLoaded, StateManager.addLoadedLocale,
      StateManager.with_manager, StateManager.set_loadedLocales.
    cbn [StateManager.manager I18nStateManager.loadedLocales].
    now rewrite array_includes_add, String.eqb_refl. }
  assert (A3 : I18nStateManager.localStorage (StateManager.manager added)
               = match I18nStateManager.localStorage
                         (StateManager.manager (app_state a)) with
                 | Some items => Some (map_set "preferred-locale" locale items)
                 | None => None
                 end).
  { subst added current.
    unfold StateManager.addLoadedLocale, StateManager.with_manager,
      StateManager.set_loadedLocales.
    cbn [StateManager.manager I18nStateManager.localStorage]. now rewrite S2. }
  unfold bind at 1 in Hrun. unfold on_vue at 1 in Hrun.
  cbn [app_strategy app_state app_vue] in Hrun.
  destruct (vue_set_locale locale v1) as [[[]|e2] v2] eqn:Ev2.
  2:{ (* the assignment throws: the catch block completes the loading *)
      unfold setLocale_catch in Hrun.
      unfold bind at 1 in Hrun. cbn [gets] in Hrun.
      unfold bind at 1 in Hrun. cbn [update_state modify ret] in Hrun.
      subst run. eexists. eexists. split; [reflexivity|].
      cbn [app_state app_strategy app_vue].
      split; [subst context; now apply completeLoading_not_listed|]. split; [reflexivity|].
      cbv zeta. intros v1' v2' [= <-] E2. rewrite Ev2 in E2. discriminate. }
  unfold bind at 1 in Hrun. cbn [gets] in Hrun.
  unfold bind at 1 in Hrun. cbn [gets] in Hrun.
  unfold bind at 1 in Hrun. cbn [update_state modify ret] in Hrun.
  cbn [app_strategy app_state app_vue] in Hrun.
  subst run. eexists. eexists. split; [reflexivity|].
  cbn [app_state app_strategy app_vue].
  split; [subst context; now apply completeLoading_not_listed|]. split; [reflexivity|].
  cbv zeta. intros v1' v2' [= <-] E2. rewrite Ev2 in E2. injection E2 as <-.
  match goal with
  | |- context [StateManager.completeLoading ?c ?r added] =>
      destruct (completeLoading_manager c r added) as (B1 & B2 & B3 & _)
  end.
  split; [reflexivity|]. split; [now rewrite B1|].
  split; [unfold StateManager.isLocaleLoaded in *; now rewrite B3|].
  split; [now rewrite B2 | reflexivity].
Qed.

Lemma setLocale_switches_witness :
  let a := mkApp (StateManager.new (I18N_CONFIG false) (Some []))
             (IntelligentLoadingStrategy.new fresh_runtime) tt in
  let quiet_message : Locale -> JsValue -> M unit unit := fun _ _ => ret tt in
  let quiet_locale : Locale -> M unit unit := fun _ => ret tt in
  exists a',
    setLocale (I18N_CONFIG false) en_vi_served 0 quiet_message quiet_locale "en" a
    = (Return true, a')
    /\ I18nStateManager.currentLocale (StateManager.manager (app_state a')) = "en"
    /\ I18nStateManager.localStorage (StateManager.manager (app_state a'))
       = Some [("preferred-locale", "en")].
Proof.
  intros a quiet_message quiet_locale.
  assert (H1 : I18nStateManager.isLocaleSupported "en"
                 (StateManager.manager (app_state a)) = true) by reflexivity.
  assert (H2 : "en" <> I18nStateManager.currentLocale
                         (StateManager.manager (app_state a))) by discriminate.
  assert (H3 : truthy "en" = true) by reflexivity.
  destruct (@setLocale_switches (I18N_CONFIG false) en_vi_served 0 unit
              quiet_message quiet_locale "en" a H1 H2 H3)
    as (b & a' & Hrun & _ & _ & Hcase).
  cbv zeta in Hcase.
  assert (E : fst (IntelligentLoadingStrategy.load (I18N_CONFIG false) en_vi_served 0
                     "en" None (app_strategy a))
              = Return (JObj en_document)) by (vm_compute; reflexivity).
  rewrite E in Hcase.
  destruct (Hcase tt tt eq_refl eq_refl) as (Hb & C & _ & S & _).
  exists a'. rewrite Hrun, Hb. split; [reflexivity|]. split; [exact C | exact S].
Defined.

(* ================================================================== *)
(** * loader.ts : preload                                              *)
(* ================================================================== *)

(** [locales.map(locale => this.load(locale)...)]: the calls of [load]
    that [preload] makes, each run up to its first [await]. *)
Fixpoint load_calls (locales : list Locale) (st : Sys) : list Handle * Sys :=
  match locales with
  | [] => ([], st)
  | locale :: rest =>
      let (h, st1) := load_call locale None st in
      let (hs, st2) := load_calls rest st1 in
      (h :: hs, st2)
  end.

(** [preload]: every call has its rejection caught, and
    [Promise.allSettled] waits for them all; in this model the promises
    settle in the order of the list. *)
Definition preload (config : I18nConfig) (net : Network) (locales : list Locale)
  : M Sys unit :=
  fun st =>
    let (hs, st1) := load_calls locales st in
    let (_, st2) := await_all config net hs st1 in
    (Return tt, st2).

(** The elements of [l] that are not in [seen], each once, in the order
    of their first occurrence. *)
Fixpoint first_occurrences (seen l : list string) : list string :=
  match l with
  | [] => []
  | x :: rest =>
      if existsb (String.eqb x) seen then first_occurrences seen rest
      else x :: first_occurrences (x :: seen) rest
  end.

Lemma load_calls_requests locales :
  forall (seen : list Locale) (st : Sys),
    (forall l, In l seen -> map_get l (loadingPromises st) <> None) ->
    (forall l, In l locales -> ~ In l seen ->
               map_get l (loadingPromises st) = None
               /\ fst (lookup_cache l None st) = None) ->
    fetchLog (snd (load_calls locales st))
    = (fetchLog st ++ List.map filePath (first_occurrences seen locales))%list.
Proof.
  induction locales as [|l rest IH]; intros seen st Hseen Hrest.
  - cbn. now rewrite app_nil_r.
  - cbn [load_calls first_occurrences].
    destruct (existsb (String.eqb l) seen) eqn:E.
    + (* a locale already asked for: the call joins the load in flight *)
      apply existsb_exists in E. destruct E as (l' & Hin & El).
      apply String.eqb_eq in El. subst l'.
      destruct (map_get l (loadingPromises st)) as [p|] eqn:G;
        [|now destruct (Hseen l Hin)].
      rewrite (@load_call_joins l None st p G).
      specialize (IH seen st Hseen).
      destruct (load_calls rest st) as [hs st2]. cbn [snd] in *.
      apply IH. intros l2 H2 Hn. apply Hrest; [now right | exact Hn].
    + (* a new locale: one request *)
      assert (Hn : ~ In l seen).
      { intros Hin.
        assert (existsb (String.eqb l) seen = true)
          by (apply existsb_exists; exists l; split;
              [exact Hin | apply String.eqb_refl]).
        congruence. }
      destruct (Hrest l (or_introl eq_refl) Hn) as [Hnone Hmiss].
      rewrite (@load_call_starts l None st Hnone Hmiss). cbv zeta.
      set (st1 := snd (lookup_cache l None st)).
      set (st' := set_loadingPromises _ _).
      assert (Hlog : fetchLog st' = (fetchLog st ++ [filePath l])%list).
      { subst st' st1. destruct (lookup_cache_frame l None st) as [cm ->].
        reflexivity. }
      specialize (IH (l :: seen) st').
      destruct (load_calls rest st') as [hs st2]. cbn [snd] in *.
      rewrite IH.
      * rewrite Hlog. cbn [List.map]. now rewrite <- app_assoc.
      * intros l2 [<-|H2]; subst st'; cbn [loadingPromises set_loadingPromises].
        -- change (dedupKey l None) with l. rewrite map_get_set_eq. discriminate.
        -- change (dedupKey l None) with l.
           destruct (String.eqb l l2) eqn:X.
           ++ apply String.eqb_eq in X. subst l2.
              rewrite map_get_set_eq. discriminate.
           ++ apply String.eqb_neq in X. rewrite map_get_set_neq by exact X.
              now apply Hseen in H2.
      * intros l2 H2 Hn2.
        assert (Hne : l <> l2) by (intros ->; apply Hn2; now left).
        destruct (Hrest l2 (or_intror H2)) as [N2 M2];
          [intros Hin; apply Hn2; now right|].
        split.
        -- subst st'. cbn [loadingPromises set_loadingPromises].
           change (dedupKey l None) with l.
           rewrite map_get_set_neq by exact Hne. exact N2.
        -- apply (@lookup_after_drop l None l2 st st').
           ++ subst st' st1. cbn [cacheManager set_loadingPromises set_promises
                                  set_fetchLog].
              now apply lookup_cache_miss.
           ++ subst st' st1. destruct (lookup_cache_frame l None st) as [cm ->].
              reflexivity.
           ++ now right.
Qed.

(** Every request that is still awaited is answered with a document. *)
Definition all_deliver (net : Network) (st : Sys) : Prop :=
  forall p locale section req,
    nth_error (promises st) p = Some (Pending locale section req) ->
    primary_payload net req (filePath locale) <> None.

Lemma nth_error_list_update_other (A : Type) (l : list A) p q x :
  q <> p -> nth_error (list_update p x l) q = nth_error l q.
Proof.
  revert p q. induction l as [|y l IH]; intros p q H; [now destruct p|].
  destruct p as [|p]; destruct q as [|q]; try reflexivity; try congruence.
  cbn. apply IH. congruence.
Qed.

Lemma await_handle_delivered config net h st :
  all_deliver net st ->
  fetchLog (snd (await_handle config net h st)) = fetchLog st
  /\ all_deliver net (snd (await_handle config net h st)).
Proof.
  intros Hall. destruct h as [d|p]; [now split|].
  unfold await_handle.
  assert (Hs : fetchLog (settle config net p st) = fetchLog st
               /\ all_deliver net (settle config net p st)).
  { unfold settle.
    destruct (nth_error (promises st) p) as [[locale section req|r]|] eqn:E;
      [|now split|now split].
    pose proof (Hall p locale section req E) as Hpay.
    destruct (primary_payload net req (filePath locale)) as [fullData|] eqn:P;
      [|congruence].
    destruct (@performLoad_resume_success config net locale section req st
                fullData P) as [_ Hlog].
    pose proof (performLoad_resume_promises config net locale section req st) as Hp.
    destruct (performLoad_resume config net locale section req st) as [r st1].
    cbn [fst snd] in *. split; [exact Hlog|].
    intros q l2 s2 req2. cbn [promises set_loadingPromises set_promises].
    rewrite Hp. destruct (Nat.eq_dec q p) as [->|Hq].
    - rewrite nth_error_list_update; [discriminate|].
      apply nth_error_Some. rewrite E. discriminate.
    - rewrite nth_error_list_update_other by exact Hq. apply Hall. }
  cbv zeta. destruct Hs as [Hlog Hall'].
  destruct (nth_error (promises (settle config net p st)) p) as [[| r]|];
    cbn [snd]; now split.
Qed.

Lemma await_all_delivered config net hs :
  forall st,
    all_deliver net st ->
    fetchLog (snd (await_all config net hs st)) = fetchLog st.
Proof.
  induction hs as [|h hs IH]; intros st Hall; [reflexivity|].
  cbn [await_all].
  destruct (await_handle_delivered config h Hall) as [Hlog Hall'].
  destruct (await_handle config net h st) as [r st1]. cbn [snd] in *.
  specialize (IH st1 Hall').
  destruct (await_all config net hs st1) as [rs st2]. cbn [snd] in *.
  now rewrite IH.
Qed.

(** X13.  [preload] never rejects, whatever the loads do.  When none of
    the listed locales is in flight or cached, the calls it makes put one
    request on the wire for each locale of the list, in the order of their
    first mention: a locale listed twice is requested once, the second
    call joining the first.  And when every request then awaited is
    answered with a document, these stay the only requests. *)
Theorem preload_requests_once :
  forall (config : I18nConfig) (net : Network) (locales : list Locale) (st : Sys),
    fst (preload config net locales st) = Return tt
    /\ ((forall l, In l locales ->
           map_get l (loadingPromises st) = None
           /\ fst (lookup_cache l None st) = None) ->
        fetchLog (snd (load_calls locales st))
        = (fetchLog st ++ List.map filePath (first_occurrences [] locales))%list)
    /\ (all_deliver net (snd (load_calls locales st)) ->
        fetchLog (snd (preload config net locales st))
        = fetchLog (snd (load_calls locales st))).
Proof.
  intros config net locales st. split; [|split].
  - unfold preload. destruct (load_calls locales st) as [hs st1].
    now destruct (await_all config net hs st1).
  - intros H. apply load_calls_requests.
    + intros l [].
    + intros l Hin _. now apply H.
  - intros Hall. unfold preload.
    destruct (load_calls locales st) as [hs st1]. cbn [snd] in *.
    pose proof (@await_all_delivered config net hs st1 Hall) as H.
    destruct (await_all config net hs st1) as [rs st2]. exact H.
Qed.

Lemma preload_requests_once_witness :
  (forall l, In l ["en"; "vi"; "en"] ->
     map_get l (loadingPromises fresh_runtime) = None
     /\ fst (lookup_cache l None fresh_runtime) = None)
  /\ all_deliver en_vi_served (snd (load_calls ["en"; "vi"; "en"] fresh_runtime))
  /\ fetchLog (snd (preload (I18N_CONFIG false) en_vi_served ["en"; "vi"; "en"]
                      fresh_runtime))
     = ["/i18n/en.json"; "/i18n/vi.json"].
Proof.
  assert (H : forall l, In l ["en"; "vi"; "en"] ->
                map_get l (loadingPromises fresh_runtime) = None
                /\ fst (lookup_cache l None fresh_runtime) = None).
  { intros l _. split; [reflexivity|]. rewrite lookup_cache_answer. reflexivity. }
  assert (H2 : all_deliver en_vi_served
                 (snd (load_calls ["en"; "vi"; "en"] fresh_runtime))).
  { intros p locale section req.
    destruct p as [|[|[|p]]]; cbn; intros [=]; subst; discriminate. }
  split; [exact H|]. split; [exact H2|].
  destruct (preload_requests_once (I18N_CONFIG false) en_vi_served
              ["en"; "vi"; "en"] fresh_runtime) as (_ & A & B).
  rewrite (B H2), (A H). reflexivity.
Defined.
